(** * typemockr: recursion analysis, inheritance resolution, generator
    inference and factory emission

    A shallow embedding of the analysis and emission core of typemockr
    ([analyzer.ts], [generator/faker-infer.ts], [category.ts],
    [typemockr.ts], [generation.ts]) together with the properties of
    the specification that concern it.

    Conventions of the embedding.
    - JavaScript strings are [string]s of 8-bit characters.
    - A [Map] or a [Set] that the source iterates is an insertion-ordered
      list; one that is only looked up is a [gmap] or a [gset].
    - [console.warn]/[console.error] append a line to a log; a thrown
      [TypeError] is a result of its own ([Throw]).
    - Regular expressions are values of [regex], run by a backtracking
      matcher with the ordered-choice, greedy/lazy semantics of
      ECMAScript. *)

From Stdlib Require Import Ascii.
From Stdlib Require String.
From stdpp Require Import gmap strings list.

(** ** Strings *)

Module Str.

Definition chars (s : string) : list ascii := String.list_ascii_of_string s.
Definition of_chars (l : list ascii) : string := String.string_of_list_ascii l.

Definition is_upper (c : ascii) : bool :=
let n := nat_of_ascii c in (65 <=? n)%nat && (n <=? 90)%nat.
Definition is_lower (c : ascii) : bool :=
let n := nat_of_ascii c in (97 <=? n)%nat && (n <=? 122)%nat.
Definition is_digit (c : ascii) : bool :=
let n := nat_of_ascii c in (48 <=? n)%nat && (n <=? 57)%nat.
Definition is_alpha (c : ascii) : bool := is_upper c || is_lower c.
(** [\w] and [[A-Za-z0-9_]] *)
Definition is_word (c : ascii) : bool :=
is_alpha c || is_digit c || Ascii.eqb c "_"%char.
(** [\s], restricted to the 8-bit characters *)
Definition is_space (c : ascii) : bool :=
let n := nat_of_ascii c in
(n =? 32)%nat || ((9 <=? n)%nat && (n <=? 13)%nat) || (n =? 160)%nat.
Definition to_lower (c : ascii) : ascii :=
if is_upper c then ascii_of_nat (nat_of_ascii c + 32) else c.

Fixpoint starts_with (p s : list ascii) : bool :=
match p, s with
| [], _ => true
| a :: p', b :: s' => Ascii.eqb a b && starts_with p' s'
| _ :: _, [] => false
end.

(** [s.includes(p)] *)
Fixpoint includes_chars (p s : list ascii) : bool :=
starts_with p s ||
match s with
| [] => false
| _ :: s' => includes_chars p s'
end.
Definition includes (p s : string) : bool := includes_chars (chars p) (chars s).

Fixpoint drop_while (f : ascii -> bool) (l : list ascii) : list ascii :=
match l with
| [] => []
| c :: l' => if f c then drop_while f l' else l
end.

(** [s.trim()] *)
Definition trim (s : string) : string :=
of_chars (rev (drop_while is_space (rev (drop_while is_space (chars s))))).

(** [s.startsWith(p)] *)
Definition startsWith (p s : string) : bool := starts_with (chars p) (chars s).

(** [xs.join(sep)] *)
Fixpoint join (sep : string) (xs : list string) : string :=
match xs with
| [] => ""
| [x] => x
| x :: rest => x +:+ sep +:+ join sep rest
end.

(** [s.split(sep)] for a one-character separator. *)
Fixpoint split_chars (sep : ascii) (cur : list ascii) (s : list ascii)
: list string :=
match s with
| [] => [of_chars (rev cur)]
| c :: s' =>
    if Ascii.eqb c sep then of_chars (rev cur) :: split_chars sep [] s'
    else split_chars sep (c :: cur) s'
end.
Definition split (sep : ascii) (s : string) : list string :=
split_chars sep [] (chars s).

(** [s.substring(a, b)] for [a <= b] *)
Definition substring (a b : nat) (s : string) : string :=
of_chars (take (b - a) (drop a (chars s))).

End Str.

(** ** Regular expressions

    The fragment of ECMAScript regular expressions that the sources use:
    character classes, sequence, ordered alternation, greedy and lazy
    repetition, capture groups, [^], [$] and [\b]. *)

Module Re.

Inductive regex : Type :=
| Chr (p : ascii -> bool)
| Eps
| Seq (r1 r2 : regex)
| Alt (r1 r2 : regex)
| Star (greedy : bool) (r : regex)
| Group (n : nat) (r : regex)
| Bol
| Eol
| WordB.

Record mstate : Type := MState {
pos : nat;
prev : option ascii;
rest : list ascii;
caps : list (nat * (nat * nat))
}.

Definition start (s : string) : mstate := MState 0 None (Str.chars s) [].

Definition step (c : ascii) (t : list ascii) (s : mstate) : mstate :=
MState (S (pos s)) (Some c) t (caps s).

Definition set_cap (n : nat) (a b : nat) (s : mstate) : mstate :=
MState (pos s) (prev s) (rest s) ((n, (a, b)) :: caps s).

Definition is_word_opt (o : option ascii) : bool :=
match o with Some c => Str.is_word c | None => false end.

Definition or_else {A} (x : option A) (y : unit -> option A) : option A :=
match x with Some a => Some a | None => y tt end.

(** [rmatch r k s]: match [r] at [s], then continue with [k];
  alternatives are tried in the order of the backtracking matcher.  An
  iteration of a repetition that consumes nothing is rejected, as in
  ECMAScript, so the number of iterations is bounded by the input left. *)
Fixpoint rmatch (r : regex) (k : mstate -> option mstate) (s : mstate)
{struct r} : option mstate :=
match r with
| Chr p =>
    match rest s with
    | c :: t => if p c then k (step c t s) else None
    | [] => None
    end
| Eps => k s
| Seq r1 r2 => rmatch r1 (rmatch r2 k) s
| Alt r1 r2 => or_else (rmatch r1 k s) (fun _ => rmatch r2 k s)
| Star greedy r1 =>
    (fix loop (n : nat) (s : mstate) {struct n} : option mstate :=
       match n with
       | O => k s
       | S n' =>
           let more (_ : unit) :=
             rmatch r1 (fun s' => if (pos s <? pos s')%nat then loop n' s'
                                  else None) s in
           if greedy then or_else (more tt) (fun _ => k s)
           else or_else (k s) more
       end) (length (rest s)) s
| Group n r1 => rmatch r1 (fun s' => k (set_cap n (pos s) (pos s') s')) s
| Bol => match prev s with None => k s | Some _ => None end
| Eol => match rest s with [] => k s | _ :: _ => None end
| WordB =>
    if xorb (is_word_opt (prev s)) (is_word_opt (head (rest s)))
    then k s else None
end.

(** Leftmost match at or after [s]: the state where it starts and the
  state where it ends. *)
Fixpoint search_from (r : regex) (p : nat) (pv : option ascii)
(l : list ascii) {struct l} : option (mstate * mstate) :=
let s := MState p pv l [] in
match rmatch r Some s with
| Some e => Some (s, e)
| None =>
    match l with
    | [] => None
    | c :: t => search_from r (S p) (Some c) t
    end
end.

Definition search (r : regex) (s : string) : option (mstate * mstate) :=
search_from r 0 None (Str.chars s).

(** [r.test(s)] *)
Definition test (r : regex) (s : string) : bool :=
match search r s with Some _ => true | None => false end.

Fixpoint cap_lookup (n : nat) (cs : list (nat * (nat * nat)))
: option (nat * nat) :=
match cs with
| [] => None
| (m, ab) :: cs' => if (m =? n)%nat then Some ab else cap_lookup n cs'
end.

(** The text of capture group [n] of a match on [s]; [None] is
  [undefined]. *)
Definition group (s : string) (e : mstate) (n : nat) : option string :=
match cap_lookup n (caps e) with
| Some (a, b) => Some (Str.substring a b s)
| None => None
end.

(** [s.match(r)?.[n]] for a regex without the [g] flag *)
Definition match_group (r : regex) (s : string) (n : nat) : option string :=
match search r s with
| Some (_, e) => group s e n
| None => None
end.

(** [s.replace(r, f)] for a regex with the [g] flag; [f] receives the
  capture groups of each match. *)
Fixpoint replace_from (fuel : nat) (r : regex)
(f : (nat -> option string) -> string) (whole : string)
(p : nat) (pv : option ascii) (l : list ascii) : list ascii :=
match fuel with
| O => l
| S fuel' =>
    match search_from r p pv l with
    | None => l
    | Some (b, e) =>
        let skipped := take (pos b - p) l in
        let out := skipped ++ Str.chars (f (group whole e)) in
        if (pos b <? pos e)%nat then
          out ++ replace_from fuel' r f whole (pos e) (prev e) (rest e)
        else
          match rest e with
          | [] => out
          | c :: t =>
              out ++ c :: replace_from fuel' r f whole (S (pos e)) (Some c) t
          end
    end
end.

Definition replace_all (r : regex) (f : (nat -> option string) -> string)
(s : string) : string :=
Str.of_chars
  (replace_from (S (String.length s)) r f s 0 None (Str.chars s)).

(** [s.replace(r, f)] for a regex without the [g] flag *)
Definition replace_first (r : regex) (f : (nat -> option string) -> string)
(s : string) : string :=
match search r s with
| None => s
| Some (b, e) =>
    Str.of_chars (take (pos b) (Str.chars s) ++ Str.chars (f (group s e))
                  ++ rest e)
end.

(** *** Building blocks *)

Definition chr (c : ascii) : regex := Chr (Ascii.eqb c).
(** The canonical form that the [i] flag (without [u]) compares: the
  upper-case letter of a character whose upper case is one character
  of the same range.  Among the 8-bit characters these are [a]-[z] and
  the letters 224-254 other than the division sign 247; the upper
  cases of 181, 223 and 255 are no 8-bit characters, and of the 8-bit
  characters only these themselves have them. *)
Definition canonicalize (c : ascii) : ascii :=
let n := nat_of_ascii c in
if Str.is_lower c then ascii_of_nat (n - 32)
else if (224 <=? n)%nat && (n <=? 254)%nat && negb (n =? 247)%nat
then ascii_of_nat (n - 32)
else c.
Definition chr_i (c : ascii) : regex :=
Chr (fun x => Ascii.eqb (canonicalize x) (canonicalize c)).
Definition not_chr (c : ascii) : regex := Chr (fun x => negb (Ascii.eqb x c)).
(** [.] without the [s] flag: any character but a line terminator *)
Definition any : regex :=
Chr (fun x => negb (Ascii.eqb x "010"%char || Ascii.eqb x "013"%char)).
Definition plus (r : regex) : regex := Seq r (Star true r).
Definition opt (r : regex) : regex := Alt r Eps.
Fixpoint seqs (rs : list regex) : regex :=
match rs with
| [] => Eps
| [r] => r
| r :: rs' => Seq r (seqs rs')
end.
Definition lit (s : string) : regex := seqs (map chr (Str.chars s)).
Definition lit_i (s : string) : regex := seqs (map chr_i (Str.chars s)).
Definition spaces : regex := Star true (Chr Str.is_space).

End Re.

(** ** Results of code that may throw *)

Inductive Res (A : Type) : Type :=
| Ok (a : A)
| Throw (msg : string).
Arguments Ok {A} a.
Arguments Throw {A} msg.

#[global] Instance res_ret : MRet Res := fun A a => Ok a.
#[global] Instance res_fmap : FMap Res := fun A B f x =>
  match x with
  | Ok a => Ok (f a)
  | Throw m => Throw m
  end.
#[global] Instance res_bind : MBind Res := fun A B f x =>
  match x with
  | Ok a => f a
  | Throw m => Throw m
  end.

(** ** The AST of [ast-types.ts] *)

Record Location : Type := mkLocation { file : string; line : nat }.

(** A literal of a [constant] node or an [enum]; a number is carried
    as the text [toString()] gives for it. *)
Inductive Literal : Type :=
| LStr (s : string)
| LNum (text : string)
| LBool (b : bool).

(** The fields that [ASTProperty] adds to a value node, and the
    [recursiveEdge] mark of the analyzer; an absent [name] is [None], an
    absent flag is [false]. *)
Record Attrs : Type := mkAttrs {
  name : option string;
  optional : bool;
  recursiveEdge : bool;
  location : option Location
}.

Definition no_attrs : Attrs := mkAttrs None false false None.
Definition prop_attrs (n : string) (opt : bool) : Attrs :=
  mkAttrs (Some n) opt false None.

(** The node kinds whose [value] is an array of nodes *)
Inductive CompositeType : Type :=
| TUnion | TIntersection | TArray | TTuple | TObject | TRecord | TPromise.

#[warnings="-register-all"]
Inductive ASTPropertyValue : Type :=
| PPrimitive (a : Attrs) (value : string)
| PConstant (a : Attrs) (value : Literal)
| PComposite (a : Attrs) (type : CompositeType) (value : list ASTPropertyValue)
| PIndexSignature (a : Attrs) (keyType valueType : ASTPropertyValue)
| PFunction (a : Attrs) (value : ASTPropertyValue)
| PReference (a : Attrs) (value : string)
| PTypeOperator (a : Attrs) (operator : string) (value : ASTPropertyValue)
| PMapped (a : Attrs) (parameter : string)
    (constraint value : ASTPropertyValue)
| PConditional (a : Attrs)
    (checkType extendsType trueType falseType : ASTPropertyValue)
| PEnum (a : Attrs) (values : list Literal).

(** [ASTProperty = ASTPropertyValue & { name; optional; ... }]: a
    property is the value node itself, carrying a name. *)
Abbreviation ASTProperty := ASTPropertyValue (only parsing).

Definition attrs (v : ASTPropertyValue) : Attrs :=
  match v with
  | PPrimitive a _ | PConstant a _ | PComposite a _ _
  | PIndexSignature a _ _ | PFunction a _ | PReference a _
  | PTypeOperator a _ _ | PMapped a _ _ _ | PConditional a _ _ _ _
  | PEnum a _ => a
  end.

Definition with_attrs (a : Attrs) (v : ASTPropertyValue) : ASTPropertyValue :=
  match v with
  | PPrimitive _ x => PPrimitive a x
  | PConstant _ x => PConstant a x
  | PComposite _ t x => PComposite a t x
  | PIndexSignature _ x y => PIndexSignature a x y
  | PFunction _ x => PFunction a x
  | PReference _ x => PReference a x
  | PTypeOperator _ o x => PTypeOperator a o x
  | PMapped _ p c x => PMapped a p c x
  | PConditional _ c e t f => PConditional a c e t f
  | PEnum _ x => PEnum a x
  end.

(** [{ ...v, recursiveEdge: true }] *)
Definition mark_recursive (v : ASTPropertyValue) : ASTPropertyValue :=
  let a := attrs v in
  with_attrs (mkAttrs (name a) (optional a) true (location a)) v.

Definition composite_type_name (t : CompositeType) : string :=
  match t with
  | TUnion => "union" | TIntersection => "intersection" | TArray => "array"
  | TTuple => "tuple" | TObject => "object" | TRecord => "record"
  | TPromise => "promise"
  end.

(** The [type] tag of a node *)
Definition node_type (v : ASTPropertyValue) : string :=
  match v with
  | PPrimitive _ _ => "primitive"
  | PConstant _ _ => "constant"
  | PComposite _ t _ => composite_type_name t
  | PIndexSignature _ _ _ => "indexSignature"
  | PFunction _ _ => "function"
  | PReference _ _ => "reference"
  | PTypeOperator _ _ _ => "typeOperator"
  | PMapped _ _ _ _ => "mapped"
  | PConditional _ _ _ _ _ => "conditional"
  | PEnum _ _ => "enum"
  end.

(** An entry of [inherits]: the base expression, its location and,
    once resolved, the aggregated properties of the base. *)
Record Inherit : Type := mkInherit {
  expr : string;
  i_location : option Location;
  i_properties : option (list ASTPropertyValue)
}.

Inductive EntityBody : Type :=
| EInstance (instanceKind : option string)
    (properties : list ASTPropertyValue)
    (inherits : option (list Inherit)) (generics : list string)
| EUnion (values : list ASTPropertyValue)
| EAlias (entities : list string)
| EArray (value : ASTPropertyValue)
| EPrimitive (value : ASTPropertyValue)
| EConstant (value : ASTPropertyValue)
| EEnum (values : list string)
| EPlaceholder.

Record ASTEntity : Type := mkEntity {
  e_name : string;
  e_location : option Location;
  hasRecursion : bool;
  cycleGroup : option (list string);
  e_body : EntityBody
}.

(** The [type] tag of an entity *)
Definition entity_type (e : ASTEntity) : string :=
  match e_body e with
  | EInstance _ _ _ _ => "instance"
  | EUnion _ => "union"
  | EAlias _ => "alias"
  | EArray _ => "array"
  | EPrimitive _ => "primitive"
  | EConstant _ => "constant"
  | EEnum _ => "enum"
  | EPlaceholder => "placeholder"
  end.

Definition entity_generics (e : ASTEntity) : list string :=
  match e_body e with
  | EInstance _ _ _ g => g
  | _ => []
  end.

(** ** Insertion-ordered sets and maps of names *)

Definition str_eqb (a b : string) : bool := bool_decide (a = b).

Definition set_has (x : string) (s : list string) : bool :=
  bool_decide (x ∈ s).

(** [s.add(x)] *)
Definition set_add (x : string) (s : list string) : list string :=
  if set_has x s then s else s ++ [x].

(** [new Set(xs)] *)
Definition set_of_list (xs : list string) : list string :=
  fold_left (fun s x => set_add x s) xs [].

Section OrderedMap.
Context {V : Type}.

Fixpoint omap_get (k : string) (m : list (string * V)) : option V :=
  match m with
  | [] => None
  | (k', v) :: m' => if str_eqb k' k then Some v else omap_get k m'
  end.

Definition omap_has (k : string) (m : list (string * V)) : bool :=
  match omap_get k m with Some _ => true | None => false end.

(** [m.set(k, v)]: an existing key keeps its place. *)
Fixpoint omap_set (k : string) (v : V) (m : list (string * V))
  : list (string * V) :=
  match m with
  | [] => [(k, v)]
  | (k', v') :: m' =>
      if str_eqb k' k then (k, v) :: m' else (k', v') :: omap_set k v m'
  end.

Definition omap_keys (m : list (string * V)) : list string := fst <$> m.
End OrderedMap.

(** ** analyzer.ts *)

Module Analyzer.

(** [[A-Za-z_$]] and [[A-Za-z0-9_$]] *)
Definition ident_start (c : ascii) : bool :=
Str.is_alpha c || Ascii.eqb c "_"%char || Ascii.eqb c "$"%char.
Definition ident_char (c : ascii) : bool :=
Str.is_word c || Ascii.eqb c "$"%char.

(** [/import\([^)]+\)\.(ID)/] with [ID = [A-Za-z_$][A-Za-z0-9_$]*] *)
Definition re_import : Re.regex :=
Re.seqs [Re.lit "import("; Re.plus (Re.not_chr ")"%char); Re.lit ").";
         Re.Group 1 (Re.Seq (Re.Chr ident_start)
                            (Re.Star true (Re.Chr ident_char)))].

(** [/\.([A-Za-z0-9_]+)$/] *)
Definition re_tail : Re.regex :=
Re.seqs [Re.chr "."%char; Re.Group 1 (Re.plus (Re.Chr Str.is_word)); Re.Eol].

Definition extractTypeNameFromImportish (e : string) : string :=
match Re.match_group re_import e 1 with
| Some n => n
| None =>
    match Re.match_group re_tail e 1 with
    | Some n => n
    | None => e
    end
end.

Fixpoint collectRefsFromProp (prop : ASTPropertyValue) (acc : list string)
{struct prop} : list string :=
match prop with
| PReference _ value =>
    if negb (str_eqb value "") && negb (str_eqb value "__type")
    then set_add (extractTypeNameFromImportish value) acc
    else acc
| PComposite _ _ value =>
    (fix each (vs : list ASTPropertyValue) (acc : list string) :=
       match vs with
       | [] => acc
       | v :: vs' => each vs' (collectRefsFromProp v acc)
       end) value acc
| PTypeOperator _ _ value => collectRefsFromProp value acc
| PMapped _ _ _ value => collectRefsFromProp value acc
| PConditional _ _ _ trueType _ => collectRefsFromProp trueType acc
| _ => acc
end.

Abbreviation Adjacency := (list (string * list string)).

(** [adj.get(k) || []] *)
Definition successors (adj : Adjacency) (k : string) : list string :=
default [] (omap_get k adj).

Definition ensure (from : string) (adj : Adjacency) : Adjacency :=
if omap_has from adj then adj else omap_set from [] adj.

Definition addEdge (from to : string) (adj : Adjacency) : Adjacency :=
let adj := ensure from adj in
omap_set from (set_add to (successors adj from)) adj.

Definition buildAdjacency_step (adj : Adjacency) (e : ASTEntity) : Adjacency :=
let from := e_name e in
let adj := ensure from adj in
match e_body e with
| EInstance _ properties inherits _ =>
    let adj :=
      fold_left (fun adj p =>
                   omap_set from (collectRefsFromProp p (successors adj from))
                     adj) properties adj in
    fold_left (fun adj base =>
                 addEdge from (extractTypeNameFromImportish (expr base)) adj)
      (default [] inherits) adj
| EUnion values =>
    fold_left (fun adj v =>
                 fold_left (fun adj r => addEdge from r adj)
                   (collectRefsFromProp v []) adj) values adj
| EAlias entities =>
    fold_left (fun adj ent =>
                 addEdge from (extractTypeNameFromImportish ent) adj)
      entities adj
| EArray value =>
    fold_left (fun adj r => addEdge from r adj)
      (collectRefsFromProp value []) adj
| _ => adj
end.

Definition buildAdjacency (entities : list ASTEntity) : Adjacency :=
fold_left buildAdjacency_step entities [].

End Analyzer.

(** ** Tarjan's algorithm ([computeSCC])

    The mutable locals of [computeSCC] are the fields of [tstate]; the
    recursion of [strongconnect] is bounded by a budget, and a read the
    source marks non-null ([lowlink.get(v)!]) is partial.  [None]
    stands for an exhausted budget or such a read of an absent key. *)

Module Tarjan.
Import Analyzer.

Record tstate : Type := TState {
index : nat;
indices : gmap string nat;
lowlink : gmap string nat;
onStack : gset string;
stack : list string;         (* top of the stack first *)
sccs : list (list string)
}.

Definition init : tstate := TState 0 ∅ ∅ ∅ [] [].

Definition set_lowlink (v : string) (n : nat) (s : tstate) : tstate :=
TState (index s) (indices s) (<[v := n]> (lowlink s)) (onStack s)
  (stack s) (sccs s).

(** [indices.set(v, index); lowlink.set(v, index); index++;
  stack.push(v); onStack.add(v)] *)
Definition enter (v : string) (s : tstate) : tstate :=
TState (S (index s)) (<[v := index s]> (indices s))
  (<[v := index s]> (lowlink s)) ({[v]} ∪ onStack s) (v :: stack s)
  (sccs s).

(** The [do ... while (w && w !== v)] loop: pops until [v] has been
  popped, the stack is empty, or a falsy (empty) name is popped; an
  empty name is dropped without being recorded. *)
Fixpoint pop_component (v : string) (st : list string) (on : gset string)
(comp : list string) : list string * gset string * list string :=
match st with
| [] => (st, on, comp)
| w :: st' =>
    if str_eqb w "" then (st', on, comp)
    else
      let on' := on ∖ {[w]} in
      let comp' := comp ++ [w] in
      if str_eqb w v then (st', on', comp')
      else pop_component v st' on' comp'
end.

Definition emit (v : string) (s : tstate) : tstate :=
let '(st, on, comp) := pop_component v (stack s) (onStack s) [] in
TState (index s) (indices s) (lowlink s) on st (sccs s ++ [comp]).

Fixpoint fold_opt {A B} (f : A -> B -> option A) (l : list B) (a : A)
: option A :=
match l with
| [] => Some a
| b :: l' => a' ← f a b; fold_opt f l' a'
end.

(** One iteration of [for (const w of adj.get(v) || [])] *)
Definition visit (call : string -> tstate -> option tstate) (v : string)
(s : tstate) (w : string) : option tstate :=
match indices s !! w with
| None =>
    s' ← call w s;
    lv ← lowlink s' !! v;
    lw ← lowlink s' !! w;
    Some (set_lowlink v (lv `min` lw) s')
| Some iw =>
    if bool_decide (w ∈ onStack s) then
      lv ← lowlink s !! v;
      Some (set_lowlink v (lv `min` iw) s)
    else Some s
end.

Definition finish (v : string) (s : tstate) : option tstate :=
lv ← lowlink s !! v;
iv ← indices s !! v;
if (lv =? iv)%nat then Some (emit v s) else Some s.

Fixpoint strongconnect (fuel : nat) (adj : Adjacency) (v : string)
(s : tstate) {struct fuel} : option tstate :=
match fuel with
| O => None
| S fuel' =>
    s' ← fold_opt (visit (strongconnect fuel' adj) v) (successors adj v)
           (enter v s);
    finish v s'
end.

(** Every name of the map: its keys and the members of its sets. *)
Definition names (adj : Adjacency) : list string :=
omap_keys adj ++ concat (snd <$> adj).

Definition top_visit (fuel : nat) (adj : Adjacency) (s : tstate)
(v : string) : option tstate :=
match indices s !! v with
| None => strongconnect fuel adj v s
| Some _ => Some s
end.

Definition computeSCC (adj : Adjacency) : option (list (list string)) :=
s ← fold_opt (top_visit (S (length (names adj))) adj) (omap_keys adj) init;
Some (sccs s).

End Tarjan.

(** ** Recursion annotation ([annotateEntityWithRecursion]) *)

Module Annotate.
Import Analyzer.

(** The loop of [typemockr.ts] that fills [nodeToScc]: every member of
  a component is mapped to the set of the component. *)
Definition buildNodeToScc (sccs : list (list string))
: gmap string (list string) :=
fold_left (fun m comp =>
             let compSet := set_of_list comp in
             fold_left (fun m n => <[n := compSet]> m) comp m)
  sccs ∅.

Section WithGraph.
Variable entityName : string.
Variable adj : Adjacency.
Variable nodeToScc : gmap string (list string).
Variable reachableFrom : string -> list string.

Definition scc : list string := default [] (nodeToScc !! entityName).
Definition hasSelfEdge : bool := set_has entityName (successors adj entityName).
Definition inRecursion : bool := (1 <? length scc)%nat || hasSelfEdge.
(** [scc.size ? scc : new Set([entity.name])] *)
Definition targetSet : list string :=
match scc with [] => [entityName] | _ :: _ => scc end.

Definition canLeadToRecursionFrom (typeName : string) : bool :=
if negb inRecursion then false
else if set_has typeName targetSet then true
else existsb (fun t => set_has t (reachableFrom typeName)) targetSet.

(** [annotateProperty] once the value node has been annotated:
  [np] is [nv] with the name, optional flag and location of [p]
  (which [nv] already carries), marked when the node leads back. *)
Definition finishProperty (r : ASTPropertyValue * bool)
: ASTPropertyValue * bool :=
let '(nv, leads) := r in
(if leads then mark_recursive nv else nv, leads).

(** [value.map((x) => { const [nx, l] = annotate(x); anyLead = anyLead
    || l; return nx; })], with the new array and [anyLead] *)
Section Members.
Variable annotate : ASTPropertyValue -> Res (ASTPropertyValue * bool).
Fixpoint annotate_members (xs : list ASTPropertyValue)
  : Res (list ASTPropertyValue * bool) :=
  match xs with
  | [] => Ok ([], false)
  | x :: xs' =>
      '(nx, l) ← annotate x;
      '(nxs, ls) ← annotate_members xs';
      Ok (nx :: nxs, l || ls)
  end.
End Members.

Fixpoint annotatePropValue (v : ASTPropertyValue) {struct v}
  : Res (ASTPropertyValue * bool) :=
  match v with
  | PReference a value =>
      let typeName := extractTypeNameFromImportish value in
      let leads := canLeadToRecursionFrom typeName in
      Ok (if leads then mark_recursive v else v, leads)
  | PComposite a TArray value =>
      match value with
      | [] => Throw "TypeError: Cannot read properties of undefined"
      | x :: _ =>
          '(inner, innerLeads) ← annotatePropValue x;
          Ok (PComposite a TArray [inner], innerLeads)
      end
  | PComposite a TObject value =>
      '(newProps, anyLead) ←
        annotate_members (fun p => finishProperty <$> annotatePropValue p)
          value;
      Ok (PComposite a TObject newProps, anyLead)
  | PComposite a t value =>
      '(newVals, anyLead) ← annotate_members annotatePropValue value;
      Ok (PComposite a t newVals, anyLead)
  | PTypeOperator a o value =>
      '(nv, l) ← annotatePropValue value;
      Ok (PTypeOperator a o nv, l)
  | PMapped a p c value =>
      '(nv, l) ← annotatePropValue value;
      Ok (PMapped a p c nv, l)
  | PConditional a checkType extendsType trueType falseType =>
      '(t1, l1) ← annotatePropValue checkType;
      '(t2, l2) ← annotatePropValue extendsType;
      '(t3, l3) ← annotatePropValue trueType;
      '(t4, l4) ← annotatePropValue falseType;
      Ok (PConditional a t1 t2 t3 t4, l1 || l2 || l3 || l4)
  | _ => Ok (v, false)
  end.

Definition annotateProperty (p : ASTProperty)
: Res (ASTProperty * bool) :=
r ← annotatePropValue p; Ok (finishProperty r).

Fixpoint map_res {A B} (f : A -> Res B) (l : list A) : Res (list B) :=
match l with
| [] => Ok []
| x :: l' => y ← f x; ys ← map_res f l'; Ok (y :: ys)
end.

End WithGraph.

Definition annotateEntityWithRecursion (entity : ASTEntity)
(adj : Adjacency) (nodeToScc : gmap string (list string))
(reachableFrom : string -> list string) : Res ASTEntity :=
let n := e_name entity in
let inRec := inRecursion n adj nodeToScc in
let group := if inRec then Some (targetSet n nodeToScc) else None in
let annV := annotatePropValue n adj nodeToScc reachableFrom in
let annP := annotateProperty n adj nodeToScc reachableFrom in
body ←
  match e_body entity with
  | EInstance k properties inh g =>
      newProps ← map_res (fun p => fst <$> annP p) properties;
      Ok (EInstance k newProps inh g)
  | EUnion values =>
      vals ← map_res (fun v => fst <$> annV v) values;
      Ok (EUnion vals)
  | EArray value =>
      nv ← fst <$> annV value;
      Ok (EArray nv)
  | b => Ok b
  end;
Ok (mkEntity n (e_location entity) inRec group body).

End Annotate.

(** ** Inheritance resolution ([typemockr.ts]) *)

Module Inheritance.
Import Analyzer.

Section Resolver.
(** [path.resolve] of Node *)
Variable path_resolve : string -> string.
(** [parseEntities(project)] and the annotated entities of the file
  being processed *)
Variable allEntities : list ASTEntity.
Variable astNodes : list ASTEntity.

(** [m.get(k)] for a map filled by [for (const e of es) m.set(e.name, e)]:
  the last entity of that name. *)
Fixpoint by_name (k : string) (es : list ASTEntity) : option ASTEntity :=
match es with
| [] => None
| e :: es' =>
    match by_name k es' with
    | Some e' => Some e'
    | None => if str_eqb (e_name e) k then Some e else None
    end
end.

Definition same_file (e : ASTEntity) (loc : Location) : bool :=
match e_location e with
| Some l =>
    negb (str_eqb (file l) "") &&
    str_eqb (path_resolve (file l)) (path_resolve (file loc))
| None => false
end.

Definition resolveBaseEntity (e : string) (loc : option Location)
: option ASTEntity :=
let baseName := extractTypeNameFromImportish e in
let located :=
  match loc with
  | Some l =>
      List.find (fun e => str_eqb (e_name e) baseName && same_file e l)
        allEntities
  | None => None
  end in
match located with
| Some e => Some e
| None =>
    match by_name baseName astNodes with
    | Some e => Some e
    | None => by_name baseName allEntities
    end
end.

(** [ent.properties] when it is an array, [ent.inherits || []] *)
Definition own_properties (e : ASTEntity) : list ASTProperty :=
match e_body e with
| EInstance _ properties _ _ => properties
| _ => []
end.
Definition own_inherits (e : ASTEntity) : list Inherit :=
match e_body e with
| EInstance _ _ inherits _ => default [] inherits
| _ => []
end.

(** [if (!out.some((op) => op.name === p.name)) out.push(p)] *)
Definition push_new (out : list ASTProperty) (p : ASTProperty)
: list ASTProperty :=
if existsb (fun op => bool_decide (name (attrs op) = name (attrs p))) out
then out else out ++ [p].

(** [walk], on the pair of its captured [seen] and [out]; the budget
  bounds the depth of the recursion. *)
Fixpoint walk (fuel : nat) (st : list string * list ASTProperty)
(b : Inherit) {struct fuel}
: option (list string * list ASTProperty) :=
match fuel with
| O => None
| S fuel' =>
    let '(seen, out) := st in
    if str_eqb (expr b) "" then Some st
    else
      let baseName := extractTypeNameFromImportish (expr b) in
      if set_has baseName seen then Some st
      else
        let seen := set_add baseName seen in
        match resolveBaseEntity (expr b) (i_location b) with
        | None => Some (seen, out)
        | Some ent =>
            let out := fold_left push_new (own_properties ent) out in
            Tarjan.fold_opt (walk fuel') (own_inherits ent) (seen, out)
        end
end.

Definition collectPropsTransitive (startExpr : string)
(startLoc : option Location) : option (list ASTProperty) :=
snd <$> walk (2 + length allEntities + length astNodes) ([], [])
          (mkInherit startExpr startLoc None).

End Resolver.

End Inheritance.

(** ** JavaScript objects used as tables

    An object is the list of its own string-keyed properties in
    insertion order.  [Object.entries] lists the keys that are array
    indices first, in ascending numeric order, and then the other keys
    in insertion order. *)

Module JsObject.

Fixpoint digits_value (acc : N) (l : list ascii) : option N :=
match l with
| [] => Some acc
| c :: l' =>
    if Str.is_digit c
    then digits_value (acc * 10 + N.of_nat (nat_of_ascii c - 48))%N l'
    else None
end.

(** A canonical numeric string below [2^32 - 1] *)
Definition array_index (k : string) : option N :=
match Str.chars k with
| [] => None
| c :: l =>
    if Ascii.eqb c "0"%char && negb (bool_decide (l = [])) then None
    else
      match digits_value 0 (c :: l) with
      | Some n => if (n <? 4294967295)%N then Some n else None
      | None => None
      end
end.

Section Entries.
Context {V : Type}.

Fixpoint insert_sorted (n : N) (kv : string * V)
(l : list (N * (string * V))) : list (N * (string * V)) :=
match l with
| [] => [(n, kv)]
| (m, kv') :: l' =>
    if (n <? m)%N then (n, kv) :: l else (m, kv') :: insert_sorted n kv l'
end.

Fixpoint index_entries (o : list (string * V)) : list (N * (string * V)) :=
match o with
| [] => []
| kv :: o' =>
    match array_index (fst kv) with
    | Some n => insert_sorted n kv (index_entries o')
    | None => index_entries o'
    end
end.

Definition entries (o : list (string * V)) : list (string * V) :=
(snd <$> index_entries o) ++
filter (fun kv => array_index (fst kv) = None) o.
End Entries.

End JsObject.

(** ** Log and exceptions of the emission code *)

Record Gen (A : Type) : Type := mkGen {
  gen_log : list string;
  gen_result : Res A
}.
Arguments mkGen {A} _ _.
Arguments gen_log {A} _.
Arguments gen_result {A} _.

#[global] Instance gen_ret : MRet Gen := fun A a => mkGen [] (Ok a).
#[global] Instance gen_bind : MBind Gen := fun A B f x =>
  match gen_result x with
  | Ok a => let y := f a in mkGen (gen_log x ++ gen_log y) (gen_result y)
  | Throw m => mkGen (gen_log x) (Throw m)
  end.
#[global] Instance gen_fmap : FMap Gen := fun A B f x =>
  mkGen (gen_log x) (f <$> gen_result x).

(** [console.warn(msg)], [console.error(msg)] *)
Definition console (msg : string) : Gen unit := mkGen [msg] (Ok tt).
Definition throw {A} (msg : string) : Gen A := mkGen [] (Throw msg).

Section MapGen.
Context {A B : Type}.
Variable f : A -> Gen B.
Fixpoint map_gen (l : list A) : Gen (list B) :=
  match l with
  | [] => mret []
  | x :: l' => y ← f x; ys ← map_gen l'; mret (y :: ys)
  end.
End MapGen.

(** ** Generator inference ([category.ts], [generator/faker-infer.ts]) *)

Module Infer.

Definition dq : string := String.String (ascii_of_nat 34) String.EmptyString.
Definition bs : ascii := ascii_of_nat 92.

(** [text.replace(/\./g, "\\.").replace(/\*/g, ".*?")] *)
Fixpoint escape_dots (l : list ascii) : list ascii :=
match l with
| [] => []
| c :: l' =>
    if Ascii.eqb c "."%char then bs :: "."%char :: escape_dots l'
    else c :: escape_dots l'
end.
Fixpoint expand_stars (l : list ascii) : list ascii :=
match l with
| [] => []
| c :: l' =>
    if Ascii.eqb c "*"%char
    then "."%char :: "*"%char :: "?"%char :: expand_stars l'
    else c :: expand_stars l'
end.
Definition escaped (text : string) : list ascii :=
expand_stars (escape_dots (Str.chars text)).

(** The syntax characters of a pattern *)
Definition syntax_char (c : ascii) : bool :=
existsb (Ascii.eqb c) (Str.chars "^$\.*+?()[]{}|").

(** [new RegExp(source, "i")] on the sources that [generateRegexp]
  builds from wildcard patterns: literal characters, an escaped
  non-alphanumeric character, and [.*?].  [None]: the source uses
  other regular-expression syntax, which is not interpreted here. *)
Fixpoint parse_body (fuel : nat) (l : list ascii) : option (list Re.regex) :=
match fuel with
| O => None
| S fuel' =>
    match l with
    | [] => Some []
    | c :: l1 =>
        if Ascii.eqb c bs then
          match l1 with
          | d :: l2 =>
              if Str.is_alpha d || Str.is_digit d then None
              else (Re.chr_i d ::.) <$> parse_body fuel' l2
          | [] => None
          end
        else if Ascii.eqb c "."%char then
          match l1 with
          | s :: q :: l3 =>
              if Ascii.eqb s "*"%char && Ascii.eqb q "?"%char
              then (Re.Star false Re.any ::.) <$> parse_body fuel' l3
              else None
          | _ => None
          end
        else if syntax_char c then None
        else (Re.chr_i c ::.) <$> parse_body fuel' l1
    end
end.

Definition generateRegexp (text : string) : option Re.regex :=
body ← parse_body (S (length (escaped text))) (escaped text);
Some (Re.Seq Re.Bol (Re.Seq (Re.seqs body) Re.Eol)).

Abbreviation Matchers := (list (Re.regex * string)).

(** What a call that compiles patterns does: it returns, it throws, or
  it reaches a pattern outside the interpreted syntax, where
  [new RegExp] throws a [SyntaxError] or builds a regex that is not
  modelled; nothing is said of such a call. *)
Inductive Outcome (A : Type) : Type :=
| Returned (a : A)
| Thrown (msg : string)
| NotRead.
Arguments Returned {A} a.
Arguments Thrown {A} msg.
Arguments NotRead {A}.

(** A value of the table given to [setMappings], and of the object
  given to [defineGeneratorMatchers] *)
Inductive MapVal : Type :=
| MStr (s : string)
| MArr (l : list string).

(** [patterns.forEach((pattern) => matchers.push([generateRegexp(pattern),
  generator]))], the matchers pushed *)
Fixpoint compile_patterns (generator : string) (patterns : list string)
: option Matchers :=
match patterns with
| [] => Some []
| p :: ps =>
    r ← generateRegexp p;
    ms ← compile_patterns generator ps;
    Some ((r, generator) :: ms)
end.

(** The loop of [defineGeneratorMatchers] over the entries, one after
  the other: a string where the array of patterns is expected makes
  [patterns.forEach] throw. *)
Fixpoint compile_entries (es : list (string * MapVal))
: Outcome Matchers :=
match es with
| [] => Returned []
| (generator, MArr patterns) :: es' =>
    match compile_patterns generator patterns with
    | None => NotRead
    | Some ms =>
        match compile_entries es' with
        | Returned ms' => Returned (ms ++ ms')
        | Thrown msg => Thrown msg
        | NotRead => NotRead
        end
    end
| (_, MStr _) :: _ => Thrown "TypeError: patterns.forEach is not a function"
end.

(** The matcher list that [defineGeneratorMatchers] builds *)
Definition defineGeneratorMatchers (mapping : list (string * MapVal))
: Outcome Matchers :=
compile_entries (JsObject.entries mapping).

(** [matchers.filter(([re]) => re.test(path)).at(0)?.[1]] *)
Definition inferGenerator (matchers : Matchers) (path : string)
: option string :=
snd <$> head (filter (fun m => Re.test (fst m) path = true) matchers).

(** The names of the members of [Object.prototype], which the object
  literal [{}] inherits: the functions of the language and the
  accessors of its Annex B. *)
Definition object_prototype_names : list string :=
["constructor"; "__defineGetter__"; "__defineSetter__"; "hasOwnProperty";
 "__lookupGetter__"; "__lookupSetter__"; "isPrototypeOf";
 "propertyIsEnumerable"; "toString"; "valueOf"; "__proto__";
 "toLocaleString"].

(** [if (!normalized[g]) normalized[g] = []; normalized[g].push(pattern)]:
  [normalized[g]] is the array stored under [g], or the member of
  [Object.prototype] of that name, which is truthy and has no [push],
  or [undefined]. *)
Definition push_pattern (normalized : list (string * list string))
(g pattern : string) : Res (list (string * list string)) :=
match omap_get g normalized with
| Some ps => Ok (omap_set g (ps ++ [pattern]) normalized)
| None =>
    if set_has g object_prototype_names
    then Throw "TypeError: normalized[g].push is not a function"
    else Ok (omap_set g [pattern] normalized)
end.

(** The loop of [setMappings] over the entries of a table of the new
  shape; an entry that holds no string is passed over. *)
Fixpoint normalize_from (normalized : list (string * list string))
(es : list (string * MapVal)) : Res (list (string * list string)) :=
match es with
| [] => Ok normalized
| (pattern, MStr g) :: es' =>
    normalized' ← push_pattern normalized g pattern;
    normalize_from normalized' es'
| (_, MArr _) :: es' => normalize_from normalized es'
end.
Definition normalize_new (es : list (string * MapVal))
: Res (list (string * list string)) :=
normalize_from [] es.

(** The object [normalized] as [defineGeneratorMatchers] receives it *)
Definition as_arrays (o : list (string * list string))
: list (string * MapVal) :=
(fun e => (fst e, MArr (snd e))) <$> o.

(** [setMappings]: what the call does, and the matcher list that
  becomes [inferGenerator] when it returns.  The shape is read off the
  first value; a table of the legacy shape is passed on as it is. *)
Definition setMappings (mappings : option (list (string * MapVal)))
: Outcome Matchers :=
match mappings with
| None => defineGeneratorMatchers []
| Some m =>
    match JsObject.entries m with
    | [] => defineGeneratorMatchers []
    | (_, MStr _) :: _ =>
        match normalize_new (JsObject.entries m) with
        | Ok normalized => defineGeneratorMatchers (as_arrays normalized)
        | Throw msg => Thrown msg
        end
    | (_, MArr _) :: _ => defineGeneratorMatchers m
    end
end.

Record GenerationContext : Type := mkContext {
sourceFile : option string;
mockFile : option string;
entityName : string;
entityHasRecursion : bool;
genericParamSet : list string;
typesWithOptions : list string
}.

(** What a call of the mapping provider does *)
Inductive ProviderResult : Type :=
| Returns (v : option string)      (* a string, or [undefined]/[null] *)
| Throws (err : string).

Definition Provider : Type :=
string -> string -> GenerationContext -> ProviderResult.

(** The module-level configuration: [inferGenerator] and
  [mappingProviderFunc] *)
Record Config : Type := mkConfig {
matchers : Matchers;
mappingProviderFunc : option Provider
}.

Definition inferMapping (cfg : Config) (path : string) : option string :=
match inferGenerator (matchers cfg) path with
| Some s => if str_eqb s "" then None else Some s
| None => None
end.

(** [/string\.|uuid\(|alphanumeric\(/i] *)
Definition re_stringish : Re.regex :=
Re.Alt (Re.lit_i "string.") (Re.Alt (Re.lit_i "uuid(") (Re.lit_i "alphanumeric(")).

Definition default_for (type : string) : string :=
if str_eqb type "any" || str_eqb type "string" then "faker.lorem.words()"
else if str_eqb type "unknown" then "{}"
else if str_eqb type "number" then "faker.number.int(10000)"
else if str_eqb type "boolean" then "faker.datatype.boolean()"
else if str_eqb type "null" then "null"
else if str_eqb type "date" then "faker.date.recent()"
else if str_eqb type "object" then "{}"
else "faker.lorem.words()".

(** The part of [getFakerGenerator] after the [try] block *)
Definition staticGenerator (cfg : Config) (type path : string) : string :=
match inferGenerator (matchers cfg) path with
| Some nameBased =>
    if str_eqb nameBased "" then default_for type
    else if str_eqb type "number" && Re.test re_stringish nameBased
    then "faker.number.int(10000)"
    else if str_eqb type "date" && Re.test re_stringish nameBased
    then "faker.date.recent()"
    else if str_eqb type "boolean" && Re.test re_stringish nameBased
    then "faker.datatype.boolean()"
    else nameBased
| None => default_for type
end.

Definition getFakerGenerator (cfg : Config) (type path : string)
(ctx : GenerationContext) : Gen string :=
match mappingProviderFunc cfg with
| Some provider =>
    match provider type path ctx with
    | Returns (Some v) => mret v
    | Returns None => mret (staticGenerator cfg type path)
    | Throws err =>
        _ ← console ("mappingProvider threw: " +:+ err);
        mret (staticGenerator cfg type path)
    end
| None => mret (staticGenerator cfg type path)
end.

End Infer.

(** ** Value synthesis and factory emission ([generation.ts]) *)

Module Generation.
Import Analyzer Infer.

(** [`"${s}"`] *)
Definition q (s : string) : string := dq +:+ s +:+ dq.
(** [`${x}`] for a value that may be [undefined] *)
Definition show (o : option string) : string := default "undefined" o.
Definition concat_str (xs : list string) : string := Str.join "" xs.

(** [const [entity, ...propPath] = path.split(".")] *)
Definition split_path (path : string) : string * list string :=
match Str.split "."%char path with
| [] => ("", [])
| entity :: propPath => (entity, propPath)
end.

(** [propPath.map((key) => `["${key}"]`).join("")] *)
Definition accessKeys (propPath : list string) : string :=
concat_str ((fun key => "[" +:+ q key +:+ "]") <$> propPath).

(** [match?.[1] ?? refVal] for [refVal.match(/\.([A-Za-z0-9_]+)$/)] *)
Definition tailName (refVal : string) : string :=
default refVal (Re.match_group re_tail refVal 1).

Definition lit_text (l : Literal) : string :=
match l with
| LStr s => q s
| LNum t => t
| LBool true => "true"
| LBool false => "false"
end.

(** [typeof prop.value === "string" ? `"${prop.value}"` :
  prop.value.toString()], for whatever node is passed as the
  constant *)
Definition value_text (prop : ASTPropertyValue) : Res string :=
match prop with
| PConstant _ l => Ok (lit_text l)
| PPrimitive _ s | PReference _ s => Ok (q s)
| PComposite _ _ vs => Ok (Str.join "," ((fun _ => "[object Object]") <$> vs))
| PFunction _ _ | PTypeOperator _ _ _ | PMapped _ _ _ _ =>
    Ok "[object Object]"
| PIndexSignature _ _ _ | PConditional _ _ _ _ _ | PEnum _ _ =>
    Throw "TypeError: Cannot read properties of undefined (reading 'toString')"
end.

Definition is_reference (v : ASTPropertyValue) : bool :=
match v with PReference _ _ => true | _ => false end.
Definition is_string_literal (v : ASTPropertyValue) : bool :=
match v with PConstant _ (LStr _) => true | _ => false end.
Definition string_literal (v : ASTPropertyValue) : string :=
match v with
| PConstant _ (LStr s) => s
| _ => "undefined"
end.

Section Emit.
Variable cfg : Config.
Variable includeTypes : bool.
Variable context : GenerationContext.

Definition generatePrimitive (value path : string) : Gen string :=
getFakerGenerator cfg value path context.

Definition generateConstantValue (prop : ASTPropertyValue) (path : string)
(includeTypes isUnionOrEnum : bool) : Gen string :=
match value_text prop with
| Throw m => throw m
| Ok value =>
    let '(entity, propPath) := split_path path in
    if includeTypes && isUnionOrEnum && negb (str_eqb entity "")
       && negb (bool_decide (propPath = []))
    then mret (value +:+ " as " +:+ entity +:+ accessKeys propPath)
    else if includeTypes then mret (value +:+ " as const")
    else mret value
end.

(** The call of the factory of [typeName] along an edge marked
  recursive inside an entity that has recursion *)
Definition recursiveCall (typeName : string) (passOpts : bool) : string :=
if passOpts
then "Mock" +:+ typeName +:+ "({}, { depth: depth + 1, maxDepth })"
else "Mock" +:+ typeName +:+ "()".

(** [(typeName && context?.typesWithOptions?.has(typeName)) ||
  typeName === context?.entityName] *)
Definition passOptsFor (typeName : string) : bool :=
(negb (str_eqb typeName "") && set_has typeName (typesWithOptions context))
|| str_eqb typeName (entityName context).

Definition generateRecordValue (path : string) : Gen string :=
_ ← console ("Encountered Record type at path: " +:+ path
             +:+ ", returning empty object {}");
let '(entity, propPath) := split_path path in
if includeTypes && negb (str_eqb entity "")
   && negb (bool_decide (propPath = []))
then mret ("{} as " +:+ entity +:+ accessKeys propPath)
else mret "{}".

Definition generateReferenceValue (a : Attrs) (refVal : string) : string :=
let typeName := tailName refVal in
if str_eqb typeName "__type" then "{}"
else if set_has typeName (genericParamSet context)
then "mock" +:+ typeName +:+ "()"
else if recursiveEdge a && entityHasRecursion context
        && (set_has typeName (typesWithOptions context)
            || str_eqb typeName (entityName context))
then "Mock" +:+ typeName +:+ "({}, { depth: depth + 1, maxDepth })"
else "Mock" +:+ typeName +:+ "()".

Definition generateFunctionValue : Gen (option string) :=
_ ← console "Encountered function type in AST, omitting from mock output.";
mret None.

(** [value.trim().startsWith("{") ? `(${value})` : value] *)
Definition wrap_braces (value : option string) : Gen string :=
match value with
| None =>
    throw "TypeError: Cannot read properties of undefined (reading 'trim')"
| Some v =>
    mret (if Str.startsWith "{" (Str.trim v) then "(" +:+ v +:+ ")" else v)
end.

Section Nodes.
(** The functions below call [generateValue] on the nodes below
  their argument. *)
Variable generateValue : ASTPropertyValue -> string -> Gen (option string).

Definition generateArrayValue (value : list ASTPropertyValue)
(path : string) : Gen string :=
match value with
| [] => mret "[]"
| PReference a refVal :: _ =>
    let typeName := tailName refVal in
    if str_eqb typeName "__type" then
      if includeTypes then
        let '(entity, propPath) := split_path path in
        let keys :=
          match propPath with
          | [] => ""
          | _ :: _ =>
              "[" +:+ dq +:+ Str.join (dq +:+ "][" +:+ dq) propPath
              +:+ dq +:+ "]"
          end in
        mret ("[] as " +:+ entity +:+ keys)
      else mret "[]"
    else if recursiveEdge a && entityHasRecursion context then
      let inner := recursiveCall typeName (passOptsFor typeName) in
      if includeTypes then
        mret ("depth >= maxDepth ? ([] as " +:+ typeName
              +:+ "[]) : faker.helpers.multiple(() => " +:+ inner +:+ ")")
      else
        mret ("depth >= maxDepth ? [] : faker.helpers.multiple(() => "
              +:+ inner +:+ ")")
    else if negb (str_eqb typeName "")
            && set_has typeName (genericParamSet context) then
      mret ("faker.helpers.multiple(() => mock" +:+ typeName +:+ "())")
    else
      mret ("faker.helpers.multiple(() => Mock" +:+ typeName +:+ "())")
| type :: _ =>
    value ← generateValue type path;
    wrapped ← wrap_braces value;
    mret ("faker.helpers.multiple(() => " +:+ wrapped +:+ ")")
end.

Definition generateUnionValue (value : list ASTPropertyValue)
(path : string) : Gen string :=
if bool_decide (value = []) then mret "undefined"
else if forallb is_reference value then
  let values :=
    (fun val =>
       match val with
       | PReference a valStr =>
           let typeName := tailName valStr in
           if recursiveEdge a && entityHasRecursion context
           then recursiveCall typeName (passOptsFor typeName)
           else "Mock" +:+ typeName +:+ "()"
       | _ => ""
       end) <$> value in
  mret ("faker.helpers.arrayElement([" +:+ Str.join ", " values +:+ "])")
else
  let allStringLiterals := forallb is_string_literal value in
  if allStringLiterals && bool_decide (length value = 1) then
    mret (q (string_literal (default (PEnum no_attrs []) (head value))))
  else if allStringLiterals && includeTypes then
    let '(entity, propPath) := split_path path in
    let keys :=
      match propPath with
      | [] => ""
      | _ :: _ =>
          "[" +:+ dq +:+ Str.join ("][" +:+ dq) propPath +:+ dq +:+ "]"
      end in
    let values :=
      (fun val => q (string_literal val) +:+ " as " +:+ entity +:+ keys)
        <$> value in
    mret ("faker.helpers.arrayElement([" +:+ Str.join ", " values
          +:+ "])")
  else
    values ← map_gen (fun val => generateValue val path) value;
    mret ("faker.helpers.arrayElement(["
          +:+ Str.join ", " (default "" <$> values) +:+ "])").

Definition strip_braces (v : string) : string :=
let l := Str.chars v in
if bool_decide (head l = Some "{"%char)
   && bool_decide (last l = Some "}"%char)
then Str.substring 1 (length l - 1) v else v.

Definition generateIntersectionValue (value : list ASTPropertyValue)
(path : string) : Gen string :=
properties ←
  map_gen (fun item =>
             value ← generateValue item path;
             match item with
             | PReference _ _ => mret ("..." +:+ show value)
             | PComposite _ TObject _ | PComposite _ TRecord _ =>
                 mret (strip_braces (show value))
             | _ => mret (default "" value)
             end) value;
mret ("{ " +:+ Str.join ", " properties +:+ " }").

Definition generateProperty (prop : ASTProperty) (name : option string)
(path : string) : Gen string :=
let fullPath := path +:+ "." +:+ show name in
value ← generateValue prop fullPath;
let value :=
  match value with
  | Some v =>
      let '(entity, propPathParts) := split_path fullPath in
      if includeTypes && str_eqb (Str.trim v) "{}"
         && negb (str_eqb entity "")
         && negb (bool_decide (propPathParts = []))
      then Some ("{} as " +:+ entity +:+ accessKeys propPathParts)
      else Some v
  | None => None
  end in
if optional (attrs prop) then
  wrapped ← wrap_braces value;
  mret (q (show name) +:+ ": faker.helpers.maybe(() => " +:+ wrapped
        +:+ ")")
else mret (q (show name) +:+ ": " +:+ show value).

Definition generateObjectValue (value : list ASTProperty) (path : string)
: Gen string :=
match value with
| [PReference a refVal] =>
    let typeName := tailName refVal in
    if recursiveEdge a && entityHasRecursion context
    then mret (recursiveCall typeName (passOptsFor typeName))
    else mret ("Mock" +:+ typeName +:+ "()")
| _ =>
    properties ←
      map_gen (fun item => generateProperty item (name (attrs item)) path)
        value;
    mret ("{ " +:+ Str.join ", " properties +:+ " }")
end.
End Nodes.

Fixpoint generateValue (prop : ASTPropertyValue) (path : string)
{struct prop} : Gen (option string) :=
match prop with
| PPrimitive _ value => Some <$> generatePrimitive value path
| PConstant _ _ => Some <$> generateConstantValue prop path includeTypes false
| PReference a value => mret (Some (generateReferenceValue a value))
| PComposite _ TUnion value =>
    Some <$> generateUnionValue generateValue value path
| PComposite _ TIntersection value =>
    Some <$> generateIntersectionValue generateValue value path
| PComposite _ TRecord _ => Some <$> generateRecordValue path
| PComposite _ TArray value =>
    Some <$> generateArrayValue generateValue value path
| PComposite _ TObject value =>
    Some <$> generateObjectValue generateValue value path
| PFunction _ _ => generateFunctionValue
| _ =>
    _ ← console ("Encountered unknown AST property type: "
                 +:+ node_type prop +:+ " at path: " +:+ path);
    mret (Some (q ("/* TODO " +:+ node_type prop +:+ " */")))
end.

End Emit.

(** The emitters with their recursive calls tied to [generateValue] *)
Definition unionValue (cfg : Config) (includeTypes : bool)
(context : GenerationContext) (value : list ASTPropertyValue)
(path : string) : Gen string :=
generateUnionValue includeTypes context
  (generateValue cfg includeTypes context) value path.
Definition intersectionValue (cfg : Config) (includeTypes : bool)
(context : GenerationContext) (value : list ASTPropertyValue)
(path : string) : Gen string :=
generateIntersectionValue (generateValue cfg includeTypes context) value path.
Definition arrayValue (cfg : Config) (includeTypes : bool)
(context : GenerationContext) (value : list ASTPropertyValue)
(path : string) : Gen string :=
generateArrayValue includeTypes context
  (generateValue cfg includeTypes context) value path.

(** *** [stripUnusedOptionsFromText] *)

(** [/\bdepth\b|\bmaxDepth\b|__options/] *)
Definition re_uses_options : Re.regex :=
Re.Alt (Re.seqs [Re.WordB; Re.lit "depth"; Re.WordB])
  (Re.Alt (Re.seqs [Re.WordB; Re.lit "maxDepth"; Re.WordB])
     (Re.lit "__options")).

(** The [g]-flagged pattern of the signature (a space is written here
  between a star and a closing parenthesis):
  [function (Mock[A-Za-z0-9_]+)\(([^)]*?),?\s*__options\s*
   (?:[:=][^,)]* )?(,?\s* )?\)] *)
Definition re_signature : Re.regex :=
Re.seqs
  [Re.lit "function ";
   Re.Group 1 (Re.Seq (Re.lit "Mock") (Re.plus (Re.Chr Str.is_word)));
   Re.chr "("%char;
   Re.Group 2 (Re.Star false (Re.not_chr ")"%char));
   Re.opt (Re.chr ","%char); Re.spaces; Re.lit "__options"; Re.spaces;
   Re.opt (Re.Seq
             (Re.Chr (fun c => Ascii.eqb c ":"%char || Ascii.eqb c "="%char))
             (Re.Star true
                (Re.Chr (fun c => negb (Ascii.eqb c ","%char
                                        || Ascii.eqb c ")"%char)))));
   Re.opt (Re.Group 3 (Re.Seq (Re.opt (Re.chr ","%char)) Re.spaces));
   Re.chr ")"%char].

(** [/,\s*$/] *)
Definition re_trailing_comma : Re.regex :=
Re.seqs [Re.chr ","%char; Re.spaces; Re.Eol].

(** [/\n?\s*const\s*\{\s*depth\s*=\s*0,\s*maxDepth\s*=\s*2\s*\}
  \s*=\s*__options;?/g] *)
Definition re_destructuring : Re.regex :=
Re.seqs
  [Re.opt (Re.chr "010"%char); Re.spaces; Re.lit "const"; Re.spaces;
   Re.chr "{"%char; Re.spaces; Re.lit "depth"; Re.spaces; Re.chr "="%char;
   Re.spaces; Re.lit "0,"; Re.spaces; Re.lit "maxDepth"; Re.spaces;
   Re.chr "="%char; Re.spaces; Re.chr "2"%char; Re.spaces; Re.chr "}"%char;
   Re.spaces; Re.chr "="%char; Re.spaces; Re.lit "__options";
   Re.opt (Re.chr ";"%char)].

Definition stripUnusedOptionsFromText (text : string) : string :=
if Re.test re_uses_options text then text
else
  let text :=
    Re.replace_all re_signature
      (fun g =>
         let fn := show (g 1) in
         let args := show (g 2) in
         let newArgs := Re.replace_first re_trailing_comma (fun _ => "") args in
         "function " +:+ fn +:+ "(" +:+ newArgs +:+ ")") text in
  Re.replace_all re_destructuring (fun _ => "") text.

(** *** [generate] *)

Definition nl : string := String.String (ascii_of_nat 10) String.EmptyString.

(** [precedence[kind] ?? 0] *)
Definition precedence (kind : string) : nat :=
if str_eqb kind "instance" then 7
else if str_eqb kind "enum" then 6
else if str_eqb kind "alias" then 5
else if str_eqb kind "union" then 4
else if str_eqb kind "array" then 3
else if str_eqb kind "primitive" then 3
else if str_eqb kind "constant" then 2
else if str_eqb kind "placeholder" then 1
else 0.

Definition nameToBestKind (data : list ASTEntity) : gmap string string :=
fold_left
  (fun m item =>
     let currKind := entity_type item in
     match m !! e_name item with
     | None => <[e_name item := currKind]> m
     | Some prev =>
         if str_eqb prev "" then <[e_name item := currKind]> m
         else if (precedence prev <? precedence currKind)%nat
         then <[e_name item := currKind]> m
         else m
     end) data ∅.

(** The entities that pass the [filter] of [generate] *)
Definition emitted (data : list ASTEntity) : list ASTEntity :=
filter (fun item => nameToBestKind data !! e_name item
                    = Some (entity_type item)) data.

(** [/<([^>]+)>/] *)
Definition re_generic_args : Re.regex :=
Re.seqs [Re.chr "<"%char; Re.Group 1 (Re.plus (Re.not_chr ">"%char));
         Re.chr ">"%char].

Definition options_typed : string :=
", __options: { depth?: number; maxDepth?: number } = {})".
Definition destructure_line : string :=
"  const { depth = 0, maxDepth = 2 } = __options;".

Section Generate.
Variable cfg : Config.
Variable data : list ASTEntity.
Variable includeTypes : bool.   (* after [includeTypes && format === "ts"] *)
Variable useExport : bool.
Variable currentMockFilePath : option string.
Variable format : string.

Definition typesWithOptions_of : list string :=
fold_left (fun s e => if hasRecursion e then set_add (e_name e) s else s)
  data [].

Definition context_of (item : ASTEntity) : GenerationContext :=
mkContext (file <$> e_location item) currentMockFilePath (e_name item)
  (hasRecursion item) (set_of_list (entity_generics item))
  typesWithOptions_of.

Definition exportKeyword : string := if useExport then "export " else "".

Definition genericTypes (item : ASTEntity) : string :=
match entity_generics item with
| [] => ""
| gs => "<" +:+ Str.join ", " gs +:+ ">"
end.
Definition overridesType (item : ASTEntity) : string :=
if includeTypes
then ": Partial<" +:+ e_name item +:+ genericTypes item +:+ ">" else "".
Definition resultType (item : ASTEntity) : string :=
if includeTypes then ": " +:+ e_name item +:+ genericTypes item else "".

Definition emit_alias (item : ASTEntity) (entities : list string) : string :=
let values :=
  Str.join ", "
    ((fun entity =>
        let typeName := tailName entity in
        if hasRecursion item
        then "Mock" +:+ typeName +:+ "({}, { depth: depth + 1, maxDepth })"
        else "Mock" +:+ typeName +:+ "()") <$> entities) in
let head :=
  if hasRecursion item then
    if includeTypes then
      [exportKeyword +:+ "function Mock" +:+ e_name item +:+ "(overrides"
       +:+ overridesType item +:+ " = {}" +:+ options_typed
       +:+ resultType item +:+ " {";
       destructure_line]
    else
      [exportKeyword +:+ "function Mock" +:+ e_name item
       +:+ "(overrides = {}, __options = {}) {";
       destructure_line]
  else if includeTypes then
    [exportKeyword +:+ "function Mock" +:+ e_name item +:+ "(overrides"
     +:+ overridesType item +:+ " = {})" +:+ resultType item +:+ " {"]
  else
    [exportKeyword +:+ "function Mock" +:+ e_name item
     +:+ "(overrides = {}) {"] in
Str.join nl
  (head ++
   ["  const result = faker.helpers.arrayElement([";
    "    faker.helpers.arrayElement([" +:+ values +:+ "])";
    "  ]);";
    "  return { ...result, ...overrides }";
    "}";
    ""]).

Definition emit_union (item : ASTEntity) (values : list ASTPropertyValue)
: Gen string :=
let context := context_of item in
if forallb (fun v => match v with
                     | PReference _ _ | PComposite _ TIntersection _ => true
                     | _ => false
                     end) values
then
  vals ←
    map_gen (fun val =>
               match val with
               | PReference a value =>
                   if recursiveEdge a && entityHasRecursion context
                   then mret ("Mock" +:+ value
                              +:+ "({}, { depth: depth + 1, maxDepth })")
                   else mret ("Mock" +:+ value +:+ "()")
               | PComposite _ TIntersection vs =>
                   intersectionValue cfg includeTypes context vs
                     (e_name item)
               | _ => mret "undefined"
               end) values;
  let head :=
    if hasRecursion item then
      if includeTypes then
        [exportKeyword +:+ "function Mock" +:+ e_name item +:+ "(overrides"
         +:+ overridesType item +:+ options_typed +:+ resultType item
         +:+ " {";
         destructure_line]
      else
        [exportKeyword +:+ "function Mock" +:+ e_name item
         +:+ "(overrides, __options = {}) {";
         destructure_line]
    else if includeTypes then
      [exportKeyword +:+ "function Mock" +:+ e_name item +:+ "(overrides"
       +:+ overridesType item +:+ ")" +:+ resultType item +:+ " {"]
    else
      [exportKeyword +:+ "function Mock" +:+ e_name item
       +:+ "(overrides) {"] in
  mret (Str.join nl
          (head ++
           ["  return overrides ?? faker.helpers.arrayElement(["
            +:+ Str.join ", " vals +:+ "]);";
            "}";
            ""]))
else
  vals ← map_gen (fun value =>
                    generateConstantValue value (e_name item) includeTypes
                      true) values;
  mret (Str.join nl
          [exportKeyword +:+ "function Mock" +:+ e_name item
           +:+ "(overrides" +:+ overridesType item +:+ ")"
           +:+ resultType item +:+ " {";
           "  return overrides ?? faker.helpers.arrayElement(["
           +:+ Str.join ", " vals +:+ "]);";
           "}";
           ""]).

(** [extractBaseName]: the empty expression gives the empty name *)
Definition extractBaseName (b : Inherit) : string :=
if str_eqb (expr b) "" then "" else extractTypeNameFromImportish (expr b).

(** The defaults object composed from the aggregated properties of a
  base; the empty string when nothing is composed. *)
Definition defaultsObj_of (item : ASTEntity) (b : Inherit) : Gen string :=
let context := context_of item in
parts ←
  map_gen
    (fun bp : ASTProperty =>
       let dotted := e_name item +:+ "." +:+ show (name (attrs bp)) in
       match inferMapping cfg dotted with
       | None => mret None
       | Some _ =>
           let entry (val : string) : option string :=
             Some (q (show (name (attrs bp))) +:+ ": " +:+ val) in
           match bp with
           | PPrimitive _ value =>
               entry <$> generatePrimitive cfg context value dotted
           | PConstant _ _ =>
               entry <$> generateConstantValue bp dotted true false
           | PComposite _ TUnion vs =>
               if forallb is_string_literal vs
               then entry <$> unionValue cfg true context vs dotted
               else mret None
           | _ => mret None
           end
       end) (default [] (i_properties b));
match omap id parts with
| [] => mret ""
| ps => mret ("{ " +:+ Str.join ", " ps +:+ " }")
end.

Definition extractGenericTypeName (param : string) : string :=
default (Str.trim param) (Re.match_group re_import param 1).

Definition inherit_call (item : ASTEntity) (b : Inherit) : Gen string :=
let baseName := extractBaseName b in
defaultsObj ← defaultsObj_of item b;
match Re.match_group re_generic_args (expr b) 1 with
| Some genericParams =>
    let genericTypeNames :=
      extractGenericTypeName <$> Str.split ","%char genericParams in
    let paramNames :=
      (fun typeName => "() => Mock" +:+ typeName +:+ "()")
        <$> genericTypeNames in
    let baseTypeWithArgs :=
      baseName +:+ "<" +:+ Str.join ", " genericTypeNames +:+ ">" in
    let defaultsArg :=
      if str_eqb defaultsObj "" then ""
      else if includeTypes
      then ", " +:+ defaultsObj +:+ " as Partial<" +:+ baseTypeWithArgs
           +:+ ">"
      else ", " +:+ defaultsObj in
    mret ("...Mock" +:+ baseName +:+ "(" +:+ Str.join ", " paramNames
          +:+ defaultsArg +:+ ")")
| None =>
    if str_eqb defaultsObj "" then mret ("...Mock" +:+ baseName +:+ "()")
    else if includeTypes
    then mret ("...Mock" +:+ baseName +:+ "(" +:+ defaultsObj
               +:+ " as Partial<" +:+ baseName +:+ ">)")
    else mret ("...Mock" +:+ baseName +:+ "(" +:+ defaultsObj +:+ ")")
end.

Definition generateMockValue (item : ASTEntity) (prop : ASTProperty)
: Gen (option string) :=
match prop with
| PReference _ propValue =>
    if set_has propValue (entity_generics item)
    then mret (Some ("mock" +:+ propValue +:+ "()"))
    else generateValue cfg includeTypes (context_of item) prop
           (e_name item +:+ "." +:+ show (name (attrs prop)))
| _ =>
    generateValue cfg includeTypes (context_of item) prop
      (e_name item +:+ "." +:+ show (name (attrs prop)))
end.

(** One element of [item.properties.map(...)] *)
Definition property_line (item : ASTEntity) (prop : ASTProperty)
: Gen string :=
mockValue ← generateMockValue item prop;
if optional (attrs prop) then
  wrapped ← wrap_braces mockValue;
  mret ("    " +:+ q (show (name (attrs prop)))
        +:+ ": faker.helpers.maybe(() => " +:+ wrapped +:+ ")")
else
  mret ("    " +:+ q (show (name (attrs prop))) +:+ ": "
        +:+ show mockValue).

Definition emit_instance (item : ASTEntity) (instanceKind : option string)
(properties : list ASTProperty) (inherits : option (list Inherit))
: Gen string :=
let generics := entity_generics item in
let genericParams :=
  match generics with
  | [] => ""
  | gs => "<" +:+ Str.join ", " ((fun g => g +:+ " = any") <$> gs) +:+ ">"
  end in
inherits ← map_gen (inherit_call item) (default [] inherits);
properties ← map_gen (property_line item) properties;
let mockGenericParams :=
  match generics with
  | [] => ""
  | gs =>
      Str.join ", "
        ((fun g =>
            if includeTypes
            then "mock" +:+ g +:+ ": () => " +:+ g +:+ " = () => ({} as "
                 +:+ g +:+ ")"
            else "mock" +:+ g +:+ ": () => " +:+ g +:+ " = () => ({})")
           <$> gs) +:+ ", "
  end in
let head :=
  if hasRecursion item then
    if includeTypes then
      [exportKeyword +:+ "function Mock" +:+ e_name item +:+ genericParams
       +:+ "(" +:+ mockGenericParams +:+ "overrides" +:+ overridesType item
       +:+ " = {}" +:+ options_typed +:+ resultType item +:+ " {";
       destructure_line]
    else
      [exportKeyword +:+ "function Mock" +:+ e_name item +:+ genericParams
       +:+ "(" +:+ mockGenericParams
       +:+ "overrides = {}, __options = {}) {";
       destructure_line]
  else if includeTypes then
    [exportKeyword +:+ "function Mock" +:+ e_name item +:+ genericParams
     +:+ "(" +:+ mockGenericParams +:+ "overrides" +:+ overridesType item
     +:+ " = {})" +:+ resultType item +:+ " {"]
  else
    [exportKeyword +:+ "function Mock" +:+ e_name item +:+ genericParams
     +:+ "(" +:+ mockGenericParams +:+ "overrides = {}) {"] in
let inheritLines :=
  match inherits with
  | [] => []
  | _ :: _ => ["    " +:+ Str.join ("," +:+ nl +:+ "    ") inherits +:+ ","]
  end in
let propertyLines :=
  ["    " +:+ Str.join ("," +:+ nl +:+ "    ") properties] in
let isClass := bool_decide (instanceKind = Some "class") in
let rest :=
  if isClass && negb (str_eqb format "js") then
    ["  const base = {"] ++ inheritLines ++ propertyLines ++
    ["  };";
     "  const instance = Object.create(" +:+ e_name item +:+ ".prototype);";
     "  Object.assign(instance, base, overrides);";
     if includeTypes
     then "  return instance as " +:+ e_name item +:+ genericTypes item
     else "  return instance"]
  else
    ["  const result = {"] ++ inheritLines ++ propertyLines ++
    ["  };";
     "  return { ...result, ...overrides }"] in
mret (Str.join nl (head ++ rest ++ ["}"; ""])).

Definition emit_placeholder (item : ASTEntity) : Gen string :=
_ ← console ("Encountered placeholder type for " +:+ e_name item
             +:+ ", returning minimal object.");
mret (Str.join nl
        [exportKeyword +:+ "function Mock" +:+ e_name item +:+ "(overrides"
         +:+ (if includeTypes then ": any" else "") +:+ ")"
         +:+ resultType item +:+ " {";
         "  return {";
         "    /* TODO this is a placeholder because the original type or interface couldn't be parsed. */";
         "    ...overrides";
         "  };";
         "}";
         ""]).

Definition emit_constant (item : ASTEntity) (value : ASTPropertyValue)
: Gen string :=
value ← generateConstantValue value (e_name item) includeTypes false;
mret (Str.join nl
        [exportKeyword +:+ "function Mock" +:+ e_name item +:+ "()"
         +:+ resultType item +:+ " {";
         "  return " +:+ value +:+ ";";
         "}";
         ""]).

(** [item.value.value] of a primitive entity *)
Definition primitive_kind (v : ASTPropertyValue) : string :=
match v with
| PPrimitive _ s | PReference _ s => s
| _ => "undefined"
end.

Definition emit_primitive (item : ASTEntity) (value : ASTPropertyValue)
: Gen string :=
value ← generatePrimitive cfg (context_of item) (primitive_kind value) "";
mret (Str.join nl
        [exportKeyword +:+ "function Mock" +:+ e_name item +:+ "()"
         +:+ resultType item +:+ " {";
         "  return " +:+ value;
         "}";
         ""]).

(** [item.value.value] of an array entity *)
Definition array_items (v : ASTPropertyValue) : list ASTPropertyValue :=
match v with
| PComposite _ _ vs => vs
| _ => []
end.

Definition emit_array (item : ASTEntity) (value : ASTPropertyValue)
: Gen string :=
value ← arrayValue cfg includeTypes (context_of item) (array_items value) "";
let overrides :=
  "(overrides"
  +:+ (if str_eqb (resultType item) "" then "" else "?" +:+ resultType item)
in
let head :=
  if hasRecursion item then
    [exportKeyword +:+ "function Mock" +:+ e_name item +:+ overrides
     +:+ options_typed +:+ resultType item +:+ " {";
     destructure_line]
  else
    [exportKeyword +:+ "function Mock" +:+ e_name item +:+ overrides
     +:+ ")" +:+ resultType item +:+ " {"] in
mret (Str.join nl
        (head ++
         ["  const result = " +:+ value;
          "  return overrides ?? result;";
          "}";
          ""])).

Definition emit_enum (item : ASTEntity) (values : list string) : string :=
let values :=
  Str.join ", "
    ((fun v => if str_eqb format "js" then q v
               else e_name item +:+ "." +:+ v) <$> values) in
Str.join nl
  [exportKeyword +:+ "function Mock" +:+ e_name item +:+ "()"
   +:+ resultType item +:+ " {";
   "  return faker.helpers.arrayElement([" +:+ values +:+ "]);";
   "}";
   ""].

(** The text of the factory of one entity: the callback of
  [.map((item) => ...)] *)
Definition emit_entity (item : ASTEntity) : Gen string :=
match e_body item with
| EAlias entities => mret (emit_alias item entities)
| EUnion values => emit_union item values
| EInstance instanceKind properties inherits _ =>
    emit_instance item instanceKind properties inherits
| EPlaceholder => emit_placeholder item
| EConstant value => emit_constant item value
| EPrimitive value => emit_primitive item value
| EArray value => emit_array item value
| EEnum values => mret (emit_enum item values)
end.

(** [body]: one text per emitted entity *)
Definition body : Gen (list string) := map_gen emit_entity (emitted data).

(** The factory text that [generate] returns after the import
  statements (which depend on the file system and are not
  modelled): [stripUnusedOptionsFromText(body.join("\n"))] *)
Definition generate : Gen string :=
texts ← body;
mret (stripUnusedOptionsFromText (Str.join nl texts)).

End Generate.

End Generation.

(** ** Sample inputs *)

Module Samples.
Import Generation Infer.

Definition cfg0 : Config := mkConfig [] None.

(** [interface Handler { cb: () => string }] *)
Definition handler : ASTEntity :=
  mkEntity "Handler" None false None
    (EInstance (Some "interface")
       [PFunction (prop_attrs "cb" false) (PPrimitive no_attrs "string")]
       None []).

(** [interface Pair { both: [Pair, Pair] }], annotated: the entity has
    recursion, the tuple is not synthesized. *)
Definition pair : ASTEntity :=
  mkEntity "Pair" None true (Some ["Pair"])
    (EInstance (Some "interface")
       [PComposite (mkAttrs (Some "both") false true None) TTuple
          [PReference (mkAttrs None false true None) "Pair";
           PReference (mkAttrs None false true None) "Pair"]]
       None []).

(** [interface Chain { next: Chain }], annotated. *)
Definition chain : ASTEntity :=
  mkEntity "Chain" None true (Some ["Chain"])
    (EInstance (Some "interface")
       [PReference (mkAttrs (Some "next") false true None) "Chain"]
       None []).

(** [interface Tree { kids: Tree[] }], annotated. *)
Definition tree : ASTEntity :=
  mkEntity "Tree" None true (Some ["Tree"])
    (EInstance (Some "interface")
       [PComposite (mkAttrs (Some "kids") false true None) TArray
          [PReference (mkAttrs None false true None) "Tree"]]
       None []).

(** Two declarations of the interface [X] that TypeScript merges, and
    a constant of the same name. *)
Definition x_first : ASTEntity :=
  mkEntity "X" None false None
    (EInstance (Some "interface") [PPrimitive (prop_attrs "a" false) "string"]
       None []).
Definition x_second : ASTEntity :=
  mkEntity "X" None false None
    (EInstance (Some "interface") [PPrimitive (prop_attrs "b" false) "number"]
       None []).
Definition x_constant : ASTEntity :=
  mkEntity "X" None false None (EConstant (PConstant no_attrs (LNum "1"))).
End Samples.

(** ** Reading an emitted conditional

    [conditional test a b] is the text of the expression [test ? a : b];
    its value is that of [a] when the test holds and that of [b]
    otherwise, and only the chosen branch is evaluated. *)

Module Emitted.
Definition conditional (test a b : string) : string :=
  test +:+ " ? " +:+ a +:+ " : " +:+ b.

(** [faker.helpers.multiple(() => inner)] *)
Definition multiple (inner : string) : string :=
  "faker.helpers.multiple(() => " +:+ inner +:+ ")".
End Emitted.

(** ** Orders on a pattern table

    A table of the new shape is the list of its [(pattern, expression)]
    entries in declaration order. *)

Module PatternOrder.
Import Infer.

Definition new_style (table : list (string * string))
  : list (string * MapVal) :=
  (fun e => (fst e, MStr (snd e))) <$> table.



(** The expressions of the table, each once, in order of first
    appearance *)
Definition expressions (table : list (string * string)) : list string :=
  set_of_list (snd <$> table).


(** The declared kind and the expression disagree for the kind check
    of [getFakerGenerator]. *)
Definition kind_mismatch (type expression : string) : bool :=
  (str_eqb type "number" || str_eqb type "date" || str_eqb type "boolean")
  && Re.test re_stringish expression.

(** No override answers for this request. *)
Definition no_override (cfg : Config) (type path : string)
  (ctx : GenerationContext) : Prop :=
  match mappingProviderFunc cfg with
  | None => True
  | Some provider => provider type path ctx = Returns None
  end.

(** The patterns of one expression, in declaration order *)
Definition group_of (table : list (string * string)) (g : string)
  : string * list string :=
  (g, fst <$> filter (fun e => snd e = g) table).



(** The [(pattern, expression)] pairs that a table of either shape
    declares, entry after entry: the pair of an entry that maps a
    pattern to an expression, and the pairs of an entry that maps an
    expression to its patterns, in the order of the patterns. *)
Definition declared (m : list (string * MapVal)) : list (string * string) :=
  e ← m;
  match snd e with
  | MStr g => [(fst e, g)]
  | MArr ps => (fun p => (p, fst e)) <$> ps
  end.

(** The entries that map a pattern to an expression *)
Definition string_entries (m : list (string * MapVal))
  : list (string * string) :=
  e ← m;
  match snd e with
  | MStr g => [(fst e, g)]
  | MArr _ => []
  end.




(** The defaults of the declared kinds: word-list text for a string
    or any, a bounded random integer for a number, a random boolean, the
    null literal, a recent date, the empty composite for unknown and
    object. *)
Definition kind_defaults : list (string * string) :=
  [("string", "faker.lorem.words()"); ("any", "faker.lorem.words()");
   ("number", "faker.number.int(10000)");
   ("boolean", "faker.datatype.boolean()"); ("null", "null");
   ("date", "faker.date.recent()"); ("unknown", "{}"); ("object", "{}")].

(** The default of a kind, word-list text for a kind without an
    entry *)
Definition kind_default (kind : string) : string :=
  default "faker.lorem.words()" (omap_get kind kind_defaults).

(** [v] is what the pattern table and the defaults of the kinds
    answer: the expression of the first matcher whose regex matches
    the path, where it is not empty and fits the declared kind; the
    default of the declared kind where it is empty or does not fit the
    kind, and where no matcher matches. *)
Definition falls_back (ms : Matchers) (type path v : string) : Prop :=
  (forall g, inferGenerator ms path = Some g ->
             g <> "" -> kind_mismatch type g = false -> v = g)
  /\ (forall g, inferGenerator ms path = Some g ->
                g = "" \/ kind_mismatch type g = true ->
                v = kind_default type)
  /\ (inferGenerator ms path = None -> v = kind_default type).

End PatternOrder.

Module InferSamples.
Import Infer PatternOrder.

Definition ctx0 : GenerationContext := mkContext None None "User" false [] [].

Definition id_table : list (string * string) := [("*.id", "uuid-expr")].


Definition compiled (table : list (string * string)) : Matchers :=
  match setMappings (Some (new_style table)) with
  | Returned ms => ms
  | _ => []
  end.

(** A provider that answers for every path, and one that throws *)
Definition answering : Provider := fun _ _ _ => Returns (Some "custom()").
Definition faulty : Provider := fun _ _ _ => Throws "boom".
(** A provider that answers for one path and throws for the others *)
Definition moody : Provider :=
  fun _ path _ =>
    if str_eqb path "User.id" then Returns (Some "custom()")
    else Throws "boom".

End InferSamples.

(** ** Paths in a value tree *)

Module Paths.
Import Analyzer.

(** The nodes directly below a node, in the order of its fields *)
Definition children (v : ASTPropertyValue) : list ASTPropertyValue :=
  match v with
  | PComposite _ _ vs => vs
  | PIndexSignature _ k x => [k; x]
  | PFunction _ x => [x]
  | PTypeOperator _ _ x => [x]
  | PMapped _ _ c x => [c; x]
  | PConditional _ c e t f => [c; e; t; f]
  | _ => []
  end.

(** The node reached from [v] by a list of child positions *)
Fixpoint node_at (path : list nat) (v : ASTPropertyValue)
  : option ASTPropertyValue :=
  match path with
  | [] => Some v
  | i :: path' =>
      match children v !! i with
      | Some x => node_at path' x
      | None => None
      end
  end.

Definition is_object (v : ASTPropertyValue) : bool :=
  match v with PComposite _ TObject _ => true | _ => false end.

(** A reference node that names the entity [target] (and is not the
    anonymous [__type]) *)
Definition refers_to (target : string) (v : ASTPropertyValue) : bool :=
  match v with
  | PReference _ value =>
      negb (str_eqb value "") && negb (str_eqb value "__type")
      && str_eqb (extractTypeNameFromImportish value) target
  | _ => false
  end.

(** The path goes through fields that both [collectRefsFromProp] and
    [annotatePropValue] descend into: the first element of an array, any
    element of another composite, the value of a type operator or a
    mapped type, the true branch of a conditional. *)
Fixpoint walkable (path : list nat) (v : ASTPropertyValue) : bool :=
  match path with
  | [] => true
  | i :: path' =>
      match v with
      | PComposite _ TArray (x :: _) => (i =? 0)%nat && walkable path' x
      | PComposite _ TArray [] => false
      | PComposite _ _ vs =>
          match vs !! i with
          | Some x => walkable path' x
          | None => false
          end
      | PTypeOperator _ _ x => (i =? 0)%nat && walkable path' x
      | PMapped _ _ _ x => (i =? 1)%nat && walkable path' x
      | PConditional _ _ _ t _ => (i =? 2)%nat && walkable path' t
      | _ => false
      end
  end.

(** Every node on the path carries [recursiveEdge]. *)
Fixpoint all_flagged (path : list nat) (v : ASTPropertyValue) : bool :=
  recursiveEdge (attrs v) &&
  match path with
  | [] => true
  | i :: path' =>
      match children v !! i with
      | Some x => all_flagged path' x
      | None => false
      end
  end.

(** The node at the end of the path and every property on the path
    carry [recursiveEdge]; [is_prop] tells whether [v] is a property,
    and the members of an object are properties. *)
Fixpoint flagged (path : list nat) (is_prop : bool) (v : ASTPropertyValue)
  : bool :=
  match path with
  | [] => recursiveEdge (attrs v)
  | i :: path' =>
      (if is_prop then recursiveEdge (attrs v) else true) &&
      match children v !! i with
      | Some x => flagged path' (is_object v) x
      | None => false
      end
  end.

(** The nodes on the path that are neither properties nor the node at
    its end carry in [v'] the [recursiveEdge] that they carry in [v];
    [is_prop] tells whether [v] is a property. *)
Fixpoint others_kept (path : list nat) (is_prop : bool)
  (v v' : ASTPropertyValue) : bool :=
  match path with
  | [] => true
  | i :: path' =>
      (if is_prop then true
       else Bool.eqb (recursiveEdge (attrs v')) (recursiveEdge (attrs v))) &&
      match children v !! i, children v' !! i with
      | Some x, Some x' => others_kept path' (is_object v) x x'
      | _, _ => false
      end
  end.

(** Every array that the annotation visits has an element. *)
Fixpoint annotatable (v : ASTPropertyValue) : bool :=
  match v with
  | PComposite _ TArray [] => false
  | PComposite _ TArray (x :: _) => annotatable x
  | PComposite _ _ vs => forallb annotatable vs
  | PTypeOperator _ _ x => annotatable x
  | PMapped _ _ _ x => annotatable x
  | PConditional _ c e t f =>
      annotatable c && annotatable e && annotatable t && annotatable f
  | _ => true
  end.

End Paths.

Module RecursionSamples.
Import Analyzer Annotate Paths.

(** [interface Grid { cells: Grid[][] }] *)
Definition grid : ASTEntity :=
  mkEntity "Grid" None false None
    (EInstance (Some "interface")
       [PComposite (prop_attrs "cells" false) TArray
          [PComposite no_attrs TArray [PReference no_attrs "Grid"]]]
       None []).

(** The annotation of [Grid] in the graph of [Grid] alone *)
Definition grid_annotated : Res ASTEntity :=
  let adj := buildAdjacency [grid] in
  annotateEntityWithRecursion grid adj
    (buildNodeToScc (default [] (Tarjan.computeSCC adj))) (fun _ => []).

(** [interface Item { next: Item }] *)
Definition item : ASTEntity :=
  mkEntity "Item" None false None
    (EInstance (Some "interface")
       [PReference (prop_attrs "next" false) "Item"] None []).

End RecursionSamples.

(** ** The order of the inheritance walk *)

Module WalkOrder.
Import Analyzer Inheritance.

(** The properties of a list that come first under their name *)
Definition first_by_name (ps : list ASTProperty) : list ASTProperty :=
  fold_left push_new ps [].

(** The names of a list of properties *)
Definition names_of (ps : list ASTProperty) : list (option string) :=
  (fun p => name (attrs p)) <$> ps.

(** [out] after the properties of the bases [more] have been pushed *)
Definition collected (more : list ASTEntity) (out : list ASTProperty)
  : list ASTProperty :=
  fold_left push_new (concat (own_properties <$> more)) out.

Section Order.
Variable path_resolve : string -> string.
Variable allEntities : list ASTEntity.
Variable astNodes : list ASTEntity.

(** The bases in depth-first pre-order: a base, then what is reached
    from its own bases in declaration order, no name being entered
    twice. *)
Fixpoint bases_in_order (fuel : nat) (st : list string * list ASTEntity)
  (b : Inherit) {struct fuel} : option (list string * list ASTEntity) :=
  match fuel with
  | O => None
  | S fuel' =>
      let '(seen, bases) := st in
      if str_eqb (expr b) "" then Some st
      else
        let baseName := extractTypeNameFromImportish (expr b) in
        if set_has baseName seen then Some st
        else
          match resolveBaseEntity path_resolve allEntities astNodes (expr b)
                  (i_location b) with
          | None => Some (set_add baseName seen, bases)
          | Some ent =>
              Tarjan.fold_opt (bases_in_order fuel') (own_inherits ent)
                (set_add baseName seen, bases ++ [ent])
          end
  end.

Definition visited_bases (startExpr : string) (startLoc : option Location)
  : option (list ASTEntity) :=
  snd <$> bases_in_order (2 + length allEntities + length astNodes) ([], [])
            (mkInherit startExpr startLoc None).

(** The names that resolve to an entity *)
Definition entity_names : gset string :=
  list_to_set (e_name <$> (allEntities ++ astNodes)).

(** How many of them have not been entered *)
Definition unseen (seen : list string) : nat :=
  size (entity_names ∖ list_to_set seen).

End Order.
End WalkOrder.

Module InheritanceSamples.
Import Inheritance WalkOrder.

Definition field (n type : string) : ASTProperty :=
  PPrimitive (prop_attrs n false) type.

Definition iface (n : string) (props : list ASTProperty) (bases : list string)
  : ASTEntity :=
  mkEntity n None false None
    (EInstance (Some "interface") props
       (match bases with
        | [] => None
        | _ => Some ((fun b => mkInherit b None None) <$> bases)
        end) []).

(** [D extends B, C], [B extends A], [C extends A]; [A] and [C] both
    declare [x]. *)
Definition diamond : list ASTEntity :=
  [iface "A" [field "id" "string"; field "x" "number"] [];
   iface "B" [field "b" "string"] ["A"];
   iface "C" [field "x" "string"; field "c" "string"] ["A"];
   iface "D" [field "d" "string"] ["B"; "C"]].

(** [P extends Q], [Q extends P] *)
Definition cycle : list ASTEntity :=
  [iface "P" [field "p" "string"] ["Q"];
   iface "Q" [field "q" "string"] ["P"]].

End InheritanceSamples.

(** ** The graph of an adjacency map and the invariants of [computeSCC] *)

Module Graph.
Import Analyzer Tarjan.

Section WithAdjacency.
Variable adj : Adjacency.

(** [y] is a member of the set that the map holds for [x]. *)
Definition edge (x y : string) : Prop := y ∈ successors adj x.

(** [y] is reachable from [x] along edges (in zero or more steps). *)
Definition reach : string -> string -> Prop := rtc edge.

(** The names that occur in the map: its keys and the members of the
    sets it holds for them. *)
Definition vertex (x : string) : Prop :=
  x ∈ omap_keys adj \/ exists k, edge k x.

(** A strongly connected component: a non-empty list of names that
    reach one another, and that holds every name mutually reachable
    with one of its members. *)
Definition is_scc (c : list string) : Prop :=
  c <> []
  /\ (forall x y, x ∈ c -> y ∈ c -> reach x y)
  /\ (forall x y, x ∈ c -> reach x y -> reach y x -> y ∈ c).

Definition finished (s : tstate) : list string := concat (sccs s).

(** The number of names not yet numbered *)
Definition unnumbered (s : tstate) : nat :=
  size (list_to_set (C := gset string) (names adj) ∖ dom (indices s)).

(** What holds of the state between two steps of the traversal *)
Record Inv (s : tstate) : Prop := mkInv {
  inv_stack : NoDup (stack s);
  inv_finished : NoDup (finished s);
  inv_apart : forall x, x ∈ stack s -> x ∉ finished s;
  inv_numbered :
    forall x, is_Some (indices s !! x) <-> x ∈ stack s \/ x ∈ finished s;
  inv_index : forall x i, indices s !! x = Some i -> i < index s;
  inv_onStack : forall x, x ∈ onStack s <-> x ∈ stack s;
  inv_lowlink :
    forall x, is_Some (indices s !! x) -> is_Some (lowlink s !! x);
  inv_closed : forall x y, x ∈ finished s -> edge x y -> y ∈ finished s;
  inv_sccs : forall c, c ∈ sccs s -> is_scc c;
  inv_vertex : forall x, is_Some (indices s !! x) -> vertex x
}.

(** The end of an edge is finished, or on the stack with a number that
    is at least [l]. *)
Definition target_ok (s : tstate) (l : nat) (y : string) : Prop :=
  y ∈ finished s
  \/ (y ∈ stack s /\ exists j, indices s !! y = Some j /\ l <= j).

(** A name pushed during the call for [u] (numbered [i], with lowlink
    [l]): it shares the component of [u], and its edges end well. *)
Definition node_ok (s : tstate) (u : string) (i l : nat) (x : string) : Prop :=
  reach u x /\ reach x u
  /\ (exists j, indices s !! x = Some j /\ i <= j)
  /\ forall y, edge x y -> target_ok s l y.

(** What the state of a call keeps of the state [s0] it started from *)
Record Extends (s0 s : tstate) : Prop := mkExtends {
  ext_indices : forall x i, indices s0 !! x = Some i -> indices s !! x = Some i;
  ext_lowlink :
    forall x, is_Some (indices s0 !! x) -> lowlink s !! x = lowlink s0 !! x;
  ext_finished : forall x, x ∈ finished s0 -> x ∈ finished s
}.

(** The invariant of the loop over the successors of [u], [visited]
    being the successors already handled *)
Record LoopInv (s0 : tstate) (u : string) (visited : list string)
  (s : tstate) : Prop := mkLoopInv {
  loop_inv : Inv s;
  loop_ext : Extends s0 s;
  loop_u : indices s !! u = Some (index s0);
  loop_shape :
    exists new l,
      stack s = new ++ u :: stack s0
      /\ lowlink s !! u = Some l
      /\ l <= index s0
      /\ (l = index s0
          \/ exists y, y ∈ stack s0 /\ indices s0 !! y = Some l /\ reach u y)
      /\ (forall x, x ∈ new -> node_ok s u (index s0) l x)
      /\ (forall w, w ∈ visited -> target_ok s l w)
}.

(** What holds after the call [strongconnect(v)] started in [s0] *)
Record Post (s0 : tstate) (v : string) (s : tstate) : Prop := mkPost {
  post_inv : Inv s;
  post_ext : Extends s0 s;
  post_v : indices s !! v = Some (index s0);
  post_shape :
    exists new l,
      stack s = new ++ stack s0
      /\ lowlink s !! v = Some l
      /\ l <= index s0
      /\ ((new = [] /\ l = index s0)
          \/ (l < index s0 /\ v ∈ new
              /\ exists y, y ∈ stack s0 /\ indices s0 !! y = Some l
                           /\ reach v y))
      /\ (forall x, x ∈ new -> node_ok s v (index s0) l x)
}.

(** The contract of a call of [strongconnect] with budget [fuel] *)
Definition call_ok (fuel : nat) : Prop :=
  forall v s,
    Inv s -> indices s !! v = None -> vertex v ->
    (forall x, x ∈ stack s -> reach x v) ->
    unnumbered s < fuel ->
    exists s', strongconnect fuel adj v s = Some s' /\ Post s v s'.

End WithAdjacency.
End Graph.

(** ** The references of a declaration *)

Module References.
Import Analyzer.

(** The names that the declaration [e] refers to, in the order in which
    [buildAdjacency] meets them: the references of its properties and
    then its bases, the references of its union members, its alias
    targets, the references of its array value. *)
Definition direct_refs (e : ASTEntity) : list string :=
  match e_body e with
  | EInstance _ properties inherits _ =>
      fold_left (fun acc p => collectRefsFromProp p acc) properties []
      ++ ((fun b => extractTypeNameFromImportish (expr b))
            <$> default [] inherits)
  | EUnion values => v ← values; collectRefsFromProp v []
  | EAlias entities => extractTypeNameFromImportish <$> entities
  | EArray value => collectRefsFromProp value []
  | _ => []
  end.

(** The declarations of [es] that carry the name [x] *)
Definition declared_as (x : string) (es : list ASTEntity) : list ASTEntity :=
  filter (fun e => e_name e = x) es.

End References.

(** ** Cycles of the reference graph *)

Module Cycles.
Import Analyzer Tarjan Graph Paths.

(** [x] lies on a cycle: an edge leaves [x] for a name from which [x]
    is reachable. *)
Definition on_cycle (adj : Adjacency) (x : string) : Prop :=
  exists y, edge adj x y /\ reach adj y x.

(** No key and no member of a set of the map is the empty string. *)
Definition no_empty_name (adj : Adjacency) : bool :=
  negb (set_has "" (names adj)).

(** Every array that the annotation of the entity visits has an
    element. *)
Definition entity_annotatable (e : ASTEntity) : bool :=
  match e_body e with
  | EInstance _ properties _ _ => forallb annotatable properties
  | EUnion values => forallb annotatable values
  | EArray value => annotatable value
  | _ => true
  end.

End Cycles.

(** ** Reachability ([reachableFrom] of [typemockr.ts]) *)

Module Reachability.
Import Analyzer.

(** [dfs], on its captured [visited]; the budget bounds the depth of
    the recursion. *)
Fixpoint dfs (fuel : nat) (adj : Adjacency) (visited : list string)
  (n : string) {struct fuel} : option (list string) :=
  match fuel with
  | O => None
  | S fuel' =>
      if set_has n visited then Some visited
      else
        let visited := set_add n visited in
        match omap_get n adj with
        | None => Some visited
        | Some outs => Tarjan.fold_opt (dfs fuel' adj) outs visited
        end
  end.

(** [s.delete(x)] *)
Definition set_delete (x : string) (s : list string) : list string :=
  filter (fun y => y <> x) s.

(** [reachableFrom(node)], on the memo table [reachMemo] that it reads
    and fills *)
Definition reachableFrom (adj : Adjacency)
  (reachMemo : gmap string (list string)) (node : string)
  : option (list string * gmap string (list string)) :=
  match reachMemo !! node with
  | Some visited => Some (visited, reachMemo)
  | None =>
      visited ← dfs (2 + length (Tarjan.names adj)) adj [] node;
      let hasSelf :=
        match omap_get node adj with
        | Some outs => set_has node outs
        | None => false
        end in
      let visited := if hasSelf then visited else set_delete node visited in
      Some (visited, <[node := visited]> reachMemo)
  end.

(** What a reach set holds: the names reachable from [node], [node]
    itself only when it has a self-edge. *)
Definition reach_set (adj : Adjacency) (node : string) (r : list string)
  : Prop :=
  forall x, x ∈ r <-> Graph.reach adj node x
                      /\ (x <> node \/ Graph.edge adj node node).

(** Every entry of the memo table is the reach set of its key. *)
Definition memo_ok (adj : Adjacency) (reachMemo : gmap string (list string))
  : Prop :=
  forall n r, reachMemo !! n = Some r -> reach_set adj n r.

(** The names still to be visited in a traversal from [root] *)
Definition unvisited (adj : Adjacency) (root : string)
  (visited : list string) : nat :=
  size (list_to_set (C := gset string) (root :: Tarjan.names adj)
        ∖ list_to_set visited).

(** The names that a traversal from [root] can meet *)
Definition known (adj : Adjacency) (root n : string) : Prop :=
  n = root \/ n ∈ Tarjan.names adj.

(** What a traversal started at [n] with [v] visited ends with: the
    names it adds are reachable from [n], and their edges end in
    visited names. *)
Record Visited (adj : Adjacency) (v : list string) (n : string)
  (v' : list string) : Prop := mkVisited {
  vis_keeps : forall x, x ∈ v -> x ∈ v';
  vis_start : n ∈ v';
  vis_sound : forall x, x ∈ v' -> x ∈ v \/ Graph.reach adj n x;
  vis_closed : forall x y, x ∈ v' -> x ∉ v -> Graph.edge adj x y -> y ∈ v';
  vis_nodup : NoDup v -> NoDup v'
}.

(** The function that the annotation receives: [reachableFrom] with a
    memo table that holds reach sets only, which it keeps doing. *)
Definition reachable (adj : Adjacency) (node : string) : list string :=
  match reachableFrom adj ∅ node with
  | Some (r, _) => r
  | None => []
  end.

End Reachability.

(** ** The nodes that the annotation visits, and its marks *)

Module Marks.
Import Analyzer Paths.

(** The path goes through fields that [annotatePropValue] descends
    into: the first element of an array, any element of another
    composite, the value of a type operator or a mapped type, the four
    types of a conditional. *)
Fixpoint visits (path : list nat) (v : ASTPropertyValue) : bool :=
  match path with
  | [] => true
  | i :: path' =>
      match v with
      | PComposite _ TArray (x :: _) => (i =? 0)%nat && visits path' x
      | PComposite _ TArray [] => false
      | PComposite _ _ vs =>
          match vs !! i with
          | Some x => visits path' x
          | None => false
          end
      | PTypeOperator _ _ x => (i =? 0)%nat && visits path' x
      | PMapped _ _ _ x => (i =? 1)%nat && visits path' x
      | PConditional _ c e t f =>
          match [c; e; t; f] !! i with
          | Some x => visits path' x
          | None => false
          end
      | _ => false
      end
  end.

(** [a] without the [recursiveEdge] mark *)
Definition clear (a : Attrs) : Attrs :=
  mkAttrs (name a) (optional a) false (location a).

(** The tree without any [recursiveEdge] mark *)
Fixpoint unmarked (v : ASTPropertyValue) : ASTPropertyValue :=
  match v with
  | PPrimitive a x => PPrimitive (clear a) x
  | PConstant a x => PConstant (clear a) x
  | PComposite a t vs => PComposite (clear a) t (map unmarked vs)
  | PIndexSignature a k x => PIndexSignature (clear a) (unmarked k) (unmarked x)
  | PFunction a x => PFunction (clear a) (unmarked x)
  | PReference a x => PReference (clear a) x
  | PTypeOperator a o x => PTypeOperator (clear a) o (unmarked x)
  | PMapped a p c x => PMapped (clear a) p (unmarked c) (unmarked x)
  | PConditional a c e t f =>
      PConditional (clear a) (unmarked c) (unmarked e) (unmarked t)
        (unmarked f)
  | PEnum a x => PEnum (clear a) x
  end.

(** The node at the end of [path] in [nv] is the reference to [value]
    with the fields of [a], marked when [a] is or when [leads]. *)
Definition reference_kept (leads : bool) (path : list nat)
  (nv : ASTPropertyValue) (a : Attrs) (value : string) : Prop :=
  exists a', node_at path nv = Some (PReference a' value)
             /\ clear a' = clear a
             /\ recursiveEdge a' = recursiveEdge a || leads.

(** Every array that the annotation visits has exactly one element, as
    the arrays that [typeToAST] builds have. *)
Fixpoint single_element_arrays (v : ASTPropertyValue) : bool :=
  match v with
  | PComposite _ TArray [x] => single_element_arrays x
  | PComposite _ TArray _ => false
  | PComposite _ _ vs => forallb single_element_arrays vs
  | PTypeOperator _ _ x => single_element_arrays x
  | PMapped _ _ _ x => single_element_arrays x
  | PConditional _ c e t f =>
      single_element_arrays c && single_element_arrays e
      && single_element_arrays t && single_element_arrays f
  | _ => true
  end.

(** At a place that the annotation visits, [v] holds a reference whose
    text satisfies [lead]. *)
Definition visits_reference (lead : string -> Prop) (v : ASTPropertyValue)
  : Prop :=
  exists path a value,
    visits path v = true
    /\ node_at path v = Some (PReference a value)
    /\ lead value.

End Marks.

(** ** The kinds kept for the names of a file *)

Module Selection.
Import Generation.

(** What the table [m] records for the declarations [data]: for a name
    that is declared, the kind of one of its declarations, of the
    highest precedence among them; nothing for another name. *)
Definition best_kinds (m : gmap string string) (data : list ASTEntity)
  : Prop :=
  forall n,
    match m !! n with
    | None => forall e, e ∈ data -> e_name e <> n
    | Some k =>
        (exists e, e ∈ data /\ e_name e = n /\ entity_type e = k)
        /\ forall e, e ∈ data -> e_name e = n ->
                     precedence (entity_type e) <= precedence k
    end.

End Selection.

(** ** The entries of a pattern table *)

Module TableShape.
Import Infer.

(** The entry maps a pattern to an expression (the new shape). *)
Definition holds_string (e : string * MapVal) : bool :=
  match snd e with
  | MStr _ => true
  | MArr _ => false
  end.

End TableShape.

(** ** The nodes that the synthesis of a value meets *)

Module Synthesis.

(** No function node is met by [generateValue] below [v]: it looks at
    the first element of an array and at the members of a union, an
    intersection or an object, and does not look below another node. *)
Fixpoint no_function_met (v : ASTPropertyValue) : bool :=
  match v with
  | PFunction _ _ => false
  | PComposite _ TArray (x :: _) => no_function_met x
  | PComposite _ TUnion vs | PComposite _ TIntersection vs
  | PComposite _ TObject vs => forallb no_function_met vs
  | _ => true
  end.

End Synthesis.

(** ** The loop of a repetition *)

Module Loop.

(** The iterations of [Star greedy r] with at most [n] of them left,
    [body] being the matcher of [r]: the loop that [Re.rmatch] runs
    with [n] the length of the input left. *)
Definition star_loop (greedy : bool)
  (body : (Re.mstate -> option Re.mstate) -> Re.mstate -> option Re.mstate)
  (k : Re.mstate -> option Re.mstate) : nat -> Re.mstate -> option Re.mstate :=
  fix loop (n : nat) (s : Re.mstate) {struct n} : option Re.mstate :=
    match n with
    | O => k s
    | S n' =>
        let more (_ : unit) :=
          body (fun s' => if (Re.pos s <? Re.pos s')%nat then loop n' s'
                          else None) s in
        if greedy then Re.or_else (more tt) (fun _ => k s)
        else Re.or_else (k s) more
    end.

End Loop.

(** ** Reading a pattern as a wildcard *)

Module Wildcard.
Import Infer.

(** The characters that [.] does not match *)
Definition line_end (c : ascii) : bool :=
  Ascii.eqb c "010"%char || Ascii.eqb c "013"%char.

(** The character [d] of a path is the character [c] of a pattern, up
    to the case of a letter. *)
Definition same_letter (c d : ascii) : bool :=
  Ascii.eqb (Str.to_lower d) (Str.to_lower c).

(** The path fits the pattern: a star stands for any run of characters
    that are not line ends, any other character for itself up to the
    case of a letter. *)
Fixpoint fits (pat : list ascii) : list ascii -> bool :=
  match pat with
  | [] => fun s => match s with [] => true | _ :: _ => false end
  | c :: pat' =>
      if Ascii.eqb c "*"%char then
        fix run (s : list ascii) : bool :=
          fits pat' s
          || match s with
             | d :: s' => negb (line_end d) && run s'
             | [] => false
             end
      else
        fun s =>
          match s with
          | d :: s' => same_letter c d && fits pat' s'
          | [] => false
          end
  end.

(** A character of the ASCII range that a pattern can hold without
    being read as regular-expression syntax: a dot, a star, or a
    character that is no syntax character. *)
Definition plain (c : ascii) : bool :=
  (nat_of_ascii c <? 128)%nat
  && (negb (syntax_char c) || Ascii.eqb c "."%char || Ascii.eqb c "*"%char).

Definition plain_pattern (pat : string) : bool :=
  forallb plain (Str.chars pat).

(** The regular expression of one character of a plain pattern *)
Definition token (c : ascii) : Re.regex :=
  if Ascii.eqb c "*"%char then Re.Star false Re.any else Re.chr_i c.

End Wildcard.

(** ** The entries of a pattern table *)

Module TableEntries.
Import Infer Wildcard.

(** The entry maps a pattern to the name of a member of
    [Object.prototype]. *)
Definition inherited_name (e : string * MapVal) : bool :=
  match snd e with
  | MStr g => set_has g object_prototype_names
  | MArr _ => false
  end.

(** The patterns of the entry are plain wildcard patterns: its key
    where it maps a pattern to an expression, the patterns it holds
    where it maps an expression to patterns. *)
Definition plain_entry (e : string * MapVal) : bool :=
  match snd e with
  | MStr _ => plain_pattern (fst e)
  | MArr ps => forallb plain_pattern ps
  end.

End TableEntries.

(** ** Type names ([extractTypeNameFromImportish]) *)

Module Names.
Import Analyzer.

(** The state of a match after the characters [w] have been read *)
Fixpoint run_over (w : list ascii) (s : Re.mstate) : Re.mstate :=
  match w with
  | [] => s
  | c :: w' => run_over w' (Re.step c (tail (Re.rest s)) s)
  end.

(** The text does not go on with a character of the class [p]. *)
Definition stops (p : ascii -> bool) (t : list ascii) : bool :=
  match t with
  | [] => true
  | d :: _ => negb (p d)
  end.

(** The text after the last dot of a text that holds a dot *)
Fixpoint after_last_dot (l : list ascii) : option (list ascii) :=
  match l with
  | [] => None
  | c :: t =>
      match after_last_dot t with
      | Some n => Some n
      | None => if Ascii.eqb c "."%char then Some t else None
      end
  end.

(** A non-empty run of the characters [A-Za-z0-9_] *)
Definition word (n : list ascii) : bool :=
  match n with
  | [] => false
  | _ :: _ => forallb Str.is_word n
  end.

(** The text after the last dot where it is a word, the whole text
    otherwise. *)
Definition last_segment (e : string) : string :=
  match after_last_dot (Str.chars e) with
  | Some n => if word n then Str.of_chars n else e
  | None => e
  end.

(** An identifier [[A-Za-z_$][A-Za-z0-9_$]*] *)
Definition identifier (n : list ascii) : bool :=
  match n with
  | [] => false
  | c :: n' => ident_start c && forallb ident_char n'
  end.

(** A module path between the brackets of [import(...)]: non-empty,
    without a closing bracket *)
Definition module_path (p : list ascii) : bool :=
  match p with
  | [] => false
  | _ :: _ => forallb (fun c => negb (Ascii.eqb c ")"%char)) p
  end.

End Names.

(** ** Output paths ([configureOutputPath] of typemockr.ts) *)

Module OutputPath.
Import Infer.

(** [new RegExp(source)] on the sources that [configureOutputPath]
    builds from directory names: literal characters, an escaped
    non-alphanumeric character and the dot.  [None]: the source uses
    other regular-expression syntax, which is not interpreted here. *)
Fixpoint parse_source (l : list ascii) : option (list Re.regex) :=
  match l with
  | [] => Some []
  | c :: l1 =>
      if Ascii.eqb c bs then
        match l1 with
        | d :: l2 =>
            if Str.is_alpha d || Str.is_digit d then None
            else (Re.chr d ::.) <$> parse_source l2
        | [] => None
        end
      else if Ascii.eqb c "."%char then (Re.any ::.) <$> parse_source l1
      else if syntax_char c then None
      else (Re.chr c ::.) <$> parse_source l1
  end.

(** [new RegExp(`^${dir}\/`)]: the template literal gives the source
    [^], [dir], [/]. *)
Definition dir_regexp (dir : string) : option Re.regex :=
  body ← parse_source (Str.chars dir ++ ["/"%char]);
  Some (Re.Seq Re.Bol (Re.seqs body)).

Definition configureOutputPath (destinationPath : string)
  (baseDir : list string) : option string :=
  fold_left (fun result dir =>
               result ← result;
               regexp ← dir_regexp dir;
               Some (Re.replace_first regexp (fun _ => ""%string) result))
    baseDir (Some destinationPath).

(** A directory name without regular-expression syntax *)
Definition plain_dir (dir : string) : bool :=
  forallb (fun c => negb (syntax_char c)) (Str.chars dir).

(** The path without its leading [dir/], or the path itself where it
    does not start with [dir/] *)
Definition strip_dir (result dir : string) : string :=
  let d := Str.chars dir ++ ["/"%char] in
  if Str.starts_with d (Str.chars result)
  then Str.of_chars (drop (length d) (Str.chars result))
  else result.

(** The text ends in a slash. *)
Definition ends_in_slash (dir : string) : bool :=
  match last (Str.chars dir) with
  | Some c => Ascii.eqb c "/"%char
  | None => false
  end.

End OutputPath.

(** ** The order of the components of [computeSCC] *)

Module Order.
Import Analyzer Tarjan Graph.

(** Every edge that leaves a name of a component of the list ends in
    that component or in a component listed before it. *)
Definition callee_first (adj : Adjacency) (l : list (list string)) : Prop :=
  forall pre c post,
    l = pre ++ c :: post ->
    forall x y, x ∈ c -> edge adj x y -> y ∈ c \/ y ∈ concat pre.

End Order.

(** ** An entity with a base, and a configuration with a provider only *)

Module InheritSamples.
Import Analyzer Infer.

Definition provider_only : Config :=
  mkConfig [] (Some (fun _ _ _ => Returns (Some "custom()"%string))).

Definition user_base : Inherit :=
  mkInherit "User" None
    (Some [PPrimitive (prop_attrs "email" false) "string"]).

Definition admin : ASTEntity :=
  mkEntity "Admin" None false None
    (EInstance None [PPrimitive (prop_attrs "level" false) "number"]
       (Some [user_base]) []).

End InheritSamples.

(** * Properties *)

(** ** Emission of union, function and recursive values *)

Section EmissionFacts.
Import Generation Infer.

Variable cfg : Config.
Variable includeTypes : bool.
Variable context : GenerationContext.

(** C10. Synthesizing a union with zero members gives the text
    [undefined] as the value, logs nothing and does not throw. *)
Theorem C10_empty_union_is_undefined (a : Attrs) (path : string) :
  generateValue cfg includeTypes context (PComposite a TUnion []) path
  = mkGen [] (Ok (Some "undefined")).
Proof. reflexivity. Qed.

(** The emitter of unions itself, whatever emitter it is given for
    the members. *)
Lemma generateUnionValue_nil gv (path : string) :
  generateUnionValue includeTypes context gv [] path = mkGen [] (Ok "undefined").
Proof. reflexivity. Qed.

(** What [generateValue] yields for a function node: the diagnostic,
    and [undefined] as the value. *)
Lemma generateValue_function (a : Attrs) (v : ASTPropertyValue) (path : string) :
  generateValue cfg includeTypes context (PFunction a v) path
  = mkGen ["Encountered function type in AST, omitting from mock output."]
      (Ok None).
Proof. reflexivity. Qed.
End EmissionFacts.

Section FunctionProperty.
Import Generation Infer.

Variable cfg : Config.
Variable data : list ASTEntity.
Variable includeTypes : bool.
Variable currentMockFilePath : option string.
Variable item : ASTEntity.

(** C8 (the code departs from the claim).  A function-typed property
    that is not optional is logged and then emitted all the same, as
    the line [    "name": undefined] of the factory. *)
Theorem C8_function_property_is_emitted
  (n : option string) (r : bool) (l : option Location)
  (v : ASTPropertyValue) :
  property_line cfg data includeTypes currentMockFilePath item
    (PFunction (mkAttrs n false r l) v)
  = mkGen ["Encountered function type in AST, omitting from mock output."]
      (Ok ("    " +:+ q (show n) +:+ ": undefined")).
Proof. reflexivity. Qed.

(** An optional function-typed property makes the emission throw. *)
Lemma optional_function_property_throws
  (n : option string) (r : bool) (l : option Location)
  (v : ASTPropertyValue) :
  property_line cfg data includeTypes currentMockFilePath item
    (PFunction (mkAttrs n true r l) v)
  = mkGen ["Encountered function type in AST, omitting from mock output."]
      (Throw "TypeError: Cannot read properties of undefined (reading 'trim')").
Proof. reflexivity. Qed.
End FunctionProperty.

Module Examples.
Import Generation Infer Samples.

(** The factory emitted for [Handler] names the property [cb]. *)
Lemma handler_factory_mentions_cb :
  exists text,
    gen_result (generate cfg0 [handler] false false None "js") = Ok text
    /\ Str.includes (q "cb" +:+ ": undefined") text = true.
Proof. eexists. split; [vm_compute; reflexivity | vm_compute; reflexivity]. Qed.
End Examples.

(** ** Depth guards *)

Lemma append_assoc (a b c : string) : (a +:+ b) +:+ c = a +:+ (b +:+ c).
Proof.
  induction a as [|x a IH]; [reflexivity|].
  change (String x ((a +:+ b) +:+ c) = String x (a +:+ (b +:+ c))).
  by rewrite IH.
Qed.

Section DepthGuards.
Import Generation Infer Emitted.

Variable includeTypes : bool.
Variable context : GenerationContext.
Variable gv : ASTPropertyValue -> string -> Gen (option string).


(** Inside an entity that has recursion, an array whose element is a
    reference marked [recursiveEdge] (and not named [__type]) is emitted
    under the guard [depth >= maxDepth ? empty : multiple(call)]. *)
Lemma flagged_array_element_is_guarded
  (a : Attrs) (refVal : string) (more : list ASTPropertyValue)
  (path : string) :
  recursiveEdge a = true ->
  entityHasRecursion context = true ->
  tailName refVal <> "__type" ->
  generateArrayValue includeTypes context gv
    (PReference a refVal :: more) path
  = mkGen []
      (Ok (conditional "depth >= maxDepth"
             (if includeTypes
              then "([] as " +:+ tailName refVal +:+ "[])" else "[]")
             (multiple
                (recursiveCall (tailName refVal)
                   (passOptsFor context (tailName refVal)))))).
Proof.
  intros Hrec Hent Hname. unfold generateArrayValue.
  assert (str_eqb (tailName refVal) "__type" = false) as ->
    by (unfold str_eqb; by rewrite bool_decide_eq_false).
  rewrite Hrec, Hent. simpl.
  unfold conditional, multiple.
  destruct includeTypes; simpl; unfold mret, gen_ret; do 2 f_equal;
    rewrite ?append_assoc; simpl; rewrite ?append_assoc; reflexivity.
Qed.

(** Under the same conditions a marked reference that is no generic
    parameter is emitted as the bare call of the target factory. *)
Lemma flagged_reference_is_a_bare_call (a : Attrs) (refVal : string) :
  recursiveEdge a = true ->
  entityHasRecursion context = true ->
  tailName refVal <> "__type" ->
  set_has (tailName refVal) (genericParamSet context) = false ->
  generateReferenceValue context a refVal
  = recursiveCall (tailName refVal)
      (set_has (tailName refVal) (typesWithOptions context)
       || str_eqb (tailName refVal) (entityName context)).
Proof.
  intros Hrec Hent Hname Hgen. unfold generateReferenceValue.
  assert (str_eqb (tailName refVal) "__type" = false) as ->
    by (unfold str_eqb; by rewrite bool_decide_eq_false).
  rewrite Hgen, Hrec, Hent. simpl. unfold recursiveCall.
  by destruct (_ || _).
Qed.
End DepthGuards.

Module DepthGuardExamples.
Import Generation Infer Samples Emitted.

(** The array of [interface Tree { kids: Tree[] }] is emitted under
    the guard. *)
Lemma tree_array_is_guarded :
  generateArrayValue false (context_of [tree] None tree)
    (generateValue cfg0 false (context_of [tree] None tree))
    [PReference (mkAttrs None false true None) "Tree"] "Tree.kids"
  = mkGen []
      (Ok (conditional "depth >= maxDepth" "[]"
             (multiple "MockTree({}, { depth: depth + 1, maxDepth })"))).
Proof. vm_compute. reflexivity. Qed.

(** C1 (the code departs from the claim).  The factory of [interface
    Chain { next: Chain }]: the edge [next] is marked recursive and the
    entity has recursion, and the call of [MockChain] in its body
    passes [depth + 1] under no test of the depth, where the array
    path of [generateArrayValue] guards such an edge: the emitted
    factory calls itself without bound. *)
Theorem C1_reference_edge_has_no_guard :
  hasRecursion chain = true
  /\ e_body chain
     = EInstance (Some "interface")
         [PReference (mkAttrs (Some "next") false true None) "Chain"] None []
  /\ exists text,
      generate cfg0 [chain] false true None "js" = mkGen [] (Ok text)
      /\ text = Str.join nl
           ["export function MockChain(overrides = {}, __options = {}) {";
            "  const { depth = 0, maxDepth = 2 } = __options;";
            "  const result = {";
            "        " +:+ q "next"
            +:+ ": MockChain({}, { depth: depth + 1, maxDepth })";
            "  };";
            "  return { ...result, ...overrides }";
            "}";
            ""]
      /\ Str.includes ">=" text = false.
Proof.
  split; [reflexivity|]. split; [reflexivity|].
  eexists. split; [vm_compute; reflexivity|].
  split; vm_compute; reflexivity.
Qed.
End DepthGuardExamples.

(** ** Stripping of unused options *)

Section Strip.
Import Generation Infer.

Lemma rmatch_chars_some (cs : list ascii) :
  forall (k : Re.mstate -> option Re.mstate) (s : Re.mstate),
    Str.starts_with cs (Re.rest s) = true ->
    (forall s', is_Some (k s')) ->
    is_Some (Re.rmatch (Re.seqs (map Re.chr cs)) k s).
Proof.
  induction cs as [|c cs IH]; intros k s Hs Hk; [apply Hk|].
  destruct s as [p pv l cp]; simpl in Hs.
  destruct l as [|d l]; [discriminate|].
  apply andb_true_iff in Hs as [Hc Hs].
  assert (Hstep : forall k', (forall s', is_Some (k' s')) ->
            is_Some (Re.rmatch (Re.chr c) k' (Re.MState p pv (d :: l) cp))).
  { intros k' Hk'. simpl. rewrite Hc. apply Hk'. }
  destruct cs as [|c' cs]; [by apply Hstep|].
  change (Re.seqs (map Re.chr (c :: c' :: cs)))
    with (Re.Seq (Re.chr c) (Re.seqs (map Re.chr (c' :: cs)))).
  simpl Re.rmatch at 1. rewrite Hc.
  apply IH; [exact Hs | exact Hk].
Qed.

Lemma rmatch_alt (a b : Re.regex) k s :
  Re.rmatch (Re.Alt a b) k s
  = Re.or_else (Re.rmatch a k s) (fun _ => Re.rmatch b k s).
Proof. reflexivity. Qed.

Lemma search_uses_options (l : list ascii) :
  forall p pv,
    Str.includes_chars (Str.chars "__options") l = true ->
    is_Some (Re.search_from re_uses_options p pv l).
Proof.
  induction l as [|c l IH]; intros p pv Hin.
  - simpl in Hin. discriminate.
  - cbn [Str.includes_chars] in Hin. apply orb_true_iff in Hin as [Hin|Hin].
    + unfold Re.search_from; fold Re.search_from.
      destruct (Re.rmatch re_uses_options Some _) eqn:Hm; [by eexists|].
      exfalso. unfold re_uses_options in Hm.
      rewrite !rmatch_alt in Hm. unfold Re.or_else in Hm.
      destruct (Re.rmatch (Re.seqs [Re.WordB; Re.lit "depth"; Re.WordB]) _ _);
        [discriminate|].
      destruct (Re.rmatch (Re.seqs [Re.WordB; Re.lit "maxDepth"; Re.WordB]) _ _);
        [discriminate|].
      pose proof (rmatch_chars_some (Str.chars "__options") Some
                    (Re.MState p pv (c :: l) []) Hin
                    (fun s' => ltac:(by eexists))) as [x Hx].
      unfold Re.lit in Hm. rewrite Hx in Hm. discriminate.
    + unfold Re.search_from; fold Re.search_from.
      destruct (Re.rmatch re_uses_options Some _); [by eexists|].
      by apply IH.
Qed.

(** A text that mentions [__options] anywhere, as the signature of a
    factory with an options parameter does, is returned as it is. *)
Lemma strip_keeps_text_with_options (text : string) :
  Str.includes "__options" text = true ->
  stripUnusedOptionsFromText text = text.
Proof.
  intros Hin. unfold stripUnusedOptionsFromText, Re.test, Re.search.
  by destruct (search_uses_options (Str.chars text) 0 None Hin) as [x ->].
Qed.
End Strip.

Module StripExamples.
Import Generation Infer Samples.

(** C9 (the code departs from the claim).  The factory of [interface
    Pair { both: [Pair, Pair] }] never uses [depth] or [maxDepth] in
    its body, and is emitted with the options parameter and the
    destructuring line all the same. *)
Theorem C9_dead_options_are_kept :
  generate cfg0 [pair] false true None "js"
  = mkGen ["Encountered unknown AST property type: tuple at path: Pair.both"]
      (Ok (Str.join nl
             ["export function MockPair(overrides = {}, __options = {}) {";
              "  const { depth = 0, maxDepth = 2 } = __options;";
              "  const result = {";
              "        " +:+ q "both" +:+ ": " +:+ q "/* TODO tuple */";
              "  };";
              "  return { ...result, ...overrides }";
              "}";
              ""])).
Proof. vm_compute. reflexivity. Qed.
End StripExamples.

(** ** Selection of the entities to emit *)

Module EmissionSelection.
Import Generation Infer Samples.

(** C7 (the code departs from the claim).  Of two entities that share
    a name and a kind, both are emitted. *)
Theorem C7_same_kind_duplicates_both_emitted :
  emitted [x_first; x_constant; x_second] = [x_first; x_second]
  /\ exists one two,
      gen_result (body cfg0 [x_first; x_constant; x_second] false true None "js")
      = Ok [one; two]
      /\ Str.includes "function MockX(" one = true
      /\ Str.includes "function MockX(" two = true.
Proof.
  split; [vm_compute; reflexivity|].
  eexists _, _. split; [vm_compute; reflexivity|].
  split; vm_compute; reflexivity.
Qed.

(** Of an instance and a constant of one name, the instance alone is
    emitted, in either order. *)
Lemma instance_wins_over_constant :
  emitted [x_constant; x_first] = [x_first]
  /\ emitted [x_first; x_constant] = [x_first].
Proof. split; vm_compute; reflexivity. Qed.
End EmissionSelection.

Section TableOrder.
Import Infer PatternOrder InferSamples.

Lemma str_eqb_eq (a b : string) : str_eqb a b = true <-> a = b.
Proof. unfold str_eqb. by rewrite bool_decide_eq_true. Qed.

Lemma str_eqb_refl (a : string) : str_eqb a a = true.
Proof. by apply str_eqb_eq. Qed.

Lemma str_eqb_ne (a b : string) : a <> b -> str_eqb a b = false.
Proof. unfold str_eqb. by rewrite bool_decide_eq_false. Qed.

Lemma set_has_elem (x : string) (s : list string) :
  set_has x s = true <-> x ∈ s.
Proof. unfold set_has. by rewrite bool_decide_eq_true. Qed.

Lemma set_has_not_elem (x : string) (s : list string) :
  set_has x s = false <-> x ∉ s.
Proof. unfold set_has. by rewrite bool_decide_eq_false. Qed.

Lemma elem_of_set_add (x y : string) (s : list string) :
  y ∈ set_add x s <-> y = x \/ y ∈ s.
Proof.
  unfold set_add. destruct (set_has x s) eqn:H.
  - apply set_has_elem in H. split; [by right|]. by intros [->|].
  - rewrite elem_of_app, list_elem_of_singleton. tauto.
Qed.

Lemma set_of_list_snoc (l : list string) (x : string) :
  set_of_list (l ++ [x]) = set_add x (set_of_list l).
Proof. unfold set_of_list. by rewrite fold_left_app. Qed.

Lemma elem_of_set_of_list (l : list string) (x : string) :
  x ∈ set_of_list l <-> x ∈ l.
Proof.
  induction l as [|y l IH] using rev_ind.
  - reflexivity.
  - rewrite set_of_list_snoc, elem_of_set_add, IH, elem_of_app,
      list_elem_of_singleton. tauto.
Qed.

Lemma NoDup_set_add (x : string) (s : list string) :
  NoDup s -> NoDup (set_add x s).
Proof.
  intros H. unfold set_add. destruct (set_has x s) eqn:E; [done|].
  apply set_has_not_elem in E. apply NoDup_app. split; [done|].
  split; [|apply NoDup_singleton].
  intros y Hy Hx. apply list_elem_of_singleton in Hx. by subst.
Qed.

Lemma NoDup_set_of_list (l : list string) : NoDup (set_of_list l).
Proof.
  induction l as [|y l IH] using rev_ind; [constructor|].
  rewrite set_of_list_snoc. by apply NoDup_set_add.
Qed.

(** *** [Object.entries] without array-index keys *)


Lemma filter_none {A} (P : A -> Prop) `{!forall x, Decision (P x)}
  (l : list A) :
  (forall x, x ∈ l -> ~ P x) -> filter P l = [].
Proof.
  induction l as [|x l IH]; intros Hn; [done|].
  rewrite filter_cons. destruct (decide (P x)) as [HP|_].
  - exfalso. by apply (Hn x); [left|].
  - apply IH. intros y Hy. apply Hn. by right.
Qed.

(** *** The normalized table *)

Lemma omap_get_fmap_in (F : string -> string * list string) (ks : list string)
  (g : string) :
  (forall k, fst (F k) = k) -> g ∈ ks ->
  omap_get g (F <$> ks) = Some (snd (F g)).
Proof.
  intros HF. induction ks as [|k ks IH]; intros Hin; [by inversion Hin|].
  simpl. destruct (F k) as [k' v] eqn:E.
  assert (k' = k) as -> by (by rewrite <- (HF k), E).
  destruct (decide (k = g)) as [->|Hne].
  - by rewrite str_eqb_refl, E.
  - rewrite str_eqb_ne by done. apply IH.
    apply elem_of_cons in Hin as [->|]; done.
Qed.

Lemma omap_get_fmap_out (F : string -> string * list string)
  (ks : list string) (g : string) :
  (forall k, fst (F k) = k) -> g ∉ ks -> omap_get g (F <$> ks) = None.
Proof.
  intros HF. induction ks as [|k ks IH]; intros Hin; [done|].
  simpl. destruct (F k) as [k' v] eqn:E.
  assert (k' = k) as -> by (by rewrite <- (HF k), E).
  apply not_elem_of_cons in Hin as [Hne Hin].
  rewrite str_eqb_ne by done. by apply IH.
Qed.

Lemma omap_set_fmap_in (F F' : string -> string * list string)
  (ks : list string) (g : string) (v : list string) :
  (forall k, fst (F k) = k) -> NoDup ks -> g ∈ ks ->
  F' g = (g, v) -> (forall k, k <> g -> F' k = F k) ->
  omap_set g v (F <$> ks) = F' <$> ks.
Proof.
  intros HF Hnd Hin Hg Hother.
  induction ks as [|k ks IH]; [by inversion Hin|].
  simpl. destruct (F k) as [k' w] eqn:E.
  assert (k' = k) as -> by (by rewrite <- (HF k), E).
  apply NoDup_cons in Hnd as [Hk Hnd].
  destruct (decide (k = g)) as [->|Hne].
  - rewrite str_eqb_refl, Hg. f_equal.
    apply list_fmap_ext. intros i k Hik. symmetry. apply Hother.
    intros ->. apply Hk. by eapply list_elem_of_lookup_2.
  - rewrite str_eqb_ne by done. rewrite (Hother k Hne), E. f_equal.
    apply IH; [done|]. apply elem_of_cons in Hin as [->|]; done.
Qed.

Lemma omap_set_fmap_out (F F' : string -> string * list string)
  (ks : list string) (g : string) (v : list string) :
  (forall k, fst (F k) = k) -> g ∉ ks ->
  F' g = (g, v) -> (forall k, k <> g -> F' k = F k) ->
  omap_set g v (F <$> ks) = F' <$> (ks ++ [g]).
Proof.
  intros HF Hin Hg Hother.
  induction ks as [|k ks IH]; [simpl; by rewrite Hg|].
  simpl. destruct (F k) as [k' w] eqn:E.
  assert (k' = k) as -> by (by rewrite <- (HF k), E).
  apply not_elem_of_cons in Hin as [Hne Hin].
  rewrite str_eqb_ne by done. rewrite (Hother k) by done. rewrite E. f_equal.
  by apply IH.
Qed.

Lemma normalize_from_snoc (es : list (string * MapVal))
  (e : string * MapVal) :
  forall acc,
    normalize_from acc (es ++ [e])
    = match normalize_from acc es with
      | Ok n =>
          match snd e with
          | MStr g => push_pattern n g (fst e)
          | MArr _ => Ok n
          end
      | Throw msg => Throw msg
      end.
Proof.
  induction es as [|[p v] es IH]; intros acc.
  - simpl. destruct e as [p [g|ps]]; simpl; [|done].
    by destruct (push_pattern acc g p).
  - simpl. destruct v as [g|ps]; [|apply IH].
    destruct (push_pattern acc g p) as [n|msg]; simpl; [apply IH|done].
Qed.

Lemma string_entries_snoc (m : list (string * MapVal)) (e : string * MapVal) :
  string_entries (m ++ [e])
  = string_entries m
    ++ match snd e with
       | MStr g => [(fst e, g)]
       | MArr _ => []
       end.
Proof.
  unfold string_entries. rewrite bind_app. f_equal. simpl.
  by rewrite app_nil_r.
Qed.

Lemma normalize_new_groups (m : list (string * MapVal)) :
  forall normalized,
    normalize_new m = Ok normalized ->
    normalized
    = group_of (string_entries m) <$> expressions (string_entries m).
Proof.
  unfold normalize_new.
  induction m as [|[p v] m IH] using rev_ind; intros normalized H.
  - by injection H as <-.
  - rewrite normalize_from_snoc in H.
    destruct (normalize_from [] m) as [n0|] eqn:Hn; [|done].
    specialize (IH n0 eq_refl). rewrite string_entries_snoc. simpl in *.
    destruct v as [g|ps].
    2:{ injection H as <-. by rewrite app_nil_r. }
    subst n0. set (t := string_entries m) in *.
    unfold push_pattern in H. unfold expressions.
    rewrite fmap_app. simpl. rewrite set_of_list_snoc.
    fold (expressions t).
    assert (Hf : forall g', group_of (t ++ [(p, g)]) g'
              = (g', snd (group_of t g')
                     ++ (if decide (g = g') then [p] else []))).
    { intros g'. unfold group_of. rewrite filter_app, fmap_app. simpl.
      f_equal. f_equal. rewrite filter_cons. simpl.
      repeat destruct (decide _); subst; done. }
    destruct (decide (g ∈ expressions t)) as [Hin|Hout].
    + rewrite (omap_get_fmap_in (group_of t)) in H by done.
      injection H as <-.
      unfold set_add. apply set_has_elem in Hin as Hin'. rewrite Hin'.
      apply omap_set_fmap_in; try done.
      * apply NoDup_set_of_list.
      * rewrite Hf. by rewrite decide_True.
      * intros k Hk. rewrite Hf. rewrite decide_False by done.
        rewrite app_nil_r. reflexivity.
    + rewrite (omap_get_fmap_out (group_of t)) in H by done.
      destruct (set_has g object_prototype_names); [done|].
      injection H as <-.
      unfold set_add. apply set_has_not_elem in Hout as Hout'. rewrite Hout'.
      apply omap_set_fmap_out; try done.
      * rewrite Hf, decide_True by done. f_equal.
        unfold group_of. simpl.
        assert (filter (fun e => snd e = g) t = []) as ->; [|done].
        apply filter_none. intros e He Heq.
        apply Hout. apply elem_of_set_of_list. rewrite <- Heq.
        by apply list_elem_of_fmap_2.
      * intros k Hk. rewrite Hf. rewrite decide_False by done.
        rewrite app_nil_r. reflexivity.
Qed.






Lemma set_of_list_NoDup (l : list string) : NoDup l -> set_of_list l = l.
Proof.
  induction l as [|x l IH] using rev_ind; [done|].
  intros [Hl [Hx _]]%NoDup_app. rewrite set_of_list_snoc, IH by done.
  unfold set_add. assert (set_has x l = false) as ->; [|done].
  apply set_has_not_elem. intros Hin. by apply (Hx x), list_elem_of_singleton.
Qed.


Lemma elem_of_string_entries (m : list (string * MapVal)) (p g : string) :
  (p, g) ∈ string_entries m <-> (p, MStr g) ∈ m.
Proof.
  unfold string_entries. rewrite list_elem_of_bind. split.
  - intros ([k v] & Hin & Hm). destruct v as [x|ps]; simpl in Hin.
    + apply list_elem_of_singleton in Hin. by injection Hin as -> ->.
    + by inversion Hin.
  - intros Hm. exists (p, MStr g). split; [by left|done].
Qed.





(** The same entries in a table that maps expressions to patterns are
    scanned as they are declared. *)
Lemma legacy_table_keeps_its_order :
  exists ms,
    setMappings (Some [("A", MArr ["*.id"]); ("B", MArr ["*.name"]);
                       ("C", MArr ["User.*"])]) = Returned ms
    /\ getFakerGenerator (mkConfig ms None) "string" "User.name" ctx0
       = mkGen [] (Ok "B").
Proof. eexists. split; [reflexivity|]. vm_compute. reflexivity. Qed.

(** An expression that names a member of [Object.prototype] makes the
    call throw. *)
Lemma inherited_name_throws :
  setMappings (Some (new_style [("*.id", "constructor")]))
  = Thrown "TypeError: normalized[g].push is not a function".
Proof. reflexivity. Qed.

(** For a path that no pattern matches the default of the declared
    kind is returned. *)
Lemma unmatched_path_gets_default :
  getFakerGenerator (mkConfig (compiled id_table) None) "string"
    "User.identifier" ctx0
  = mkGen [] (Ok "faker.lorem.words()").
Proof. vm_compute. reflexivity. Qed.
End TableOrder.

Section Resolution.
Import Infer PatternOrder InferSamples.

Lemma default_is_kind_default (type : string) :
  default_for type = kind_default type.
Proof.
  unfold default_for, kind_default, kind_defaults.
  repeat match goal with
         | |- context [str_eqb type ?k] =>
             let E := fresh "E" in
             destruct (str_eqb type k) eqn:E;
             [apply str_eqb_eq in E; subst type; reflexivity|]
         end.
  cbn [omap_get]. 
  repeat match goal with
         | H : str_eqb type ?k = false |- context [str_eqb ?k type] =>
             replace (str_eqb k type) with false
               by (symmetry; apply str_eqb_ne; intros Heq; subst type;
                   by rewrite str_eqb_refl in H)
         end.
  reflexivity.
Qed.

Lemma static_falls_back (cfg : Config) (type path : string) :
  falls_back (matchers cfg) type path (staticGenerator cfg type path).
Proof.
  unfold falls_back, staticGenerator.
  destruct (inferGenerator (matchers cfg) path) as [g|].
  - split; [|split; [|done]].
    + intros g' [= <-] Hne Hkind. rewrite str_eqb_ne by done.
      unfold kind_mismatch in Hkind.
      destruct (str_eqb type "number"), (str_eqb type "date"),
        (str_eqb type "boolean"); simpl in *; by rewrite ?Hkind.
    + intros g' [= <-] [->|Hkind].
      * rewrite str_eqb_refl. apply default_is_kind_default.
      * destruct (str_eqb g "") eqn:Hg; [apply default_is_kind_default|].
        unfold kind_mismatch in Hkind.
        apply andb_true_iff in Hkind as [Hk Ht]. rewrite Ht.
        destruct (str_eqb type "number") eqn:E1;
          [apply str_eqb_eq in E1; by subst|].
        destruct (str_eqb type "date") eqn:E2;
          [apply str_eqb_eq in E2; by subst|].
        destruct (str_eqb type "boolean") eqn:E3;
          [apply str_eqb_eq in E3; by subst|done].
  - split; [done|]. split; [done|]. intros _. apply default_is_kind_default.
Qed.

(** ** Resolution of a generator expression *)

(** C5. An answer of the override callback is used as it is, whatever
    the pattern table holds.  When the callback throws, the fault is
    logged, nothing is thrown, and the result is the one of the
    pattern table and the defaults of the kinds: the expression of the
    first matcher whose regex matches the path, where it is not empty
    and passes the kind check, and the default of the declared kind
    otherwise; when the callback answers [undefined] or [null] the
    result is the same, and nothing is logged. *)
Theorem C5_override_wins_and_faults_are_isolated
  (cfg : Config) (provider : Provider) (type path : string)
  (ctx : GenerationContext) :
  mappingProviderFunc cfg = Some provider ->
  (forall v, provider type path ctx = Returns (Some v) ->
             getFakerGenerator cfg type path ctx = mkGen [] (Ok v))
  /\ (forall err, provider type path ctx = Throws err ->
        exists v,
          getFakerGenerator cfg type path ctx
          = mkGen ["mappingProvider threw: " +:+ err] (Ok v)
          /\ falls_back (matchers cfg) type path v)
  /\ (provider type path ctx = Returns None ->
        exists v,
          getFakerGenerator cfg type path ctx = mkGen [] (Ok v)
          /\ falls_back (matchers cfg) type path v).
Proof.
  intros Hp. unfold getFakerGenerator. rewrite Hp. split; [|split].
  - by intros v ->.
  - intros err ->. eexists. split; [reflexivity|]. apply static_falls_back.
  - intros ->. eexists. split; [reflexivity|]. apply static_falls_back.
Qed.

Lemma C5_override_wins_and_faults_are_isolated_witness :
  mappingProviderFunc (mkConfig (compiled id_table) (Some moody))
  = Some moody
  /\ getFakerGenerator (mkConfig (compiled id_table) (Some moody))
       "string" "User.id" ctx0
     = mkGen [] (Ok "custom()")
  /\ getFakerGenerator (mkConfig (compiled id_table) (Some moody))
       "string" "Order.id" ctx0
     = mkGen ["mappingProvider threw: boom"] (Ok "uuid-expr")
  /\ getFakerGenerator (mkConfig (compiled id_table) (Some moody))
       "number" "Order.total" ctx0
     = mkGen ["mappingProvider threw: boom"] (Ok "faker.number.int(10000)").
Proof.
  assert (H : mappingProviderFunc
                (mkConfig (compiled id_table) (Some moody))
              = Some moody) by reflexivity.
  split; [exact H|]. split; [|split].
  - exact (proj1 (C5_override_wins_and_faults_are_isolated _ _ "string"
                    "User.id" ctx0 H) "custom()" eq_refl).
  - destruct (proj1 (proj2 (C5_override_wins_and_faults_are_isolated _ _
                              "string" "Order.id" ctx0 H)) "boom" eq_refl)
      as (v & -> & Hv & _).
    simpl in Hv. rewrite (Hv "uuid-expr"); [done| |done|].
    + vm_compute. reflexivity.
    + vm_compute. reflexivity.
  - destruct (proj1 (proj2 (C5_override_wins_and_faults_are_isolated _ _
                              "number" "Order.total" ctx0 H)) "boom" eq_refl)
      as (v & -> & _ & _ & Hv).
    simpl in Hv. rewrite Hv; [done|]. vm_compute. reflexivity.
Defined.

(** A throwing provider leaves the static answer in place. *)
Lemma faulty_provider_falls_back :
  getFakerGenerator (mkConfig (compiled id_table) (Some faulty))
    "string" "User.id" ctx0
  = mkGen ["mappingProvider threw: boom"] (Ok "uuid-expr").
Proof. vm_compute. reflexivity. Qed.
End Resolution.


(** ** The adjacency map and the marks of the annotator *)

Section ValueInduction.
Variable P : ASTPropertyValue -> Prop.
Hypothesis Hprimitive : forall a s, P (PPrimitive a s).
Hypothesis Hconstant : forall a l, P (PConstant a l).
Hypothesis Hcomposite : forall a t vs, Forall P vs -> P (PComposite a t vs).
Hypothesis HindexSignature :
  forall a k v, P k -> P v -> P (PIndexSignature a k v).
Hypothesis Hfunction : forall a v, P v -> P (PFunction a v).
Hypothesis Hreference : forall a s, P (PReference a s).
Hypothesis HtypeOperator : forall a o v, P v -> P (PTypeOperator a o v).
Hypothesis Hmapped : forall a p c v, P c -> P v -> P (PMapped a p c v).
Hypothesis Hconditional :
  forall a c e t f, P c -> P e -> P t -> P f -> P (PConditional a c e t f).
Hypothesis Henum : forall a vs, P (PEnum a vs).

(** Induction on a value tree, with the property known of every member
    of a composite. *)
Lemma value_ind : forall v, P v.
Proof.
  fix IH 1. intros [a s|a l|a t vs|a k v|a v|a s|a o v|a p c v|a c e t f|a vs].
  - apply Hprimitive.
  - apply Hconstant.
  - apply Hcomposite. induction vs as [|x vs IHvs]; constructor; [apply IH | exact IHvs].
  - apply HindexSignature; apply IH.
  - apply Hfunction; apply IH.
  - apply Hreference.
  - apply HtypeOperator; apply IH.
  - apply Hmapped; apply IH.
  - apply Hconditional; apply IH.
  - apply Henum.
Qed.
End ValueInduction.

Section AdjacencyFacts.
Import Analyzer Paths.
Local Opaque extractTypeNameFromImportish.

Lemma omap_get_set {V} (k k' : string) (v : V) (m : list (string * V)) :
  omap_get k' (omap_set k v m)
  = if decide (k = k') then Some v else omap_get k' m.
Proof.
  induction m as [|[k0 v0] m IH]; simpl.
  - destruct (decide (k = k')) as [->|Hne];
      [by rewrite str_eqb_refl | by rewrite str_eqb_ne].
  - destruct (decide (k0 = k)) as [->|Hne0].
    + rewrite str_eqb_refl. simpl.
      destruct (decide (k = k')) as [->|Hne];
        [by rewrite str_eqb_refl | by rewrite str_eqb_ne].
    + rewrite (str_eqb_ne k0 k) by done. simpl. rewrite IH.
      destruct (decide (k0 = k')) as [->|Hne1].
      * rewrite str_eqb_refl. by rewrite decide_False by done.
      * by rewrite (str_eqb_ne k0 k').
Qed.

Lemma successors_set (k k' : string) (v : list string) (adj : Adjacency) :
  successors (omap_set k v adj) k'
  = if decide (k = k') then v else successors adj k'.
Proof. unfold successors. rewrite omap_get_set. by destruct (decide _). Qed.

Lemma successors_ensure (k k' : string) (adj : Adjacency) :
  successors (ensure k adj) k' = successors adj k'.
Proof.
  unfold ensure, omap_has. destruct (omap_get k adj) eqn:E; [done|].
  rewrite successors_set. destruct (decide (k = k')) as [<-|]; [|done].
  unfold successors. by rewrite E.
Qed.

Lemma successors_addEdge (from to k : string) (adj : Adjacency) :
  successors (addEdge from to adj) k
  = if decide (from = k) then set_add to (successors adj from)
    else successors adj k.
Proof.
  unfold addEdge. rewrite successors_set, !successors_ensure.
  reflexivity.
Qed.

Lemma collect_composite a t vs acc :
  collectRefsFromProp (PComposite a t vs) acc
  = fold_left (fun acc v => collectRefsFromProp v acc) vs acc.
Proof.
  simpl. revert acc. induction vs as [|v vs IH]; intros acc; [done|].
  simpl. apply IH.
Qed.

Lemma fold_left_grows {A} (f : list string -> A -> list string)
  (l : list A) (acc : list string) (x : string) :
  (forall a acc, a ∈ l -> x ∈ acc -> x ∈ f acc a) ->
  x ∈ acc -> x ∈ fold_left f l acc.
Proof.
  revert acc. induction l as [|a l IH]; intros acc Hf Hx; [done|].
  simpl. apply IH.
  - intros b acc' Hb. apply Hf. by right.
  - apply Hf; [by left | done].
Qed.

Lemma collect_grows (v : ASTPropertyValue) :
  forall acc x, x ∈ acc -> x ∈ collectRefsFromProp v acc.
Proof.
  induction v as [| |a t vs IH| | | a s| a o v IH| a p c v _ IH
                  | a c e t f _ _ IH _| ] using value_ind;
    intros acc x Hx; try done.
  - rewrite collect_composite. apply fold_left_grows; [|done].
    intros v acc' Hv. rewrite Forall_forall in IH. by apply IH.
  - simpl. destruct (_ && _); [|done]. apply elem_of_set_add. by right.
  - by apply IH.
  - by apply IH.
  - by apply IH.
Qed.

Lemma collect_finds (target : string) (path : list nat) :
  forall v r acc,
    walkable path v = true -> node_at path v = Some r ->
    refers_to target r = true ->
    target ∈ collectRefsFromProp v acc.
Proof.
  induction path as [|i path IH]; intros v r acc Hw Hn Hr.
  - simpl in Hn. injection Hn as <-. destruct v; try discriminate.
    simpl in Hr. apply andb_true_iff in Hr as [Hr He].
    simpl. rewrite Hr. apply str_eqb_eq in He. rewrite He.
    apply elem_of_set_add. by left.
  - destruct v as [| |a t vs| | | | a o v| a p c v| a c e t f| ];
      try discriminate.
    + rewrite collect_composite.
      assert (Hx : exists x, vs !! i = Some x /\ walkable path x = true).
      { simpl in Hw. destruct t.
        1,2,4,5,6,7:
          (destruct (vs !! i) as [x|] eqn:E; [by exists x | discriminate]).
        destruct vs as [|x vs]; [discriminate|].
        apply andb_true_iff in Hw as [Hi Hw]. apply Nat.eqb_eq in Hi as ->.
        by exists x. }
      destruct Hx as (x & Hi & Hwx).
      simpl in Hn. rewrite Hi in Hn.
      apply list_elem_of_split_length in Hi as (pre & post & -> & _).
      rewrite fold_left_app. simpl.
      apply fold_left_grows; [intros; by apply collect_grows|].
      by eapply IH.
    + simpl in Hw. apply andb_true_iff in Hw as [Hi Hw].
      apply Nat.eqb_eq in Hi as ->. simpl in Hn. simpl. by eapply IH.
    + simpl in Hw. apply andb_true_iff in Hw as [Hi Hw].
      apply Nat.eqb_eq in Hi as ->. simpl in Hn. simpl. by eapply IH.
    + simpl in Hw. apply andb_true_iff in Hw as [Hi Hw].
      apply Nat.eqb_eq in Hi as ->. simpl in Hn. simpl. by eapply IH.
Qed.
End AdjacencyFacts.

Section GraphOfEntities.
Import Analyzer Paths.
Local Opaque extractTypeNameFromImportish.

Lemma fold_left_keeps {A B} (Q : A -> Prop) (f : A -> B -> A) (l : list B)
  (a : A) :
  (forall a b, b ∈ l -> Q a -> Q (f a b)) -> Q a -> Q (fold_left f l a).
Proof.
  revert a. induction l as [|b l IH]; intros a Hf Ha; [done|].
  simpl. apply IH.
  - intros a' b' Hb'. apply Hf. by right.
  - apply Hf; [by left | done].
Qed.

Lemma addEdge_grows (from to k x : string) (adj : Adjacency) :
  x ∈ successors adj k -> x ∈ successors (addEdge from to adj) k.
Proof.
  intros Hx. rewrite successors_addEdge.
  destruct (decide (from = k)) as [->|]; [|done].
  apply elem_of_set_add. by right.
Qed.

Lemma step_grows (adj : Adjacency) (e : ASTEntity) (k x : string) :
  x ∈ successors adj k -> x ∈ successors (buildAdjacency_step adj e) k.
Proof.
  intros Hx. unfold buildAdjacency_step.
  assert (He : x ∈ successors (ensure (e_name e) adj) k)
    by (by rewrite successors_ensure).
  destruct (e_body e); try done.
  - apply (fold_left_keeps (fun adj => x ∈ successors adj k)).
    { intros; by apply addEdge_grows. }
    apply (fold_left_keeps (fun adj => x ∈ successors adj k)); [|done].
    intros adj' p _ Hadj. rewrite successors_set.
    destruct (decide (e_name e = k)) as [->|]; [|done].
    by apply collect_grows.
  - apply (fold_left_keeps (fun adj => x ∈ successors adj k)); [|done].
    intros adj' v _ Hadj.
    apply (fold_left_keeps (fun adj => x ∈ successors adj k)); [|done].
    intros; by apply addEdge_grows.
  - apply (fold_left_keeps (fun adj => x ∈ successors adj k)); [|done].
    intros; by apply addEdge_grows.
  - apply (fold_left_keeps (fun adj => x ∈ successors adj k)); [|done].
    intros; by apply addEdge_grows.
Qed.

Lemma buildAdjacency_self_edge (entities : list ASTEntity) (E : ASTEntity)
  k props inh g (p : ASTPropertyValue) :
  E ∈ entities -> e_body E = EInstance k props inh g -> p ∈ props ->
  (forall acc, e_name E ∈ collectRefsFromProp p acc) ->
  e_name E ∈ successors (buildAdjacency entities) (e_name E).
Proof.
  intros HE Hbody Hp Hcollect.
  apply list_elem_of_split in HE as (pre & post & ->).
  apply list_elem_of_split in Hp as (ppre & ppost & ->).
  unfold buildAdjacency. rewrite fold_left_app. simpl.
  apply (fold_left_keeps (fun adj => e_name E ∈ successors adj (e_name E))).
  { intros; by apply step_grows. }
  unfold buildAdjacency_step at 1. rewrite Hbody.
  apply (fold_left_keeps (fun adj => e_name E ∈ successors adj (e_name E))).
  { intros; by apply addEdge_grows. }
  rewrite fold_left_app. simpl.
  apply (fold_left_keeps (fun adj => e_name E ∈ successors adj (e_name E))).
  { intros adj' q _ Hadj. rewrite successors_set, decide_True by done.
    by apply collect_grows. }
  rewrite successors_set, decide_True by done. apply Hcollect.
Qed.
End GraphOfEntities.

Section Marks.
Import Analyzer Annotate Paths.
Local Opaque extractTypeNameFromImportish.

Lemma buildNodeToScc_member (sccs : list (list string)) (n : string)
  (s : list string) :
  buildNodeToScc sccs !! n = Some s -> n ∈ s.
Proof.
  unfold buildNodeToScc. revert n s.
  apply (fold_left_keeps
           (fun m : gmap string (list string) =>
              forall n s, m !! n = Some s -> n ∈ s)).
  - intros m comp _ Hm.
    assert (Hsub : forall l, l ⊆ comp ->
              forall n s,
                fold_left (fun m n => <[n := set_of_list comp]> m) l m !! n
                = Some s -> n ∈ s).
    { intros l Hl.
      apply (fold_left_keeps
               (fun m : gmap string (list string) =>
                  forall n s, m !! n = Some s -> n ∈ s)); [|exact Hm].
      intros m' x Hx Hm' n s. rewrite lookup_insert.
      destruct (decide (x = n)) as [->|]; [|apply Hm'].
      intros [= <-]. apply elem_of_set_of_list. by apply Hl. }
    by apply Hsub.
  - intros n s. by rewrite lookup_empty.
Qed.

Variable entityName : string.
Variable adj : Adjacency.
Variable nodeToScc : gmap string (list string).
Variable reachableFrom : string -> list string.
Hypothesis Hmember : forall s, nodeToScc !! entityName = Some s -> entityName ∈ s.
Hypothesis Hrec : inRecursion entityName adj nodeToScc = true.

Lemma canLead_self :
  canLeadToRecursionFrom entityName adj nodeToScc reachableFrom entityName
  = true.
Proof.
  unfold canLeadToRecursionFrom. rewrite Hrec. simpl.
  assert (set_has entityName (targetSet entityName nodeToScc) = true) as ->;
    [|done].
  apply set_has_elem. unfold targetSet, scc.
  destruct (nodeToScc !! entityName) as [[|y s]|] eqn:E; simpl;
    [by left | by apply Hmember | by left].
Qed.

Local Abbreviation annV :=
  (annotatePropValue entityName adj nodeToScc reachableFrom).

Lemma annotate_members_lookup (f : ASTPropertyValue -> Res (ASTPropertyValue * bool))
  (xs nxs : list ASTPropertyValue) (anyLead : bool) :
  annotate_members f xs = Ok (nxs, anyLead) ->
  forall i x, xs !! i = Some x ->
    exists nx l, f x = Ok (nx, l) /\ nxs !! i = Some nx
                 /\ (l = true -> anyLead = true).
Proof.
  revert nxs anyLead. induction xs as [|y xs IH]; intros nxs anyLead H i x Hi;
    [done|].
  simpl in H. destruct (f y) as [[ny ly]|] eqn:Hy; [|done]. simpl in H.
  destruct (annotate_members f xs) as [[nys lys]|] eqn:Hys; [|done].
  simpl in H. injection H as <- <-.
  destruct i as [|i]; simpl in Hi.
  - injection Hi as <-. exists ny, ly. split; [done|]. split; [done|].
    by intros ->.
  - destruct (IH nys lys eq_refl i x Hi) as (nx & l & Hx & Hn & Hl).
    exists nx, l. split; [done|]. split; [done|].
    intros ->. rewrite Hl by done. by destruct ly.
Qed.

Lemma annotate_members_total (f : ASTPropertyValue -> Res (ASTPropertyValue * bool))
  (xs : list ASTPropertyValue) :
  Forall (fun x => exists r, f x = Ok r) xs ->
  exists r, annotate_members f xs = Ok r.
Proof.
  induction 1 as [|x xs [[nx l] Hx] _ [[nxs ls] IH]]; [by eexists|].
  simpl. rewrite Hx. simpl. rewrite IH. simpl. by eexists.
Qed.

Lemma annotate_total (v : ASTPropertyValue) :
  annotatable v = true -> exists r, annV v = Ok r.
Proof.
  induction v as [| |a t vs IH| | | a s| a o v IH| a p c v _ IH
                  | a c e t f IHc IHe IHt IHf| ] using value_ind;
    intros Hv; try (by eexists).
  - assert (Hall : t <> TArray ->
              Forall (fun x => exists r, annV x = Ok r) vs).
    { intros Ht. rewrite Forall_forall in IH. apply Forall_forall.
      intros x Hx. apply IH; [done|].
      assert (forallb annotatable vs = true) as Hf
        by (destruct t; done).
      rewrite forallb_forall in Hf. apply Hf. by apply list_elem_of_In. }
    destruct t; simpl.
    3:{ destruct vs as [|x vs]; [discriminate|]. simpl in Hv.
        apply Forall_cons in IH as [IHx _].
        destruct (IHx Hv) as [[nx l] ->]. simpl. by eexists. }
    4:{ destruct (annotate_members_total
                    (fun p => finishProperty <$> annV p) vs) as [[nxs ls] ->].
        - eapply Forall_impl; [apply Hall; done|].
          intros x [r ->]. simpl. by eexists.
        - simpl. by eexists. }
    all: destruct (annotate_members_total annV vs (Hall ltac:(done)))
           as [[nxs ls] ->]; simpl; by eexists.
  - simpl in *. destruct (IH Hv) as [[nv l] ->]. simpl. by eexists.
  - simpl in *. destruct (IH Hv) as [[nv l] ->]. simpl. by eexists.
  - simpl in Hv. repeat (apply andb_true_iff in Hv as [Hv ?]).
    simpl. destruct (IHc Hv) as [[? ?] ->]. simpl.
    destruct (IHe ltac:(done)) as [[? ?] ->]. simpl.
    destruct (IHt ltac:(done)) as [[? ?] ->]. simpl.
    destruct (IHf ltac:(done)) as [[? ?] ->]. simpl. by eexists.
Qed.

Lemma flagged_mark (path : list nat) (v : ASTPropertyValue) :
  flagged path false v = true -> flagged path true (mark_recursive v) = true.
Proof.
  destruct path as [|i path]; [by destruct v|].
  simpl. by destruct v.
Qed.

Lemma flagged_along_path (path : list nat) :
  forall v r nv leads,
    walkable path v = true -> node_at path v = Some r ->
    refers_to entityName r = true ->
    annV v = Ok (nv, leads) ->
    leads = true /\ flagged path false nv = true.
Proof.
  induction path as [|i path IH]; intros v r nv leads Hw Hn Hr Ha.
  - simpl in Hn. injection Hn as <-. destruct v; try discriminate.
    simpl in Hr. apply andb_true_iff in Hr as [_ He]. apply str_eqb_eq in He.
    simpl in Ha. rewrite He, canLead_self in Ha. by injection Ha as <- <-.
  - destruct v as [| |a t vs| | | | a o v| a p c v| a c e t f| ];
      try discriminate.
    + destruct t.
      3:{ simpl in Hw. destruct vs as [|x vs]; [discriminate|].
          apply andb_true_iff in Hw as [Hi Hw]. apply Nat.eqb_eq in Hi as ->.
          simpl in Hn, Ha.
          destruct (annV x) as [[nx l]|] eqn:Hx; [|done]. simpl in Ha.
          injection Ha as <- <-.
          destruct (IH x r nx l Hw Hn Hr Hx) as [-> Hf]. by split. }
      4:{ simpl in Hw, Hn, Ha.
          destruct (vs !! i) as [x|] eqn:Hi; [|discriminate].
          destruct (annotate_members _ vs) as [[nxs ls]|] eqn:Hm; [|done].
          simpl in Ha. injection Ha as <- <-.
          destruct (annotate_members_lookup _ _ _ _ Hm i x Hi)
            as (nx & l & Hx & Hnx & Hl).
          destruct (annV x) as [[nx' l']|] eqn:Hx'; [|done].
          simpl in Hx. injection Hx as <- <-.
          destruct (IH x r nx' l' Hw Hn Hr Hx') as [-> Hf].
          split; [by apply Hl|]. simpl. rewrite Hnx. by apply flagged_mark. }
      all: simpl in Hw, Hn, Ha;
        (destruct (vs !! i) as [x|] eqn:Hi; [|discriminate]);
        (destruct (annotate_members _ vs) as [[nxs ls]|] eqn:Hm; [|done]);
        simpl in Ha; injection Ha as <- <-;
        destruct (annotate_members_lookup _ _ _ _ Hm i x Hi)
          as (nx & l & Hx & Hnx & Hl);
        destruct (IH x r nx l Hw Hn Hr Hx) as [-> Hf];
        (split; [by apply Hl|]); simpl; by rewrite Hnx.
    + simpl in Hw. apply andb_true_iff in Hw as [Hi Hw].
      apply Nat.eqb_eq in Hi as ->. simpl in Hn, Ha.
      destruct (annV v) as [[nx l]|] eqn:Hx; [|done]. simpl in Ha.
      injection Ha as <- <-.
      destruct (IH v r nx l Hw Hn Hr Hx) as [-> Hf]. by split.
    + simpl in Hw. apply andb_true_iff in Hw as [Hi Hw].
      apply Nat.eqb_eq in Hi as ->. simpl in Hn, Ha.
      destruct (annV v) as [[nx l]|] eqn:Hx; [|done]. simpl in Ha.
      injection Ha as <- <-.
      destruct (IH v r nx l Hw Hn Hr Hx) as [-> Hf]. by split.
    + simpl in Hw. apply andb_true_iff in Hw as [Hi Hw].
      apply Nat.eqb_eq in Hi as ->. simpl in Hn, Ha.
      destruct (annV c) as [[n1 l1]|]; [|done]. simpl in Ha.
      destruct (annV e) as [[n2 l2]|]; [|done]. simpl in Ha.
      destruct (annV t) as [[n3 l3]|] eqn:Hx; [|done]. simpl in Ha.
      destruct (annV f) as [[n4 l4]|]; [|done]. simpl in Ha.
      injection Ha as <- <-.
      destruct (IH t r n3 l3 Hw Hn Hr Hx) as [-> Hf].
      split; [by destruct l1, l2|done].
Qed.

Lemma others_kept_property (path : list nat) (v nv : ASTPropertyValue) :
  others_kept path false v nv = true -> others_kept path true v nv = true.
Proof.
  destruct path as [|i path]; [done|]. simpl.
  intros H. by apply andb_true_iff in H as [_ ->].
Qed.

Lemma others_kept_mark (path : list nat) (v nv : ASTPropertyValue) :
  others_kept path true v nv = true ->
  others_kept path true v (mark_recursive nv) = true.
Proof. destruct path as [|i path]; [done|]. simpl. by destruct nv. Qed.

Lemma others_kept_finish (path : list nat) (v nv : ASTPropertyValue)
  (l : bool) :
  others_kept path false v nv = true ->
  others_kept path true v (finishProperty (nv, l)).1 = true.
Proof.
  intros H. apply others_kept_property in H. simpl.
  destruct l; [by apply others_kept_mark|done].
Qed.

Lemma others_kept_along_path (path : list nat) :
  forall v nv leads,
    walkable path v = true -> annV v = Ok (nv, leads) ->
    others_kept path false v nv = true.
Proof.
  induction path as [|i path IH]; intros v nv leads Hw Ha; [done|].
  destruct v as [| |a t vs| | | | a o v| a p c v| a c e t f| ];
    try discriminate.
  - destruct t.
    3:{ simpl in Hw. destruct vs as [|x vs]; [discriminate|].
        apply andb_true_iff in Hw as [Hi Hw]. apply Nat.eqb_eq in Hi as ->.
        simpl in Ha.
        destruct (annV x) as [[nx l]|] eqn:Hx; [|done]. simpl in Ha.
        injection Ha as <- <-. simpl. rewrite Bool.eqb_reflx. simpl.
        by apply (IH x nx l). }
    4:{ simpl in Hw, Ha.
        destruct (vs !! i) as [x|] eqn:Hi; [|discriminate].
        destruct (annotate_members _ vs) as [[nxs ls]|] eqn:Hm; [|done].
        simpl in Ha. injection Ha as <- <-.
        destruct (annotate_members_lookup _ _ _ _ Hm i x Hi)
          as (nx & l & Hx & Hnx & _).
        destruct (annV x) as [[nx' l']|] eqn:Hx'; [|done].
        injection Hx as <- <-.
        simpl. rewrite Bool.eqb_reflx, Hi, Hnx. simpl.
        apply (others_kept_finish path x nx' l'). by apply (IH x nx' l'). }
    all: simpl in Hw, Ha;
      (destruct (vs !! i) as [x|] eqn:Hi; [|discriminate]);
      (destruct (annotate_members _ vs) as [[nxs ls]|] eqn:Hm; [|done]);
      simpl in Ha; injection Ha as <- <-;
      destruct (annotate_members_lookup _ _ _ _ Hm i x Hi)
        as (nx & l & Hx & Hnx & _);
      simpl; rewrite Bool.eqb_reflx, Hi, Hnx; simpl;
      by apply (IH x nx l).
  - simpl in Hw. apply andb_true_iff in Hw as [Hi Hw].
    apply Nat.eqb_eq in Hi as ->. simpl in Ha.
    destruct (annV v) as [[nx l]|] eqn:Hx; [|done]. simpl in Ha.
    injection Ha as <- <-. simpl. rewrite Bool.eqb_reflx. simpl.
    by apply (IH v nx l).
  - simpl in Hw. apply andb_true_iff in Hw as [Hi Hw].
    apply Nat.eqb_eq in Hi as ->. simpl in Ha.
    destruct (annV v) as [[nx l]|] eqn:Hx; [|done]. simpl in Ha.
    injection Ha as <- <-. simpl. rewrite Bool.eqb_reflx. simpl.
    by apply (IH v nx l).
  - simpl in Hw. apply andb_true_iff in Hw as [Hi Hw].
    apply Nat.eqb_eq in Hi as ->. simpl in Ha.
    destruct (annV c) as [[n1 l1]|]; [|done]. simpl in Ha.
    destruct (annV e) as [[n2 l2]|]; [|done]. simpl in Ha.
    destruct (annV t) as [[n3 l3]|] eqn:Hx; [|done]. simpl in Ha.
    destruct (annV f) as [[n4 l4]|]; [|done]. simpl in Ha.
    injection Ha as <- <-. simpl. rewrite Bool.eqb_reflx. simpl.
    by apply (IH t n3 l3).
Qed.
End Marks.

Section SelfReference.
Import Analyzer Annotate Paths RecursionSamples.
Local Opaque extractTypeNameFromImportish.

Lemma map_res_lookup {A B} (f : A -> Res B) (l : list A) (l' : list B) :
  map_res f l = Ok l' ->
  forall i x, l !! i = Some x -> exists y, f x = Ok y /\ l' !! i = Some y.
Proof.
  revert l'. induction l as [|a l IH]; intros l' H i x Hi; [done|].
  simpl in H. destruct (f a) as [b|] eqn:Ha; [|done]. simpl in H.
  destruct (map_res f l) as [bs|] eqn:Hl; [|done]. simpl in H.
  injection H as <-. destruct i as [|i]; simpl in Hi.
  - injection Hi as <-. by exists b.
  - by apply (IH bs eq_refl).
Qed.

Lemma map_res_total {A B} (f : A -> Res B) (l : list A) :
  Forall (fun x => exists y, f x = Ok y) l -> exists l', map_res f l = Ok l'.
Proof.
  induction 1 as [|x l [y Hy] _ [l' IH]]; [by eexists|].
  simpl. rewrite Hy. simpl. rewrite IH. simpl. by eexists.
Qed.

(** C2 (amended).  Let an instance entity [E] of the graph have a
    property in which a reference to [E] is reached through fields that
    the analyzer descends into, every array on the way of the annotator
    having an element.  Then the annotation of [E] succeeds, the
    annotated entity has [hasRecursion], and on the path from the
    property down to the reference the reference node and every
    property (the owning property and the object members) carry
    [recursiveEdge]; every other node on the path, a composite that is
    no property, gets no mark of its own: it carries the
    [recursiveEdge] it carried before the annotation.  This holds for
    an isolated self-loop as well, whatever components and reachability
    the annotation is given. *)
Theorem C2_self_reference_is_marked
  (entities : list ASTEntity) (E : ASTEntity)
  (k : option string) (props : list ASTPropertyValue)
  (inh : option (list Inherit)) (g : list string)
  (i : nat) (p r : ASTPropertyValue) (path : list nat)
  (sccs : list (list string)) (reachableFrom : string -> list string) :
  E ∈ entities ->
  e_body E = EInstance k props inh g ->
  props !! i = Some p ->
  walkable path p = true ->
  node_at path p = Some r ->
  refers_to (e_name E) r = true ->
  Forall (fun q => annotatable q = true) props ->
  exists E' props' p',
    annotateEntityWithRecursion E (buildAdjacency entities)
      (buildNodeToScc sccs) reachableFrom = Ok E'
    /\ hasRecursion E' = true
    /\ e_body E' = EInstance k props' inh g
    /\ props' !! i = Some p'
    /\ flagged path true p' = true
    /\ others_kept path true p p' = true.
Proof.
  intros HE Hbody Hi Hw Hn Hr Hann.
  set (adj := buildAdjacency entities).
  set (m := buildNodeToScc sccs).
  assert (Hself : e_name E ∈ successors adj (e_name E)).
  { eapply buildAdjacency_self_edge; [done..| |].
    - by eapply list_elem_of_lookup_2.
    - intros acc. by eapply collect_finds. }
  assert (Hrec : inRecursion (e_name E) adj m = true).
  { unfold inRecursion, hasSelfEdge. apply set_has_elem in Hself.
    rewrite Hself. by destruct (_ <? _)%nat. }
  assert (Hmem : forall s, m !! e_name E = Some s -> e_name E ∈ s)
    by (intros s; apply buildNodeToScc_member).
  destruct (map_res_total
              (fun q => fst <$> annotateProperty (e_name E) adj m reachableFrom q)
              props) as [props' Hprops].
  { eapply Forall_impl; [exact Hann|]. intros q Hq.
    destruct (annotate_total (e_name E) adj m reachableFrom q Hq) as [x Hx].
    unfold annotateProperty. rewrite Hx. simpl. by eexists. }
  destruct (map_res_lookup _ _ _ Hprops i p Hi) as (p' & Hp' & Hlook).
  exists (mkEntity (e_name E) (e_location E) true
            (Some (targetSet (e_name E) m)) (EInstance k props' inh g)),
    props', p'.
  split.
  { unfold annotateEntityWithRecursion. fold adj m. rewrite Hbody, Hrec.
    rewrite Hprops. reflexivity. }
  split; [done|]. split; [done|]. split; [done|].
  unfold annotateProperty in Hp'.
  destruct (annotatePropValue (e_name E) adj m reachableFrom p)
    as [[nv leads]|] eqn:Hv; [|done].
  destruct (flagged_along_path (e_name E) adj m reachableFrom Hmem Hrec
              path p r nv leads Hw Hn Hr Hv) as [-> Hf].
  pose proof (others_kept_along_path (e_name E) adj m reachableFrom
                path p nv true Hw Hv) as Hk.
  simpl in Hp'. injection Hp' as <-. split; [by apply flagged_mark|].
  by apply (others_kept_finish path p nv true).
Qed.

Lemma C2_self_reference_is_marked_witness :
  exists E' props' p',
    annotateEntityWithRecursion grid (buildAdjacency [grid])
      (buildNodeToScc [["Grid"]]) (fun _ => []) = Ok E'
    /\ hasRecursion E' = true
    /\ e_body E' = EInstance (Some "interface") props' None []
    /\ props' !! 0 = Some p'
    /\ flagged [0; 0] true p' = true
    /\ others_kept [0; 0] true
         (PComposite (prop_attrs "cells" false) TArray
            [PComposite no_attrs TArray [PReference no_attrs "Grid"]])
         p' = true.
Proof.
  apply (C2_self_reference_is_marked [grid] grid (Some "interface")
           [PComposite (prop_attrs "cells" false) TArray
              [PComposite no_attrs TArray [PReference no_attrs "Grid"]]]
           None [] 0
           (PComposite (prop_attrs "cells" false) TArray
              [PComposite no_attrs TArray [PReference no_attrs "Grid"]])
           (PReference no_attrs "Grid") [0; 0] [["Grid"]] (fun _ => [])).
  - by left.
  - reflexivity.
  - reflexivity.
  - reflexivity.
  - reflexivity.
  - vm_compute. reflexivity.
  - repeat constructor.
Defined.

(** C2 (counterexample).  In [interface Grid { cells: Grid[][] }] the
    property [cells] holds a reference to [Grid] inside two arrays.  The
    annotated entity has [hasRecursion], the property and the reference
    carry [recursiveEdge], and the array between them does not. *)
Lemma C2_enclosing_array_is_not_marked :
  exists E' p' inner,
    grid_annotated = Ok E'
    /\ hasRecursion E' = true
    /\ e_body E' = EInstance (Some "interface") [p'] None []
    /\ node_at [0; 0] p' = Some (PReference (mkAttrs None false true None) "Grid")
    /\ node_at [0] p' = Some inner
    /\ recursiveEdge (attrs inner) = false
    /\ all_flagged [0; 0] p' = false.
Proof.
  eexists _, _, _. split; [vm_compute; reflexivity|].
  repeat split; reflexivity.
Qed.

(** The isolated self-loop of [interface Item { next: Item }]: a
    component of one name, marked through its self-edge. *)
Lemma isolated_self_loop_is_marked :
  Tarjan.computeSCC (buildAdjacency [item]) = Some [["Item"]]
  /\ annotateEntityWithRecursion item (buildAdjacency [item])
       (buildNodeToScc [["Item"]]) (fun _ => [])
     = Ok (mkEntity "Item" None true (Some ["Item"])
             (EInstance (Some "interface")
                [PReference (mkAttrs (Some "next") false true None) "Item"]
                None [])).
Proof. split; vm_compute; reflexivity. Qed.
End SelfReference.

(** ** The inheritance walk *)

Section InheritanceWalk.
Import Analyzer Inheritance WalkOrder.
Local Opaque extractTypeNameFromImportish.

Variable path_resolve : string -> string.
Variable allEntities : list ASTEntity.
Variable astNodes : list ASTEntity.

Local Abbreviation resolve :=
  (resolveBaseEntity path_resolve allEntities astNodes).
Local Abbreviation names := (entity_names allEntities astNodes).
Local Abbreviation left_out := (unseen allEntities astNodes).

Lemma by_name_spec (k : string) (es : list ASTEntity) (e : ASTEntity) :
  by_name k es = Some e -> e_name e = k /\ e ∈ es.
Proof.
  induction es as [|e' es IH]; [done|]. simpl.
  destruct (by_name k es) as [e''|].
  - intros [= <-]. destruct (IH eq_refl) as [? ?]. split; [done|by right].
  - destruct (str_eqb (e_name e') k) eqn:E; [|done].
    intros [= <-]. apply str_eqb_eq in E. split; [done|by left].
Qed.

Lemma resolve_spec (e : string) (loc : option Location) (ent : ASTEntity) :
  resolve e loc = Some ent ->
  e_name ent = extractTypeNameFromImportish e
  /\ ent ∈ allEntities ++ astNodes.
Proof.
  unfold resolveBaseEntity.
  destruct (match loc with Some l => _ | None => None end) as [e'|] eqn:Hloc.
  - intros [= <-]. destruct loc as [l|]; [|done].
    apply find_some in Hloc as [Hin Hf].
    apply andb_true_iff in Hf as [Hn _]. apply str_eqb_eq in Hn.
    split; [done|]. apply elem_of_app. left. by apply list_elem_of_In.
  - destruct (by_name _ astNodes) as [e'|] eqn:Hfile.
    + intros [= <-]. apply by_name_spec in Hfile as [? ?].
      split; [done|]. apply elem_of_app. by right.
    + intros Hall. apply by_name_spec in Hall as [? ?].
      split; [done|]. apply elem_of_app. by left.
Qed.

Lemma seen_set_add (x : string) (seen : list string) :
  list_to_set (C := gset string) (set_add x seen) = {[x]} ∪ list_to_set seen.
Proof.
  apply set_eq. intros y.
  rewrite elem_of_list_to_set, elem_of_set_add, elem_of_union,
    elem_of_singleton, elem_of_list_to_set. tauto.
Qed.

Lemma left_out_enter (x : string) (seen : list string) :
  x ∈ names -> x ∉ seen -> left_out (set_add x seen) < left_out seen.
Proof.
  intros Hx Hs. unfold unseen. rewrite seen_set_add.
  apply subset_size. apply strict_spec_alt. split.
  - intros y [Hy Hn]%elem_of_difference. apply elem_of_difference.
    split; [done|]. intros Hin. apply Hn, elem_of_union. by right.
  - intros Heq. assert (x ∈ names ∖ list_to_set seen) as Hin.
    { apply elem_of_difference. split; [done|].
      by rewrite elem_of_list_to_set. }
    rewrite <- Heq in Hin. apply elem_of_difference in Hin as [_ Hn].
    apply Hn, elem_of_union. left. by apply elem_of_singleton.
Qed.

Lemma left_out_mono (seen seen' : list string) :
  seen ⊆ seen' -> left_out seen' <= left_out seen.
Proof.
  intros Hsub. unfold unseen. apply subseteq_size.
  apply difference_mono_l. intros x. rewrite !elem_of_list_to_set. apply Hsub.
Qed.

Lemma size_list_to_set_le (l : list string) :
  size (list_to_set (C := gset string) l) <= length l.
Proof.
  induction l as [|x l IH]; [done|].
  rewrite list_to_set_cons, size_union_alt, size_singleton. simpl.
  assert (size (list_to_set (C := gset string) l ∖ {[x]})
          <= size (list_to_set (C := gset string) l)); [|lia].
  apply subseteq_size. intros y Hy. by apply elem_of_difference in Hy as [? _].
Qed.

Lemma left_out_bound :
  left_out [] < 2 + length allEntities + length astNodes.
Proof.
  unfold unseen, entity_names. simpl.
  rewrite difference_empty_L.
  pose proof (size_list_to_set_le (e_name <$> allEntities ++ astNodes)) as H.
  rewrite length_fmap, length_app in H. lia.
Qed.

Lemma push_new_NoDup (out : list ASTProperty) (p : ASTProperty) :
  NoDup (names_of out) -> NoDup (names_of (push_new out p)).
Proof.
  intros Hnd. unfold push_new.
  destruct (existsb _ out) eqn:E; [done|].
  unfold names_of. rewrite fmap_app. apply NoDup_app. split; [done|].
  split; [|apply NoDup_singleton].
  intros n Hn Hp. apply list_elem_of_singleton in Hp as ->.
  apply list_elem_of_fmap in Hn as (op & Heq & Hop).
  assert (existsb (fun op => bool_decide (name (attrs op) = name (attrs p))) out
          = true) as Ht; [|by rewrite Ht in E].
  apply existsb_exists. exists op. split; [by apply list_elem_of_In|].
  by apply bool_decide_eq_true.
Qed.

Lemma first_by_name_NoDup (ps out : list ASTProperty) :
  NoDup (names_of out) -> NoDup (names_of (fold_left push_new ps out)).
Proof.
  revert out. induction ps as [|p ps IH]; intros out H; [done|].
  simpl. by apply IH, push_new_NoDup.
Qed.

Lemma collected_app (m1 m2 : list ASTEntity) (out : list ASTProperty) :
  collected (m1 ++ m2) out = collected m2 (collected m1 out).
Proof. unfold collected. by rewrite fmap_app, concat_app, fold_left_app. Qed.

(** The walk ends within its budget, and what it collects is what the
    bases entered in depth-first pre-order declare, first come first
    kept. *)
Lemma walk_spec (fuel : nat) :
  forall seen out bases b,
    left_out seen < fuel ->
    exists seen' more,
      walk path_resolve allEntities astNodes fuel (seen, out) b
      = Some (seen', collected more out)
      /\ bases_in_order path_resolve allEntities astNodes fuel (seen, bases) b
         = Some (seen', bases ++ more)
      /\ seen ⊆ seen'.
Proof.
  induction fuel as [|fuel IH]; intros seen out bases b Hfuel; [lia|].
  simpl.
  destruct (str_eqb (expr b) "").
  { exists seen, []. by rewrite app_nil_r. }
  destruct (set_has _ seen) eqn:Hseen.
  { exists seen, []. by rewrite app_nil_r. }
  apply set_has_not_elem in Hseen.
  set (baseName := extractTypeNameFromImportish (expr b)) in *.
  assert (Hgrow : seen ⊆ set_add baseName seen).
  { intros x Hx. apply elem_of_set_add. by right. }
  destruct (resolve (expr b) (i_location b)) as [ent|] eqn:Hres.
  2:{ exists (set_add baseName seen), []. by rewrite app_nil_r. }
  apply resolve_spec in Hres as [Hname Hin].
  assert (Hless : left_out (set_add baseName seen) < fuel).
  { assert (baseName ∈ names) as Hn.
    { unfold entity_names. rewrite elem_of_list_to_set.
      unfold baseName. rewrite <- Hname. by apply list_elem_of_fmap_2. }
    pose proof (left_out_enter baseName seen Hn Hseen). lia. }
  assert (Hloop : forall bs seen1 out1 bases1,
            left_out seen1 < fuel ->
            exists seen' more,
              Tarjan.fold_opt (walk path_resolve allEntities astNodes fuel) bs
                (seen1, out1) = Some (seen', collected more out1)
              /\ Tarjan.fold_opt
                   (bases_in_order path_resolve allEntities astNodes fuel) bs
                   (seen1, bases1) = Some (seen', bases1 ++ more)
              /\ seen1 ⊆ seen').
  { induction bs as [|b1 bs IHbs]; intros seen1 out1 bases1 H1.
    - exists seen1, []. by rewrite app_nil_r.
    - destruct (IH seen1 out1 bases1 b1 H1) as (seen2 & m1 & Hw & Hb & Hs).
      assert (H2 : left_out seen2 < fuel)
        by (pose proof (left_out_mono _ _ Hs); lia).
      destruct (IHbs seen2 (collected m1 out1) (bases1 ++ m1) H2)
        as (seen3 & m2 & Hw2 & Hb2 & Hs2).
      exists seen3, (m1 ++ m2). simpl. rewrite Hw, Hb. simpl.
      rewrite Hw2, Hb2, collected_app, app_assoc.
      split; [done|]. split; [done|]. by etrans. }
  destruct (Hloop (own_inherits ent) (set_add baseName seen)
              (fold_left push_new (own_properties ent) out) (bases ++ [ent])
              Hless) as (seen' & more & Hw & Hb & Hs).
  exists seen', (ent :: more). rewrite Hw, Hb.
  split.
  { f_equal. f_equal. unfold collected. simpl. by rewrite fold_left_app. }
  split; [by rewrite <- app_assoc|]. by etrans.
Qed.

(** C6 (amended).  The collection of the inherited properties of a
    base expression ends, also over a cyclic base graph, with a finite
    list in which no property name occurs twice; the occurrence kept
    for a name is the first one met when the bases are entered in
    depth-first pre-order (a base, then its own bases in declaration
    order, no name entered twice). *)
Theorem C6_collection_ends_first_met_kept
  (startExpr : string) (startLoc : option Location) :
  exists out bases,
    collectPropsTransitive path_resolve allEntities astNodes startExpr startLoc
    = Some out
    /\ NoDup ((fun p => name (attrs p)) <$> out)
    /\ visited_bases path_resolve allEntities astNodes startExpr startLoc
       = Some bases
    /\ out = first_by_name (concat (own_properties <$> bases)).
Proof.
  destruct (walk_spec (2 + length allEntities + length astNodes) [] [] []
              (mkInherit startExpr startLoc None) left_out_bound)
    as (seen' & more & Hw & Hb & _).
  exists (collected more []), more.
  unfold collectPropsTransitive, visited_bases. rewrite Hw, Hb.
  split; [done|]. split; [|done].
  apply (first_by_name_NoDup _ []). constructor.
Qed.
End InheritanceWalk.

Section InheritanceExamples.
Import Inheritance WalkOrder InheritanceSamples.

(** C6 (counterexample).  In the diamond [D extends B, C], [B extends
    A], [C extends A], where [A] and [C] both declare [x], the list
    collected for [D] keeps the [x] of [A], reached through [B], and
    drops the [x] of [C], although [C] is a direct base of [D] and is
    derived from [A]. *)
Lemma C6_farther_base_wins_in_diamond :
  collectPropsTransitive id diamond diamond "D" None
  = Some [field "d" "string"; field "b" "string"; field "id" "string";
          field "x" "number"; field "c" "string"]
  /\ by_name "C" diamond
     = Some (iface "C" [field "x" "string"; field "c" "string"] ["A"])
  /\ by_name "A" diamond
     = Some (iface "A" [field "id" "string"; field "x" "number"] [])
  /\ by_name "D" diamond = Some (iface "D" [field "d" "string"] ["B"; "C"]).
Proof. repeat split; vm_compute; reflexivity. Qed.

(** The fields of [A] occur once in the list of [D]. *)
Lemma diamond_base_fields_once :
  exists out,
    collectPropsTransitive id diamond diamond "D" None = Some out
    /\ length (filter (fun p => name (attrs p) = Some "id") out) = 1
    /\ length (filter (fun p => name (attrs p) = Some "x") out) = 1.
Proof. eexists. split; [vm_compute; reflexivity|]. split; reflexivity. Qed.

(** The walk over the cycle [P extends Q], [Q extends P] ends. *)
Lemma cyclic_bases_end :
  collectPropsTransitive id cycle cycle "P" None
  = Some [field "p" "string"; field "q" "string"].
Proof. vm_compute. reflexivity. Qed.
End InheritanceExamples.

(** ** Correctness of [computeSCC] *)

Section TarjanFacts.
Import Analyzer Tarjan Graph.

Variable adj : Adjacency.
Hypothesis Hnonempty : forall x, vertex adj x -> x <> "".

Local Abbreviation Edge := (edge adj).
Local Abbreviation Reach := (reach adj).

Lemma elem_of_concat {A} (x : A) (ls : list (list A)) :
  x ∈ concat ls <-> exists l, l ∈ ls /\ x ∈ l.
Proof.
  induction ls as [|l ls IH]; simpl.
  - split; [by inversion 1 | by intros (l & Hl & _); inversion Hl].
  - rewrite elem_of_app, IH. split.
    + intros [H|(l' & H1 & H2)]; [exists l; split; [by left|done]|].
      exists l'. split; [by right|done].
    + intros (l' & [->|H1]%elem_of_cons & H2); [by left|].
      right. by exists l'.
Qed.

Lemma omap_get_elem {V} (k : string) (v : V) (m : list (string * V)) :
  omap_get k m = Some v -> (k, v) ∈ m.
Proof.
  induction m as [|[k' v'] m IH]; [done|]. simpl.
  destruct (str_eqb k' k) eqn:E.
  - apply str_eqb_eq in E as ->. intros [= ->]. by left.
  - intros H. right. by apply IH.
Qed.

Lemma edge_source (x y : string) : Edge x y -> x ∈ omap_keys adj.
Proof.
  unfold edge, successors.
  destruct (omap_get x adj) as [s|] eqn:E; [|by inversion 1].
  intros _. apply omap_get_elem in E. unfold omap_keys.
  by apply (list_elem_of_fmap_2 fst) in E.
Qed.

Lemma edge_target (x y : string) : Edge x y -> vertex adj y.
Proof. intros H. right. by exists x. Qed.

Lemma vertex_in_names (x : string) : vertex adj x -> x ∈ names adj.
Proof.
  unfold names. intros [Hk|[k Hk]]; apply elem_of_app; [by left|right].
  unfold edge, successors in Hk.
  destruct (omap_get k adj) as [s|] eqn:E; [|by inversion Hk].
  apply omap_get_elem in E. simpl in Hk.
  apply elem_of_concat. exists s. split; [|done].
  by apply (list_elem_of_fmap_2 snd) in E.
Qed.

Lemma reach_step (x y z : string) : Reach x y -> Edge y z -> Reach x z.
Proof. intros. by eapply rtc_r. Qed.

Lemma reach_trans (x y z : string) : Reach x y -> Reach y z -> Reach x z.
Proof. apply rtc_trans. Qed.

Lemma closed_reach (D : list string) (x y : string) :
  (forall a b, a ∈ D -> Edge a b -> b ∈ D) ->
  x ∈ D -> Reach x y -> y ∈ D.
Proof. intros Hc Hx Hr. induction Hr; [done|]. eauto. Qed.

(** *** Numbering a new name *)

Lemma unnumbered_mono (s s' : tstate) :
  (forall x, is_Some (indices s !! x) -> is_Some (indices s' !! x)) ->
  unnumbered adj s' <= unnumbered adj s.
Proof.
  intros H. unfold unnumbered. apply subseteq_size.
  intros x [Hx Hn]%elem_of_difference. apply elem_of_difference.
  split; [done|]. intros Hd. apply Hn. apply elem_of_dom.
  apply H. by apply elem_of_dom.
Qed.

Lemma unnumbered_enter (v : string) (s : tstate) :
  vertex adj v -> indices s !! v = None ->
  unnumbered adj (enter v s) < unnumbered adj s.
Proof.
  intros Hv Hnone. unfold unnumbered. simpl. rewrite dom_insert_L.
  apply subset_size. apply strict_spec_alt. split.
  - intros y [Hy Hn]%elem_of_difference. apply elem_of_difference.
    split; [done|]. intros Hin. apply Hn, elem_of_union. by right.
  - intros Heq.
    assert (v ∈ list_to_set (C := gset string) (names adj) ∖ dom (indices s))
      as Hin.
    { apply elem_of_difference. split.
      - apply elem_of_list_to_set. by apply vertex_in_names.
      - by apply not_elem_of_dom. }
    rewrite <- Heq in Hin. apply elem_of_difference in Hin as [_ Hn].
    apply Hn, elem_of_union. left. by apply elem_of_singleton.
Qed.

Lemma extends_refl (s : tstate) : Extends s s.
Proof. by constructor. Qed.

Lemma extends_trans (s0 s1 s2 : tstate) :
  Extends s0 s1 -> Extends s1 s2 -> Extends s0 s2.
Proof.
  intros [I1 L1 F1] [I2 L2 F2]. constructor.
  - intros x i H. by apply I2, I1.
  - intros x [i H]. rewrite L2 by (exists i; by apply I1).
    apply L1. by exists i.
  - intros x H. by apply F2, F1.
Qed.

Lemma extends_numbered (s0 s : tstate) (x : string) :
  Extends s0 s -> is_Some (indices s0 !! x) -> is_Some (indices s !! x).
Proof. intros [I _ _] [i H]. exists i. by apply I. Qed.

Lemma target_ok_le (s : tstate) (l l' : nat) (y : string) :
  l' <= l -> target_ok s l y -> target_ok s l' y.
Proof.
  intros Hle [H|(H & j & Hj & Hlj)]; [by left|right].
  split; [done|]. exists j. split; [done|lia].
Qed.

Lemma enter_inv (v : string) (s : tstate) :
  Inv adj s -> indices s !! v = None -> vertex adj v -> Inv adj (enter v s).
Proof.
  intros [Hst Hfi Hap Hnu Hix Hon Hlo Hcl Hsc Hve] Hnone Hv.
  assert (Hfresh : (v ∉ stack s) /\ (v ∉ finished s)).
  { split; intros Hin.
    - assert (is_Some (indices s !! v)) as [i Hi] by (apply Hnu; by left).
      congruence.
    - assert (is_Some (indices s !! v)) as [i Hi] by (apply Hnu; by right).
      congruence. }
  destruct Hfresh as [Hfs Hff].
  constructor; simpl; try done.
  - by constructor.
  - intros x [->|Hx]%elem_of_cons; [done|by apply Hap].
  - intros x. rewrite lookup_insert. destruct (decide (v = x)) as [->|Hne].
    + split; [intros _; left; by left | by eexists].
    + rewrite Hnu, elem_of_cons. split; [tauto|].
      intros [[->|?]|?]; [done|tauto|tauto].
  - intros x i. rewrite lookup_insert. destruct (decide (v = x)) as [->|Hne].
    + intros [= <-]. lia.
    + intros H. apply Hix in H. lia.
  - intros x. rewrite elem_of_union, elem_of_singleton, elem_of_cons, Hon.
    done.
  - intros x. rewrite !lookup_insert. destruct (decide (v = x)); [by eexists|].
    apply Hlo.
  - intros x. rewrite lookup_insert. destruct (decide (v = x)) as [->|Hne];
      [done|apply Hve].
Qed.

Lemma enter_loop (v : string) (s : tstate) :
  Inv adj s -> indices s !! v = None -> vertex adj v ->
  LoopInv adj s v [] (enter v s).
Proof.
  intros HI Hnone Hv. constructor.
  - by apply enter_inv.
  - constructor; simpl.
    + intros x i H. rewrite lookup_insert_ne; [done|]. intros ->. congruence.
    + intros x [i H]. rewrite lookup_insert_ne; [done|]. intros ->. congruence.
    + done.
  - simpl. by rewrite lookup_insert_eq.
  - exists [], (index s). simpl. rewrite lookup_insert_eq.
    split; [done|]. split; [done|]. split; [done|]. split; [by left|].
    split; intros x Hx; by inversion Hx.
Qed.

(** *** One successor *)

Lemma set_lowlink_inv (u : string) (n : nat) (s : tstate) :
  Inv adj s -> Inv adj (set_lowlink u n s).
Proof.
  intros [Hst Hfi Hap Hnu Hix Hon Hlo Hcl Hsc Hve].
  constructor; simpl; try done.
  intros x Hx. rewrite lookup_insert. destruct (decide (u = x)); [by eexists|].
  by apply Hlo.
Qed.

Lemma set_lowlink_extends (s0 s : tstate) (u : string) (n : nat) :
  Extends s0 s -> indices s0 !! u = None -> Extends s0 (set_lowlink u n s).
Proof.
  intros [I L F] Hu. constructor; simpl; try done.
  intros x [i Hx]. rewrite lookup_insert_ne; [apply L; by exists i|].
  intros ->. congruence.
Qed.

Lemma target_ok_grow (s s' : tstate) (pre : list string) (l l' : nat)
  (y : string) :
  (forall x i, indices s !! x = Some i -> indices s' !! x = Some i) ->
  (forall x, x ∈ finished s -> x ∈ finished s') ->
  stack s' = pre ++ stack s -> l' <= l ->
  target_ok s l y -> target_ok s' l' y.
Proof.
  intros I F Hst Hle [H|(H & j & Hj & Hlj)]; [left; by apply F|right].
  split; [rewrite Hst; apply elem_of_app; by right|].
  exists j. split; [by apply I|lia].
Qed.

Lemma node_ok_grow (s s' : tstate) (pre : list string) (u : string)
  (i l l' : nat) (x : string) :
  (forall x i, indices s !! x = Some i -> indices s' !! x = Some i) ->
  (forall x, x ∈ finished s -> x ∈ finished s') ->
  stack s' = pre ++ stack s -> l' <= l ->
  node_ok adj s u i l x -> node_ok adj s' u i l' x.
Proof.
  intros I F Hst Hle (H1 & H2 & (j & Hj & Hij) & H4).
  split; [done|]. split; [done|]. split.
  - exists j. split; [by apply I|done].
  - intros y Hy. eapply target_ok_grow; eauto.
Qed.

Section Loop.
Variable s0 : tstate.
Variable u : string.
Hypothesis Hinv0 : Inv adj s0.
Hypothesis Hfresh : indices s0 !! u = None.
Hypothesis Hbelow : forall x, x ∈ stack s0 -> Reach x u.

(** A name on the stack numbered below [u] was there when the call for
    [u] began. *)
Lemma below_is_old (s : tstate) (new : list string) (l : nat) (y : string)
  (j : nat) :
  Extends s0 s ->
  indices s !! u = Some (index s0) ->
  stack s = new ++ u :: stack s0 ->
  (forall x, x ∈ new -> node_ok adj s u (index s0) l x) ->
  y ∈ stack s -> indices s !! y = Some j -> j < index s0 ->
  y ∈ stack s0 /\ indices s0 !! y = Some j.
Proof.
  intros He Hu Hst Hnew Hy Hj Hlt. rewrite Hst in Hy.
  apply elem_of_app in Hy as [Hy|Hy].
  { destruct (Hnew y Hy) as (_ & _ & (j' & Hj' & Hle) & _).
    rewrite Hj in Hj'. injection Hj' as <-. lia. }
  apply elem_of_cons in Hy as [->|Hy].
  { rewrite Hu in Hj. injection Hj as <-. lia. }
  split; [done|].
  assert (is_Some (indices s0 !! y)) as [j' Hj'].
  { apply (inv_numbered adj s0 Hinv0). by left. }
  pose proof (ext_indices s0 s He y j' Hj') as Hj''.
  rewrite Hj in Hj''. by injection Hj'' as <-.
Qed.

(** Every name on the stack reaches [u] during the call for [u]. *)
Lemma stack_reaches (s : tstate) (new : list string) (l : nat) (x : string) :
  stack s = new ++ u :: stack s0 ->
  (forall x, x ∈ new -> node_ok adj s u (index s0) l x) ->
  x ∈ stack s -> Reach x u.
Proof.
  intros Hst Hnew Hx. rewrite Hst in Hx.
  apply elem_of_app in Hx as [Hx|Hx]; [by destruct (Hnew x Hx) as (_ & ? & _)|].
  apply elem_of_cons in Hx as [->|Hx]; [by apply rtc_refl|by apply Hbelow].
Qed.

Lemma visit_ok (fuel : nat) (visited : list string) (s : tstate) (w : string) :
  call_ok adj fuel ->
  LoopInv adj s0 u visited s -> Edge u w -> unnumbered adj s < fuel ->
  exists s',
    visit (strongconnect fuel adj) u s w = Some s'
    /\ LoopInv adj s0 u (visited ++ [w]) s'
    /\ unnumbered adj s' <= unnumbered adj s.
Proof.
  intros Hcall [HI He Hu (new & l & Hst & Hl & Hle & Hwit & Hnew & Hvis)]
    Hedge Hfuel.
  unfold visit. destruct (indices s !! w) as [iw|] eqn:Hw.
  - (* [w] is numbered already *)
    assert (Hnumw : w ∈ stack s \/ w ∈ finished s)
      by (apply (inv_numbered adj s HI); by eexists).
    destruct (bool_decide (w ∈ onStack s)) eqn:Hon.
    + apply bool_decide_eq_true, (inv_onStack adj s HI) in Hon.
      rewrite Hl. simpl. eexists. split; [done|]. split; [|done].
      constructor; [by apply set_lowlink_inv|by apply set_lowlink_extends
                   |done|].
      exists new, (l `min` iw). simpl. rewrite lookup_insert_eq.
      split; [done|]. split; [done|]. split; [lia|]. split.
      { destruct (decide (iw < l)) as [Hlt|Hge].
        - right. exists w.
          destruct (below_is_old s new l w iw He Hu Hst Hnew Hon Hw) as [? ?];
            [lia|].
          split; [done|]. split; [by rewrite Nat.min_r by lia|].
          by apply rtc_once.
        - rewrite Nat.min_l by lia. done. }
      split.
      { intros x Hx.
        apply (node_ok_grow s _ [] u (index s0) l); [done|done|done|lia|].
        by apply Hnew. }
      intros w' [Hw'|Hw']%elem_of_app.
      * eapply (target_ok_le _ l); [lia|]. by apply Hvis.
      * apply list_elem_of_singleton in Hw' as ->. right.
        split; [done|]. exists iw. split; [done|lia].
    + apply bool_decide_eq_false in Hon.
      eexists. split; [done|]. split; [|done].
      constructor; try done.
      exists new, l. repeat (split; [done|]).
      intros w' [Hw'|Hw']%elem_of_app; [by apply Hvis|].
      apply list_elem_of_singleton in Hw' as ->. left.
      destruct Hnumw as [Hs|Hf]; [|done].
      exfalso. by apply Hon, (inv_onStack adj s HI).
  - (* [w] is new: the call *)
    destruct (Hcall w s HI Hw (edge_target u w Hedge)) as (s' & Hs' & HP);
      [|done|].
    { intros x Hx. eapply reach_step; [|exact Hedge].
      by eapply stack_reaches. }
    rewrite Hs'. simpl.
    destruct HP as [HI' He' Hw' (new' & lw & Hst' & Hlw & Hlew & Hcase & Hnew')].
    assert (Hlu' : lowlink s' !! u = Some l).
    { rewrite (ext_lowlink s s' He' u); [done|by eexists]. }
    assert (Hi0 : index s0 < index s) by (by apply (inv_index adj s HI u)).
    rewrite Hlu', Hlw. simpl. eexists. split; [done|].
    assert (He0 : Extends s0 s') by (by eapply extends_trans).
    split.
    2:{ apply unnumbered_mono. intros x Hx. simpl.
        by apply (extends_numbered s s'). }
    constructor; [by apply set_lowlink_inv|by apply set_lowlink_extends| |].
    { simpl. by apply (ext_indices s s' He'). }
    exists (new' ++ new), (l `min` lw). simpl. rewrite lookup_insert_eq.
    split; [by rewrite Hst', Hst, app_assoc|]. split; [done|].
    split; [lia|].
    assert (Hold : forall x, x ∈ new ->
              node_ok adj (set_lowlink u (l `min` lw) s') u (index s0)
                (l `min` lw) x).
    { intros x Hx.
      apply (node_ok_grow s _ new' u (index s0) l);
        [apply He'|apply He'|done|lia|by apply Hnew]. }
    assert (Holdv : forall w', w' ∈ visited ->
              target_ok (set_lowlink u (l `min` lw) s') (l `min` lw) w').
    { intros w' Hv.
      apply (target_ok_grow s _ new' l);
        [apply He'|apply He'|done|lia|by apply Hvis]. }
    destruct Hcase as [[-> ->]|(Hlt & Hwin & y & Hy & Hiy & Hry)].
    + (* the component of [w] has been emitted *)
      rewrite Nat.min_l by lia.
      rewrite Nat.min_l in Hold, Holdv by lia.
      split; [done|]. split; [done|].
      intros w' [Hv|Hv]%elem_of_app; [by apply Holdv|].
      apply list_elem_of_singleton in Hv as ->. left.
      assert (w ∈ stack s' \/ w ∈ finished s') as [Hs|Hf]
        by (apply (inv_numbered adj s' HI'); by eexists); [|done].
      exfalso. simpl in Hst'. rewrite Hst' in Hs.
      assert (is_Some (indices s !! w)) as [? ?]
        by (apply (inv_numbered adj s HI); by left).
      congruence.
    + (* [w] stays on the stack *)
      assert (Hyu : Reach y u) by (by eapply stack_reaches).
      split.
      { destruct (decide (lw < l)) as [Hlt'|Hge].
        - right. exists y.
          destruct (below_is_old s new l y lw He Hu Hst Hnew Hy Hiy) as [? ?];
            [lia|].
          split; [done|]. split; [by rewrite Nat.min_r by lia|].
          eapply rtc_l; [exact Hedge|done].
        - rewrite Nat.min_l by lia. done. }
      split.
      { intros x [Hx|Hx]%elem_of_app; [|by apply Hold].
        destruct (Hnew' x Hx) as (H1 & H2 & (j & Hj & Hij) & H4).
        split; [eapply rtc_l; [exact Hedge|done]|].
        split; [eapply reach_trans; [exact H2|];
                eapply reach_trans; [exact Hry|done]|].
        split; [exists j; split; [done|lia]|].
        intros y' Hy'. eapply (target_ok_le _ lw); [lia|]. by apply H4. }
      intros w' [Hv|Hv]%elem_of_app; [by apply Holdv|].
      apply list_elem_of_singleton in Hv as ->. right. simpl.
      split; [rewrite Hst'; apply elem_of_app; by left|].
      exists (index s). split; [done|lia].
Qed.

Lemma loop_ok (fuel : nat) (ws : list string) :
  call_ok adj fuel ->
  forall visited s,
    LoopInv adj s0 u visited s -> (forall w, w ∈ ws -> Edge u w) ->
    unnumbered adj s < fuel ->
    exists s',
      fold_opt (visit (strongconnect fuel adj) u) ws s = Some s'
      /\ LoopInv adj s0 u (visited ++ ws) s'.
Proof.
  intros Hcall. induction ws as [|w ws IH]; intros visited s HL Hws Hfuel.
  - exists s. by rewrite app_nil_r.
  - destruct (visit_ok fuel visited s w Hcall HL) as (s1 & Hv & HL1 & Hm);
      [apply Hws; by left|done|].
    destruct (IH (visited ++ [w]) s1 HL1) as (s2 & Hf & HL2);
      [intros; apply Hws; by right|lia|].
    exists s2. simpl. rewrite Hv. simpl. rewrite Hf.
    split; [done|]. by rewrite <- app_assoc in HL2.
Qed.

(** *** The end of a call *)

Lemma pop_component_spec (new rest : list string) :
  forall (on : gset string) (comp : list string),
    u <> "" -> (forall x, x ∈ new -> x <> "" /\ x <> u) ->
    pop_component u (new ++ u :: rest) on comp
    = (rest, on ∖ list_to_set (new ++ [u]), comp ++ new ++ [u]).
Proof.
  induction new as [|w new IH]; intros on comp Hu Hnew; simpl.
  - rewrite (str_eqb_ne u "") by done. rewrite str_eqb_refl.
    do 2 f_equal. by rewrite union_empty_r_L.
  - destruct (Hnew w) as [Hw1 Hw2]; [by left|].
    rewrite (str_eqb_ne w "") by done. rewrite (str_eqb_ne w u) by done.
    rewrite IH; [|done|intros; apply Hnew; by right].
    f_equal; [f_equal|by rewrite <- app_assoc].
    by rewrite difference_difference_l_L.
Qed.

Lemma old_below (s : tstate) (y : string) (j : nat) :
  Extends s0 s -> y ∈ stack s0 -> indices s !! y = Some j -> j < index s0.
Proof.
  intros He Hy Hj.
  assert (is_Some (indices s0 !! y)) as [j' Hj'].
  { apply (inv_numbered adj s0 Hinv0). by left. }
  pose proof (ext_indices s0 s He y j' Hj') as Hj''.
  rewrite Hj in Hj''. injection Hj'' as <-.
  by apply (inv_index adj s0 Hinv0 y).
Qed.

Lemma finish_ok (visited : list string) (s : tstate) :
  LoopInv adj s0 u visited s -> (forall w, Edge u w -> w ∈ visited) ->
  exists s', finish u s = Some s' /\ Post adj s0 u s'.
Proof.
  intros [HI He Hu (new & l & Hst & Hl & Hle & Hwit & Hnew & Hvis)] Hall.
  unfold finish. rewrite Hl, Hu. simpl.
  assert (Hself : forall l', l' = l -> node_ok adj s u (index s0) l' u).
  { intros l' ->. split; [apply rtc_refl|]. split; [apply rtc_refl|].
    split; [by exists (index s0)|]. intros y Hy. by apply Hvis, Hall. }
  destruct (l =? index s0)%nat eqn:Heq.
  2:{ (* [u] is not the root of its component *)
    apply Nat.eqb_neq in Heq. exists s. split; [done|].
    constructor; try done.
    exists (new ++ [u]), l. split; [by rewrite <- app_assoc|].
    split; [done|]. split; [done|]. split.
    { right. split; [lia|]. split; [apply elem_of_app; right; by left|].
      by destruct Hwit. }
    intros x [Hx|Hx]%elem_of_app; [by apply Hnew|].
    apply list_elem_of_singleton in Hx as ->. by apply Hself. }
  (* [u] is the root: its component is popped *)
  apply Nat.eqb_eq in Heq. subst l.
  destruct HI as [Hsd Hfi Hap Hnu Hix Hon Hlo Hcl Hsc Hve].
  assert (Hvu : vertex adj u) by (apply Hve; by eexists).
  assert (Hne : forall x, x ∈ stack s -> x <> "").
  { intros x Hx. apply Hnonempty, Hve, Hnu. by left. }
  assert (Hndnew : NoDup (new ++ [u]) /\ NoDup (stack s0)
                   /\ forall x, x ∈ new ++ [u] -> x ∉ stack s0).
  { rewrite Hst in Hsd.
    replace (new ++ u :: stack s0) with ((new ++ [u]) ++ stack s0) in Hsd
      by (by rewrite <- app_assoc).
    apply NoDup_app in Hsd as (? & ? & ?). done. }
  destruct Hndnew as (Hndc & Hnd0 & Hsep).
  assert (Hpop : pop_component u (stack s) (onStack s) []
                 = (stack s0, onStack s ∖ list_to_set (new ++ [u]),
                    new ++ [u])).
  { rewrite Hst. apply pop_component_spec; [by apply Hnonempty|].
    intros x Hx. split.
    - apply Hne. rewrite Hst. apply elem_of_app. by left.
    - intros ->. apply NoDup_app in Hndc as (_ & Hd & _).
      apply (Hd u Hx). by left. }
  unfold emit. rewrite Hpop. eexists. split; [done|].
  set (comp := new ++ [u]) in *.
  assert (Hcomp_stack : forall x, x ∈ comp -> x ∈ stack s).
  { intros x Hx. rewrite Hst.
    replace (new ++ u :: stack s0) with (comp ++ stack s0)
      by (unfold comp; by rewrite <- app_assoc).
    apply elem_of_app. by left. }
  assert (Hstack_split : forall x, x ∈ stack s <-> x ∈ comp \/ x ∈ stack s0).
  { intros x. rewrite Hst.
    replace (new ++ u :: stack s0) with (comp ++ stack s0)
      by (unfold comp; by rewrite <- app_assoc).
    apply elem_of_app. }
  assert (Hfin : forall x, x ∈ concat (sccs s ++ [comp])
                           <-> x ∈ finished s \/ x ∈ comp).
  { intros x. rewrite concat_app. simpl. rewrite app_nil_r.
    apply elem_of_app. }
  assert (Hnode : forall x, x ∈ comp -> node_ok adj s u (index s0) (index s0) x).
  { intros x [Hx|Hx]%elem_of_app; [by apply Hnew|].
    apply list_elem_of_singleton in Hx as ->. by apply Hself. }
  assert (Hclosed : forall x y, x ∈ finished s \/ x ∈ comp -> Edge x y ->
                                y ∈ finished s \/ y ∈ comp).
  { intros x y [Hx|Hx] Hxy; [left; by eapply Hcl|].
    destruct (Hnode x Hx) as (_ & _ & _ & Hedges).
    destruct (Hedges y Hxy) as [Hy|(Hy & j & Hj & Hij)]; [by left|right].
    apply Hstack_split in Hy as [Hy|Hy]; [done|].
    pose proof (old_below s y j He Hy Hj). lia. }
  constructor.
  - constructor; simpl.
    + done.
    + unfold finished. simpl. rewrite concat_app. simpl. rewrite app_nil_r.
      apply NoDup_app. split; [done|]. split; [|done].
      intros x Hx Hc. apply (Hap x); [by apply Hcomp_stack|done].
    + intros x Hx. unfold finished. simpl. rewrite Hfin.
      intros [Hf|Hc].
      * apply (Hap x); [|done]. apply Hstack_split. by right.
      * by apply (Hsep x).
    + intros x. unfold finished. simpl. rewrite Hfin, Hnu, Hstack_split.
      tauto.
    + done.
    + intros x. rewrite elem_of_difference, elem_of_list_to_set, Hon,
        Hstack_split.
      split; [tauto|]. intros Hx. split; [by right|].
      intros Hc. by apply (Hsep x).
    + done.
    + intros x y. unfold finished. simpl. rewrite !Hfin. apply Hclosed.
    + intros c [Hc|Hc]%elem_of_app; [by apply Hsc|].
      apply list_elem_of_singleton in Hc as ->. split; [|split].
      * intros Hnil. assert (u ∈ comp) as Hin
          by (apply elem_of_app; right; by left).
        rewrite Hnil in Hin. by inversion Hin.
      * intros x y Hx Hy. destruct (Hnode x Hx) as (_ & Hxu & _).
        destruct (Hnode y Hy) as (Huy & _). by eapply reach_trans.
      * intros x y Hx Hxy Hyx.
        assert (y ∈ finished s ++ comp) as [Hy|Hy]%elem_of_app; [|exfalso|done].
        { apply (closed_reach (finished s ++ comp) x y); [|by
            apply elem_of_app; right|done].
          intros a b Ha Hab. apply elem_of_app.
          apply (Hclosed a b); [by apply elem_of_app|done]. }
        apply (Hap x); [by apply Hcomp_stack|].
        by apply (closed_reach (finished s) y x).
    + done.
  - destruct He as [I L F]. constructor; simpl; try done.
    intros x Hx. unfold finished. simpl. rewrite Hfin. left. by apply F.
  - done.
  - exists [], (index s0). simpl. split; [done|]. split; [done|].
    split; [done|]. split; [by left|]. intros x Hx. by inversion Hx.
Qed.
End Loop.

(** *** A call, and the traversal *)

Lemma strongconnect_ok (fuel : nat) : call_ok adj fuel.
Proof.
  induction fuel as [|fuel IH]; intros v s HI Hv Hvx Hbelow Hfuel; [lia|].
  simpl.
  pose proof (unnumbered_enter v s Hvx Hv) as Hless.
  destruct (loop_ok s v HI Hv Hbelow fuel (successors adj v) IH []
              (enter v s) (enter_loop v s HI Hv Hvx)) as (s1 & Hloop & HL);
    [done|lia|].
  rewrite Hloop. simpl. eapply (finish_ok s v); [done..|exact HL|].
  intros w Hw. by apply elem_of_app; right.
Qed.
End TarjanFacts.

Section TarjanTheorem.
Import Analyzer Tarjan Graph.

Variable adj : Adjacency.
Hypothesis Hnonempty : forall x, vertex adj x -> x <> "".

Lemma init_inv : Inv adj init.
Proof.
  constructor; simpl.
  - constructor.
  - constructor.
  - intros x Hx. by inversion Hx.
  - intros x. rewrite lookup_empty. split; [by intros [? ?]|].
    intros [H|H]; by inversion H.
  - intros x i H. by rewrite lookup_empty in H.
  - intros x. split; intros H; [by apply not_elem_of_empty in H|by inversion H].
  - intros x [? H]. by rewrite lookup_empty in H.
  - intros x y H. by inversion H.
  - intros c H. by inversion H.
  - intros x [? H]. by rewrite lookup_empty in H.
Qed.

Lemma unnumbered_bound (s : tstate) :
  unnumbered adj s < S (length (names adj)).
Proof.
  unfold unnumbered.
  assert (size (list_to_set (C := gset string) (names adj) ∖ dom (indices s))
          <= size (list_to_set (C := gset string) (names adj))) as H1.
  { apply subseteq_size. intros x Hx.
    by apply elem_of_difference in Hx as [? _]. }
  pose proof (size_list_to_set_le (names adj)). lia.
Qed.

Lemma top_ok (ks : list string) :
  forall s,
    Inv adj s -> stack s = [] -> (forall k, k ∈ ks -> k ∈ omap_keys adj) ->
    exists s',
      fold_opt (top_visit (S (length (names adj))) adj) ks s = Some s'
      /\ Inv adj s' /\ stack s' = []
      /\ (forall x, is_Some (indices s !! x) -> is_Some (indices s' !! x))
      /\ (forall k, k ∈ ks -> is_Some (indices s' !! k)).
Proof.
  induction ks as [|k ks IH]; intros s HI Hst Hks.
  - exists s. repeat (split; [done|]). intros k Hk. by inversion Hk.
  - assert (exists s1, top_visit (S (length (names adj))) adj s k = Some s1
                       /\ Inv adj s1 /\ stack s1 = []
                       /\ (forall x, is_Some (indices s !! x)
                                     -> is_Some (indices s1 !! x))
                       /\ is_Some (indices s1 !! k))
      as (s1 & Hv & HI1 & Hst1 & Hmono1 & Hk1).
    { unfold top_visit. destruct (indices s !! k) as [i|] eqn:Hk.
      { exists s. repeat (split; [done|]). by rewrite Hk. }
      destruct (strongconnect_ok adj Hnonempty (S (length (names adj))) k s)
        as (s1 & Hs1 & [HI1 He1 Hv1 (new & l & Hst1 & _ & _ & Hcase & _)]);
        [done|done|left; apply Hks; by left| |apply unnumbered_bound|].
      { intros x Hx. rewrite Hst in Hx. by inversion Hx. }
      exists s1. split; [done|]. split; [done|]. split.
      { destruct Hcase as [[-> _]|(_ & _ & y & Hy & _)].
        - by rewrite Hst1, Hst.
        - rewrite Hst in Hy. by inversion Hy. }
      split; [|by eexists]. intros x [i Hx]. exists i.
      by apply (ext_indices s s1 He1). }
    destruct (IH s1 HI1 Hst1) as (s2 & Hf & HI2 & Hst2 & Hmono2 & Hks2).
    { intros k' Hk'. apply Hks. by right. }
    exists s2. simpl. rewrite Hv. simpl. rewrite Hf.
    repeat (split; [done|]). split.
    + intros x Hx. by apply Hmono2, Hmono1.
    + intros k' [->|Hk']%elem_of_cons; [by apply Hmono2|by apply Hks2].
Qed.

(** C3 (amended).  For every adjacency map in which no name is the
    empty string, [computeSCC] returns, and what it returns is a
    partition of the names that occur in the map, keys and members of
    the sets alike: no name occurs twice in the components, no component
    is empty, the names of the components are exactly the names of the
    map, and two names of the map lie in one component if and only if
    each is reachable from the other. *)
Theorem C3_components_partition_the_names :
  exists sccs,
    computeSCC adj = Some sccs
    /\ NoDup (concat sccs)
    /\ (forall c, c ∈ sccs -> c <> [])
    /\ (forall x, x ∈ concat sccs <-> vertex adj x)
    /\ (forall x y, vertex adj x -> vertex adj y ->
          ((exists c, c ∈ sccs /\ x ∈ c /\ y ∈ c)
           <-> reach adj x y /\ reach adj y x)).
Proof.
  destruct (top_ok (omap_keys adj) init init_inv eq_refl)
    as (s & Hf & HI & Hst & _ & Hkeys); [done|].
  exists (sccs s). unfold computeSCC. rewrite Hf. simpl.
  destruct HI as [Hsd Hfi Hap Hnu Hix Hon Hlo Hcl Hsc Hve].
  assert (Hall : forall x, x ∈ concat (sccs s) <-> vertex adj x).
  { intros x. split.
    - intros Hx. apply Hve, Hnu. by right.
    - assert (Hkey : forall k, k ∈ omap_keys adj -> k ∈ concat (sccs s)).
      { intros k Hk. destruct (proj1 (Hnu k) (Hkeys k Hk)) as [Hs|Hd]; [|done].
        rewrite Hst in Hs. by inversion Hs. }
      intros [Hk|(k & Hk)]; [by apply Hkey|].
      apply (Hcl k x); [|done]. apply Hkey. by eapply edge_source. }
  split; [done|]. split; [done|]. split; [intros c Hc; by apply Hsc|].
  split; [done|].
  intros x y Hx Hy. split.
  - intros (c & Hc & Hxc & Hyc). destruct (Hsc c Hc) as (_ & Hconn & _).
    split; by apply Hconn.
  - intros [Hxy Hyx]. apply Hall, elem_of_concat in Hx as (c & Hc & Hxc).
    exists c. split; [done|]. split; [done|].
    destruct (Hsc c Hc) as (_ & _ & Hmax). by apply (Hmax x y).
Qed.
End TarjanTheorem.

Section TarjanExamples.
Import Analyzer Tarjan Graph.

Lemma C3_components_partition_the_names_witness :
  (forall x, vertex [("Box", ["T"])] x -> x <> "")
  /\ exists sccs,
       computeSCC [("Box", ["T"])] = Some sccs
       /\ NoDup (concat sccs)
       /\ (forall x, x ∈ concat sccs <-> vertex [("Box", ["T"])] x).
Proof.
  assert (H : forall x, vertex [("Box", ["T"])] x -> x <> "").
  { intros x [Hx|(k & Hk)].
    - apply list_elem_of_singleton in Hx as ->. discriminate.
    - unfold edge, successors in Hk. simpl in Hk.
      destruct (str_eqb "Box" k); simpl in Hk.
      + apply list_elem_of_singleton in Hk as ->. discriminate.
      + by inversion Hk. }
  split; [exact H|].
  destruct (C3_components_partition_the_names [("Box", ["T"])] H)
    as (sccs & H1 & H2 & _ & H3 & _).
  exists sccs. split; [exact H1|]. split; [exact H2|exact H3].
Defined.

(** C3 (counterexample).  The map of [interface Box<T> { item: T }]
    has the one key [Box], and [T] is a member of its set; [computeSCC]
    returns a component for [T] as well, so the union of the components
    is larger than the set of entity names. *)
Lemma C3_components_exceed_the_keys :
  buildAdjacency
    [mkEntity "Box" None false None
       (EInstance (Some "interface") [PReference (prop_attrs "item" false) "T"]
          None ["T"])]
  = [("Box", ["T"])]
  /\ computeSCC [("Box", ["T"])] = Some [["T"]; ["Box"]]
  /\ "T" ∈ concat [["T"]; ["Box"]]
  /\ "T" ∉ omap_keys [("Box", ["T"])].
Proof.
  split; [vm_compute; reflexivity|]. split; [vm_compute; reflexivity|].
  split; [by left|].
  intros H. apply list_elem_of_singleton in H. discriminate.
Qed.

(** With the empty string as a name (an anonymous class), the name is
    dropped when it is popped and stays marked as on the stack: here
    [A], which refers to it, ends in no component. *)
Lemma empty_name_is_lost :
  computeSCC [("", []); ("A", [""])] = Some [[]].
Proof. vm_compute. reflexivity. Qed.
End TarjanExamples.

(** ** The shape of the adjacency map *)

Section AdjacencyShape.
Import Analyzer References.
Local Opaque extractTypeNameFromImportish.

Local Abbreviation adds := (fold_left (fun s x => set_add x s)).

Lemma set_add_in (x : string) (s : list string) : x ∈ s -> set_add x s = s.
Proof. intros H. unfold set_add. by rewrite (proj2 (set_has_elem x s) H). Qed.

Lemma set_add_out (x : string) (s : list string) :
  x ∉ s -> set_add x s = s ++ [x].
Proof. intros H. unfold set_add. by rewrite (proj2 (set_has_not_elem x s) H). Qed.

Lemma adds_snoc (l : list string) (x : string) (s : list string) :
  adds (l ++ [x]) s = set_add x (adds l s).
Proof. by rewrite fold_left_app. Qed.

Lemma elem_of_adds (l s : list string) (x : string) :
  x ∈ adds l s <-> x ∈ l \/ x ∈ s.
Proof.
  induction l as [|y l IH] using rev_ind.
  - simpl. split; [by right|]. intros [H|H]; [by inversion H|done].
  - rewrite adds_snoc, elem_of_set_add, IH, elem_of_app,
      list_elem_of_singleton. tauto.
Qed.

Lemma adds_adds (l m acc : list string) :
  adds (adds l m) acc = adds l (adds m acc).
Proof.
  induction l as [|x l IH] using rev_ind; [done|].
  rewrite !adds_snoc. destruct (decide (x ∈ adds l m)) as [Hin|Hout].
  - rewrite (set_add_in x (adds l m)) by done. rewrite IH.
    symmetry. apply set_add_in. apply elem_of_adds.
    apply elem_of_adds in Hin as [?|?]; [by left|].
    right. apply elem_of_adds. by left.
  - rewrite (set_add_out x (adds l m)) by done.
    by rewrite adds_snoc, IH.
Qed.

Lemma collect_as_adds (v : ASTPropertyValue) :
  forall acc, collectRefsFromProp v acc = adds (collectRefsFromProp v []) acc.
Proof.
  induction v as [| |a t vs IH| | | a s| a o v IH| a p c v _ IH
                  | a c e t f _ _ IH _| ] using value_ind;
    intros acc; try done.
  - rewrite !collect_composite.
    induction vs as [|v vs IHvs] using rev_ind; [done|].
    destruct (proj1 (Forall_app _ _ _) IH) as [IHl IHv].
    rewrite Forall_singleton in IHv.
    rewrite !fold_left_app. simpl.
    rewrite (IHv (fold_left _ vs acc)), (IHv (fold_left _ vs [])).
    rewrite (IHvs IHl). by rewrite adds_adds.
  - simpl. destruct (_ && _); [|done].
    by rewrite (set_add_out _ []) by (by intros H; inversion H).
  - simpl. apply IH.
  - simpl. apply IH.
  - simpl. apply IH.
Qed.

Lemma omap_has_keys {V} (k : string) (m : list (string * V)) :
  omap_has k m = set_has k (omap_keys m).
Proof.
  unfold omap_has, omap_keys. induction m as [|[k0 v0] m IH]; [done|].
  cbn [omap_get]. rewrite fmap_cons. cbn [fst].
  destruct (decide (k0 = k)) as [->|Hne].
  - rewrite str_eqb_refl. symmetry. apply set_has_elem. by left.
  - rewrite (str_eqb_ne k0 k) by done. rewrite IH.
    destruct (set_has k (fst <$> m)) eqn:E.
    + symmetry. apply set_has_elem. right. by apply set_has_elem.
    + symmetry. apply set_has_not_elem. apply set_has_not_elem in E.
      intros [?|?]%elem_of_cons; [congruence|done].
Qed.

Lemma omap_keys_set {V} (k : string) (v : V) (m : list (string * V)) :
  omap_keys (omap_set k v m) = set_add k (omap_keys m).
Proof.
  unfold omap_keys. induction m as [|[k0 v0] m IH]; [done|].
  cbn [omap_set]. destruct (decide (k0 = k)) as [->|Hne].
  - rewrite str_eqb_refl. rewrite !fmap_cons. cbn [fst].
    symmetry. apply set_add_in. by left.
  - rewrite (str_eqb_ne k0 k) by done. rewrite !fmap_cons. cbn [fst].
    rewrite IH.
    destruct (decide (k ∈ fst <$> m)) as [Hin|Hout].
    + rewrite !set_add_in; [done| by right | done].
    + rewrite !set_add_out; [done| |done].
      intros [?|?]%elem_of_cons; [congruence|done].
Qed.
Lemma omap_keys_ensure (k : string) (adj : Adjacency) :
  omap_keys (ensure k adj) = set_add k (omap_keys adj).
Proof.
  unfold ensure. rewrite omap_has_keys.
  destruct (set_has k (omap_keys adj)) eqn:E.
  - symmetry. apply set_add_in. by apply set_has_elem.
  - apply omap_keys_set.
Qed.

Lemma set_add_idem (k : string) (s : list string) :
  set_add k (set_add k s) = set_add k s.
Proof. apply set_add_in, elem_of_set_add. by left. Qed.

Lemma omap_keys_addEdge (from to : string) (adj : Adjacency) :
  omap_keys (addEdge from to adj) = set_add from (omap_keys adj).
Proof.
  unfold addEdge. by rewrite omap_keys_set, omap_keys_ensure, set_add_idem.
Qed.

Lemma step_keys (adj : Adjacency) (e : ASTEntity) :
  omap_keys (buildAdjacency_step adj e) = set_add (e_name e) (omap_keys adj).
Proof.
  unfold buildAdjacency_step.
  pose proof (omap_keys_ensure (e_name e) adj) as He.
  set (Q := fun a : Adjacency =>
              omap_keys a = set_add (e_name e) (omap_keys adj)).
  assert (Hedge : forall a (x : string), Q a -> Q (addEdge (e_name e) x a)).
  { intros a x Ha. unfold Q in *.
    by rewrite omap_keys_addEdge, Ha, set_add_idem. }
  cbv zeta. destruct (e_body e); try exact He.
  - apply (fold_left_keeps Q); [intros; by apply Hedge|].
    apply (fold_left_keeps Q); [|exact He].
    intros a p _ Ha. unfold Q in *.
    by rewrite omap_keys_set, Ha, set_add_idem.
  - apply (fold_left_keeps Q); [|exact He]. intros a v _ Ha.
    apply (fold_left_keeps Q); [intros; by apply Hedge|done].
  - apply (fold_left_keeps Q); [intros; by apply Hedge|exact He].
  - apply (fold_left_keeps Q); [intros; by apply Hedge|exact He].
Qed.

Lemma fold_keys (es : list ASTEntity) (adj : Adjacency) :
  omap_keys (fold_left buildAdjacency_step es adj)
  = adds (e_name <$> es) (omap_keys adj).
Proof.
  revert adj. induction es as [|e es IH]; intros adj; [done|].
  simpl. by rewrite IH, step_keys.
Qed.

(** X1.  The keys of the map that [buildAdjacency] returns are the
    names of the declarations, each once, in the order in which a name
    is first declared; a name that is only referred to is no key. *)
Theorem X1_adjacency_keys_are_the_declared_names (entities : list ASTEntity) :
  omap_keys (buildAdjacency entities) = set_of_list (e_name <$> entities)
  /\ NoDup (omap_keys (buildAdjacency entities))
  /\ forall x, x ∈ omap_keys (buildAdjacency entities)
               <-> exists e, e ∈ entities /\ e_name e = x.
Proof.
  assert (H : omap_keys (buildAdjacency entities)
              = set_of_list (e_name <$> entities))
    by apply fold_keys.
  split; [exact H|]. rewrite H. split; [apply NoDup_set_of_list|].
  intros x. rewrite elem_of_set_of_list, list_elem_of_fmap.
  split; intros (e & H1 & H2); exists e; by split.
Qed.


Lemma step_successors (adj : Adjacency) (e : ASTEntity) (k : string) :
  successors (buildAdjacency_step adj e) k
  = if decide (e_name e = k) then adds (direct_refs e) (successors adj k)
    else successors adj k.
Proof.
  unfold buildAdjacency_step, direct_refs.
  set (from := e_name e).
  set (Q := fun (got : list string) (a : Adjacency) =>
              successors a k
              = if decide (from = k) then adds got (successors adj k)
                else successors adj k).
  assert (H0 : Q [] (ensure from adj)).
  { unfold Q. rewrite successors_ensure. by destruct (decide _). }
  assert (Hedges : forall (l got : list string) a,
             Q got a ->
             Q (got ++ l) (fold_left (fun a x => addEdge from x a) l a)).
  { intros l. induction l as [|x l IH]; intros got a Ha.
    - by rewrite app_nil_r.
    - simpl. replace (got ++ x :: l) with ((got ++ [x]) ++ l)
        by (by rewrite <- app_assoc).
      apply IH. unfold Q in *. rewrite successors_addEdge.
      destruct (decide (from = k)) as [Hk|Hk]; [|done].
      rewrite adds_snoc. rewrite <- Hk in *. by rewrite Ha. }
  assert (Hmapped : forall (A : Type) (f : A -> string) (l : list A) got a,
             Q got a ->
             Q (got ++ (f <$> l))
               (fold_left (fun a x => addEdge from (f x) a) l a)).
  { intros A f l got a Ha.
    assert (E : fold_left (fun a x => addEdge from (f x) a) l a
                = fold_left (fun a x => addEdge from x a) (f <$> l) a).
    { clear Ha. revert a. induction l as [|x l IH]; intros a; [done|].
      simpl. apply IH. }
    rewrite E. by apply Hedges. }
  change (Q (match e_body e with
             | EInstance _ properties inherits _ =>
                 fold_left (fun acc p => collectRefsFromProp p acc)
                   properties []
                 ++ ((fun b => extractTypeNameFromImportish (expr b))
                       <$> default [] inherits)
             | EUnion values => v ← values; collectRefsFromProp v []
             | EAlias entities => extractTypeNameFromImportish <$> entities
             | EArray value => collectRefsFromProp value []
             | _ => []
             end)
            (match e_body e with
             | EInstance _ properties inherits _ =>
    let adj :=
      fold_left (fun adj p =>
                   omap_set from (collectRefsFromProp p (successors adj from))
                     adj) properties (ensure from adj) in
    fold_left (fun adj base =>
                 addEdge from (extractTypeNameFromImportish (expr base)) adj)
      (default [] inherits) adj
| EUnion values =>
    fold_left (fun adj v =>
                 fold_left (fun adj r => addEdge from r adj)
                   (collectRefsFromProp v []) adj) values (ensure from adj)
| EAlias entities =>
    fold_left (fun adj ent =>
                 addEdge from (extractTypeNameFromImportish ent) adj)
      entities (ensure from adj)
| EArray value =>
    fold_left (fun adj r => addEdge from r adj)
      (collectRefsFromProp value []) (ensure from adj)
| _ => ensure from adj
             end)).
  destruct (e_body e) as [ik props inh g|vs|ents|v|v|v|vs|]; try exact H0.
  - cbv zeta.
    apply (Hmapped _ (fun b => extractTypeNameFromImportish (expr b))).
    clear Hedges Hmapped. revert H0. generalize (ensure from adj).
    generalize (@nil string) as got.
    induction props as [|p props IH]; intros got a Ha; [done|].
    simpl. apply IH. unfold Q in *. rewrite successors_set.
    destruct (decide (from = k)) as [Hk|Hk]; [|done].
    rewrite <- Hk in *. rewrite Ha.
    rewrite (collect_as_adds p (adds got _)), (collect_as_adds p got).
    by rewrite adds_adds.
  - assert (Hunion : forall (l : list ASTPropertyValue) got a,
               Q got a ->
               Q (got ++ (v ← l; collectRefsFromProp v []))
                 (fold_left
                    (fun adj v =>
                       fold_left (fun adj r => addEdge from r adj)
                         (collectRefsFromProp v []) adj) l a)).
    { intros l. induction l as [|v l IH]; intros got a Ha.
      - by rewrite app_nil_r.
      - simpl. rewrite app_assoc. apply IH. by apply Hedges. }
    apply (Hunion vs [] _ H0).
  - apply (Hmapped _ extractTypeNameFromImportish _ []). exact H0.
  - apply (Hedges _ []). exact H0.
Qed.

Lemma fold_successors (es : list ASTEntity) (adj : Adjacency) (k : string) :
  successors (fold_left buildAdjacency_step es adj) k
  = adds (declared_as k es ≫= direct_refs) (successors adj k).
Proof.
  revert adj. induction es as [|e es IH]; intros adj; [done|].
  simpl. rewrite IH, step_successors. unfold declared_as.
  rewrite filter_cons. destruct (decide (e_name e = k)) as [Hk|Hk]; [|done].
  rewrite bind_cons, fold_left_app. done.
Qed.

(** X2.  The set that the map of [buildAdjacency] holds for a name is
    made of the references of every declaration of that name, taken in
    declaration order: names are the nodes of the graph, so that
    declarations that share a name share one set. *)
Theorem X2_successors_merge_the_declarations_of_a_name
  (entities : list ASTEntity) (x : string) :
  successors (buildAdjacency entities) x
  = set_of_list (declared_as x entities ≫= direct_refs).
Proof. apply fold_successors. Qed.
End AdjacencyShape.
(** ** Recursion and cycles *)

Section RecursionIsCycle.
Import Analyzer Tarjan Graph Annotate Paths Cycles.
Local Opaque extractTypeNameFromImportish.

Variable adj : Adjacency.
Hypothesis Hnames : no_empty_name adj = true.

Lemma names_nonempty (x : string) : vertex adj x -> x <> "".
Proof.
  intros Hx ->. apply vertex_in_names in Hx.
  unfold no_empty_name in Hnames. apply negb_true_iff in Hnames.
  by apply set_has_not_elem in Hnames.
Qed.

Lemma computeSCC_spec :
  exists sccs,
    computeSCC adj = Some sccs
    /\ NoDup (concat sccs)
    /\ (forall c, c ∈ sccs -> is_scc adj c)
    /\ (forall x, x ∈ concat sccs <-> vertex adj x).
Proof.
  destruct (top_ok adj names_nonempty (omap_keys adj) init (init_inv adj) eq_refl)
    as (s & Hf & HI & Hst & _ & Hkeys); [done|].
  exists (sccs s). unfold computeSCC. rewrite Hf. simpl.
  destruct HI as [Hsd Hfi Hap Hnu Hix Hon Hlo Hcl Hsc Hve].
  split; [done|]. split; [done|]. split; [done|].
  intros x. split.
  - intros Hx. apply Hve, Hnu. by right.
  - assert (Hkey : forall k, k ∈ omap_keys adj -> k ∈ concat (sccs s)).
    { intros k Hk. destruct (proj1 (Hnu k) (Hkeys k Hk)) as [Hs|Hd]; [|done].
      rewrite Hst in Hs. by inversion Hs. }
    intros [Hk|(k & Hk)]; [by apply Hkey|].
    apply (Hcl k x); [|done]. apply Hkey. by eapply edge_source.
Qed.

Lemma insert_all_lookup (v : list string) (l : list string)
  (m : gmap string (list string)) (n : string) :
  fold_left (fun m n => <[n := v]> m) l m !! n
  = if decide (n ∈ l) then Some v else m !! n.
Proof.
  revert m. induction l as [|x l IH]; intros m.
  - cbn [fold_left]. destruct (decide (n ∈ [])) as [H|_]; [by inversion H|done].
  - cbn [fold_left]. rewrite IH. destruct (decide (n ∈ l)) as [Hin|Hout].
    + by rewrite decide_True by (by right).
    + destruct (decide (x = n)) as [->|Hne].
      * rewrite lookup_insert_eq. by rewrite decide_True by (by left).
      * rewrite lookup_insert_ne by done.
        rewrite decide_False; [done|].
        intros [?|?]%elem_of_cons; [congruence|done].
Qed.

Lemma buildNodeToScc_snoc (sccs : list (list string)) (c : list string) :
  buildNodeToScc (sccs ++ [c])
  = fold_left (fun m n => <[n := set_of_list c]> m) c (buildNodeToScc sccs).
Proof. unfold buildNodeToScc. by rewrite fold_left_app. Qed.

Lemma buildNodeToScc_lookup (sccs : list (list string)) (n : string) :
  NoDup (concat sccs) ->
  (forall c, c ∈ sccs -> n ∈ c -> buildNodeToScc sccs !! n = Some c)
  /\ (n ∉ concat sccs -> buildNodeToScc sccs !! n = None).
Proof.
  induction sccs as [|c sccs IH] using rev_ind; intros Hnd.
  - split; [intros c Hc; by inversion Hc|]. intros _. apply lookup_empty.
  - rewrite concat_app in Hnd. simpl in Hnd. rewrite app_nil_r in Hnd.
    apply NoDup_app in Hnd as (Hnd1 & Hdisj & Hndc).
    destruct (IH Hnd1) as [IHin IHout].
    rewrite buildNodeToScc_snoc.
    split.
    + intros c' Hc' Hn. rewrite insert_all_lookup.
      apply elem_of_app in Hc' as [Hc'|Hc'].
      * rewrite decide_False; [by apply IHin|].
        apply (Hdisj n). apply elem_of_concat. by exists c'.
      * apply list_elem_of_singleton in Hc' as ->.
        rewrite decide_True by done. by rewrite set_of_list_NoDup.
    + intros Hn. rewrite concat_app in Hn. simpl in Hn.
      rewrite app_nil_r in Hn. rewrite insert_all_lookup.
      rewrite decide_False; [apply IHout|]; intros H; apply Hn;
        apply elem_of_app; [by left|by right].
Qed.

Lemma NoDup_concat_member {A} (ls : list (list A)) (l : list A) :
  NoDup (concat ls) -> l ∈ ls -> NoDup l.
Proof.
  intros Hnd Hl. apply list_elem_of_split in Hl as (pre & post & ->).
  rewrite concat_app in Hnd. simpl in Hnd.
  apply NoDup_app in Hnd as (_ & _ & Hnd).
  by apply NoDup_app in Hnd as (Hnd & _ & _).
Qed.

Lemma reach_leaves (x y : string) :
  reach adj x y -> x <> y -> exists z, edge adj x z /\ reach adj z y.
Proof. intros H Hne. destruct H as [|x z y Hxz Hzy]; [done|]. by exists z. Qed.

Lemma other_member (c : list string) (n : string) :
  NoDup c -> n ∈ c -> 1 < length c -> exists y, y ∈ c /\ y <> n.
Proof.
  intros Hnd Hn Hlen. destruct c as [|a [|b c]]; simpl in Hlen; [lia|lia|].
  destruct (decide (a = n)) as [->|Hne].
  - exists b. split; [right; by left|]. intros ->.
    apply NoDup_cons in Hnd as [Hnd _]. apply Hnd. by left.
  - exists a. split; [by left|done].
Qed.

Lemma two_members (c : list string) (n y : string) :
  NoDup c -> n ∈ c -> y ∈ c -> y <> n -> 1 < length c.
Proof.
  intros Hnd Hn Hy Hne. destruct c as [|a [|b c]]; simpl; [by inversion Hn| |lia].
  apply list_elem_of_singleton in Hn, Hy. congruence.
Qed.

Section Components.
Variable sccs : list (list string).
Hypothesis Hnd : NoDup (concat sccs).
Hypothesis Hscc : forall c, c ∈ sccs -> is_scc adj c.
Hypothesis Hall : forall x, x ∈ concat sccs <-> vertex adj x.

Lemma scc_of_vertex (n : string) (c : list string) :
  c ∈ sccs -> n ∈ c -> scc n (buildNodeToScc sccs) = c.
Proof.
  intros Hc Hn. unfold scc.
  by rewrite (proj1 (buildNodeToScc_lookup sccs n Hnd) c Hc Hn).
Qed.

Lemma scc_of_stranger (n : string) :
  ~ vertex adj n -> scc n (buildNodeToScc sccs) = [].
Proof.
  intros Hn. unfold scc.
  rewrite (proj2 (buildNodeToScc_lookup sccs n Hnd)); [done|].
  intros H. by apply Hn, Hall.
Qed.

Lemma inRecursion_on_cycle (n : string) :
  inRecursion n adj (buildNodeToScc sccs) = true <-> on_cycle adj n.
Proof.
  unfold inRecursion, hasSelfEdge.
  destruct (decide (n ∈ concat sccs)) as [Hin|Hv].
  - apply elem_of_concat in Hin as (c & Hc & Hn).
    rewrite (scc_of_vertex n c Hc Hn).
    pose proof (NoDup_concat_member _ _ Hnd Hc) as Hndc.
    destruct (Hscc c Hc) as (_ & Hconn & Hmax).
    rewrite orb_true_iff, Nat.ltb_lt, set_has_elem. split.
    + intros [Hlen|Hself].
      * destruct (other_member c n Hndc Hn Hlen) as (y & Hy & Hne).
        destruct (reach_leaves n y (Hconn n y Hn Hy)) as (z & Hnz & Hzy);
          [done|].
        exists z. split; [done|]. eapply rtc_trans; [exact Hzy|].
        by apply Hconn.
      * exists n. split; [done|]. apply rtc_refl.
    + intros (y & Hny & Hyn). destruct (decide (y = n)) as [->|Hne].
      * by right.
      * left. apply (two_members c n y); [done..| |done].
        apply (Hmax n y); [done| |done]. by apply rtc_once.
  - rewrite Hall in Hv. rewrite (scc_of_stranger n Hv). simpl. split.
    + intros H. apply set_has_elem in H. exfalso. apply Hv. right.
      by exists n.
    + intros (y & Hny & _). exfalso. apply Hv. left. by eapply edge_source.
Qed.

Lemma targetSet_is_component (n x : string) :
  on_cycle adj n ->
  x ∈ targetSet n (buildNodeToScc sccs) <-> reach adj n x /\ reach adj x n.
Proof.
  intros (y & Hny & Hyn).
  assert (Hv : vertex adj n) by (left; by eapply edge_source).
  pose proof (proj2 (Hall n) Hv) as Hin.
  apply elem_of_concat in Hin as (c & Hc & Hn).
  unfold targetSet. rewrite (scc_of_vertex n c Hc Hn).
  destruct (Hscc c Hc) as (_ & Hconn & Hmax).
  destruct c as [|a c]; [by inversion Hn|].
  split.
  - intros Hx. split; by apply Hconn.
  - intros [H1 H2]. by apply (Hmax n x).
Qed.
End Components.
End RecursionIsCycle.

Section AnnotatedEntity.
Import Analyzer Tarjan Graph Annotate Paths Cycles.
Local Opaque extractTypeNameFromImportish.

Variable adj : Adjacency.
Variable nodeToScc : gmap string (list string).
Variable reachableFrom : string -> list string.

Lemma annotate_entity_result (E E' : ASTEntity) :
  annotateEntityWithRecursion E adj nodeToScc reachableFrom = Ok E' ->
  e_name E' = e_name E
  /\ hasRecursion E' = inRecursion (e_name E) adj nodeToScc
  /\ cycleGroup E'
     = if inRecursion (e_name E) adj nodeToScc
       then Some (targetSet (e_name E) nodeToScc) else None.
Proof.
  unfold annotateEntityWithRecursion. intros H.
  destruct (match e_body E with EInstance _ _ _ _ => _ | _ => _ end)
    as [body|]; [|done].
  simpl in H. by injection H as <-.
Qed.

Lemma annotate_entity_total (E : ASTEntity) :
  entity_annotatable E = true ->
  exists E', annotateEntityWithRecursion E adj nodeToScc reachableFrom = Ok E'.
Proof.
  unfold annotateEntityWithRecursion, entity_annotatable. intros H.
  destruct (e_body E) as [ik props inh g|vs|ents|v|v|v|vs|];
    try (by eexists).
  - destruct (map_res_total
                (fun q => fst <$> annotateProperty (e_name E) adj nodeToScc
                                    reachableFrom q) props) as [props' ->].
    { apply Forall_forall. intros q Hq.
      rewrite forallb_forall in H. apply list_elem_of_In in Hq.
      destruct (annotate_total (e_name E) adj nodeToScc reachableFrom q
                  (H q Hq)) as [x Hx].
      unfold annotateProperty. rewrite Hx. simpl. by eexists. }
    by eexists.
  - destruct (map_res_total
                (fun q => fst <$> annotatePropValue (e_name E) adj nodeToScc
                                    reachableFrom q) vs) as [vs' ->].
    { apply Forall_forall. intros q Hq.
      rewrite forallb_forall in H. apply list_elem_of_In in Hq.
      destruct (annotate_total (e_name E) adj nodeToScc reachableFrom q
                  (H q Hq)) as [x Hx].
      rewrite Hx. simpl. by eexists. }
    by eexists.
  - destruct (annotate_total (e_name E) adj nodeToScc reachableFrom v H)
      as [x Hx].
    rewrite Hx. simpl. by eexists.
Qed.

Lemma annotate_entity_throws (E : ASTEntity) (msg : string) :
  annotateEntityWithRecursion E adj nodeToScc reachableFrom = Throw msg ->
  entity_annotatable E = false.
Proof.
  intros H. destruct (entity_annotatable E) eqn:Ha; [|done].
  destruct (annotate_entity_total E Ha) as [E' HE']. congruence.
Qed.
End AnnotatedEntity.

Section RecursionFlag.
Import Analyzer Tarjan Graph Annotate Paths Cycles.

(** X3.  In a graph without an empty name, [computeSCC] returns, and
    with the components it returns the annotation of an entity gives it
    [hasRecursion] exactly when its name lies on a cycle of the graph
    (an edge leaves it for a name from which it is reachable, a
    self-edge included); the annotation fails only on an array without
    an element. *)
Theorem X3_recursion_flag_iff_on_a_cycle (adj : Adjacency) :
  no_empty_name adj = true ->
  exists sccs,
    computeSCC adj = Some sccs
    /\ forall (E : ASTEntity) (reachableFrom : string -> list string),
         match annotateEntityWithRecursion E adj (buildNodeToScc sccs)
                 reachableFrom with
         | Ok E' => hasRecursion E' = true <-> on_cycle adj (e_name E)
         | Throw _ => entity_annotatable E = false
         end.
Proof.
  intros Hnames.
  destruct (computeSCC_spec adj Hnames) as (sccs & Hc & Hnd & Hscc & Hall).
  exists sccs. split; [done|]. intros E rf.
  destruct (annotateEntityWithRecursion E adj (buildNodeToScc sccs) rf)
    as [E'|msg] eqn:HE.
  - apply annotate_entity_result in HE as (_ & -> & _).
    by apply inRecursion_on_cycle.
  - by eapply annotate_entity_throws.
Qed.

Lemma X3_recursion_flag_iff_on_a_cycle_witness :
  no_empty_name [("A", ["B"]); ("B", ["A"])] = true
  /\ exists sccs,
       computeSCC [("A", ["B"]); ("B", ["A"])] = Some sccs
       /\ forall (E : ASTEntity) (reachableFrom : string -> list string),
            match annotateEntityWithRecursion E [("A", ["B"]); ("B", ["A"])]
                    (buildNodeToScc sccs) reachableFrom with
            | Ok E' =>
                hasRecursion E' = true
                <-> on_cycle [("A", ["B"]); ("B", ["A"])] (e_name E)
            | Throw _ => entity_annotatable E = false
            end.
Proof.
  split; [reflexivity|].
  apply (X3_recursion_flag_iff_on_a_cycle [("A", ["B"]); ("B", ["A"])]).
  reflexivity.
Defined.

(** X4.  With the components that [computeSCC] returns, the
    [cycleGroup] of an annotated entity is present exactly when its
    name lies on a cycle, and it then holds the names that reach the
    entity and are reached from it, and no other name. *)
Theorem X4_cycle_group_is_the_component (adj : Adjacency) :
  no_empty_name adj = true ->
  exists sccs,
    computeSCC adj = Some sccs
    /\ forall (E : ASTEntity) (reachableFrom : string -> list string),
         match annotateEntityWithRecursion E adj (buildNodeToScc sccs)
                 reachableFrom with
         | Ok E' =>
             match cycleGroup E' with
             | Some group =>
                 on_cycle adj (e_name E)
                 /\ forall x, x ∈ group
                              <-> reach adj (e_name E) x
                                  /\ reach adj x (e_name E)
             | None => ~ on_cycle adj (e_name E)
             end
         | Throw _ => entity_annotatable E = false
         end.
Proof.
  intros Hnames.
  destruct (computeSCC_spec adj Hnames) as (sccs & Hc & Hnd & Hscc & Hall).
  exists sccs. split; [done|]. intros E rf.
  destruct (annotateEntityWithRecursion E adj (buildNodeToScc sccs) rf)
    as [E'|msg] eqn:HE; [|by eapply annotate_entity_throws].
  apply annotate_entity_result in HE as (_ & _ & ->).
  pose proof (inRecursion_on_cycle adj sccs Hnd Hscc Hall (e_name E)) as Hiff.
  destruct (inRecursion (e_name E) adj (buildNodeToScc sccs)).
  - assert (Hcyc : on_cycle adj (e_name E)) by (by apply Hiff).
    split; [done|]. intros x. by apply targetSet_is_component.
  - intros Hcyc. apply Hiff in Hcyc. discriminate.
Qed.

Lemma X4_cycle_group_is_the_component_witness :
  no_empty_name [("A", ["B"; "C"]); ("B", ["A"])] = true
  /\ exists sccs,
       computeSCC [("A", ["B"; "C"]); ("B", ["A"])] = Some sccs
       /\ forall (E : ASTEntity) (reachableFrom : string -> list string),
            match annotateEntityWithRecursion E
                    [("A", ["B"; "C"]); ("B", ["A"])]
                    (buildNodeToScc sccs) reachableFrom with
            | Ok E' =>
                match cycleGroup E' with
                | Some group =>
                    on_cycle [("A", ["B"; "C"]); ("B", ["A"])] (e_name E)
                    /\ forall x,
                         x ∈ group
                         <-> reach [("A", ["B"; "C"]); ("B", ["A"])]
                               (e_name E) x
                             /\ reach [("A", ["B"; "C"]); ("B", ["A"])] x
                                  (e_name E)
                | None =>
                    ~ on_cycle [("A", ["B"; "C"]); ("B", ["A"])] (e_name E)
                end
            | Throw _ => entity_annotatable E = false
            end.
Proof.
  split; [reflexivity|].
  apply (X4_cycle_group_is_the_component [("A", ["B"; "C"]); ("B", ["A"])]).
  reflexivity.
Defined.
End RecursionFlag.
(** ** The traversal of [reachableFrom] *)

Section Traversal.
Import Analyzer Tarjan Graph Reachability.

Variable adj : Adjacency.
Variable root : string.

Local Abbreviation Edge := (edge adj).
Local Abbreviation Reach := (reach adj).
Local Abbreviation left_over := (unvisited adj root).
Local Abbreviation Known := (known adj root).

Lemma edge_known (x y : string) : Edge x y -> Known y.
Proof. intros H. right. apply vertex_in_names. by eapply edge_target. Qed.

Lemma left_over_mono (v v' : list string) :
  (forall x, x ∈ v -> x ∈ v') -> left_over v' <= left_over v.
Proof.
  intros H. unfold unvisited. apply subseteq_size.
  intros x [Hx Hn]%elem_of_difference. apply elem_of_difference.
  split; [done|]. intros Hin. apply Hn.
  apply elem_of_list_to_set. apply H. by apply elem_of_list_to_set in Hin.
Qed.

Lemma list_to_set_set_add (x : string) (s : list string) :
  list_to_set (C := gset string) (set_add x s) = {[x]} ∪ list_to_set s.
Proof.
  apply set_eq. intros y.
  rewrite elem_of_list_to_set, elem_of_set_add, elem_of_union,
    elem_of_singleton, elem_of_list_to_set. tauto.
Qed.

Lemma left_over_enter (n : string) (v : list string) :
  Known n -> n ∉ v -> left_over (set_add n v) < left_over v.
Proof.
  intros Hk Hn. unfold unvisited. rewrite list_to_set_set_add.
  apply subset_size. apply strict_spec_alt. split.
  - intros y [Hy Hny]%elem_of_difference. apply elem_of_difference.
    split; [done|]. intros Hin. apply Hny, elem_of_union. by right.
  - intros Heq.
    assert (n ∈ list_to_set (C := gset string) (root :: names adj)
                ∖ list_to_set v) as Hin.
    { apply elem_of_difference. split; [|by rewrite elem_of_list_to_set].
      apply elem_of_list_to_set. destruct Hk as [->|Hk]; [by left|by right]. }
    rewrite <- Heq in Hin. apply elem_of_difference in Hin as [_ Hnn].
    apply Hnn, elem_of_union. left. by apply elem_of_singleton.
Qed.

Lemma left_over_bound : left_over [] < 2 + length (names adj).
Proof.
  unfold unvisited. rewrite list_to_set_nil, difference_empty_L.
  pose proof (size_list_to_set_le (root :: names adj)) as H.
  cbn [length] in H. lia.
Qed.

Lemma edges_of (n : string) (outs : list string) :
  omap_get n adj = Some outs -> forall y, Edge n y <-> y ∈ outs.
Proof. intros H y. unfold edge, successors. by rewrite H. Qed.

Lemma no_edges_of (n y : string) : omap_get n adj = None -> ~ Edge n y.
Proof. intros H. unfold edge, successors. rewrite H. simpl. by intros ?%elem_of_nil. Qed.

Lemma loop_visited (call : list string -> string -> option (list string))
  (bound : nat) (n : string) :
  (forall v w, Known w -> left_over v < bound ->
     exists v', call v w = Some v' /\ Visited adj v w v') ->
  forall ws v,
    (forall w, w ∈ ws -> Edge n w) -> left_over v < bound ->
    exists v',
      fold_opt call ws v = Some v'
      /\ (forall x, x ∈ v -> x ∈ v')
      /\ (forall w, w ∈ ws -> w ∈ v')
      /\ (forall x, x ∈ v' -> x ∈ v \/ exists w, w ∈ ws /\ Reach w x)
      /\ (forall x y, x ∈ v' -> x ∉ v -> Edge x y -> y ∈ v')
      /\ (NoDup v -> NoDup v').
Proof.
  intros Hcall ws. induction ws as [|w ws IH]; intros v Hws Hb.
  - exists v. simpl. split; [done|]. split; [done|].
    split; [intros w Hw; by inversion Hw|]. split; [by left|].
    split; [done|done].
  - destruct (Hcall v w) as (v1 & Hv1 & [K1 S1 So1 C1 N1]);
      [by eapply edge_known, Hws; left|done|].
    destruct (IH v1) as (v' & Hf & K & W & So & C & N).
    { intros w' Hw'. apply Hws. by right. }
    { eapply Nat.le_lt_trans; [|exact Hb]. by apply left_over_mono. }
    exists v'. simpl. rewrite Hv1. simpl. split; [done|].
    split; [intros x Hx; by apply K, K1|].
    split.
    { intros w' [->|Hw']%elem_of_cons; [by apply K|by apply W]. }
    split.
    { intros x Hx. destruct (So x Hx) as [Hx1|(w' & Hw' & Hr)].
      - destruct (So1 x Hx1) as [?|Hr]; [by left|].
        right. exists w. split; [by left|done].
      - right. exists w'. split; [by right|done]. }
    split.
    { intros x y Hx Hnv Hxy. destruct (decide (x ∈ v1)) as [Hx1|Hx1].
      - apply K. by apply (C1 x y).
      - by apply (C x y). }
    intros Hnd. by apply N, N1.
Qed.

Lemma dfs_visited (fuel : nat) :
  forall v n, Known n -> left_over v < fuel ->
    exists v', dfs fuel adj v n = Some v' /\ Visited adj v n v'.
Proof.
  induction fuel as [|fuel IH]; intros v n Hk Hb; [lia|].
  simpl. destruct (set_has n v) eqn:Hn.
  - apply set_has_elem in Hn. exists v. split; [done|].
    constructor; try done. by left.
  - apply set_has_not_elem in Hn.
    pose proof (left_over_enter n v Hk Hn) as Hlt.
    assert (Hin : n ∈ set_add n v) by (apply elem_of_set_add; by left).
    assert (Hkeep : forall x, x ∈ v -> x ∈ set_add n v)
      by (intros x Hx; apply elem_of_set_add; by right).
    assert (Hnd : NoDup v -> NoDup (set_add n v)) by apply NoDup_set_add.
    destruct (omap_get n adj) as [outs|] eqn:Hout.
    + destruct (loop_visited (dfs fuel adj) fuel n IH outs (set_add n v))
        as (v' & Hf & K & W & So & C & N).
      { intros w Hw. by apply (edges_of n outs). }
      { lia. }
      exists v'. split; [done|]. constructor.
      * intros x Hx. by apply K, Hkeep.
      * by apply K.
      * intros x Hx. destruct (So x Hx) as [Hx1|(w & Hw & Hr)].
        -- apply elem_of_set_add in Hx1 as [->|?]; [right; apply rtc_refl|by left].
        -- right. eapply rtc_l; [|exact Hr]. by apply (edges_of n outs).
      * intros x y Hx Hnv Hxy. destruct (decide (x ∈ set_add n v)) as [Hx1|Hx1].
        -- apply elem_of_set_add in Hx1 as [->|?]; [|done].
           apply W. by apply (edges_of n outs).
        -- by apply (C x y).
      * intros Hv. by apply N, Hnd.
    + exists (set_add n v). split; [done|]. constructor; try done.
      * intros x [->|?]%elem_of_set_add; [right; apply rtc_refl|by left].
      * intros x y [->|?]%elem_of_set_add Hnv Hxy; [|done].
        by apply no_edges_of in Hxy.
Qed.

Lemma dfs_from_root :
  exists v, dfs (2 + length (names adj)) adj [] root = Some v
            /\ NoDup v /\ forall x, x ∈ v <-> Reach root x.
Proof.
  destruct (dfs_visited (2 + length (names adj)) [] root)
    as (v & Hv & [K S So C N]); [by left|apply left_over_bound|].
  exists v. split; [done|]. split; [apply N; constructor|].
  intros x. split.
  - intros Hx. destruct (So x Hx) as [H|H]; [by inversion H|done].
  - intros Hr. revert x Hr. apply (rtc_ind_r (fun x => x ∈ v) root); [done|].
    intros y z _ Hyz Hy. apply (C y z); [done| |done]. by intros ?%elem_of_nil.
Qed.
End Traversal.
Section ReachSets.
Import Analyzer Tarjan Graph Reachability.

Variable adj : Adjacency.

Lemma elem_of_set_delete (x n : string) (v : list string) :
  x ∈ set_delete n v <-> x ∈ v /\ x <> n.
Proof. unfold set_delete. rewrite list_elem_of_filter. tauto. Qed.

Lemma self_edge_test (node : string) :
  match omap_get node adj with
  | Some outs => set_has node outs
  | None => false
  end = true <-> edge adj node node.
Proof.
  unfold edge, successors. destruct (omap_get node adj) as [outs|]; simpl.
  - apply set_has_elem.
  - split; [done|]. by intros ?%elem_of_nil.
Qed.

Lemma fresh_reach_set (memo : gmap string (list string)) (node : string) :
  memo !! node = None ->
  exists r, reachableFrom adj memo node = Some (r, <[node := r]> memo)
            /\ reach_set adj node r.
Proof.
  intros Hnone. unfold reachableFrom. rewrite Hnone.
  destruct (dfs_from_root adj node) as (v & -> & _ & Hv). simpl.
  eexists. split; [reflexivity|].
  pose proof (self_edge_test node) as Hself.
  destruct (match omap_get node adj with Some _ => _ | None => _ end).
  - intros x. rewrite Hv. split; [|tauto]. intros Hr. split; [done|].
    right. by apply Hself.
  - intros x. rewrite elem_of_set_delete, Hv. split.
    + intros [Hr Hne]. split; [done|by left].
    + intros [Hr [Hne|He]]; [done|]. apply Hself in He. discriminate.
Qed.

Lemma reachable_reach_set (node : string) :
  reach_set adj node (reachable adj node).
Proof.
  unfold reachable.
  destruct (fresh_reach_set ∅ node (lookup_empty _)) as (r & -> & Hr).
  exact Hr.
Qed.

(** X5.  Called with a memo table that holds reach sets only,
    [reachableFrom] returns, the set it returns for a name holds the
    names reachable from it (the name itself only when it has a
    self-edge), and the memo table it leaves holds reach sets only. *)
Theorem X5_reachable_from_is_the_reach_set
  (reachMemo : gmap string (list string)) (node : string) :
  memo_ok adj reachMemo ->
  exists r reachMemo',
    reachableFrom adj reachMemo node = Some (r, reachMemo')
    /\ reach_set adj node r
    /\ memo_ok adj reachMemo'
    /\ reachMemo' !! node = Some r.
Proof.
  intros Hmemo. destruct (reachMemo !! node) as [r|] eqn:Hlook.
  - exists r, reachMemo. unfold reachableFrom. rewrite Hlook.
    split; [done|]. split; [by apply (Hmemo node)|]. by split.
  - destruct (fresh_reach_set reachMemo node Hlook) as (r & Hr & Hset).
    exists r, (<[node := r]> reachMemo). split; [done|]. split; [done|].
    split; [|apply lookup_insert_eq].
    intros n r'. destruct (decide (node = n)) as [->|Hne].
    + rewrite lookup_insert_eq. by intros [= <-].
    + rewrite lookup_insert_ne by done. apply Hmemo.
Qed.
End ReachSets.

Section ReachSetExamples.
Import Analyzer Tarjan Graph Reachability.

Lemma X5_reachable_from_is_the_reach_set_witness :
  memo_ok [("A", ["B"]); ("B", ["A"; "C"])] ∅
  /\ exists r reachMemo',
       reachableFrom [("A", ["B"]); ("B", ["A"; "C"])] ∅ "A"
       = Some (r, reachMemo')
       /\ reach_set [("A", ["B"]); ("B", ["A"; "C"])] "A" r
       /\ memo_ok [("A", ["B"]); ("B", ["A"; "C"])] reachMemo'
       /\ reachMemo' !! "A" = Some r.
Proof.
  assert (H : memo_ok [("A", ["B"]); ("B", ["A"; "C"])] ∅).
  { intros n r Hn. by rewrite lookup_empty in Hn. }
  split; [exact H|].
  apply (X5_reachable_from_is_the_reach_set
           [("A", ["B"]); ("B", ["A"; "C"])] ∅ "A" H).
Defined.

(** On the cycle [A -> B -> A] with the exit [B -> C], the set of [A]
    holds [B] and [C] and not [A], which has no self-edge. *)
Lemma reach_set_without_self :
  reachableFrom [("A", ["B"]); ("B", ["A"; "C"])] ∅ "A"
  = Some (["B"; "C"], {["A" := ["B"; "C"]]}).
Proof. vm_compute. reflexivity. Qed.
End ReachSetExamples.
(** ** Which references are marked *)

Section LeadsBack.
Import Analyzer Tarjan Graph Annotate Paths Cycles Reachability Marks.
Local Opaque extractTypeNameFromImportish.

Variable adj : Adjacency.
Variable sccs : list (list string).
Hypothesis Hnd : NoDup (concat sccs).
Hypothesis Hscc : forall c, c ∈ sccs -> is_scc adj c.
Hypothesis Hall : forall x, x ∈ concat sccs <-> vertex adj x.
Variable reachableFrom : string -> list string.
Hypothesis Hreach : forall n, reach_set adj n (reachableFrom n).
Variable E : string.

Lemma canLead_iff (T : string) :
  canLeadToRecursionFrom E adj (buildNodeToScc sccs) reachableFrom T = true
  <-> on_cycle adj E /\ reach adj T E.
Proof.
  unfold canLeadToRecursionFrom.
  pose proof (inRecursion_on_cycle adj sccs Hnd Hscc Hall E) as Hiff.
  destruct (inRecursion E adj (buildNodeToScc sccs)); simpl.
  - assert (Hcyc : on_cycle adj E) by (by apply Hiff).
    pose proof (fun x => targetSet_is_component adj sccs Hnd Hscc Hall E x Hcyc)
      as Htarget.
    destruct (set_has T (targetSet E (buildNodeToScc sccs))) eqn:HT.
    + apply set_has_elem, Htarget in HT as [_ HT]. by split.
    + apply set_has_not_elem in HT. rewrite existsb_exists. split.
      * intros (t & Ht & Hin). split; [done|].
        apply list_elem_of_In, Htarget in Ht as [_ Ht].
        apply set_has_elem, Hreach in Hin as [Hin _].
        by eapply rtc_trans.
      * intros [_ Hr]. exists E. split.
        -- apply list_elem_of_In, Htarget. split; apply rtc_refl.
        -- apply set_has_elem, Hreach. split; [done|]. left.
           intros ->. apply HT, Htarget. split; apply rtc_refl.
  - split; [done|]. intros [Hcyc _]. apply Hiff in Hcyc. discriminate.
Qed.
End LeadsBack.
Section MarkedReferences.
Import Analyzer Tarjan Graph Annotate Paths Cycles Reachability Marks.
Local Opaque extractTypeNameFromImportish.

Variable entityName : string.
Variable adj : Adjacency.
Variable nodeToScc : gmap string (list string).
Variable reachableFrom : string -> list string.

Local Abbreviation annV :=
  (annotatePropValue entityName adj nodeToScc reachableFrom).
Local Abbreviation lead :=
  (fun value => canLeadToRecursionFrom entityName adj nodeToScc reachableFrom
                  (extractTypeNameFromImportish value)).

Lemma node_at_mark (path : list nat) (v : ASTPropertyValue) :
  path <> [] -> node_at path (mark_recursive v) = node_at path v.
Proof. destruct path as [|i path]; [done|]. intros _. by destruct v. Qed.

Lemma finish_keeps_reference (path : list nat) (nv : ASTPropertyValue)
  (l : bool) (a : Attrs) (value : string) :
  reference_kept (lead value) path nv a value ->
  (path = [] -> l = lead value) ->
  reference_kept (lead value) path (finishProperty (nv, l)).1 a value.
Proof.
  intros (a' & Hn & Hc & Hr) Hl. simpl. destruct l; [|by exists a'].
  destruct path as [|i path].
  - simpl in Hn. injection Hn as ->.
    eexists. split; [reflexivity|]. split; [by rewrite <- Hc|].
    simpl. rewrite <- (Hl eq_refl). by rewrite orb_true_r.
  - exists a'. by rewrite node_at_mark.
Qed.

Lemma annotate_members_at (f : ASTPropertyValue -> Res (ASTPropertyValue * bool))
  (xs nxs : list ASTPropertyValue) (anyLead : bool) (i : nat)
  (x : ASTPropertyValue) :
  annotate_members f xs = Ok (nxs, anyLead) -> xs !! i = Some x ->
  exists nx l, f x = Ok (nx, l) /\ nxs !! i = Some nx.
Proof.
  revert nxs anyLead i. induction xs as [|y xs IH]; intros nxs anyLead i H Hi;
    [done|].
  simpl in H. destruct (f y) as [[ny ly]|] eqn:Hy; [|done]. simpl in H.
  destruct (annotate_members f xs) as [[nys lys]|] eqn:Hys; [|done].
  simpl in H. injection H as <- <-.
  destruct i as [|i]; simpl in Hi.
  - injection Hi as <-. by exists ny, ly.
  - destruct (IH nys lys i eq_refl Hi) as (nx & l & Hx & Hn).
    by exists nx, l.
Qed.

Lemma annotate_reference (path : list nat) :
  forall v nv l a value,
    annV v = Ok (nv, l) -> visits path v = true ->
    node_at path v = Some (PReference a value) ->
    reference_kept (lead value) path nv a value
    /\ (path = [] -> l = lead value).
Proof.
  induction path as [|i path IH]; intros v nv l a value Hv Hvis Hn.
  - simpl in Hn. injection Hn as ->. simpl in Hv.
    injection Hv as <- <-. split; [|done].
    destruct (lead value); eexists; (split; [reflexivity|]);
      by rewrite ?orb_true_r, ?orb_false_r.
  - split; [|done].
    destruct v as [| |a0 t vs| | | | a0 o x| a0 p c x| a0 c e t f| ];
      try discriminate.
    + destruct t.
      3:{ destruct vs as [|x vs]; [discriminate|]. simpl in Hvis.
          apply andb_true_iff in Hvis as [Hi Hvis].
          apply Nat.eqb_eq in Hi as ->. simpl in Hn, Hv.
          destruct (annV x) as [[inner il]|] eqn:Hx; [|done].
          simpl in Hv. injection Hv as <- <-.
          destruct (IH x inner il a value Hx Hvis Hn) as [(a' & H1 & H2) _].
          by exists a'. }
      4:{ simpl in Hvis, Hn, Hv.
          destruct (vs !! i) as [x|] eqn:Hi; [|discriminate].
          destruct (annotate_members _ vs) as [[nxs ls]|] eqn:Hm; [|done].
          simpl in Hv. injection Hv as <- <-.
          destruct (annotate_members_at _ _ _ _ _ _ Hm Hi)
            as (nx & lx & Hx & Hnx).
          destruct (annV x) as [[nv0 l0]|] eqn:Hx0; [|done].
          simpl in Hx. injection Hx as <- <-.
          destruct (IH x nv0 l0 a value Hx0 Hvis Hn) as [Hk Hl].
          destruct (finish_keeps_reference path nv0 l0 a value Hk Hl)
            as (a' & H1 & H2).
          exists a'. simpl. rewrite Hnx. by split. }
      all: simpl in Hvis, Hn, Hv;
        destruct (vs !! i) as [x|] eqn:Hi; [|discriminate];
        destruct (annotate_members _ vs) as [[nxs ls]|] eqn:Hm; [|done];
        simpl in Hv; injection Hv as <- <-;
        destruct (annotate_members_at _ _ _ _ _ _ Hm Hi)
          as (nx & lx & Hx & Hnx);
        destruct (IH x nx lx a value Hx Hvis Hn) as [(a' & H1 & H2) _];
        exists a'; simpl; rewrite Hnx; by split.
    + simpl in Hvis. apply andb_true_iff in Hvis as [Hi Hvis].
      apply Nat.eqb_eq in Hi as ->. simpl in Hn, Hv.
      destruct (annV x) as [[nv0 l0]|] eqn:Hx; [|done].
      simpl in Hv. injection Hv as <- <-.
      destruct (IH x nv0 l0 a value Hx Hvis Hn) as [(a' & H1 & H2) _].
      by exists a'.
    + simpl in Hvis. apply andb_true_iff in Hvis as [Hi Hvis].
      apply Nat.eqb_eq in Hi as ->. simpl in Hn, Hv.
      destruct (annV x) as [[nv0 l0]|] eqn:Hx; [|done].
      simpl in Hv. injection Hv as <- <-.
      destruct (IH x nv0 l0 a value Hx Hvis Hn) as [(a' & H1 & H2) _].
      by exists a'.
    + simpl in Hvis, Hn, Hv.
      destruct (annV c) as [[t1 l1]|] eqn:H1; [|done]. simpl in Hv.
      destruct (annV e) as [[t2 l2]|] eqn:H2; [|done]. simpl in Hv.
      destruct (annV t) as [[t3 l3]|] eqn:H3; [|done]. simpl in Hv.
      destruct (annV f) as [[t4 l4]|] eqn:H4; [|done]. simpl in Hv.
      injection Hv as <- <-.
      destruct i as [|[|[|[|i]]]]; simpl in Hvis, Hn; [| | | |discriminate].
      * destruct (IH c t1 l1 a value H1 Hvis Hn) as [(a' & ? & ?) _].
        by exists a'.
      * destruct (IH e t2 l2 a value H2 Hvis Hn) as [(a' & ? & ?) _].
        by exists a'.
      * destruct (IH t t3 l3 a value H3 Hvis Hn) as [(a' & ? & ?) _].
        by exists a'.
      * destruct (IH f t4 l4 a value H4 Hvis Hn) as [(a' & ? & ?) _].
        by exists a'.
Qed.

Lemma annotateProperty_reference (path : list nat) (p np : ASTProperty)
  (l : bool) (a : Attrs) (value : string) :
  annotateProperty entityName adj nodeToScc reachableFrom p = Ok (np, l) ->
  visits path p = true -> node_at path p = Some (PReference a value) ->
  reference_kept (lead value) path np a value.
Proof.
  unfold annotateProperty. intros Hp Hvis Hn.
  destruct (annV p) as [[nv l0]|] eqn:Hv; [|done].
  simpl in Hp. injection Hp as <- <-.
  destruct (annotate_reference path p nv l0 a value Hv Hvis Hn) as [Hk Hl].
  by apply (finish_keeps_reference path nv l0).
Qed.
End MarkedReferences.
Section MarkedReferencesTheorem.
Import Analyzer Tarjan Graph Annotate Paths Cycles Reachability Marks.
Local Opaque extractTypeNameFromImportish.

(** X6.  In a graph without an empty name, with the components of
    [computeSCC] and the reach sets of [reachableFrom], the annotation
    of a property inside the entity [E] keeps every reference it visits
    and marks it [recursiveEdge] exactly when it was marked already, or
    [E] lies on a cycle and is reachable from the type referred to; the
    annotation fails only on an array without an element. *)
Theorem X6_reference_is_marked_iff_it_leads_back (adj : Adjacency) :
  no_empty_name adj = true ->
  exists sccs,
    computeSCC adj = Some sccs
    /\ forall (E : string) (p : ASTProperty),
         match annotateProperty E adj (buildNodeToScc sccs) (reachable adj)
                 p with
         | Ok (p', _) =>
             forall path a value,
               visits path p = true ->
               node_at path p = Some (PReference a value) ->
               exists a',
                 node_at path p' = Some (PReference a' value)
                 /\ clear a' = clear a
                 /\ (recursiveEdge a' = true
                     <-> recursiveEdge a = true
                         \/ (on_cycle adj E
                             /\ reach adj
                                  (extractTypeNameFromImportish value) E))
         | Throw _ => annotatable p = false
         end.
Proof.
  intros Hnames.
  destruct (computeSCC_spec adj Hnames) as (sccs & Hc & Hnd & Hscc & Hall).
  exists sccs. split; [done|]. intros E p.
  destruct (annotateProperty E adj (buildNodeToScc sccs) (reachable adj) p)
    as [[p' l]|msg] eqn:Hp.
  - intros path a value Hvis Hn.
    destruct (annotateProperty_reference E adj (buildNodeToScc sccs)
                (reachable adj) path p p' l a value Hp Hvis Hn)
      as (a' & H1 & H2 & H3).
    exists a'. split; [done|]. split; [done|].
    rewrite H3, orb_true_iff.
    by rewrite (canLead_iff adj sccs Hnd Hscc Hall (reachable adj)
                  (reachable_reach_set adj) E).
  - destruct (annotatable p) eqn:Ha; [|done].
    destruct (annotate_total E adj (buildNodeToScc sccs) (reachable adj) p Ha)
      as [r Hr].
    unfold annotateProperty in Hp. by rewrite Hr in Hp.
Qed.

Lemma X6_reference_is_marked_iff_it_leads_back_witness :
  no_empty_name [("A", ["B"]); ("B", ["A"; "C"]); ("C", [])] = true
  /\ exists sccs,
       computeSCC [("A", ["B"]); ("B", ["A"; "C"]); ("C", [])] = Some sccs
       /\ forall (E : string) (p : ASTProperty),
            match annotateProperty E
                    [("A", ["B"]); ("B", ["A"; "C"]); ("C", [])]
                    (buildNodeToScc sccs)
                    (reachable [("A", ["B"]); ("B", ["A"; "C"]); ("C", [])])
                    p with
            | Ok (p', _) =>
                forall path a value,
                  visits path p = true ->
                  node_at path p = Some (PReference a value) ->
                  exists a',
                    node_at path p' = Some (PReference a' value)
                    /\ clear a' = clear a
                    /\ (recursiveEdge a' = true
                        <-> recursiveEdge a = true
                            \/ (on_cycle
                                  [("A", ["B"]); ("B", ["A"; "C"]); ("C", [])]
                                  E
                                /\ reach
                                     [("A", ["B"]); ("B", ["A"; "C"]);
                                      ("C", [])]
                                     (extractTypeNameFromImportish value) E))
            | Throw _ => annotatable p = false
            end.
Proof.
  split; [reflexivity|].
  apply (X6_reference_is_marked_iff_it_leads_back
           [("A", ["B"]); ("B", ["A"; "C"]); ("C", [])]).
  reflexivity.
Defined.
End MarkedReferencesTheorem.

Section MarksOnly.
Import Analyzer Annotate Paths Marks.
Local Opaque extractTypeNameFromImportish.

Variable entityName : string.
Variable adj : Adjacency.
Variable nodeToScc : gmap string (list string).
Variable reachableFrom : string -> list string.

Local Abbreviation annV :=
  (annotatePropValue entityName adj nodeToScc reachableFrom).

Lemma unmarked_mark (v : ASTPropertyValue) :
  unmarked (mark_recursive v) = unmarked v.
Proof. by destruct v. Qed.

Lemma unmarked_finish (r : ASTPropertyValue * bool) :
  unmarked (finishProperty r).1 = unmarked r.1.
Proof. destruct r as [nv [|]]; [apply unmarked_mark|done]. Qed.

Lemma members_unmarked (f : ASTPropertyValue -> Res (ASTPropertyValue * bool))
  (xs : list ASTPropertyValue) :
  Forall (fun x => forall nx l, f x = Ok (nx, l) -> unmarked nx = unmarked x)
    xs ->
  forall nxs anyLead,
    annotate_members f xs = Ok (nxs, anyLead) ->
    map unmarked nxs = map unmarked xs.
Proof.
  induction 1 as [|x xs Hx _ IH]; intros nxs anyLead H.
  - simpl in H. by injection H as <- <-.
  - simpl in H. destruct (f x) as [[nx l]|] eqn:Hfx; [|done]. simpl in H.
    destruct (annotate_members f xs) as [[nys lys]|] eqn:Hys; [|done].
    simpl in H. injection H as <- <-. simpl.
    by rewrite (Hx _ _ eq_refl), (IH _ _ eq_refl).
Qed.

Lemma single_annotatable (v : ASTPropertyValue) :
  single_element_arrays v = true -> annotatable v = true.
Proof.
  induction v as [| |a t vs IH| | | a s| a o v IH| a p c v _ IH
                  | a c e t f IHc IHe IHt IHf| ] using value_ind;
    intros Hv; try done.
  - assert (Hall : forallb single_element_arrays vs = true ->
                   forallb annotatable vs = true).
    { rewrite !forallb_forall. intros H x Hx. rewrite Forall_forall in IH.
      apply IH; [by apply list_elem_of_In|by apply H]. }
    destruct t; simpl in *; try (by apply Hall).
    destruct vs as [|x [|y vs]]; try discriminate.
    apply Forall_cons in IH as [IHx _]. by apply IHx.
  - by apply IH.
  - by apply IH.
  - simpl in *. repeat (apply andb_true_iff in Hv as [Hv ?]).
    rewrite IHc, IHe, IHt, IHf by done. done.
Qed.

Lemma annotate_unmarked (v : ASTPropertyValue) :
  single_element_arrays v = true ->
  forall nv l, annV v = Ok (nv, l) -> unmarked nv = unmarked v.
Proof.
  induction v as [| |a t vs IH| | | a s| a o v IH| a p c v _ IH
                  | a c e t f IHc IHe IHt IHf| ] using value_ind;
    intros Hs nv lv Hr; try (simpl in Hr; by injection Hr as <- <-).
  - assert (Hall : forallb single_element_arrays vs = true ->
              Forall (fun x => forall nx l, annV x = Ok (nx, l)
                                            -> unmarked nx = unmarked x) vs).
    { intros H. rewrite forallb_forall in H. rewrite Forall_forall in IH.
      apply Forall_forall. intros x Hx. apply IH; [done|].
      apply H. by apply list_elem_of_In. }
    destruct t; simpl in Hs.
    3:{ destruct vs as [|x [|y vs]]; try discriminate.
        apply Forall_cons in IH as [IHx _]. simpl in Hr.
        destruct (annV x) as [[inner il]|] eqn:Hx; [|done].
        simpl in Hr. injection Hr as <- <-. simpl.
        by rewrite (IHx Hs _ _ eq_refl). }
    4:{ simpl in Hr.
        destruct (annotate_members _ vs) as [[nxs ls]|] eqn:Hm; [|done].
        simpl in Hr. injection Hr as <- <-. simpl. f_equal.
        eapply members_unmarked; [|exact Hm].
        eapply Forall_impl; [exact (Hall Hs)|].
        intros x Hx nx lx Hfx. simpl in Hfx.
        destruct (annV x) as [[nv0 l0]|] eqn:Hx0; [|done].
        simpl in Hfx. injection Hfx as <- <-.
        destruct l0; [rewrite unmarked_mark|]; by eapply Hx. }
    all: simpl in Hr;
      destruct (annotate_members _ vs) as [[nxs ls]|] eqn:Hm; [|done];
      simpl in Hr; injection Hr as <- <-; simpl; f_equal;
      eapply members_unmarked; [|exact Hm]; by apply Hall.
  - simpl in Hr. injection Hr as <- <-.
    by destruct (canLeadToRecursionFrom _ _ _ _ _).
  - simpl in Hr, Hs. destruct (annV v) as [[nv0 l0]|] eqn:Hv; [|done].
    simpl in Hr. injection Hr as <- <-. simpl.
    by rewrite (IH Hs _ _ eq_refl).
  - simpl in Hr, Hs. destruct (annV v) as [[nv0 l0]|] eqn:Hv; [|done].
    simpl in Hr. injection Hr as <- <-. simpl.
    by rewrite (IH Hs _ _ eq_refl).
  - simpl in Hr, Hs.
    apply andb_true_iff in Hs as [Hs Hsf].
    apply andb_true_iff in Hs as [Hs Hst].
    apply andb_true_iff in Hs as [Hsc Hse].
    destruct (annV c) as [[t1 l1]|] eqn:E1; [|done]. simpl in Hr.
    destruct (annV e) as [[t2 l2]|] eqn:E2; [|done]. simpl in Hr.
    destruct (annV t) as [[t3 l3]|] eqn:E3; [|done]. simpl in Hr.
    destruct (annV f) as [[t4 l4]|] eqn:E4; [|done]. simpl in Hr.
    injection Hr as <- <-. simpl.
    by rewrite (IHc Hsc _ _ eq_refl), (IHe Hse _ _ eq_refl),
      (IHt Hst _ _ eq_refl), (IHf Hsf _ _ eq_refl).
Qed.

(** X7.  On a property whose visited arrays have exactly one element,
    the annotation returns, and the property it returns differs from
    the one it was given in [recursiveEdge] marks only: the kinds,
    names, values and order of the nodes are kept. *)
Theorem X7_annotation_changes_marks_only (p : ASTProperty) :
  single_element_arrays p = true ->
  exists p' leads,
    annotateProperty entityName adj nodeToScc reachableFrom p = Ok (p', leads)
    /\ unmarked p' = unmarked p.
Proof.
  intros Hs.
  destruct (annotate_total entityName adj nodeToScc reachableFrom p
              (single_annotatable p Hs)) as [[nv l] Hr].
  exists (finishProperty (nv, l)).1, l.
  unfold annotateProperty. rewrite Hr. split; [by destruct l|].
  rewrite unmarked_finish. by apply (annotate_unmarked p Hs nv l).
Qed.
End MarksOnly.

Section MarksOnlyExamples.
Import Analyzer Annotate Paths Marks.

Lemma X7_annotation_changes_marks_only_witness :
  single_element_arrays
    (PComposite (prop_attrs "cells" false) TArray
       [PComposite no_attrs TArray [PReference no_attrs "Grid"]]) = true
  /\ exists p' leads,
       annotateProperty "Grid" [("Grid", ["Grid"])] {["Grid" := ["Grid"]]}
         (fun _ => [])
         (PComposite (prop_attrs "cells" false) TArray
            [PComposite no_attrs TArray [PReference no_attrs "Grid"]])
       = Ok (p', leads)
       /\ unmarked p'
          = unmarked
              (PComposite (prop_attrs "cells" false) TArray
                 [PComposite no_attrs TArray [PReference no_attrs "Grid"]]).
Proof.
  split; [reflexivity|].
  apply (X7_annotation_changes_marks_only "Grid" [("Grid", ["Grid"])]
           {["Grid" := ["Grid"]]} (fun _ => [])
           (PComposite (prop_attrs "cells" false) TArray
              [PComposite no_attrs TArray [PReference no_attrs "Grid"]])).
  reflexivity.
Defined.

(** An array of two elements loses the second one. *)
Lemma second_element_is_dropped :
  annotatePropValue "E" [] ∅ (fun _ => [])
    (PComposite no_attrs TArray
       [PPrimitive no_attrs "string"; PPrimitive no_attrs "number"])
  = Ok (PComposite no_attrs TArray [PPrimitive no_attrs "string"], false).
Proof. reflexivity. Qed.
End MarksOnlyExamples.
(** ** The selection of the entities to emit *)

Section EmittedKinds.
Import Generation Selection.

Lemma entity_type_nonempty (e : ASTEntity) : entity_type e <> "".
Proof. unfold entity_type. by destruct (e_body e). Qed.

Lemma best_kinds_other (m m' : gmap string string) (data : list ASTEntity)
  (item : ASTEntity) (n : string) :
  best_kinds m data -> e_name item <> n -> m' !! n = m !! n ->
  match m' !! n with
  | None => forall e, e ∈ data ++ [item] -> e_name e <> n
  | Some k =>
      (exists e, e ∈ data ++ [item] /\ e_name e = n /\ entity_type e = k)
      /\ forall e, e ∈ data ++ [item] -> e_name e = n ->
                   precedence (entity_type e) <= precedence k
  end.
Proof.
  intros Hm Hn ->. specialize (Hm n). destruct (m !! n) as [k|].
  - destruct Hm as [(e & He & Hen & Hek) Hmax]. split.
    + exists e. split; [apply elem_of_app; by left|done].
    + intros e' [He'|He']%elem_of_app Hen'; [by apply Hmax|].
      apply list_elem_of_singleton in He' as ->. done.
  - intros e [He|He]%elem_of_app; [by apply Hm|].
    apply list_elem_of_singleton in He as ->. done.
Qed.

Lemma best_kinds_replace (m : gmap string string) (data : list ASTEntity)
  (item : ASTEntity) :
  best_kinds m data ->
  (forall e, e ∈ data -> e_name e = e_name item ->
             precedence (entity_type e) <= precedence (entity_type item)) ->
  best_kinds (<[e_name item := entity_type item]> m) (data ++ [item]).
Proof.
  intros Hm Hmax n. destruct (decide (e_name item = n)) as [Hn|Hn].
  - rewrite <- Hn, lookup_insert_eq. split.
    + exists item. split; [|done]. apply elem_of_app. right. by left.
    + intros e [He|He]%elem_of_app Hen; [by apply Hmax|].
      apply list_elem_of_singleton in He as ->. done.
  - apply (best_kinds_other m); [done..|]. by rewrite lookup_insert_ne.
Qed.

Lemma best_kinds_keep (m : gmap string string) (data : list ASTEntity)
  (item : ASTEntity) (prev : string) :
  best_kinds m data -> m !! e_name item = Some prev ->
  precedence (entity_type item) <= precedence prev ->
  best_kinds m (data ++ [item]).
Proof.
  intros Hm Hprev Hle n. destruct (decide (e_name item = n)) as [Hn|Hn].
  - specialize (Hm n). rewrite <- Hn in *. rewrite Hprev in *.
    destruct Hm as [(e & He & Hen & Hek) Hmax]. split.
    + exists e. split; [apply elem_of_app; by left|done].
    + intros e' [He'|He']%elem_of_app Hen'; [by apply Hmax|].
      apply list_elem_of_singleton in He' as ->. done.
  - by apply (best_kinds_other m).
Qed.

Lemma nameToBestKind_best (data : list ASTEntity) :
  best_kinds (nameToBestKind data) data.
Proof.
  unfold nameToBestKind.
  induction data as [|item data IH] using rev_ind.
  - intros n. simpl. rewrite lookup_empty. intros e He. by inversion He.
  - rewrite fold_left_app. simpl.
    set (m := fold_left _ data ∅) in *.
    destruct (m !! e_name item) as [prev|] eqn:Hprev.
    + pose proof (IH (e_name item)) as Hitem. rewrite Hprev in Hitem.
      destruct Hitem as [(e & He & Hen & Hek) Hmax].
      rewrite (str_eqb_ne prev "")
        by (rewrite <- Hek; apply entity_type_nonempty).
      destruct (precedence prev <? precedence (entity_type item))%nat eqn:Hlt.
      * apply Nat.ltb_lt in Hlt. apply best_kinds_replace; [done|].
        intros e' He' Hen'. specialize (Hmax e' He' Hen'). lia.
      * apply Nat.ltb_ge in Hlt. by apply (best_kinds_keep m data item prev).
    + apply best_kinds_replace; [done|]. intros e He Hen.
      pose proof (IH (e_name item)) as Hitem. rewrite Hprev in Hitem.
      by destruct (Hitem e He).
Qed.

(** X8.  Of the entities given to [generate], every name keeps at
    least one: for each entity there is an emitted entity of the same
    name whose kind has at least its precedence; and the emitted
    entities of one name all have the same kind. *)
Theorem X8_every_name_is_emitted_with_its_best_kind (data : list ASTEntity) :
  (forall e, e ∈ data ->
     exists e', e' ∈ emitted data /\ e_name e' = e_name e
                /\ precedence (entity_type e) <= precedence (entity_type e'))
  /\ (forall e1 e2, e1 ∈ emitted data -> e2 ∈ emitted data ->
        e_name e1 = e_name e2 -> entity_type e1 = entity_type e2).
Proof.
  pose proof (nameToBestKind_best data) as Hbest. split.
  - intros e He. specialize (Hbest (e_name e)).
    destruct (nameToBestKind data !! e_name e) as [k|] eqn:Hk.
    + destruct Hbest as [(e' & He' & Hen & Hek) Hmax]. exists e'.
      split; [|split; [done|]].
      * unfold emitted. apply list_elem_of_filter. split; [|done].
        by rewrite Hen, Hek.
      * rewrite Hek. by apply Hmax.
    + by destruct (Hbest e He).
  - intros e1 e2 H1 H2 Hn. unfold emitted in H1, H2.
    apply list_elem_of_filter in H1 as [H1 _].
    apply list_elem_of_filter in H2 as [H2 _].
    rewrite Hn in H1. rewrite H1 in H2. by injection H2.
Qed.
End EmittedKinds.
(** ** Resolution of a base *)

Section BaseResolution.
Import Analyzer Inheritance.
Local Opaque extractTypeNameFromImportish.

Variable path_resolve : string -> string.
Variable allEntities : list ASTEntity.
Variable astNodes : list ASTEntity.

Lemma by_name_none (k : string) (es : list ASTEntity) :
  by_name k es = None -> forall e, e ∈ es -> e_name e <> k.
Proof.
  induction es as [|e' es IH]; intros H e He; [by inversion He|].
  simpl in H. destruct (by_name k es) as [e''|]; [done|].
  destruct (str_eqb (e_name e') k) eqn:E; [done|].
  apply elem_of_cons in He as [->|He]; [|by apply IH].
  intros Hk. apply str_eqb_eq in Hk. congruence.
Qed.

(** X9.  [resolveBaseEntity] finds an entity whenever an entity of the
    project or of the current file carries the name extracted from the
    base expression, and the entity it finds carries that name; without
    a location, an entity of the current file is preferred to one of
    the project. *)
Theorem X9_base_is_resolved_by_its_name (e : string) (loc : option Location) :
  match resolveBaseEntity path_resolve allEntities astNodes e loc with
  | Some ent =>
      e_name ent = extractTypeNameFromImportish e
      /\ ent ∈ allEntities ++ astNodes
      /\ (loc = None ->
          (exists f, f ∈ astNodes
                     /\ e_name f = extractTypeNameFromImportish e) ->
          ent ∈ astNodes)
  | None =>
      forall f, f ∈ allEntities ++ astNodes ->
                e_name f <> extractTypeNameFromImportish e
  end.
Proof.
  destruct (resolveBaseEntity path_resolve allEntities astNodes e loc)
    as [ent|] eqn:Hr.
  - destruct (resolve_spec path_resolve allEntities astNodes e loc ent Hr)
      as [Hn Hin].
    split; [done|]. split; [done|]. intros -> (f & Hf & Hfn).
    unfold resolveBaseEntity in Hr.
    destruct (by_name _ astNodes) as [e'|] eqn:Hfile.
    + injection Hr as <-. apply by_name_spec in Hfile as [_ Hfile]. exact Hfile.
    + by destruct (by_name_none _ _ Hfile f Hf).
  - unfold resolveBaseEntity in Hr.
    destruct (match loc with Some l => _ | None => None end); [done|].
    destruct (by_name _ astNodes) as [e'|] eqn:Hfile; [done|].
    intros f [Hf|Hf]%elem_of_app;
      [exact (by_name_none _ _ Hr f Hf)|exact (by_name_none _ _ Hfile f Hf)].
Qed.
End BaseResolution.
(** ** What the inheritance walk collects *)

Section CollectedProperties.
Import Analyzer Inheritance WalkOrder.
Local Opaque extractTypeNameFromImportish.

Variable path_resolve : string -> string.
Variable allEntities : list ASTEntity.
Variable astNodes : list ASTEntity.

Local Abbreviation declared :=
  (fun p : ASTProperty =>
     exists ent, ent ∈ allEntities ++ astNodes /\ p ∈ own_properties ent).

Lemma push_new_extends (ps out : list ASTProperty) :
  exists more, fold_left push_new ps out = out ++ more
               /\ forall p, p ∈ more -> p ∈ ps.
Proof.
  revert out. induction ps as [|q ps IH]; intros out.
  - exists []. split; [by rewrite app_nil_r|]. intros p Hp. by inversion Hp.
  - simpl. destruct (IH (push_new out q)) as (more & -> & Hmore).
    unfold push_new. destruct (existsb _ out).
    + exists more. split; [done|]. intros p Hp. right. by apply Hmore.
    + exists (q :: more). split; [by rewrite <- app_assoc|].
      intros p [->|Hp]%elem_of_cons; [by left|]. right. by apply Hmore.
Qed.

Lemma walk_extends (fuel : nat) :
  forall seen out b seen' out',
    walk path_resolve allEntities astNodes fuel (seen, out) b
    = Some (seen', out') ->
    exists more, out' = out ++ more /\ forall p, p ∈ more -> declared p.
Proof.
  induction fuel as [|fuel IH]; intros seen out b seen' out' H; [done|].
  assert (Hnil : exists more : list ASTProperty,
             out = out ++ more /\ forall p, p ∈ more -> declared p).
  { exists []. split; [by rewrite app_nil_r|]. intros p Hp. by inversion Hp. }
  simpl in H. destruct (str_eqb (expr b) ""); [by injection H as <- <-|].
  destruct (set_has _ seen); [by injection H as <- <-|].
  destruct (resolveBaseEntity _ _ _ _ _) as [ent|] eqn:Hres;
    [|by injection H as <- <-].
  apply resolve_spec in Hres as [_ Hin].
  destruct (push_new_extends (own_properties ent) out) as (own & Hown & Hsub).
  rewrite Hown in H.
  assert (Hloop : forall bs s o s' o',
            Tarjan.fold_opt (walk path_resolve allEntities astNodes fuel) bs
              (s, o) = Some (s', o') ->
            exists more, o' = o ++ more /\ forall p, p ∈ more -> declared p).
  { induction bs as [|b1 bs IHbs]; intros s o s' o' Hf.
    - simpl in Hf. injection Hf as <- <-. exists [].
      split; [by rewrite app_nil_r|]. intros p Hp. by inversion Hp.
    - simpl in Hf.
      destruct (walk _ _ _ fuel (s, o) b1) as [[s1 o1]|] eqn:Hw; [|done].
      simpl in Hf. destruct (IH _ _ _ _ _ Hw) as (m1 & -> & Hm1).
      destruct (IHbs _ _ _ _ Hf) as (m2 & -> & Hm2).
      exists (m1 ++ m2). split; [by rewrite app_assoc|].
      intros p [Hp|Hp]%elem_of_app; [by apply Hm1|by apply Hm2]. }
  destruct (Hloop _ _ _ _ _ H) as (more & -> & Hmore).
  exists (own ++ more). split; [by rewrite app_assoc|].
  intros p [Hp|Hp]%elem_of_app; [|by apply Hmore].
  exists ent. split; [done|]. by apply Hsub.
Qed.

(** X10.  For a base expression that is not empty: when no entity
    carries its name, [collectPropsTransitive] returns the empty list;
    otherwise the list it returns starts with the properties of the
    resolved base itself (the first of each name), and every property
    that follows is a property that some entity of the project or of
    the file declares. *)
Theorem X10_own_properties_of_the_base_come_first
  (startExpr : string) (startLoc : option Location) :
  startExpr <> "" ->
  match resolveBaseEntity path_resolve allEntities astNodes startExpr
          startLoc with
  | None =>
      collectPropsTransitive path_resolve allEntities astNodes startExpr
        startLoc = Some []
  | Some ent =>
      exists rest,
        collectPropsTransitive path_resolve allEntities astNodes startExpr
          startLoc = Some (first_by_name (own_properties ent) ++ rest)
        /\ forall p, p ∈ rest ->
             exists e, e ∈ allEntities ++ astNodes /\ p ∈ own_properties e
  end.
Proof.
  intros Hexpr.
  destruct (walk_spec path_resolve allEntities astNodes
              (2 + length allEntities + length astNodes) [] [] []
              (mkInherit startExpr startLoc None)
              (left_out_bound allEntities astNodes))
    as (seen' & bases & Hw & _ & _).
  unfold collectPropsTransitive. rewrite Hw.
  change (2 + length allEntities + length astNodes)
    with (S (1 + length allEntities + length astNodes)) in Hw.
  simpl in Hw. rewrite (str_eqb_ne startExpr "") in Hw by done.
  change (set_has (extractTypeNameFromImportish startExpr) []) with false in Hw.
  destruct (resolveBaseEntity _ _ _ _ _) as [ent|] eqn:Hres.
  - assert (Hloop : forall bs s o s' o',
              Tarjan.fold_opt
                (walk path_resolve allEntities astNodes
                   (1 + length allEntities + length astNodes)) bs (s, o)
              = Some (s', o') ->
              exists more, o' = o ++ more
                           /\ forall p, p ∈ more -> declared p).
    { induction bs as [|b1 bs IHbs]; intros s o s' o' Hf.
      - simpl in Hf. injection Hf as <- <-. exists [].
        split; [by rewrite app_nil_r|]. intros p Hp. by inversion Hp.
      - cbn [Tarjan.fold_opt] in Hf.
        destruct (walk _ _ _ _ (s, o) b1) as [[s1 o1]|] eqn:Hw1; [|done].
        simpl in Hf. destruct (walk_extends _ _ _ _ _ _ Hw1) as (m1 & -> & Hm1).
        destruct (IHbs _ _ _ _ Hf) as (m2 & -> & Hm2).
        exists (m1 ++ m2). split; [by rewrite app_assoc|].
        intros p [Hp|Hp]%elem_of_app; [by apply Hm1|by apply Hm2]. }
    destruct (Hloop _ _ _ _ _ Hw) as (rest & Hout & Hrest).
    exists rest. simpl. split; [by rewrite Hout|done].
  - injection Hw as _ Hout. simpl. by rewrite <- Hout.
Qed.
End CollectedProperties.

Section CollectedPropertiesExamples.
Import Analyzer Inheritance WalkOrder InheritanceSamples.

Lemma X10_own_properties_of_the_base_come_first_witness :
  "D" <> ""
  /\ match resolveBaseEntity id diamond diamond "D" None with
     | None => collectPropsTransitive id diamond diamond "D" None = Some []
     | Some ent =>
         exists rest,
           collectPropsTransitive id diamond diamond "D" None
           = Some (first_by_name (own_properties ent) ++ rest)
           /\ forall p, p ∈ rest ->
                exists e, e ∈ diamond ++ diamond /\ p ∈ own_properties e
     end.
Proof.
  split; [discriminate|].
  apply (X10_own_properties_of_the_base_come_first id diamond diamond "D" None).
  discriminate.
Defined.
End CollectedPropertiesExamples.
(** ** The kind check of [getFakerGenerator] *)

Section KindCheck.
Import Infer PatternOrder InferSamples.

Lemma default_not_stringish (type : string) :
  Re.test re_stringish (default_for type) = false.
Proof.
  unfold default_for.
  repeat (match goal with
          | |- context [if ?b then _ else _] => destruct b
          end); vm_compute; reflexivity.
Qed.

Lemma static_not_stringish (cfg : Config) (type path : string) :
  type = "number" \/ type = "date" \/ type = "boolean" ->
  Re.test re_stringish (staticGenerator cfg type path) = false.
Proof.
  intros Htype. unfold staticGenerator.
  destruct (inferGenerator (matchers cfg) path) as [nameBased|];
    [|apply default_not_stringish].
  destruct (str_eqb nameBased ""); [apply default_not_stringish|].
  destruct (Re.test re_stringish nameBased) eqn:Hs.
  - destruct Htype as [-> | [-> | ->]]; vm_compute; reflexivity.
  - by rewrite !andb_false_r.
Qed.

(** X11.  When the mapping provider does not answer, the generator
    that [getFakerGenerator] returns for a field of kind [number],
    [date] or [boolean] is never one that the kind check takes for a
    text generator (none that mentions [string.], [uuid(] or
    [alphanumeric(], in any letter case), whatever the pattern table
    holds; nothing is logged. *)
Theorem X11_no_text_generator_for_number_date_boolean
  (cfg : Config) (type path : string) (ctx : GenerationContext) :
  no_override cfg type path ctx ->
  type = "number" \/ type = "date" \/ type = "boolean" ->
  exists g,
    getFakerGenerator cfg type path ctx = mkGen [] (Ok g)
    /\ Re.test re_stringish g = false.
Proof.
  intros Hno Htype. exists (staticGenerator cfg type path).
  split; [|by apply static_not_stringish].
  unfold getFakerGenerator, no_override in *.
  destruct (mappingProviderFunc cfg) as [provider|]; [by rewrite Hno|done].
Qed.

Lemma X11_no_text_generator_for_number_date_boolean_witness :
  no_override (mkConfig (compiled id_table) None) "number" "User.id" ctx0
  /\ ("number" = "number" \/ "number" = "date" \/ "number" = "boolean")
  /\ exists g,
       getFakerGenerator (mkConfig (compiled id_table) None) "number"
         "User.id" ctx0 = mkGen [] (Ok g)
       /\ Re.test re_stringish g = false.
Proof.
  split; [exact I|]. split; [by left|].
  apply (X11_no_text_generator_for_number_date_boolean
           (mkConfig (compiled id_table) None) "number" "User.id" ctx0).
  - exact I.
  - by left.
Defined.
End KindCheck.
(** ** The two shapes of a pattern table *)

Section TableShapes.
Import Infer TableShape.

Lemma elem_of_insert_sorted {V} (n : N) (kv x : string * V)
  (l : list (N * (string * V))) :
  x ∈ snd <$> JsObject.insert_sorted n kv l <-> x = kv \/ x ∈ snd <$> l.
Proof.
  induction l as [|[m kv'] l IH]; simpl.
  - rewrite list_elem_of_singleton. split; [by left|].
    intros [?|H]; [done|by inversion H].
  - destruct (n <? m)%N.
    + rewrite fmap_cons. simpl. by rewrite elem_of_cons.
    + rewrite !fmap_cons. simpl. rewrite !elem_of_cons, IH. tauto.
Qed.

Lemma elem_of_index_entries {V} (o : list (string * V)) (x : string * V) :
  x ∈ snd <$> JsObject.index_entries o
  <-> x ∈ o /\ JsObject.array_index (fst x) <> None.
Proof.
  induction o as [|kv o IH]; simpl.
  - split; [intros H; by inversion H|]. intros [H _]. by inversion H.
  - destruct (JsObject.array_index (fst kv)) as [n|] eqn:Hkv.
    + rewrite elem_of_insert_sorted, IH, elem_of_cons. split.
      * intros [->|[? ?]]; [split; [by left|congruence]|split; [by right|done]].
      * intros [[->|?] ?]; [by left|by right].
    + rewrite IH, elem_of_cons. split.
      * intros [? ?]. split; [by right|done].
      * intros [[->|?] ?]; [congruence|done].
Qed.

Lemma elem_of_entries {V} (o : list (string * V)) (x : string * V) :
  x ∈ JsObject.entries o <-> x ∈ o.
Proof.
  unfold JsObject.entries.
  rewrite elem_of_app, elem_of_index_entries, list_elem_of_filter.
  split; [by intros [[? _]|[_ ?]]|].
  intros H. destruct (JsObject.array_index (fst x)) eqn:E.
  - left. by split.
  - by right.
Qed.

End TableShapes.
(** ** Synthesis without function nodes *)

Section GenResults.

Lemma gen_result_bind {A B} (x : Gen A) (f : A -> Gen B) :
  gen_result (x ≫= f)
  = match gen_result x with
    | Ok a => gen_result (f a)
    | Throw m => Throw m
    end.
Proof.
  unfold mbind, gen_bind. by destruct (gen_result x).
Qed.

Lemma gen_result_fmap {A B} (f : A -> B) (x : Gen A) :
  gen_result (f <$> x) = f <$> gen_result x.
Proof. done. Qed.

Lemma gen_result_ret {A} (a : A) : gen_result (mret a) = Ok a.
Proof. done. Qed.

Lemma map_gen_ok {A B} (f : A -> Gen B) (l : list A) :
  Forall (fun x => exists y, gen_result (f x) = Ok y) l ->
  exists ys, gen_result (map_gen f l) = Ok ys.
Proof.
  induction 1 as [|x l [y Hy] _ [ys IH]]; [by eexists|].
  simpl. rewrite gen_result_bind, Hy, gen_result_bind, IH. by eexists.
Qed.
End GenResults.

Section FunctionFree.
Import Generation Infer Synthesis.

Variable cfg : Config.
Variable includeTypes : bool.
Variable context : GenerationContext.

Local Abbreviation genV := (generateValue cfg includeTypes context).

Lemma getFakerGenerator_ok (type path : string) :
  exists g, gen_result (getFakerGenerator cfg type path context) = Ok g.
Proof.
  unfold getFakerGenerator. destruct (mappingProviderFunc cfg) as [p|];
    [|by eexists].
  destruct (p type path context) as [[v|]|err]; by eexists.
Qed.

Lemma wrap_braces_ok (v : string) :
  exists w, gen_result (wrap_braces (Some v)) = Ok w.
Proof. by eexists. Qed.

Lemma generateValue_ok (v : ASTPropertyValue) :
  no_function_met v = true ->
  forall path, exists text, gen_result (genV v path) = Ok (Some text).
Proof.
  induction v as [| |a t vs IH| | | a s| a o v IH| a p c v _ IH
                  | a c e t f IHc IHe IHt IHf| ] using value_ind;
    intros Hv path; try discriminate; try (by eexists).
  - cbn [generateValue]. rewrite gen_result_fmap.
    destruct (getFakerGenerator_ok s path) as [g Hg].
    unfold generatePrimitive. rewrite Hg. by eexists.
  - cbn [generateValue]. rewrite gen_result_fmap.
    unfold generateConstantValue. cbn [value_text].
    destruct (split_path path) as [entity propPath].
    destruct (_ && _); [by eexists|]. destruct includeTypes; by eexists.
  - assert (Hall : forallb no_function_met vs = true ->
              forall path,
                Forall (fun x => exists y, gen_result (genV x path) = Ok y) vs).
    { intros H path'. rewrite forallb_forall in H. rewrite Forall_forall in IH.
      apply Forall_forall. intros x Hx.
      destruct (IH x Hx (H x (proj1 (list_elem_of_In _ _) Hx)) path') as [t' Ht'].
      by eexists. }
    destruct t; cbn [generateValue]; rewrite ?gen_result_fmap.
    + (* union *)
      simpl in Hv. unfold generateUnionValue.
      destruct (bool_decide (vs = [])); [by eexists|].
      destruct (forallb is_reference vs); [by eexists|].
      destruct (_ && bool_decide _); [by eexists|].
      destruct (_ && includeTypes).
      { destruct (split_path path). by eexists. }
      rewrite gen_result_bind.
      destruct (map_gen_ok (fun val => genV val path) vs (Hall Hv path))
        as [ys ->].
      by eexists.
    + (* intersection *)
      simpl in Hv. unfold generateIntersectionValue. rewrite gen_result_bind.
      destruct (map_gen_ok
                  (fun item =>
                     value ← genV item path;
                     match item with
                     | PReference _ _ => mret ("..." +:+ show value)
                     | PComposite _ TObject _ | PComposite _ TRecord _ =>
                         mret (strip_braces (show value))
                     | _ => mret (default "" value)
                     end) vs) as [ys ->]; [|by eexists].
      eapply Forall_impl; [exact (Hall Hv path)|].
      intros x [y Hy]. rewrite gen_result_bind, Hy.
      destruct x as [| |? [] ?| | | | | | | ]; by eexists.
    + (* array *)
      unfold generateArrayValue. destruct vs as [|x vs]; [by eexists|].
      simpl in Hv. apply Forall_cons in IH as [IHx _].
      destruct (IHx Hv path) as [tx Htx].
      destruct x; cbv beta iota;
        try (rewrite gen_result_bind, Htx; by eexists).
      destruct (str_eqb _ "__type").
      { destruct includeTypes; [destruct (split_path path)|]; by eexists. }
      destruct (_ && entityHasRecursion context).
      { destruct includeTypes; by eexists. }
      destruct (_ && set_has _ _); by eexists.
    + by eexists.
    + (* object *)
      simpl in Hv. unfold generateObjectValue.
      assert (Hprops :
                exists ys,
                  gen_result
                    (map_gen (fun item =>
                                generateProperty includeTypes genV item
                                  (name (attrs item)) path) vs) = Ok ys).
      { apply map_gen_ok. rewrite forallb_forall in Hv.
        rewrite Forall_forall in IH. apply Forall_forall. intros x Hx.
        unfold generateProperty. rewrite gen_result_bind.
        destruct (IH x Hx (Hv x (proj1 (list_elem_of_In _ _) Hx))
                    (path +:+ "." +:+ show (name (attrs x)))) as [tx ->].
        destruct (split_path _) as [entity parts].
        destruct (optional (attrs x)); [|by eexists].
        rewrite gen_result_bind. destruct (_ && _); by eexists. }
      destruct Hprops as [ys Hys].
      destruct vs as [|x [|y vs]].
      * cbv beta iota. rewrite gen_result_bind, Hys. by eexists.
      * destruct x; cbv beta iota;
          try (rewrite gen_result_bind, Hys; by eexists).
        destruct (_ && _); by eexists.
      * destruct x; cbv beta iota; rewrite gen_result_bind, Hys; by eexists.
    + (* record *)
      unfold generateRecordValue. rewrite gen_result_bind. simpl.
      destruct (split_path path). destruct (_ && _); by eexists.
    + by eexists.
Qed.

(** X13.  On a value below which no function node is met, the
    synthesis does not throw and returns a text: it returns no text for
    a function node only, and throws only where a function node is the
    element of an array or an optional member. *)
Theorem X13_synthesis_returns_a_text_without_function_nodes
  (v : ASTPropertyValue) (path : string) :
  no_function_met v = true ->
  exists text, gen_result (genV v path) = Ok (Some text).
Proof. intros Hv. by apply generateValue_ok. Qed.
End FunctionFree.

Section FunctionFreeExamples.
Import Generation Infer Synthesis Samples InferSamples.

Lemma X13_synthesis_returns_a_text_without_function_nodes_witness :
  no_function_met
    (PComposite no_attrs TArray
       [PComposite no_attrs TObject [PPrimitive (prop_attrs "n" true) "number"]])
  = true
  /\ exists text,
       gen_result
         (generateValue cfg0 true ctx0
            (PComposite no_attrs TArray
               [PComposite no_attrs TObject
                  [PPrimitive (prop_attrs "n" true) "number"]])
            "User.items")
       = Ok (Some text).
Proof.
  split; [reflexivity|].
  apply (X13_synthesis_returns_a_text_without_function_nodes cfg0 true ctx0).
  reflexivity.
Defined.

(** A function node as the element of an array makes the synthesis
    throw. *)
Lemma function_element_throws :
  gen_result
    (generateValue cfg0 false ctx0
       (PComposite no_attrs TArray
          [PFunction no_attrs (PPrimitive no_attrs "string")])
       "User.handlers")
  = Throw "TypeError: Cannot read properties of undefined (reading 'trim')".
Proof. reflexivity. Qed.
End FunctionFreeExamples.
(** ** Marks outside a recursive entity *)

Section MarksIgnored.
Import Generation Infer Marks.

Variable cfg : Config.
Variable includeTypes : bool.
Variable context : GenerationContext.
Hypothesis Hflat : entityHasRecursion context = false.

Local Abbreviation genV := (generateValue cfg includeTypes context).

Lemma map_gen_ext {A B C} (f : B -> Gen C) (g : A -> Gen C) (h : A -> B)
  (l : list A) :
  Forall (fun x => f (h x) = g x) l -> map_gen f (map h l) = map_gen g l.
Proof.
  induction 1 as [|x l Hx _ IH]; [done|]. simpl. by rewrite Hx, IH.
Qed.

Lemma forallb_map {A B} (P : B -> bool) (h : A -> B) (l : list A) :
  forallb P (map h l) = forallb (fun x => P (h x)) l.
Proof. induction l as [|x l IH]; [done|]. simpl. by rewrite IH. Qed.

Lemma forallb_ext' {A} (P Q : A -> bool) (l : list A) :
  (forall x, P x = Q x) -> forallb P l = forallb Q l.
Proof. intros H. induction l as [|x l IH]; [done|]. simpl. by rewrite H, IH. Qed.

Lemma fmap_map_ext {A B C} (f : B -> C) (g : A -> C) (h : A -> B)
  (l : list A) :
  (forall x, f (h x) = g x) -> f <$> map h l = g <$> l.
Proof.
  intros H. induction l as [|x l IH]; [done|].
  cbn [map]. rewrite !fmap_cons. by rewrite H, IH.
Qed.

Lemma is_reference_unmarked (v : ASTPropertyValue) :
  is_reference (unmarked v) = is_reference v.
Proof. by destruct v. Qed.

Lemma is_string_literal_unmarked (v : ASTPropertyValue) :
  is_string_literal (unmarked v) = is_string_literal v.
Proof. by destruct v. Qed.

Lemma string_literal_unmarked (v : ASTPropertyValue) :
  string_literal (unmarked v) = string_literal v.
Proof. by destruct v. Qed.

Lemma node_type_unmarked (v : ASTPropertyValue) :
  node_type (unmarked v) = node_type v.
Proof. by destruct v. Qed.

Lemma attrs_unmarked (v : ASTPropertyValue) :
  attrs (unmarked v) = clear (attrs v).
Proof. by destruct v. Qed.

Lemma map_nil_iff {A B} (h : A -> B) (l : list A) :
  bool_decide (map h l = []) = bool_decide (l = []).
Proof. by destruct l. Qed.

Lemma generateValue_unmarked (v : ASTPropertyValue) :
  forall path, genV (unmarked v) path = genV v path.
Proof.
  induction v as [| |a t vs IH| | | a s| a o v IH| a p c v _ IH
                  | a c e t f IHc IHe IHt IHf| ] using value_ind;
    intros path; try done.
  - assert (Hall : forall path,
              Forall (fun x => genV (unmarked x) path = genV x path) vs).
    { intros path'. eapply Forall_impl; [exact IH|]. by intros x Hx. }
    destruct t; cbn [unmarked generateValue]; try done.
    + (* union *)
      f_equal. unfold generateUnionValue.
      rewrite map_nil_iff, !forallb_map.
      rewrite (forallb_ext' _ _ vs is_reference_unmarked).
      rewrite (forallb_ext' _ _ vs is_string_literal_unmarked).
      rewrite length_map.
      rewrite (map_gen_ext _ (fun val => genV val path) unmarked vs (Hall path)).
      rewrite Hflat.
      rewrite (fmap_map_ext _
                 (fun val =>
                    match val with
                    | PReference a0 valStr =>
                        if recursiveEdge a0 && false
                        then recursiveCall (tailName valStr)
                               (passOptsFor context (tailName valStr))
                        else "Mock" +:+ tailName valStr +:+ "()"
                    | _ => ""
                    end) unmarked vs)
        by (intros x; destruct x; try done; by rewrite !andb_false_r).
      assert (H2 : head (map unmarked vs) = unmarked <$> head vs)
        by (by destruct vs).
      rewrite H2.
      assert (H3 : string_literal
                     (default (PEnum no_attrs []) (unmarked <$> head vs))
                   = string_literal (default (PEnum no_attrs []) (head vs))).
      { destruct vs as [|x vs]; [done|]. apply string_literal_unmarked. }
      rewrite H3.
      destruct (split_path path) as [entity propPath].
      by rewrite (fmap_map_ext _
                    (fun val => q (string_literal val) +:+ " as " +:+ entity
                                +:+ match propPath with
                                    | [] => ""
                                    | _ :: _ =>
                                        "[" +:+ dq
                                        +:+ Str.join ("][" +:+ dq) propPath
                                        +:+ dq +:+ "]"
                                    end) unmarked vs)
        by (intros x; by rewrite string_literal_unmarked).
    + (* intersection *)
      f_equal. unfold generateIntersectionValue. f_equal.
      apply map_gen_ext. eapply Forall_impl; [exact (Hall path)|].
      intros x Hx. simpl in Hx. rewrite Hx.
      destruct x as [| |? [] ?| | | | | | | ]; done.
    + (* array *)
      f_equal. destruct vs as [|x vs]; [done|].
      apply Forall_cons in IH as [IHx _]. cbn [map].
      unfold generateArrayValue.
      destruct x; cbn [unmarked]; try (by rewrite <- (IHx path)).
      by rewrite Hflat, !andb_false_r.
    + (* object *)
      f_equal. unfold generateObjectValue.
      assert (Hprops :
                map_gen (fun item =>
                           generateProperty includeTypes genV item
                             (name (attrs item)) path) (map unmarked vs)
                = map_gen (fun item =>
                             generateProperty includeTypes genV item
                               (name (attrs item)) path) vs).
      { apply map_gen_ext. eapply Forall_impl; [exact IH|].
        intros x Hx. simpl in Hx. unfold generateProperty.
        by rewrite attrs_unmarked, Hx. }
      destruct vs as [|x [|y vs]]; [done| |].
      * cbn [map]. destruct x; cbn [unmarked]; try exact (f_equal _ Hprops).
        by rewrite Hflat, !andb_false_r.
      * cbn [map] in *.
        destruct x; cbn [unmarked] in *; by rewrite Hprops.
  - cbn [unmarked generateValue]. unfold generateReferenceValue.
    by rewrite Hflat, !andb_false_r.
Qed.
End MarksIgnored.

Section MarksIgnoredTheorem.
Import Generation Infer Marks.

(** X14.  Inside an entity without recursion the [recursiveEdge] marks
    of a value have no effect on what is synthesized: the text and the
    log are those of the value without any mark, so that a call which
    passes [depth] and [maxDepth] is emitted only inside an entity that
    has recursion. *)
Theorem X14_marks_have_no_effect_without_recursion
  (cfg : Config) (includeTypes : bool) (context : GenerationContext)
  (v : ASTPropertyValue) (path : string) :
  entityHasRecursion context = false ->
  generateValue cfg includeTypes context v path
  = generateValue cfg includeTypes context (unmarked v) path.
Proof.
  intros Hflat. symmetry. by apply generateValue_unmarked.
Qed.

Lemma X14_marks_have_no_effect_without_recursion_witness :
  entityHasRecursion (mkContext None None "Tree" false [] ["Tree"]) = false
  /\ generateValue (mkConfig [] None) false
       (mkContext None None "Tree" false [] ["Tree"])
       (PComposite (mkAttrs (Some "kids") false true None) TArray
          [PReference (mkAttrs None false true None) "Tree"]) "Tree.kids"
     = generateValue (mkConfig [] None) false
         (mkContext None None "Tree" false [] ["Tree"])
         (unmarked
            (PComposite (mkAttrs (Some "kids") false true None) TArray
               [PReference (mkAttrs None false true None) "Tree"]))
         "Tree.kids".
Proof.
  split; [reflexivity|].
  apply (X14_marks_have_no_effect_without_recursion (mkConfig [] None) false
           (mkContext None None "Tree" false [] ["Tree"])).
  reflexivity.
Defined.
End MarksIgnoredTheorem.
(** ** What a match consumes *)

Section MatchFacts.
Import Loop.

Lemma rmatch_seq (a b : Re.regex) k s :
  Re.rmatch (Re.Seq a b) k s = Re.rmatch a (Re.rmatch b k) s.
Proof. reflexivity. Qed.

Lemma rmatch_star (g : bool) (r : Re.regex) k s :
  Re.rmatch (Re.Star g r) k s
  = star_loop g (Re.rmatch r) k (length (Re.rest s)) s.
Proof. reflexivity. Qed.

Lemma star_loop_S (g : bool) body k (n : nat) (s : Re.mstate) :
  star_loop g body k (S n) s
  = let more (_ : unit) :=
      body (fun s' => if (Re.pos s <? Re.pos s')%nat
                      then star_loop g body k n s' else None) s in
    if g then Re.or_else (more tt) (fun _ => k s)
    else Re.or_else (k s) more.
Proof. reflexivity. Qed.

(** A match continues at a state whose input is a suffix of the input
    it started with. *)
Lemma rmatch_suffix (r : Re.regex) :
  forall k s e,
    Re.rmatch r k s = Some e ->
    exists s', k s' = Some e /\ Re.rest s' `suffix_of` Re.rest s.
Proof.
  induction r as [p| |r1 IH1 r2 IH2|r1 IH1 r2 IH2|g r1 IH1|n r1 IH1| | |];
    intros k s e H.
  - simpl in H. destruct (Re.rest s) as [|c t] eqn:Hr; [done|].
    destruct (p c); [|done]. eexists. split; [exact H|].
    simpl. by apply suffix_cons_r.
  - by exists s.
  - rewrite rmatch_seq in H. destruct (IH1 _ _ _ H) as (s1 & H1 & Hs1).
    destruct (IH2 _ _ _ H1) as (s2 & H2 & Hs2).
    exists s2. split; [done|]. by etrans.
  - rewrite rmatch_alt in H. unfold Re.or_else in H.
    destruct (Re.rmatch r1 k s) eqn:E1.
    + injection H as ->. by apply IH1.
    + by apply IH2.
  - rewrite rmatch_star in H. revert H.
    generalize (length (Re.rest s)). intros n. revert s e.
    induction n as [|n IHn]; intros s e H; [by exists s|].
    rewrite star_loop_S in H. cbv zeta in H.
    assert (Hmore :
              Re.rmatch r1
                (fun s' => if (Re.pos s <? Re.pos s')%nat
                           then star_loop g (Re.rmatch r1) k n s'
                           else None) s = Some e ->
              exists s', k s' = Some e /\ Re.rest s' `suffix_of` Re.rest s).
    { intros Hm. destruct (IH1 _ _ _ Hm) as (s1 & H1 & Hs1).
      destruct (Re.pos s <? Re.pos s1)%nat; [|done].
      destruct (IHn _ _ H1) as (s2 & H2 & Hs2).
      exists s2. split; [done|]. by etrans. }
    destruct g; unfold Re.or_else in H.
    + destruct (Re.rmatch r1 _ s) eqn:E.
      * injection H as ->. by apply Hmore.
      * by exists s.
    + destruct (k s) eqn:E.
      * injection H as ->. by exists s.
      * by apply Hmore.
  - cbn [Re.rmatch] in H. destruct (IH1 _ _ _ H) as (s1 & H1 & Hs1).
    eexists. split; [exact H1|]. done.
  - simpl in H. destruct (Re.prev s); [done|]. by exists s.
  - simpl in H. destruct (Re.rest s) eqn:E; [|done]. exists s. by rewrite E.
  - simpl in H. destruct (xorb _ _); [|done]. by exists s.
Qed.

Lemma rmatch_lit_starts (cs : list ascii) :
  forall k s e,
    Re.rmatch (Re.seqs (map Re.chr cs)) k s = Some e ->
    Str.starts_with cs (Re.rest s) = true.
Proof.
  induction cs as [|c cs IH]; intros k s e H; [done|].
  destruct cs as [|c' cs].
  - simpl in H. destruct (Re.rest s) as [|d t]; [done|]. simpl.
    destruct (Ascii.eqb c d); [done|done].
  - change (Re.seqs (map Re.chr (c :: c' :: cs)))
      with (Re.Seq (Re.chr c) (Re.seqs (map Re.chr (c' :: cs)))) in H.
    rewrite rmatch_seq in H. cbn [Re.rmatch Re.chr] in H.
    destruct (Re.rest s) as [|d t]; [done|].
    cbn [Str.starts_with]. destruct (Ascii.eqb c d); [|done].
    apply IH in H. exact H.
Qed.

Lemma includes_suffix (cs l' l : list ascii) :
  l' `suffix_of` l -> Str.starts_with cs l' = true ->
  Str.includes_chars cs l = true.
Proof.
  intros [pre ->] H. induction pre as [|c pre IH].
  - destruct l'; simpl; by rewrite H.
  - simpl. rewrite IH. apply orb_true_r.
Qed.

Lemma search_from_suffix (r : Re.regex) (l : list ascii) :
  forall p pv b e,
    Re.search_from r p pv l = Some (b, e) ->
    Re.rest b `suffix_of` l /\ Re.rmatch r Some b = Some e.
Proof.
  induction l as [|c l IH]; intros p pv b e H.
  - simpl in H. destruct (Re.rmatch r Some _) eqn:E; [|done].
    injection H as <- <-. by split.
  - cbn [Re.search_from] in H.
    destruct (Re.rmatch r Some (Re.MState p pv (c :: l) [])) eqn:E.
    + injection H as <- <-. by split.
    + destruct (IH _ _ _ _ H) as [Hs Hm]. split; [|done].
      by apply suffix_cons_r.
Qed.
End MatchFacts.
(** ** [stripUnusedOptionsFromText] changes no text *)

Section StripIdentity.
Import Generation Infer.

Lemma includes_mono (cs l' l : list ascii) :
  l' `suffix_of` l -> Str.includes_chars cs l' = true ->
  Str.includes_chars cs l = true.
Proof.
  intros [pre ->] H. induction pre as [|c pre IH]; [done|].
  simpl. rewrite IH. apply orb_true_r.
Qed.

Lemma seq_needs (cs : list ascii) (a b : Re.regex) :
  (forall k s e, Re.rmatch b k s = Some e ->
                 Str.includes_chars cs (Re.rest s) = true) ->
  forall k s e, Re.rmatch (Re.Seq a b) k s = Some e ->
                Str.includes_chars cs (Re.rest s) = true.
Proof.
  intros Hb k s e H. rewrite rmatch_seq in H.
  apply rmatch_suffix in H as (s1 & H1 & Hs1).
  eapply includes_mono; [exact Hs1|]. by eapply Hb.
Qed.

Lemma lit_needs (text : string) (b : Re.regex) :
  forall k s e, Re.rmatch (Re.Seq (Re.lit text) b) k s = Some e ->
                Str.includes_chars (Str.chars text) (Re.rest s) = true.
Proof.
  intros k s e H. rewrite rmatch_seq in H. unfold Re.lit in H.
  apply rmatch_lit_starts in H.
  eapply includes_suffix; [|exact H]. done.
Qed.

Lemma signature_needs_options k s e :
  Re.rmatch re_signature k s = Some e ->
  Str.includes_chars (Str.chars "__options") (Re.rest s) = true.
Proof.
  unfold re_signature. cbn [Re.seqs].
  do 6 apply seq_needs. apply lit_needs.
Qed.

Lemma destructuring_needs_options k s e :
  Re.rmatch re_destructuring k s = Some e ->
  Str.includes_chars (Str.chars "__options") (Re.rest s) = true.
Proof.
  unfold re_destructuring. cbn [Re.seqs].
  do 22 apply seq_needs. apply lit_needs.
Qed.

Lemma of_chars_chars (s : string) : Str.of_chars (Str.chars s) = s.
Proof. apply String.string_of_list_ascii_of_string. Qed.

Lemma replace_all_without_match (r : Re.regex)
  (f : (nat -> option string) -> string) (text : string) :
  Re.search r text = None -> Re.replace_all r f text = text.
Proof.
  unfold Re.replace_all, Re.search. intros H.
  cbn [Re.replace_from]. rewrite H. apply of_chars_chars.
Qed.

Lemma no_match_without_options (r : Re.regex) (text : string) :
  (forall k s e, Re.rmatch r k s = Some e ->
                 Str.includes_chars (Str.chars "__options") (Re.rest s) = true) ->
  Re.test re_uses_options text = false -> Re.search r text = None.
Proof.
  intros Hneeds Htest. unfold Re.search.
  destruct (Re.search_from r 0 None (Str.chars text)) as [[b e]|] eqn:Hs;
    [|done].
  apply search_from_suffix in Hs as [Hsuf Hm].
  apply Hneeds in Hm.
  pose proof (includes_mono _ _ _ Hsuf Hm) as Hin.
  destruct (search_uses_options (Str.chars text) 0 None Hin) as [x Hx].
  unfold Re.test, Re.search in Htest. by rewrite Hx in Htest.
Qed.

Lemma strip_changes_nothing (text : string) :
  stripUnusedOptionsFromText text = text.
Proof.
  unfold stripUnusedOptionsFromText.
  destruct (Re.test re_uses_options text) eqn:Htest; [done|].
  rewrite (replace_all_without_match re_signature).
  - apply replace_all_without_match.
    apply no_match_without_options; [|done].
    apply destructuring_needs_options.
  - apply no_match_without_options; [|done].
    apply signature_needs_options.
Qed.

(** X15.  [stripUnusedOptionsFromText] returns every text as it is: a
    text that mentions [__options] is kept by the test at its head, and
    in a text that does not, neither of the two patterns, which both
    require [__options], finds a match. *)
Theorem X15_strip_returns_every_text_unchanged (text : string) :
  stripUnusedOptionsFromText text = text
  /\ (Re.test re_uses_options text = false ->
      Re.search re_signature text = None
      /\ Re.search re_destructuring text = None).
Proof.
  split; [apply strip_changes_nothing|]. intros Htest. split.
  - apply no_match_without_options; [|done]. apply signature_needs_options.
  - apply no_match_without_options; [|done].
    apply destructuring_needs_options.
Qed.
End StripIdentity.
(** ** The names of the emitted factories *)

Section FactoryNames.
Import Generation Infer.

Lemma chars_append (a b : string) :
  Str.chars (a +:+ b) = Str.chars a ++ Str.chars b.
Proof.
  induction a as [|c a IH]; [done|].
  change (Str.chars (String.String c (a +:+ b))
          = c :: Str.chars a ++ Str.chars b).
  unfold Str.chars in *. simpl. by rewrite IH.
Qed.

Lemma starts_with_app (p s : list ascii) : Str.starts_with p (p ++ s) = true.
Proof.
  induction p as [|c p IH]; [done|]. simpl. by rewrite Ascii.eqb_refl, IH.
Qed.

Lemma startsWith_append (p s : string) : Str.startsWith p (p +:+ s) = true.
Proof. unfold Str.startsWith. rewrite chars_append. apply starts_with_app. Qed.

Lemma join_cons (sep x : string) (l : list string) :
  exists tail, Str.join sep (x :: l) = x +:+ tail.
Proof.
  destruct l as [|y l].
  - exists "". simpl. clear. induction x as [|c x IH]; [done|].
    change (String.String c x = String.String c (x +:+ "")). by rewrite <- IH.
  - by eexists.
Qed.

(** The text whose first line starts with [export function MockN]
    starts with it. *)
Lemma first_line_named (E N rest : string) (l : list string) :
  Str.startsWith (E +:+ "function Mock" +:+ N)
    (Str.join nl ((E +:+ "function Mock" +:+ N +:+ rest) :: l)) = true.
Proof.
  destruct (join_cons nl (E +:+ "function Mock" +:+ N +:+ rest) l)
    as [tail ->].
  replace ((E +:+ "function Mock" +:+ N +:+ rest) +:+ tail)
    with ((E +:+ "function Mock" +:+ N) +:+ (rest +:+ tail)).
  - apply startsWith_append.
  - by rewrite !append_assoc.
Qed.

Lemma first_lines_named (E N rest tail : string) :
  Str.startsWith (E +:+ "function Mock" +:+ N)
    ((E +:+ "function Mock" +:+ N +:+ rest) +:+ tail) = true.
Proof.
  replace ((E +:+ "function Mock" +:+ N +:+ rest) +:+ tail)
    with ((E +:+ "function Mock" +:+ N) +:+ (rest +:+ tail)).
  - apply startsWith_append.
  - by rewrite !append_assoc.
Qed.

Lemma gen_bind_ok {A B} (x : Gen A) (f : A -> Gen B) (b : B) :
  gen_result (x ≫= f) = Ok b ->
  exists a, gen_result x = Ok a /\ gen_result (f a) = Ok b.
Proof.
  rewrite gen_result_bind. destruct (gen_result x) as [a|]; [|done].
  intros H. by exists a.
Qed.

Lemma map_gen_results {A B} (f : A -> Gen B) (l : list A) (ys : list B) :
  gen_result (map_gen f l) = Ok ys ->
  Forall2 (fun x y => gen_result (f x) = Ok y) l ys.
Proof.
  revert ys. induction l as [|x l IH]; intros ys H.
  - injection H as <-. constructor.
  - simpl in H. apply gen_bind_ok in H as (y & Hy & H).
    apply gen_bind_ok in H as (ys' & Hys & H). injection H as <-.
    constructor; [done|]. by apply IH.
Qed.

Variable cfg : Config.
Variable data : list ASTEntity.
Variable includeTypes : bool.
Variable useExport : bool.
Variable currentMockFilePath : option string.
Variable format : string.

Local Abbreviation named :=
  (fun (item : ASTEntity) (text : string) =>
     Str.startsWith (exportKeyword useExport +:+ "function Mock"
                     +:+ e_name item) text = true).

Lemma emit_entity_named (item : ASTEntity) (text : string) :
  gen_result (emit_entity cfg data includeTypes useExport currentMockFilePath
                format item) = Ok text ->
  named item text.
Proof.
  unfold emit_entity.
  destruct (e_body item) as [ik props inh g|vs|ents|v|v|v|vs|].
  - unfold emit_instance. intros H.
    apply gen_bind_ok in H as (inherits & _ & H).
    apply gen_bind_ok in H as (properties & _ & H).
    injection H as <-.
    destruct (hasRecursion item), includeTypes; first [apply first_line_named|apply first_lines_named].
  - unfold emit_union. destruct (forallb _ vs); intros H.
    + apply gen_bind_ok in H as (vals & _ & H). injection H as <-.
      destruct (hasRecursion item), includeTypes; first [apply first_line_named|apply first_lines_named].
    + apply gen_bind_ok in H as (vals & _ & H). injection H as <-.
      first [apply first_line_named|apply first_lines_named].
  - intros H. injection H as <-. unfold emit_alias.
    destruct (hasRecursion item), includeTypes; first [apply first_line_named|apply first_lines_named].
  - unfold emit_array. intros H.
    apply gen_bind_ok in H as (value & _ & H). injection H as <-.
    destruct (hasRecursion item); first [apply first_line_named|apply first_lines_named].
  - unfold emit_primitive. intros H.
    apply gen_bind_ok in H as (value & _ & H). injection H as <-.
    first [apply first_line_named|apply first_lines_named].
  - unfold emit_constant. intros H.
    apply gen_bind_ok in H as (value & _ & H). injection H as <-.
    first [apply first_line_named|apply first_lines_named].
  - intros H. injection H as <-. unfold emit_enum. first [apply first_line_named|apply first_lines_named].
  - unfold emit_placeholder. intros H.
    apply gen_bind_ok in H as (u & _ & H). injection H as <-.
    first [apply first_line_named|apply first_lines_named].
Qed.

(** X16.  When [generate] returns a text, the text is made of one
    factory for each entity that passes the selection, in their order
    and separated by line ends, and the factory of the entity [N]
    starts with [function MockN], after [export] when exports are
    asked for. *)
Theorem X16_every_selected_entity_has_its_named_factory (text : string) :
  gen_result (generate cfg data includeTypes useExport currentMockFilePath
                format) = Ok text ->
  exists texts,
    text = Str.join nl texts
    /\ Forall2 (fun item t =>
                  Str.startsWith (exportKeyword useExport +:+ "function Mock"
                                  +:+ e_name item) t = true)
         (emitted data) texts.
Proof.
  unfold generate. intros H. apply gen_bind_ok in H as (texts & Hb & H).
  injection H as <-. exists texts.
  split; [apply strip_changes_nothing|].
  unfold body in Hb. apply map_gen_results in Hb.
  eapply Forall2_impl; [exact Hb|]. intros item t. apply emit_entity_named.
Qed.
End FactoryNames.

Section FactoryNamesExamples.
Import Generation Infer Samples.

Lemma X16_every_selected_entity_has_its_named_factory_witness :
  exists text,
    gen_result (generate cfg0 [tree; chain] false true None "ts") = Ok text
    /\ exists texts,
         text = Str.join nl texts
         /\ Forall2 (fun item t =>
                       Str.startsWith (exportKeyword true +:+ "function Mock"
                                       +:+ e_name item) t = true)
              (emitted [tree; chain]) texts.
Proof.
  eexists. split; [vm_compute; reflexivity|].
  apply (X16_every_selected_entity_has_its_named_factory cfg0 [tree; chain]
           false true None "ts").
  vm_compute. reflexivity.
Defined.
End FactoryNamesExamples.
(** ** Patterns as wildcards *)

Section WildcardPatterns.
Import Infer Loop Wildcard.

Lemma star_loop_ext (g : bool)
  (body : (Re.mstate -> option Re.mstate) -> Re.mstate -> option Re.mstate)
  (k k' : Re.mstate -> option Re.mstate) :
  (forall k1 k2 s, (forall s, k1 s = k2 s) -> body k1 s = body k2 s) ->
  (forall s, k s = k' s) ->
  forall n s, star_loop g body k n s = star_loop g body k' n s.
Proof.
  intros Hbody Hk n. induction n as [|n IH]; intros s; [apply Hk|].
  rewrite !star_loop_S. cbv zeta.
  rewrite (Hbody _ (fun s' => if (Re.pos s <? Re.pos s')%nat
                              then star_loop g body k' n s' else None) s).
  - by rewrite Hk.
  - intros s'. destruct (_ <? _)%nat; [apply IH|done].
Qed.

Lemma rmatch_ext (r : Re.regex) :
  forall k k' s, (forall s, k s = k' s) -> Re.rmatch r k s = Re.rmatch r k' s.
Proof.
  induction r as [p| |r1 IH1 r2 IH2|r1 IH1 r2 IH2|g r1 IH1|n r1 IH1| | |];
    intros k k' s Hk.
  - simpl. destruct (Re.rest s) as [|c t]; [done|]. by rewrite Hk.
  - apply Hk.
  - rewrite !rmatch_seq. apply IH1. intros s'. by apply IH2.
  - rewrite !rmatch_alt. by rewrite (IH1 k k' s Hk), (IH2 k k' s Hk).
  - rewrite !rmatch_star. apply star_loop_ext; [|done].
    intros k1 k2 s' H12. by apply IH1.
  - cbn [Re.rmatch]. apply IH1. intros s'. apply Hk.
  - simpl. by rewrite Hk.
  - simpl. by rewrite Hk.
  - simpl. by rewrite Hk.
Qed.

Lemma rmatch_seqs_cons (r : Re.regex) (rs : list Re.regex) k s :
  Re.rmatch (Re.seqs (r :: rs)) k s
  = Re.rmatch r (Re.rmatch (Re.seqs rs) k) s.
Proof.
  destruct rs as [|r' rs]; [|done]. simpl. by apply rmatch_ext.
Qed.

Local Abbreviation at_end := (Re.rmatch Re.Eol Some).

Lemma lazy_run_fits (pat' : list ascii)
  (k' : Re.mstate -> option Re.mstate) :
  (forall s, is_Some (k' s) <-> fits pat' (Re.rest s) = true) ->
  forall n s,
    length (Re.rest s) = n ->
    (is_Some (star_loop false (Re.rmatch Re.any) k' n s)
     <-> fits ("*"%char :: pat') (Re.rest s) = true).
Proof.
  intros Hk n. induction n as [|n IH]; intros s Hlen.
  - destruct (Re.rest s) as [|d t] eqn:Hr; [|done].
    cbn [star_loop]. rewrite Hk, Hr. cbn. by rewrite orb_false_r.
  - destruct (Re.rest s) as [|d t] eqn:Hr; [done|].
    rewrite star_loop_S. cbv zeta. unfold Re.or_else.
    change (fits ("*"%char :: pat') (d :: t))
      with (fits pat' (d :: t)
            || negb (line_end d) && fits ("*"%char :: pat') t).
    rewrite orb_true_iff, andb_true_iff, <- Hr, <- Hk.
    assert (Hmore :
              is_Some (Re.rmatch Re.any
                         (fun s' => if (Re.pos s <? Re.pos s')%nat
                                    then star_loop false (Re.rmatch Re.any)
                                           k' n s'
                                    else None) s)
              <-> negb (line_end d) = true
                  /\ fits ("*"%char :: pat') t = true).
    { cbn [Re.rmatch Re.any]. rewrite Hr.
      change (Ascii.eqb d "010"%char || Ascii.eqb d "013"%char)
        with (line_end d).
      destruct (negb (line_end d)).
      - cbn [Re.step Re.pos].
        assert ((Re.pos s <? S (Re.pos s))%nat = true) as ->
          by (apply Nat.ltb_lt; lia).
        rewrite (IH (Re.step d t s)); [tauto|].
        simpl. simpl in Hlen. lia.
      - split; [by intros [? ?]|by intros [? _]]. }
    destruct (k' s) as [e|] eqn:Hks.
    + split; [left; by eexists|by eexists].
    + rewrite Hmore. split; [by right|].
      intros [[? ?]|?]; [done|done].
Qed.

Lemma every_character (P : ascii -> bool) :
  forallb (fun n => P (ascii_of_nat n)) (seq 0 256) = true ->
  forall c, P c = true.
Proof.
  intros H c. rewrite forallb_forall in H.
  rewrite <- (ascii_nat_embedding c). apply H, in_seq.
  pose proof (nat_ascii_bounded c). lia.
Qed.

(** For a character of the ASCII range the [i] flag compares up to the
    case of the letters [A]-[Z]. *)
Lemma canonical_same_letter (c d : ascii) :
  (nat_of_ascii c <? 128)%nat = true ->
  Ascii.eqb (Re.canonicalize d) (Re.canonicalize c) = same_letter c d.
Proof.
  intros Hc.
  pose proof (every_character
                (fun c => forallb
                            (fun n =>
                               implb (nat_of_ascii c <? 128)%nat
                                 (Bool.eqb
                                    (Ascii.eqb
                                       (Re.canonicalize (ascii_of_nat n))
                                       (Re.canonicalize c))
                                    (same_letter c (ascii_of_nat n))))
                            (seq 0 256))) as Hall.
  specialize (Hall ltac:(vm_compute; reflexivity) c). cbv beta in Hall.
  pose proof (every_character
                (fun d => implb (nat_of_ascii c <? 128)%nat
                            (Bool.eqb
                               (Ascii.eqb (Re.canonicalize d)
                                  (Re.canonicalize c))
                               (same_letter c d))) Hall d) as Hd.
  cbv beta in Hd. rewrite Hc in Hd. by apply Bool.eqb_prop in Hd.
Qed.

Lemma tokens_fit (pat : list ascii) :
  forallb plain pat = true ->
  forall s,
    is_Some (Re.rmatch (Re.seqs (token <$> pat)) at_end s)
    <-> fits pat (Re.rest s) = true.
Proof.
  induction pat as [|c pat IH]; intros Hp s.
  - simpl. destruct (Re.rest s); [|split; [by intros [? ?]|done]].
    split; [done|by eexists].
  - cbn [forallb] in Hp. apply andb_true_iff in Hp as [Hc Hp].
    rewrite fmap_cons, rmatch_seqs_cons. unfold token at 1.
    cbn [fits]. destruct (Ascii.eqb c "*"%char) eqn:Hstar.
    + apply Ascii.eqb_eq in Hstar as ->. rewrite rmatch_star.
      apply lazy_run_fits; [by apply IH|done].
    + cbn [Re.rmatch Re.chr_i]. destruct (Re.rest s) as [|d t].
      * split; [by intros [? ?]|done].
      * unfold plain in Hc. apply andb_true_iff in Hc as [Hc _].
        rewrite (canonical_same_letter c d Hc).
        destruct (same_letter c d); simpl.
        -- by apply IH.
        -- split; [by intros [? ?]|done].
Qed.

Lemma anchored_later (x : Re.regex) (l : list ascii) :
  forall p c, Re.search_from (Re.Seq Re.Bol x) p (Some c) l = None.
Proof.
  induction l as [|d l IH]; intros p c; [done|].
  cbn [Re.search_from]. rewrite rmatch_seq. cbn [Re.rmatch Re.prev]. apply IH.
Qed.

Lemma test_anchored (x : Re.regex) (path : string) :
  Re.test (Re.Seq Re.Bol x) path = true
  <-> is_Some (Re.rmatch x Some (Re.start path)).
Proof.
  unfold Re.test, Re.search, Re.start.
  destruct (Str.chars path) as [|c l]; cbn [Re.search_from];
    rewrite rmatch_seq; cbn [Re.rmatch Re.prev];
    destruct (Re.rmatch x Some _) as [e|]; try rewrite anchored_later;
    split; try done; try (by intros [? ?]); by eexists.
Qed.

Lemma escaped_cons (c : ascii) (l : list ascii) :
  expand_stars (escape_dots (c :: l))
  = (if Ascii.eqb c "."%char then [bs; "."%char]
     else if Ascii.eqb c "*"%char then [ "."%char; "*"%char; "?"%char]
     else [c]) ++ expand_stars (escape_dots l).
Proof.
  cbn [escape_dots]. destruct (Ascii.eqb c "."%char) eqn:Hd.
  - done.
  - cbn [expand_stars]. by destruct (Ascii.eqb c "*"%char).
Qed.

Lemma parse_plain (l : list ascii) :
  forallb plain l = true ->
  forall fuel,
    length (expand_stars (escape_dots l)) < fuel ->
    parse_body fuel (expand_stars (escape_dots l)) = Some (token <$> l).
Proof.
  induction l as [|c l IH]; intros Hl fuel Hfuel.
  - destruct fuel; [simpl in Hfuel; lia|done].
  - cbn [forallb] in Hl. apply andb_true_iff in Hl as [Hc Hl].
    rewrite escaped_cons in *. unfold token at 1. rewrite fmap_cons.
    unfold plain in Hc. apply andb_true_iff in Hc as [_ Hc].
    destruct (Ascii.eqb c "."%char) eqn:Hdot.
    + apply Ascii.eqb_eq in Hdot as ->.
      destruct fuel as [|fuel]; [simpl in Hfuel; lia|].
      cbn [app parse_body].
      assert (Ascii.eqb bs bs = true) as -> by apply Ascii.eqb_refl.
      change (Str.is_alpha "."%char || Str.is_digit "."%char) with false.
      cbv iota. rewrite IH; [done|done|]. simpl in Hfuel. lia.
    + destruct (Ascii.eqb c "*"%char) eqn:Hstar.
      * apply Ascii.eqb_eq in Hstar as ->.
        destruct fuel as [|fuel]; [simpl in Hfuel; lia|].
        cbn [app parse_body].
        change (Ascii.eqb "."%char bs) with false.
        change (Ascii.eqb "."%char "."%char) with true.
        change (Ascii.eqb "*"%char "*"%char && Ascii.eqb "?"%char "?"%char)
          with true.
        cbv iota. rewrite IH; [done|done|]. simpl in Hfuel. lia.
      * rewrite !orb_false_r in Hc. apply negb_true_iff in Hc.
        destruct fuel as [|fuel]; [simpl in Hfuel; lia|].
        cbn [app parse_body].
        assert (Ascii.eqb c bs = false) as ->.
        { apply Ascii.eqb_neq. intros ->. by vm_compute in Hc. }
        rewrite Hdot, Hc. rewrite IH; [done|done|]. simpl in Hfuel. lia.
Qed.

Lemma generateRegexp_plain (pat : string) :
  plain_pattern pat = true ->
  generateRegexp pat
  = Some (Re.Seq Re.Bol
            (Re.Seq (Re.seqs (token <$> Str.chars pat)) Re.Eol)).
Proof.
  intros Hp. unfold generateRegexp, escaped.
  rewrite parse_plain; [done|done|lia].
Qed.

Lemma plain_pattern_fits (pat path : string) :
  plain_pattern pat = true ->
  Re.test (Re.Seq Re.Bol (Re.Seq (Re.seqs (token <$> Str.chars pat)) Re.Eol))
    path
  = fits (Str.chars pat) (Str.chars path).
Proof.
  intros Hp.
  pose proof (test_anchored
                (Re.Seq (Re.seqs (token <$> Str.chars pat)) Re.Eol) path)
    as Ht.
  rewrite rmatch_seq, tokens_fit in Ht by done. simpl in Ht.
  destruct (Re.test _ path), (fits _ _); try done.
  - by destruct (proj1 Ht).
  - by destruct (proj2 Ht).
Qed.

(** X17.  A pattern of ASCII characters that holds no
    regular-expression syntax besides dots and stars compiles, and its
    regular expression accepts a path exactly when the whole path fits
    the pattern read as a wildcard: a star stands for any run of
    characters that are not line ends (dots included, the empty run
    included), a dot and any other character stand for themselves, up
    to the case of the letters [A] to [Z]. *)
Theorem X17_a_plain_pattern_is_a_wildcard (pat : string) :
  plain_pattern pat = true ->
  exists r,
    generateRegexp pat = Some r
    /\ forall path, Re.test r path = fits (Str.chars pat) (Str.chars path).
Proof.
  intros Hp. eexists. split; [by apply generateRegexp_plain|].
  intros path. by apply plain_pattern_fits.
Qed.

Lemma X17_a_plain_pattern_is_a_wildcard_witness :
  plain_pattern "*.id" = true
  /\ exists r,
       generateRegexp "*.id" = Some r
       /\ forall path,
            Re.test r path = fits (Str.chars "*.id") (Str.chars path).
Proof.
  split; [reflexivity|].
  apply (X17_a_plain_pattern_is_a_wildcard "*.id"). reflexivity.
Defined.

(** The star of [*.id] covers the dots of a nested path, and the
    letters are matched in either case. *)
Lemma star_covers_dots :
  fits (Str.chars "*.id") (Str.chars "Order.customer.ID") = true
  /\ fits (Str.chars "*.id") (Str.chars "User.identifier") = false
  /\ fits (Str.chars "*.id") (Str.chars "id") = false.
Proof. repeat split; vm_compute; reflexivity. Qed.
End WildcardPatterns.

(** ** The two shapes of a pattern table, and what loading one does *)

Section LoadedTables.
Import Infer TableShape Wildcard TableEntries.

Lemma compile_patterns_plain (g : string) (ps : list string) :
  forallb plain_pattern ps = true ->
  exists ms, compile_patterns g ps = Some ms.
Proof.
  induction ps as [|p ps IH]; intros H; [by eexists|].
  cbn [forallb] in H. apply andb_true_iff in H as [Hp H].
  destruct (IH H) as [ms Hms]. simpl.
  rewrite (generateRegexp_plain p Hp), Hms. by eexists.
Qed.

Lemma compile_entries_return (es : list (string * MapVal)) :
  existsb holds_string es = false -> forallb plain_entry es = true ->
  exists ms, compile_entries es = Returned ms.
Proof.
  induction es as [|[g [x|ps]] es IH]; intros Hs Hp; [by eexists|done|].
  cbn [existsb forallb] in Hs, Hp. apply andb_true_iff in Hp as [Hps Hp].
  destruct (compile_patterns_plain g ps Hps) as [ms1 H1].
  destruct (IH Hs Hp) as [ms2 H2]. simpl. rewrite H1, H2. by eexists.
Qed.

Lemma compile_entries_throw (pre post : list (string * MapVal))
  (e : string * MapVal) :
  holds_string e = true ->
  existsb holds_string pre = false -> forallb plain_entry pre = true ->
  compile_entries (pre ++ e :: post)
  = Thrown "TypeError: patterns.forEach is not a function".
Proof.
  intros He. induction pre as [|[g [x|ps]] pre IH]; intros Hs Hp.
  - by destruct e as [k [x|ps]].
  - done.
  - cbn [existsb forallb] in Hs, Hp. apply andb_true_iff in Hp as [Hps Hp].
    destruct (compile_patterns_plain g ps Hps) as [ms1 H1].
    cbn [app compile_entries]. by rewrite H1, (IH Hs Hp).
Qed.

Lemma compile_entries_thrown (es : list (string * MapVal)) (msg : string) :
  compile_entries es = Thrown msg ->
  msg = "TypeError: patterns.forEach is not a function"
  /\ existsb holds_string es = true.
Proof.
  induction es as [|[g [x|ps]] es IH]; intros H; [done| |].
  - simpl in H. by injection H as <-.
  - simpl in H. destruct (compile_patterns g ps); [|done].
    destruct (compile_entries es); [done| |done].
    injection H as ->. by apply IH.
Qed.

Lemma normalize_from_strings (es : list (string * MapVal)) :
  forall acc,
    normalize_from acc es
    = normalize_from acc (filter (fun e => holds_string e = true) es).
Proof.
  induction es as [|[k [x|ps]] es IH]; intros acc; [done| |].
  - rewrite filter_cons_True by done. cbn [normalize_from].
    destruct (push_pattern acc x k); [|done]. apply IH.
  - rewrite filter_cons_False by done. cbn [normalize_from]. apply IH.
Qed.

(** No key of the object under construction is a name that it
    inherits. *)
Lemma normalize_from_throws (es : list (string * MapVal)) :
  forall acc,
    (forall k, set_has k object_prototype_names = true ->
               omap_get k acc = None) ->
    if existsb inherited_name es
    then normalize_from acc es
         = Throw "TypeError: normalized[g].push is not a function"
    else exists n, normalize_from acc es = Ok n.
Proof.
  induction es as [|[p [g|ps]] es IH]; intros acc Hacc.
  - by eexists.
  - cbn [existsb normalize_from]. unfold inherited_name at 1. cbn [snd].
    unfold push_pattern.
    destruct (set_has g object_prototype_names) eqn:Hg.
    + by rewrite (Hacc g Hg).
    + cbn [orb].
      assert (forall v k, set_has k object_prototype_names = true ->
                          omap_get k (omap_set g v acc) = None) as Hnext.
      { intros v k Hk. rewrite omap_get_set.
        destruct (decide (g = k)) as [->|_]; [congruence|by apply Hacc]. }
      destruct (omap_get g acc) as [qs|]; simpl;
        apply IH; apply Hnext.
  - cbn [existsb normalize_from]. by apply IH.
Qed.

Lemma existsb_entries {V} (f : string * V -> bool) (o : list (string * V)) :
  existsb f (JsObject.entries o) = existsb f o.
Proof.
  apply eq_true_iff_eq. rewrite !existsb_exists.
  split; intros (x & Hx & Hf); exists x; (split; [|done]);
    by apply list_elem_of_In, elem_of_entries, list_elem_of_In.
Qed.

Lemma arrays_return (o : list (string * list string)) :
  (forall g ps p, (g, ps) ∈ o -> p ∈ ps -> plain_pattern p = true) ->
  exists ms, defineGeneratorMatchers (as_arrays o) = Returned ms.
Proof.
  intros Hplain. unfold defineGeneratorMatchers.
  apply compile_entries_return.
  - rewrite existsb_entries.
    destruct (existsb holds_string (as_arrays o)) eqn:E; [|done].
    apply existsb_exists in E as (x & Hx & Hs).
    apply list_elem_of_In, list_elem_of_fmap in Hx as (e & -> & _). done.
  - apply forallb_forall. intros x Hx.
    apply list_elem_of_In, elem_of_entries, list_elem_of_fmap in Hx
      as ([g ps] & -> & He).
    unfold plain_entry. simpl. apply forallb_forall. intros p Hp.
    apply list_elem_of_In in Hp. by apply (Hplain g ps p).
Qed.

(** X12.  [setMappings] reads the shape of a table off the first of
    its entries, in the order of [Object.entries]; an empty table
    gives the empty matcher list.

    When the first entry holds a string, the call throws the
    [TypeError] of [normalized[g].push] exactly when some entry maps a
    pattern to the name of a member of [Object.prototype]; the entries
    that hold an array are passed over; and the call returns when no
    expression is such a name and the patterns of the entries that
    hold a string are plain wildcard patterns.

    When the first entry holds an array, the entries are compiled one
    after the other: the only [TypeError] is the one of
    [patterns.forEach], and if it is thrown some entry holds a string;
    it is thrown when an entry holds a string and the patterns of the
    entries before the first such entry are plain; the call returns
    when no entry holds a string and all patterns are plain.

    A pattern that is not plain may make [new RegExp] throw a
    [SyntaxError]; nothing is said of a call that reaches one. *)
Theorem X12_table_shape_is_read_off_the_first_entry
  (m : list (string * MapVal)) :
  match JsObject.entries m with
  | [] => setMappings (Some m) = Returned []
  | (_, MStr _) :: _ =>
      (setMappings (Some m)
       = Thrown "TypeError: normalized[g].push is not a function"
       <-> existsb inherited_name (JsObject.entries m) = true)
      /\ setMappings (Some m)
         = match normalize_new
                   (filter (fun e => holds_string e = true)
                      (JsObject.entries m)) with
           | Ok normalized => defineGeneratorMatchers (as_arrays normalized)
           | Throw msg => Thrown msg
           end
      /\ (existsb inherited_name (JsObject.entries m) = false ->
          forallb plain_entry
            (filter (fun e => holds_string e = true) (JsObject.entries m))
          = true ->
          exists ms, setMappings (Some m) = Returned ms)
  | (_, MArr _) :: _ =>
      (forall msg, setMappings (Some m) = Thrown msg ->
                   msg = "TypeError: patterns.forEach is not a function"
                   /\ existsb holds_string (JsObject.entries m) = true)
      /\ (forall pre e post,
            JsObject.entries m = pre ++ e :: post ->
            holds_string e = true ->
            existsb holds_string pre = false ->
            forallb plain_entry pre = true ->
            setMappings (Some m)
            = Thrown "TypeError: patterns.forEach is not a function")
      /\ (existsb holds_string (JsObject.entries m) = false ->
          forallb plain_entry (JsObject.entries m) = true ->
          exists ms, setMappings (Some m) = Returned ms)
  end.
Proof.
  unfold setMappings.
  destruct (JsObject.entries m) as [|[k [x|ps]] es] eqn:He; [done| |].
  - set (es0 := (k, MStr x) :: es) in *. clearbody es0.
    pose proof (normalize_from_throws es0 [] (fun _ _ => eq_refl)) as Hthrows.
    fold (normalize_new es0) in Hthrows.
    assert (Hnot : forall o msg,
              defineGeneratorMatchers (as_arrays o) <> Thrown msg).
    { intros o msg H. unfold defineGeneratorMatchers in H.
      apply compile_entries_thrown in H as [_ H].
      rewrite existsb_entries in H.
      apply existsb_exists in H as (y & Hy & Hs).
      apply list_elem_of_In, list_elem_of_fmap in Hy as (e & -> & _). done. }
    split; [|split].
    + destruct (existsb inherited_name es0).
      * by rewrite Hthrows.
      * destruct Hthrows as [n ->]. split; [|done]. intros H.
        by apply Hnot in H.
    + unfold normalize_new. by rewrite <- normalize_from_strings.
    + intros Hno Hplain. rewrite Hno in Hthrows.
      destruct Hthrows as [n Hn]. rewrite Hn.
      apply arrays_return. intros g qs p Hg Hp.
      apply normalize_new_groups in Hn. subst n.
      apply list_elem_of_fmap in Hg as (g' & Hg & _).
      injection Hg as <- ->.
      apply list_elem_of_fmap in Hp as ([p' g'] & -> & Hp).
      apply list_elem_of_filter in Hp as [Hg' Hp]. simpl in Hg'. subst g'.
      apply elem_of_string_entries in Hp.
      rewrite forallb_forall in Hplain.
      apply (Hplain (p', MStr g)). apply list_elem_of_In.
      by apply list_elem_of_filter.
  - unfold defineGeneratorMatchers. rewrite He.
    set (es0 := (k, MArr ps) :: es) in *.
    split; [|split].
    + intros msg. apply compile_entries_thrown.
    + intros pre e post -> Hs Hpre Hplain. by apply compile_entries_throw.
    + apply compile_entries_return.
Qed.
End LoadedTables.

Section LoadedTableExamples.
Import Infer.

(** A table that maps expressions to patterns with one entry of the
    other shape *)
Lemma mixed_table_throws :
  setMappings (Some [("faker.string.uuid()", MArr ["*.id"]);
                     ("*.name", MStr "faker.person.fullName()")])
  = Thrown "TypeError: patterns.forEach is not a function".
Proof. reflexivity. Qed.

(** A table that maps a pattern to [toString] *)
Lemma inherited_expression_throws :
  setMappings (Some [("*.id", MStr "faker.string.uuid()");
                     ("*.label", MStr "toString")])
  = Thrown "TypeError: normalized[g].push is not a function".
Proof. reflexivity. Qed.

(** A pattern with a bracket is outside the patterns that are read:
    nothing is said of the call. *)
Lemma bracket_pattern_is_not_read :
  setMappings (Some [("*(", MStr "faker.string.uuid()")]) = NotRead.
Proof. reflexivity. Qed.
End LoadedTableExamples.

Section GreedyRuns.
Import Infer Loop Names.

Lemma run_over_fields (w : list ascii) :
  forall s t,
    Re.rest s = w ++ t ->
    Re.rest (run_over w s) = t
    /\ Re.pos (run_over w s) = Re.pos s + length w
    /\ Re.caps (run_over w s) = Re.caps s.
Proof.
  induction w as [|c w IH]; intros s t Hr.
  - simpl. repeat split; [done|lia].
  - cbn [run_over]. rewrite Hr. cbn [tail app].
    destruct (IH (Re.step c (w ++ t) s) t eq_refl) as (-> & -> & ->).
    repeat split. simpl. lia.
Qed.

Lemma rmatch_chr (p : ascii -> bool) k s :
  Re.rmatch (Re.Chr p) k s
  = match Re.rest s with
    | c :: t => if p c then k (Re.step c t s) else None
    | [] => None
    end.
Proof. reflexivity. Qed.

Lemma rmatch_group (n : nat) (r : Re.regex) k s :
  Re.rmatch (Re.Group n r) k s
  = Re.rmatch r (fun s' => k (Re.set_cap n (Re.pos s) (Re.pos s') s')) s.
Proof. reflexivity. Qed.

Lemma greedy_run (p : ascii -> bool) k (w : list ascii) :
  forall s t e n,
    forallb p w = true -> stops p t = true ->
    Re.rest s = w ++ t -> n = length (Re.rest s) ->
    k (run_over w s) = Some e ->
    star_loop true (Re.rmatch (Re.Chr p)) k n s = Some e.
Proof.
  induction w as [|c w IH]; intros s t e n Hw Ht Hr -> Hk.
  - simpl in Hr, Hk. rewrite Hr. destruct t as [|d t]; [done|].
    cbn [length]. rewrite star_loop_S. cbv zeta. rewrite rmatch_chr, Hr. simpl in Ht. apply negb_true_iff in Ht as ->. done.
  - cbn [forallb] in Hw. apply andb_true_iff in Hw as [Hc Hw].
    rewrite Hr. cbn [app length]. rewrite star_loop_S. cbv zeta.
    rewrite rmatch_chr, Hr. cbn [app]. rewrite Hc.
    cbn [Re.step Re.pos].
    assert ((Re.pos s <? S (Re.pos s))%nat = true) as ->
      by (apply Nat.ltb_lt; lia).
    cbn [run_over] in Hk. rewrite Hr in Hk. cbn [tail app] in Hk.
    by rewrite (IH (Re.step c (w ++ t) s) t e (length (w ++ t)) Hw Ht
                 eq_refl eq_refl Hk).
Qed.

Lemma greedy_run_fails (p : ascii -> bool) k (w : list ascii) :
  (forall s', Re.rest s' <> [] -> k s' = None) ->
  forall s d t n,
    forallb p w = true -> p d = false ->
    Re.rest s = w ++ d :: t -> n = length (Re.rest s) ->
    star_loop true (Re.rmatch (Re.Chr p)) k n s = None.
Proof.
  intros Hk. induction w as [|c w IH]; intros s d t n Hw Hd Hr ->.
  - rewrite Hr. cbn [app length]. rewrite star_loop_S. cbv zeta.
    rewrite rmatch_chr, Hr. cbn [app]. rewrite Hd. simpl.
    apply Hk. by rewrite Hr.
  - cbn [forallb] in Hw. apply andb_true_iff in Hw as [Hc Hw].
    rewrite Hr. cbn [app length]. rewrite star_loop_S. cbv zeta.
    rewrite rmatch_chr, Hr. cbn [app]. rewrite Hc.
    cbn [Re.step Re.pos].
    assert ((Re.pos s <? S (Re.pos s))%nat = true) as ->
      by (apply Nat.ltb_lt; lia).
    rewrite (IH (Re.step c (w ++ d :: t) s) d t (length (w ++ d :: t)) Hw Hd
               eq_refl eq_refl).
    simpl. apply Hk. by rewrite Hr.
Qed.

Lemma lit_run (cs : list ascii) :
  forall k s t,
    Re.rest s = cs ++ t ->
    Re.rmatch (Re.seqs (map Re.chr cs)) k s = k (run_over cs s).
Proof.
  induction cs as [|c cs IH]; intros k s t Hr; [done|].
  rewrite map_cons, rmatch_seqs_cons. cbn [Re.rmatch Re.chr].
  rewrite Hr. cbn [app]. rewrite Ascii.eqb_refl.
  rewrite (IH _ _ t); [|done]. cbn [run_over]. by rewrite Hr.
Qed.

Lemma forallb_false_split (p : ascii -> bool) (l : list ascii) :
  forallb p l = false ->
  exists w d t, l = w ++ d :: t /\ forallb p w = true /\ p d = false.
Proof.
  induction l as [|c l IH]; [done|]. cbn [forallb].
  destruct (p c) eqn:Hc.
  - intros H. destruct (IH H) as (w & d & t & -> & Hw & Hd).
    exists (c :: w), d, t. repeat split; [|done]. simpl. by rewrite Hc.
  - intros _. by exists [], c, l.
Qed.

Lemma chars_of_chars (l : list ascii) : Str.chars (Str.of_chars l) = l.
Proof. apply String.list_ascii_of_string_of_list_ascii. Qed.

End GreedyRuns.

Section LastSegment.
Import Infer Loop Names Analyzer.

Lemma tail_hit (s : Re.mstate) (n : list ascii) :
  Re.rest s = "."%char :: n -> word n = true ->
  exists e,
    Re.rmatch re_tail Some s = Some e
    /\ Re.cap_lookup 1 (Re.caps e)
       = Some (S (Re.pos s), S (Re.pos s) + length n).
Proof.
  intros Hr Hn. destruct n as [|c n]; [done|].
  cbn [word forallb] in Hn. apply andb_true_iff in Hn as [Hc Hn].
  unfold re_tail, Re.chr, Re.plus.
  rewrite rmatch_seqs_cons, rmatch_chr, Hr, Ascii.eqb_refl.
  rewrite rmatch_seqs_cons, rmatch_group, rmatch_seq, rmatch_chr.
  cbn [Re.step Re.rest]. rewrite Hc, rmatch_star.
  set (s1 := Re.step "."%char (c :: n) s).
  set (s2 := Re.step c n s1).
  destruct (run_over_fields n s2 [] (eq_sym (app_nil_r _)))
    as (Hrest & Hpos & Hcaps).
  eexists. split.
  - apply (greedy_run _ _ n s2 []); [done|done|by rewrite app_nil_r|done|].
    cbn [Re.seqs Re.rmatch Re.set_cap Re.rest]. by rewrite Hrest.
  - cbn [Re.set_cap Re.caps Re.cap_lookup Nat.eqb]. rewrite Hpos.
    subst s1 s2. cbn [Re.step Re.pos length]. do 2 f_equal. lia.
Qed.

Lemma tail_miss (s : Re.mstate) :
  (forall n, Re.rest s = "."%char :: n -> word n = false) ->
  Re.rmatch re_tail Some s = None.
Proof.
  intros H. unfold re_tail, Re.chr, Re.plus.
  rewrite rmatch_seqs_cons, rmatch_chr.
  destruct (Re.rest s) as [|c n] eqn:Hr; [done|].
  destruct (Ascii.eqb "."%char c) eqn:Hc; [|done].
  apply Ascii.eqb_eq in Hc as <-. specialize (H n eq_refl).
  rewrite rmatch_seqs_cons, rmatch_group, rmatch_seq, rmatch_chr.
  cbn [Re.step Re.rest].
  destruct n as [|d n]; [done|]. cbn [word forallb] in H.
  destruct (Str.is_word d) eqn:Hd; [|done]. simpl in H.
  apply forallb_false_split in H as (w & d' & t & -> & Hw & Hd').
  rewrite rmatch_star.
  eapply (greedy_run_fails _ _ w); [|exact Hw|exact Hd'|done|done].
  intros s' Hs'. cbn [Re.seqs Re.rmatch Re.set_cap Re.rest].
  by destruct (Re.rest s').
Qed.

Lemma after_last_dot_split (l n : list ascii) :
  after_last_dot l = Some n -> exists pre, l = pre ++ "."%char :: n.
Proof.
  revert n. induction l as [|c l IH]; intros n; [done|].
  cbn [after_last_dot]. destruct (after_last_dot l) as [m|].
  - intros [= <-]. destruct (IH m eq_refl) as [pre ->]. by exists (c :: pre).
  - destruct (Ascii.eqb c "."%char) eqn:Hc; [|done].
    apply Ascii.eqb_eq in Hc as ->. intros [= <-]. by exists [].
Qed.

Lemma dotted_is_no_word (l n : list ascii) :
  after_last_dot l = Some n -> word l = false.
Proof.
  intros H. apply after_last_dot_split in H as [pre ->].
  unfold word. destruct (pre ++ _ :: n) eqn:E; [done|]. rewrite <- E.
  rewrite forallb_app. cbn [forallb].
  change (Str.is_word "."%char) with false. simpl. apply andb_false_r.
Qed.

Lemma search_tail (l : list ascii) :
  forall p pv,
    match after_last_dot l with
    | Some n =>
        if word n then
          exists b e,
            Re.search_from re_tail p pv l = Some (b, e)
            /\ Re.cap_lookup 1 (Re.caps e)
               = Some (p + length l - length n, p + length l)
        else Re.search_from re_tail p pv l = None
    | None => Re.search_from re_tail p pv l = None
    end.
Proof.
  induction l as [|c l IH]; intros p pv.
  - cbn [after_last_dot Re.search_from]. by rewrite tail_miss.
  - cbn [after_last_dot Re.search_from].
    specialize (IH (S p) (Some c)).
    destruct (after_last_dot l) as [n|] eqn:Hl.
    + rewrite tail_miss.
      2:{ cbn [Re.rest]. intros m [= -> ->]. by eapply dotted_is_no_word. }
      destruct (word n); [|done].
      destruct IH as (b & e & -> & He). exists b, e. split; [done|].
      rewrite He. cbn [length]. do 2 f_equal; lia.
    + destruct (Ascii.eqb c "."%char) eqn:Hc.
      * apply Ascii.eqb_eq in Hc as ->. destruct (word l) eqn:Hw.
        -- destruct (tail_hit (Re.MState p pv ("."%char :: l) []) l
                       eq_refl Hw) as (e & -> & He).
           eexists _, e. split; [done|]. rewrite He. cbn [Re.pos length].
           do 2 f_equal; lia.
        -- rewrite tail_miss; [done|]. cbn [Re.rest]. by intros m [= ->].
      * rewrite tail_miss; [done|]. cbn [Re.rest]. intros m [= -> _].
        by rewrite Ascii.eqb_refl in Hc.
Qed.

Lemma tail_group (e : string) :
  Re.match_group re_tail e 1
  = match after_last_dot (Str.chars e) with
    | Some n => if word n then Some (Str.of_chars n) else None
    | None => None
    end.
Proof.
  unfold Re.match_group, Re.search.
  pose proof (search_tail (Str.chars e) 0 None) as H.
  destruct (after_last_dot (Str.chars e)) as [n|] eqn:Hn; [|by rewrite H].
  destruct (word n); [|by rewrite H].
  destruct H as (b & e' & -> & He). unfold Re.group. rewrite He.
  unfold Str.substring. apply after_last_dot_split in Hn as [pre Hpre].
  rewrite Hpre. do 2 f_equal. rewrite length_app. cbn [length].
  replace (0 + (length pre + S (length n)) - length n) with (S (length pre))
    by lia.
  replace (0 + (length pre + S (length n)) - S (length pre)) with (length n)
    by lia.
  replace (pre ++ "."%char :: n) with ((pre ++ ["."%char]) ++ n)
    by (by rewrite <- app_assoc).
  rewrite (drop_app_length' (pre ++ ["."%char]) n).
  - by rewrite firstn_all.
  - rewrite length_app. simpl. lia.
Qed.

Lemma import_needs (e : string) :
  Str.includes "import(" e = false -> Re.search re_import e = None.
Proof.
  intros H. destruct (Re.search re_import e) as [[b e']|] eqn:Hs; [|done].
  apply search_from_suffix in Hs as [Hsuf Hm].
  apply lit_needs in Hm. unfold Str.includes in H.
  by rewrite (includes_mono _ _ _ Hsuf Hm) in H.
Qed.

(** X18.  On a text that does not hold [import(], the type name is the
    text after the last dot where that is a non-empty run of the
    characters [A-Za-z0-9_], and the whole text in every other case: a
    text without a dot, a text that ends in a dot, and a text whose
    last segment holds any other character, a [$] included. *)
Theorem X18_type_name_is_the_last_word_segment (e : string) :
  Str.includes "import(" e = false ->
  extractTypeNameFromImportish e = last_segment e.
Proof.
  intros H. unfold extractTypeNameFromImportish, Re.match_group at 1.
  rewrite import_needs by done. rewrite tail_group. unfold last_segment.
  destruct (after_last_dot (Str.chars e)) as [n|]; [|done].
  by destruct (word n).
Qed.

End LastSegment.

Section LastSegmentExamples.
Import Names Analyzer.

Lemma X18_type_name_is_the_last_word_segment_witness :
  Str.includes "import(" "models.shop.Order" = false
  /\ extractTypeNameFromImportish "models.shop.Order"
     = last_segment "models.shop.Order".
Proof.
  split; [reflexivity|].
  apply (X18_type_name_is_the_last_word_segment "models.shop.Order").
  reflexivity.
Defined.

(** A last segment with a [$] is no word: the qualified name is kept
    whole. *)
Lemma dollar_segment_is_kept :
  last_segment "models.shop.Order" = "Order"
  /\ last_segment "models.$Order" = "models.$Order"
  /\ last_segment "Order" = "Order".
Proof. repeat split; vm_compute; reflexivity. Qed.

End LastSegmentExamples.

Section ImportForm.
Import Infer Loop Names Analyzer.

Lemma search_hit (r : Re.regex) (l : list ascii) (p : nat) pv e :
  Re.rmatch r Some (Re.MState p pv l []) = Some e ->
  Re.search_from r p pv l = Some (Re.MState p pv l [], e).
Proof. intros H. destruct l; cbn [Re.search_from]; by rewrite H. Qed.

Lemma import_hit (p n t : list ascii) :
  module_path p = true -> identifier n = true ->
  stops ident_char t = true ->
  exists e,
    Re.rmatch re_import Some
      (Re.MState 0 None
         (Str.chars "import(" ++ p ++ Str.chars ")." ++ n ++ t) [])
    = Some e
    /\ Re.cap_lookup 1 (Re.caps e)
       = Some (9 + length p, 9 + length p + length n).
Proof.
  intros Hp Hn Ht.
  destruct p as [|c0 p]; [done|]. cbn [module_path forallb] in Hp.
  apply andb_true_iff in Hp as [Hc0 Hp].
  destruct n as [|c n]; [done|]. cbn [identifier] in Hn.
  apply andb_true_iff in Hn as [Hc Hn].
  set (s0 := Re.MState 0 None _ []).
  set (s1 := run_over (Str.chars "import(") s0).
  destruct (run_over_fields (Str.chars "import(") s0 _ eq_refl)
    as (R1 & P1 & _). fold s1 in R1, P1.
  set (s2 := Re.step c0 (p ++ Str.chars ")." ++ (c :: n) ++ t) s1).
  set (s3 := run_over p s2).
  destruct (run_over_fields p s2 _ eq_refl) as (R3 & P3 & _).
  fold s3 in R3, P3.
  set (s4 := run_over (Str.chars ").") s3).
  destruct (run_over_fields (Str.chars ").") s3 _ R3) as (R4 & P4 & _).
  fold s4 in R4, P4.
  set (s5 := Re.step c (n ++ t) s4).
  set (s6 := run_over n s5).
  destruct (run_over_fields n s5 _ eq_refl) as (R6 & P6 & _).
  fold s6 in R6, P6.
  exists (Re.set_cap 1 (Re.pos s4) (Re.pos s6) s6). split.
  - unfold re_import, Re.lit, Re.plus, Re.not_chr.
    rewrite rmatch_seqs_cons, (lit_run _ _ s0 _ eq_refl). fold s1.
    rewrite rmatch_seqs_cons, rmatch_seq, rmatch_chr, R1. cbn [app].
    rewrite Hc0, rmatch_star. fold s2.
    apply (greedy_run _ _ p s2 (Str.chars ")." ++ (c :: n) ++ t));
      [done|done|done|done|]. fold s3.
    rewrite rmatch_seqs_cons, (lit_run _ _ s3 _ R3). fold s4.
    cbn [Re.seqs]. rewrite rmatch_group, rmatch_seq, rmatch_chr, R4.
    cbn [app]. rewrite Hc, rmatch_star. fold s5.
    by apply (greedy_run _ _ n s5 t).
  - cbn [Re.set_cap Re.caps Re.cap_lookup Nat.eqb]. rewrite P6.
    subst s5. cbn [Re.step Re.pos]. rewrite P4, P3. subst s2.
    cbn [Re.step Re.pos]. rewrite P1. subst s0. cbn [Re.pos length].
    do 2 f_equal; simpl; lia.
Qed.

Lemma import_name (p n t : string) :
  module_path (Str.chars p) = true ->
  identifier (Str.chars n) = true ->
  stops ident_char (Str.chars t) = true ->
  extractTypeNameFromImportish ("import(" +:+ p +:+ ")." +:+ n +:+ t) = n.
Proof.
  intros Hp Hn Ht. unfold extractTypeNameFromImportish, Re.match_group at 1.
  unfold Re.search. rewrite !chars_append.
  destruct (import_hit _ _ _ Hp Hn Ht) as (e & He & Hcap).
  rewrite (search_hit _ _ _ _ _ He). unfold Re.group. rewrite Hcap.
  unfold Str.substring. rewrite !chars_append.
  replace (9 + length (Str.chars p) + length (Str.chars n)
           - (9 + length (Str.chars p))) with (length (Str.chars n)) by lia.
  replace (Str.chars "import(" ++ Str.chars p ++ Str.chars ")."
           ++ Str.chars n ++ Str.chars t)
    with ((Str.chars "import(" ++ Str.chars p ++ Str.chars ").")
          ++ Str.chars n ++ Str.chars t)
    by (by rewrite <- !app_assoc).
  rewrite drop_app_length'.
  2:{ rewrite !length_app. simpl. lia. }
  rewrite take_app_length. apply of_chars_chars.
Qed.

(** X19.  Of a text that starts with [import(], a module path without
    a closing bracket, [).] and an identifier after which no character
    of an identifier follows, the type name is that identifier,
    whatever the text goes on with: type arguments, or further dotted
    names, which are left out. *)
Theorem X19_type_name_of_an_import_is_its_first_identifier
  (p n t : string) :
  module_path (Str.chars p) = true ->
  identifier (Str.chars n) = true ->
  stops ident_char (Str.chars t) = true ->
  extractTypeNameFromImportish ("import(" +:+ p +:+ ")." +:+ n +:+ t) = n.
Proof. by apply import_name. Qed.

End ImportForm.

Section ImportFormExamples.
Import Names Analyzer.

Lemma X19_type_name_of_an_import_is_its_first_identifier_witness :
  module_path (Str.chars "/app/src/models") = true
  /\ identifier (Str.chars "Page") = true
  /\ stops ident_char (Str.chars "<Item>") = true
  /\ extractTypeNameFromImportish
       ("import(" +:+ "/app/src/models" +:+ ")." +:+ "Page" +:+ "<Item>")
     = "Page".
Proof.
  split; [reflexivity|]. split; [reflexivity|]. split; [reflexivity|].
  apply (X19_type_name_of_an_import_is_its_first_identifier
           "/app/src/models" "Page" "<Item>"); reflexivity.
Defined.

End ImportFormExamples.

Section StrippedDirectories.
Import Infer Names OutputPath.

Lemma parse_plain_source (l : list ascii) :
  forallb (fun c => negb (syntax_char c)) l = true ->
  parse_source l = Some (map Re.chr l).
Proof.
  induction l as [|c l IH]; [done|]. cbn [forallb parse_source].
  intros H. apply andb_true_iff in H as [Hc Hl].
  apply negb_true_iff in Hc.
  destruct (Ascii.eqb c bs) eqn:E1.
  { apply Ascii.eqb_eq in E1 as ->. by vm_compute in Hc. }
  destruct (Ascii.eqb c "."%char) eqn:E2.
  { apply Ascii.eqb_eq in E2 as ->. by vm_compute in Hc. }
  by rewrite Hc, IH.
Qed.

Lemma dir_regexp_plain (dir : string) :
  plain_dir dir = true ->
  dir_regexp dir
  = Some (Re.Seq Re.Bol
            (Re.seqs (map Re.chr (Str.chars dir ++ ["/"%char])))).
Proof.
  intros H. unfold dir_regexp. rewrite parse_plain_source; [done|].
  rewrite forallb_app. unfold plain_dir in H. by rewrite H.
Qed.

Lemma starts_with_split (p : list ascii) :
  forall s, Str.starts_with p s = true -> s = p ++ drop (length p) s.
Proof.
  induction p as [|c p IH]; intros s H; [done|].
  destruct s as [|d s]; [done|]. simpl in H.
  apply andb_true_iff in H as [Hc H]. apply Ascii.eqb_eq in Hc as ->.
  simpl. f_equal. by apply IH.
Qed.

Lemma replace_prefix (cs : list ascii) (result : string) :
  Re.replace_first (Re.Seq Re.Bol (Re.seqs (map Re.chr cs)))
    (fun _ => ""%string) result
  = if Str.starts_with cs (Str.chars result)
    then Str.of_chars (drop (length cs) (Str.chars result))
    else result.
Proof.
  unfold Re.replace_first, Re.search.
  set (l := Str.chars result).
  destruct (Str.starts_with cs l) eqn:Hs.
  - pose proof (starts_with_split _ _ Hs) as Hl.
    assert (Re.rmatch (Re.Seq Re.Bol (Re.seqs (map Re.chr cs))) Some
              (Re.MState 0 None l [])
            = Some (run_over cs (Re.MState 0 None l []))) as Hm.
    { rewrite rmatch_seq. cbn [Re.rmatch Re.prev].
      by rewrite (lit_run cs Some _ (drop (length cs) l)). }
    rewrite (search_hit _ _ _ _ _ Hm).
    destruct (run_over_fields cs (Re.MState 0 None l [])
                (drop (length cs) l) Hl) as (-> & _ & _).
    done.
  - assert (Re.rmatch (Re.Seq Re.Bol (Re.seqs (map Re.chr cs))) Some
              (Re.MState 0 None l []) = None) as Hm.
    { destruct (Re.rmatch _ Some _) as [e|] eqn:E; [|done].
      rewrite rmatch_seq in E. cbn [Re.rmatch Re.prev] in E.
      apply rmatch_lit_starts in E. cbn [Re.rest] in E.
      by rewrite E in Hs. }
    destruct l as [|c l]; cbn [Re.search_from]; rewrite Hm; [done|].
    by rewrite anchored_later.
Qed.

Lemma configure_plain (baseDir : list string) :
  forallb plain_dir baseDir = true ->
  forall destinationPath,
    configureOutputPath destinationPath baseDir
    = Some (fold_left strip_dir baseDir destinationPath).
Proof.
  unfold configureOutputPath.
  induction baseDir as [|dir baseDir IH]; intros H path; [done|].
  cbn [forallb] in H. apply andb_true_iff in H as [Hd H].
  cbn [fold_left]. rewrite <- IH by done. f_equal.
  cbn [mbind option_bind]. rewrite dir_regexp_plain by done.
  cbn [mbind option_bind]. f_equal. apply replace_prefix.
Qed.

(** X20.  With directory names that hold no regular-expression
    syntax, the output path is the destination path from which the
    listed directories have been stripped one after the other, in the
    order of the list: each one is removed where the path reached so
    far starts with the directory and a slash, and leaves that path as
    it is otherwise. *)
Theorem X20_listed_directories_are_stripped_in_order
  (destinationPath : string) (baseDir : list string) :
  forallb plain_dir baseDir = true ->
  configureOutputPath destinationPath baseDir
  = Some (fold_left strip_dir baseDir destinationPath).
Proof. intros H. by apply configure_plain. Qed.

Lemma last_snoc_split (l : list ascii) (c : ascii) :
  last l = Some c -> exists l', l = l' ++ [c].
Proof.
  intros H. destruct l as [|d l] using rev_ind; [done|].
  rewrite last_snoc in H. injection H as ->. by exists l.
Qed.

Lemma starts_with_includes (p q l : list ascii) :
  Str.starts_with (p ++ q) l = true -> Str.includes_chars q l = true.
Proof.
  intros H. apply starts_with_split in H. rewrite H, <- app_assoc.
  apply (includes_suffix q (q ++ drop (length (p ++ q)) l)).
  - by exists p.
  - apply starts_with_app.
Qed.

Lemma strip_trailing_slash (result dir : string) :
  ends_in_slash dir = true ->
  Str.includes "//" result = false ->
  strip_dir result dir = result.
Proof.
  unfold ends_in_slash, strip_dir, Str.includes. intros Hd Hr. cbv zeta.
  destruct (last (Str.chars dir)) as [c|] eqn:Hl; [|done].
  apply Ascii.eqb_eq in Hd as ->.
  apply last_snoc_split in Hl as [l' ->].
  destruct (Str.starts_with _ _) eqn:Hs; [|done].
  rewrite <- app_assoc in Hs.
  apply (starts_with_includes l' (Str.chars "//")) in Hs.
  by rewrite Hs in Hr.
Qed.

(** X21.  A directory name written with a slash at its end, as
    [src/], is never stripped from a path that holds no doubled
    slash: with a list of such names the output path is the
    destination path. *)
Theorem X21_directory_with_trailing_slash_strips_nothing
  (destinationPath : string) (baseDir : list string) :
  forallb plain_dir baseDir = true ->
  forallb ends_in_slash baseDir = true ->
  Str.includes "//" destinationPath = false ->
  configureOutputPath destinationPath baseDir = Some destinationPath.
Proof.
  intros Hp Hs Hd. rewrite configure_plain by done. f_equal.
  clear Hp. induction baseDir as [|dir baseDir IH]; [done|].
  cbn [forallb] in Hs. apply andb_true_iff in Hs as [Hdir Hs].
  cbn [fold_left]. rewrite strip_trailing_slash by done. by apply IH.
Qed.

End StrippedDirectories.

Section StrippedDirectoriesExamples.
Import OutputPath.

Lemma X20_listed_directories_are_stripped_in_order_witness :
  forallb plain_dir ["src"; "app"]%string = true
  /\ configureOutputPath "src/app/models/user.ts" ["src"; "app"]%string
     = Some (fold_left strip_dir ["src"; "app"]%string
               "src/app/models/user.ts"%string).
Proof.
  split; [reflexivity|].
  apply (X20_listed_directories_are_stripped_in_order
           "src/app/models/user.ts" ["src"; "app"]%string).
  reflexivity.
Defined.

Lemma X21_directory_with_trailing_slash_strips_nothing_witness :
  forallb plain_dir ["src/"]%string = true
  /\ forallb ends_in_slash ["src/"]%string = true
  /\ Str.includes "//" "src/models/user.ts" = false
  /\ configureOutputPath "src/models/user.ts" ["src/"]%string
     = Some "src/models/user.ts"%string.
Proof.
  split; [reflexivity|]. split; [reflexivity|]. split; [reflexivity|].
  apply (X21_directory_with_trailing_slash_strips_nothing
           "src/models/user.ts" ["src/"]%string); reflexivity.
Defined.

(** The order of the list matters, and a directory is stripped at the
    start of the path only. *)
Lemma stripping_depends_on_the_order :
  configureOutputPath "src/app/models/user.ts" ["src"; "app"]%string
  = Some "models/user.ts"%string
  /\ configureOutputPath "src/app/models/user.ts" ["app"; "src"]%string
     = Some "app/models/user.ts"%string
  /\ configureOutputPath "lib/src/user.ts" ["src"]%string
     = Some "lib/src/user.ts"%string.
Proof. repeat split; vm_compute; reflexivity. Qed.

End StrippedDirectoriesExamples.

Section NamesAgree.
Import Infer Names Analyzer Generation.

Lemma tail_name_last_segment (v : string) : tailName v = last_segment v.
Proof.
  unfold tailName, last_segment. rewrite tail_group.
  destruct (after_last_dot (Str.chars v)) as [n|]; [|done].
  by destruct (word n).
Qed.

Lemma word_has_no_dot (n : list ascii) :
  forallb Str.is_word n = true -> after_last_dot n = None.
Proof.
  intros H. destruct n as [|c n]; [done|].
  destruct (after_last_dot (c :: n)) as [m|] eqn:E; [|done].
  apply dotted_is_no_word in E. unfold word in E. congruence.
Qed.

Lemma after_last_dot_app (pre n : list ascii) :
  forallb Str.is_word n = true ->
  after_last_dot (pre ++ "."%char :: n) = Some n.
Proof.
  intros H. induction pre as [|c pre IH].
  - cbn [app after_last_dot]. by rewrite word_has_no_dot.
  - cbn [app after_last_dot]. by rewrite IH.
Qed.

Lemma append_empty (s : string) : s +:+ "" = s.
Proof.
  rewrite <- (of_chars_chars (s +:+ "")), chars_append.
  change (Str.chars "") with (@nil ascii).
  rewrite app_nil_r. apply of_chars_chars.
Qed.

(** X22.  Value synthesis and the analysis read the same type name
    off a reference text that holds no [import(], and off a text
    [import(path).Name] whose name is a word: the factory that a
    reference calls is the factory of the type that the reference
    graph has as the target of the edge. *)
Theorem X22_synthesis_and_analysis_agree_on_the_type_name (v : string) :
  Str.includes "import(" v = false
  \/ (exists p n, v = "import(" +:+ p +:+ ")." +:+ n
                  /\ module_path (Str.chars p) = true
                  /\ identifier (Str.chars n) = true
                  /\ word (Str.chars n) = true) ->
  tailName v = extractTypeNameFromImportish v.
Proof.
  rewrite tail_name_last_segment.
  intros [H|(p & n & -> & Hp & Hi & Hw)].
  - unfold extractTypeNameFromImportish, Re.match_group at 1.
    rewrite import_needs by done. rewrite tail_group. unfold last_segment.
    destruct (after_last_dot (Str.chars v)) as [m|]; [|done].
    by destruct (word m).
  - rewrite <- (append_empty n) at 2. rewrite import_name by done.
    unfold last_segment. rewrite !chars_append.
    replace (Str.chars "import(" ++ Str.chars p ++ Str.chars ")."
             ++ Str.chars n)
      with ((Str.chars "import(" ++ Str.chars p ++ [")"%char])
            ++ "."%char :: Str.chars n)
      by (by rewrite <- !app_assoc).
    assert (forallb Str.is_word (Str.chars n) = true) as Hall.
    { unfold word in Hw. by destruct (Str.chars n). }
    rewrite after_last_dot_app by done. rewrite Hw. apply of_chars_chars.
Qed.

End NamesAgree.

Section NamesAgreeExamples.
Import Names Analyzer Generation.

Lemma X22_synthesis_and_analysis_agree_on_the_type_name_witness :
  tailName "import(/app/models).Order"
  = extractTypeNameFromImportish "import(/app/models).Order".
Proof.
  apply (X22_synthesis_and_analysis_agree_on_the_type_name
           "import(/app/models).Order").
  right. exists "/app/models"%string, "Order"%string.
  split; [reflexivity|]. split; [reflexivity|]. split; reflexivity.
Defined.

(** The two readings differ on an imported name that is followed by
    type arguments, and on an imported name with a [$]. *)
Lemma names_differ_after_an_import :
  extractTypeNameFromImportish "import(/app/models).Page<Item>" = "Page"
  /\ tailName "import(/app/models).Page<Item>"
     = "import(/app/models).Page<Item>"
  /\ extractTypeNameFromImportish "import(/app/models).$Order" = "$Order"
  /\ tailName "import(/app/models).$Order" = "import(/app/models).$Order".
Proof. repeat split; vm_compute; reflexivity. Qed.

End NamesAgreeExamples.

Section ComponentOrder.
Import Analyzer Tarjan Graph Order.

Variable adj : Adjacency.
Hypothesis Hnonempty : forall x, vertex adj x -> x <> "".

Lemma callee_first_snoc (l : list (list string)) (c : list string) :
  callee_first adj l ->
  (forall x y, x ∈ c -> edge adj x y -> y ∈ c \/ y ∈ concat l) ->
  callee_first adj (l ++ [c]).
Proof.
  intros Hl Hc pre c' post E x y Hx Hy.
  destruct post as [|d post _] using rev_ind.
  - apply app_inj_tail in E as [-> ->]. by apply (Hc x y).
  - rewrite app_comm_cons, app_assoc in E. apply app_inj_tail in E as [-> _].
    by apply (Hl pre c' post eq_refl x y).
Qed.

Lemma emit_sccs (v : string) (s : tstate) :
  exists comp, sccs (emit v s) = sccs s ++ [comp].
Proof.
  unfold emit.
  destruct (pop_component v (stack s) (onStack s) []) as [[st on] comp].
  by exists comp.
Qed.

Lemma finish_ordered (u : string) (s s' : tstate) :
  finish u s = Some s' -> Inv adj s' ->
  callee_first adj (sccs s) -> callee_first adj (sccs s').
Proof.
  unfold finish. intros H HI Hord.
  destruct (lowlink s !! u) as [lv|]; [|done].
  destruct (indices s !! u) as [iv|]; [|done]. simpl in H.
  destruct (lv =? iv)%nat; injection H as <-; [|done].
  destruct (emit_sccs u s) as [comp Hc]. rewrite Hc.
  apply callee_first_snoc; [done|]. intros x y Hx Hy.
  assert (y ∈ finished (emit u s)) as Hfin.
  { apply (inv_closed adj _ HI x y); [|done]. unfold finished.
    rewrite Hc, concat_app. apply elem_of_app. right. simpl.
    by rewrite app_nil_r. }
  unfold finished in Hfin. rewrite Hc, concat_app in Hfin.
  apply elem_of_app in Hfin as [Hfin|Hfin]; [by right|left].
  simpl in Hfin. by rewrite app_nil_r in Hfin.
Qed.

Lemma strongconnect_ordered (fuel : nat) :
  forall v s s',
    Inv adj s -> indices s !! v = None -> vertex adj v ->
    (forall x, x ∈ stack s -> reach adj x v) ->
    unnumbered adj s < fuel ->
    callee_first adj (sccs s) ->
    strongconnect fuel adj v s = Some s' ->
    callee_first adj (sccs s').
Proof.
  induction fuel as [|fuel IH];
    intros v s s' HI Hv Hvx Hbelow Hfuel Hord Hrun; [lia|].
  pose proof (unnumbered_enter adj v s Hvx Hv) as Hless.
  assert (Hloop :
            forall ws visited s1 s2,
              LoopInv adj s v visited s1 ->
              (forall w, w ∈ ws -> edge adj v w) ->
              unnumbered adj s1 < fuel ->
              callee_first adj (sccs s1) ->
              fold_opt (visit (strongconnect fuel adj) v) ws s1 = Some s2 ->
              LoopInv adj s v (visited ++ ws) s2
              /\ callee_first adj (sccs s2)).
  { induction ws as [|w ws IHws]; intros visited s1 s2 HL Hws Hf1 Ho1 Hfold.
    - injection Hfold as <-. by rewrite app_nil_r.
    - assert (edge adj v w) as Hedge by (apply Hws; by left).
      destruct (visit_ok adj s v HI Hv Hbelow fuel visited s1 w
                  (strongconnect_ok adj Hnonempty fuel) HL Hedge Hf1)
        as (s1' & Hvis & HL' & Hm).
      cbn [fold_opt] in Hfold. rewrite Hvis in Hfold. simpl in Hfold.
      assert (callee_first adj (sccs s1')) as Ho1'.
      { unfold visit in Hvis. destruct (indices s1 !! w) as [iw|] eqn:Hw.
        - destruct (bool_decide (w ∈ onStack s1)).
          + destruct (lowlink s1 !! v); [|done]. by injection Hvis as <-.
          + by injection Hvis as <-.
        - destruct (strongconnect fuel adj w s1) as [sw|] eqn:Hcall; [|done].
          simpl in Hvis.
          destruct (lowlink sw !! v); [|done]. simpl in Hvis.
          destruct (lowlink sw !! w); [|done]. injection Hvis as <-.
          simpl. apply (IH w s1 sw); try done.
          + by destruct HL.
          + by eapply edge_target.
          + destruct HL as [_ _ _ (new & l & Hst & _ & _ & _ & Hnew & _)].
            intros x Hx. eapply reach_step; [|exact Hedge].
            by eapply (stack_reaches adj s v Hbelow s1 new l x). }
      destruct (IHws (visited ++ [w]) s1' s2 HL') as [HL2 Ho2];
        [intros; apply Hws; by right|lia|done|done|].
      by rewrite <- app_assoc in HL2. }
  simpl in Hrun.
  destruct (fold_opt (visit (strongconnect fuel adj) v) (successors adj v)
              (enter v s)) as [s1|] eqn:Hfold; [|done].
  simpl in Hrun.
  destruct (Hloop (successors adj v) [] (enter v s) s1
              (enter_loop adj v s HI Hv Hvx)) as [HL1 Ho1];
    [done|lia|done|done|].
  destruct (finish_ok adj Hnonempty s v HI _ s1 HL1) as (s'' & Hfin & HP).
  { intros w Hw. by apply elem_of_app; right. }
  rewrite Hrun in Hfin. injection Hfin as <-.
  eapply finish_ordered; [exact Hrun|by destruct HP|done].
Qed.

Lemma top_ordered (ks : list string) :
  forall s s',
    Inv adj s -> stack s = [] -> (forall k, k ∈ ks -> k ∈ omap_keys adj) ->
    callee_first adj (sccs s) ->
    fold_opt (top_visit (S (length (names adj))) adj) ks s = Some s' ->
    callee_first adj (sccs s').
Proof.
  induction ks as [|k ks IH]; intros s s' HI Hst Hks Hord Hfold.
  - by injection Hfold as <-.
  - cbn [fold_opt] in Hfold.
    destruct (top_visit (S (length (names adj))) adj s k) as [s1|] eqn:Hk;
      [|done].
    simpl in Hfold.
    destruct (top_ok adj Hnonempty [k] s HI Hst) as (s1' & H1 & HI1 & Hst1 & _).
    { intros k' Hk'. apply Hks. apply list_elem_of_singleton in Hk' as ->.
      by left. }
    cbn [fold_opt] in H1. rewrite Hk in H1. simpl in H1. injection H1 as <-.
    apply (IH s1 s'); try done.
    + intros k' Hk'. apply Hks. by right.
    + unfold top_visit in Hk. destruct (indices s !! k) eqn:Hi.
      * by injection Hk as <-.
      * apply (strongconnect_ordered (S (length (names adj))) k s s1);
          try done.
        -- left. apply Hks. by left.
        -- intros x Hx. rewrite Hst in Hx. by inversion Hx.
        -- apply unnumbered_bound.
Qed.

End ComponentOrder.

Section ComponentOrderTheorem.
Import Analyzer Tarjan Graph Cycles Order.

(** X23.  In a graph without an empty name, the components that
    [computeSCC] returns are listed callee first: every edge that
    leaves a name ends in the component of that name or in a component
    listed before it, so that a component comes after all the
    components it refers to. *)
Theorem X23_components_are_listed_callee_first (adj : Adjacency) :
  no_empty_name adj = true ->
  exists sccs,
    computeSCC adj = Some sccs
    /\ forall pre c post,
         sccs = pre ++ c :: post ->
         forall x y, x ∈ c -> edge adj x y -> y ∈ c \/ y ∈ concat pre.
Proof.
  intros Hnames.
  pose proof (names_nonempty adj Hnames) as Hne.
  destruct (top_ok adj Hne (omap_keys adj) init (init_inv adj) eq_refl)
    as (s & Hf & _); [done|].
  exists (sccs s). unfold computeSCC. rewrite Hf. split; [done|].
  apply (top_ordered adj Hne (omap_keys adj) init s);
    [apply init_inv|done|done| |done].
  intros pre c post E. by destruct pre.
Qed.

Lemma X23_components_are_listed_callee_first_witness :
  no_empty_name [("Order", ["Customer"; "Item"]); ("Item", ["Order"]);
                 ("Customer", ["Address"])] = true
  /\ exists sccs,
       computeSCC [("Order", ["Customer"; "Item"]); ("Item", ["Order"]);
                   ("Customer", ["Address"])] = Some sccs
       /\ forall pre c post,
            sccs = pre ++ c :: post ->
            forall x y,
              x ∈ c ->
              edge [("Order", ["Customer"; "Item"]); ("Item", ["Order"]);
                    ("Customer", ["Address"])] x y ->
              y ∈ c \/ y ∈ concat pre.
Proof.
  split; [reflexivity|].
  apply (X23_components_are_listed_callee_first
           [("Order", ["Customer"; "Item"]); ("Item", ["Order"]);
            ("Customer", ["Address"])]).
  reflexivity.
Defined.

(** The type referred to comes first, the cycle of [Order] and [Item]
    last. *)
Lemma components_of_an_order :
  computeSCC [("Order", ["Customer"; "Item"]); ("Item", ["Order"]);
              ("Customer", ["Address"])]
  = Some [["Address"]; ["Customer"]; ["Item"; "Order"]].
Proof. vm_compute. reflexivity. Qed.

End ComponentOrderTheorem.

Section InheritedDefaults.
Import Analyzer Infer Generation.

Variable cfg : Config.
Variable data : list ASTEntity.
Variable includeTypes : bool.
Variable currentMockFilePath : option string.

Lemma map_gen_none {A B} (f : A -> Gen (option B)) (l : list A) :
  (forall x, x ∈ l -> f x = mret None) ->
  map_gen f l = mret ((fun _ => None) <$> l).
Proof.
  induction l as [|x l IH]; intros H; [done|].
  cbn [map_gen]. rewrite (H x) by (by left).
  rewrite IH by (intros y Hy; apply H; by right). done.
Qed.

Lemma omap_id_none {A B} (l : list A) :
  omap id ((fun _ => @None B) <$> l) = [].
Proof. induction l as [|x l IH]; [done|]. by rewrite fmap_cons. Qed.

Lemma defaults_need_a_mapping (item : ASTEntity) (b : Inherit) :
  (forall bp, bp ∈ default [] (i_properties b) ->
              inferMapping cfg (e_name item +:+ "." +:+ show (name (attrs bp)))
              = None) ->
  defaultsObj_of cfg data currentMockFilePath item b = mret ""%string.
Proof.
  intros H. unfold defaultsObj_of. rewrite map_gen_none.
  - unfold mbind, gen_bind, mret, gen_ret. cbn [gen_result gen_log].
    by rewrite omap_id_none.
  - intros bp Hbp. by rewrite (H bp Hbp).
Qed.

(** X24.  The properties collected for a base enter the text of a
    factory only through the pattern table: when no pattern of the
    table gives an expression for the path of any of them in the
    entity, no defaults object is composed and nothing is logged, and
    a base without type arguments is spread as [...MockBase()] -
    whatever the properties are and whatever a mapping provider would
    answer for them, as the provider is not asked. *)
Theorem X24_inherited_defaults_come_from_the_pattern_table
  (item : ASTEntity) (b : Inherit) :
  (forall bp, bp ∈ default [] (i_properties b) ->
              inferMapping cfg (e_name item +:+ "." +:+ show (name (attrs bp)))
              = None) ->
  defaultsObj_of cfg data currentMockFilePath item b = mret ""%string
  /\ (Re.match_group re_generic_args (expr b) 1 = None ->
      inherit_call cfg data includeTypes currentMockFilePath item b
      = mret ("...Mock" +:+ extractBaseName b +:+ "()")).
Proof.
  intros H. split; [by apply defaults_need_a_mapping|].
  intros Hg. unfold inherit_call. rewrite defaults_need_a_mapping by done.
  by rewrite Hg.
Qed.

End InheritedDefaults.

Section InheritedDefaultsExamples.
Import Analyzer Infer Generation InheritSamples.

Lemma X24_inherited_defaults_come_from_the_pattern_table_witness :
  defaultsObj_of provider_only [admin] None admin user_base = mret ""%string
  /\ Re.match_group re_generic_args (expr user_base) 1 = None
  /\ inherit_call provider_only [admin] true None admin user_base
     = mret ("...Mock" +:+ extractBaseName user_base +:+ "()").
Proof.
  destruct (X24_inherited_defaults_come_from_the_pattern_table
              provider_only [admin] true None admin user_base) as [H1 H2].
  - intros bp _. reflexivity.
  - split; [exact H1|]. split; [reflexivity|]. apply H2. reflexivity.
Defined.

End InheritedDefaultsExamples.

Section PropertyMarks.
Import Analyzer Tarjan Graph Annotate Paths Cycles Reachability Marks.
Local Opaque extractTypeNameFromImportish.

Variable entityName : string.
Variable adj : Adjacency.
Variable nodeToScc : gmap string (list string).
Variable reachableFrom : string -> list string.

Local Abbreviation annV :=
  (annotatePropValue entityName adj nodeToScc reachableFrom).
Local Abbreviation lead :=
  (fun value => canLeadToRecursionFrom entityName adj nodeToScc reachableFrom
                  (extractTypeNameFromImportish value) = true).

Lemma members_lead (f : ASTPropertyValue -> Res (ASTPropertyValue * bool))
  (xs : list ASTPropertyValue) :
  forall nxs anyLead,
    annotate_members f xs = Ok (nxs, anyLead) ->
    (anyLead = true
     <-> exists i x nx, xs !! i = Some x /\ f x = Ok (nx, true)).
Proof.
  induction xs as [|y xs IH]; intros nxs anyLead H.
  - injection H as <- <-. split; [done|]. by intros (i & x & nx & Hi & _).
  - simpl in H. destruct (f y) as [[ny ly]|] eqn:Hy; [|done]. simpl in H.
    destruct (annotate_members f xs) as [[nys lys]|] eqn:Hys; [|done].
    simpl in H. injection H as <- <-.
    rewrite orb_true_iff, (IH nys lys eq_refl). split.
    + intros [->|(i & x & nx & Hi & Hx)]; [by exists 0, y, ny|].
      by exists (S i), x, nx.
    + intros (i & x & nx & Hi & Hx). destruct i as [|i]; simpl in Hi.
      * injection Hi as <-. left. rewrite Hy in Hx. by injection Hx as _ ->.
      * right. by exists i, x, nx.
Qed.

Lemma no_visit_below (v : ASTPropertyValue) :
  children v = [] \/ (forall i path, visits (i :: path) v = false) ->
  (forall a value, v <> PReference a value) ->
  ~ visits_reference lead v.
Proof.
  intros Hv Hne (path & a & value & Hvis & Hn & _).
  destruct path as [|i path].
  - injection Hn as ->. by eapply Hne.
  - destruct Hv as [Hv|Hv]; [|by rewrite Hv in Hvis].
    simpl in Hn. by rewrite Hv in Hn.
Qed.

Lemma below_member (a0 : Attrs) (t : CompositeType)
  (vs : list ASTPropertyValue) :
  t <> TArray ->
  (visits_reference lead (PComposite a0 t vs)
   <-> exists i x, vs !! i = Some x /\ visits_reference lead x).
Proof.
  intros Ht. split.
  - intros (path & a & value & Hvis & Hn & Hl).
    destruct path as [|i path]; [done|].
    simpl in Hn. destruct (vs !! i) as [x|] eqn:Hi; [|done].
    exists i, x. split; [done|]. exists path, a, value.
    split; [|done]. simpl in Hvis. rewrite Hi in Hvis. by destruct t.
  - intros (i & x & Hi & path & a & value & Hvis & Hn & Hl).
    exists (i :: path), a, value. simpl. rewrite Hi.
    split; [by destruct t|done].
Qed.

Lemma below_single (v x : ASTPropertyValue) (i : nat) :
  (forall a value, v <> PReference a value) ->
  children v !! i = Some x ->
  (forall j path, visits (j :: path) v = (j =? i)%nat && visits path x) ->
  (visits_reference lead v <-> visits_reference lead x).
Proof.
  intros Hne Hi Hv. split.
  - intros (path & a & value & Hvis & Hn & Hl).
    destruct path as [|j path]; [injection Hn as ->; by edestruct Hne|].
    rewrite Hv in Hvis. apply andb_true_iff in Hvis as [Hj Hvis].
    apply Nat.eqb_eq in Hj as ->. simpl in Hn. rewrite Hi in Hn.
    by exists path, a, value.
  - intros (path & a & value & Hvis & Hn & Hl).
    exists (i :: path), a, value. rewrite Hv, Nat.eqb_refl. simpl.
    by rewrite Hi.
Qed.

Lemma leads_iff (v : ASTPropertyValue) :
  forall nv l,
    annV v = Ok (nv, l) -> (l = true <-> visits_reference lead v).
Proof.
  induction v as [a s|a c|a t vs IH|a k v _ _|a v _|a s|a o v IH
                 |a p c v _ IH|a c e t f IHc IHe IHt IHf|a vs]
    using value_ind; intros nv l H.
  - injection H as <- <-. split; [done|]. intros Hq.
    by apply (no_visit_below (PPrimitive a s)) in Hq; [|left|].
  - injection H as <- <-. split; [done|]. intros Hq.
    by apply (no_visit_below (PConstant a c)) in Hq; [|left|].
  - assert (Hmembers :
              forall f nxs,
                t <> TArray ->
                (forall x nx lx, f x = Ok (nx, lx) ->
                                 exists nx', annV x = Ok (nx', lx)) ->
                (forall x nx lx, annV x = Ok (nx, lx) ->
                                 exists nx', f x = Ok (nx', lx)) ->
                annotate_members f vs = Ok (nxs, l) ->
                (l = true <-> visits_reference lead (PComposite a t vs))).
    { intros f nxs Ht Hf1 Hf2 Hm. rewrite below_member by done.
      rewrite (members_lead f vs nxs l Hm). split.
      - intros (i & x & nx & Hi & Hx). exists i, x. split; [done|].
        destruct (Hf1 x nx true Hx) as [nx' Hx'].
        rewrite Forall_forall in IH.
        apply (IH x (list_elem_of_lookup_2 _ _ _ Hi) nx' true Hx'). done.
      - intros (i & x & Hi & Hq).
        destruct (annotate_members_at f vs nxs l i x Hm Hi)
          as (nx & lx & Hx & _).
        destruct (Hf1 x nx lx Hx) as [nx' Hx'].
        rewrite Forall_forall in IH.
        apply (IH x (list_elem_of_lookup_2 _ _ _ Hi) nx' lx Hx') in Hq.
        subst lx. by exists i, x, nx. }
    destruct t.
    3:{ (* array *)
      destruct vs as [|x vs]; [done|]. simpl in H.
      destruct (annV x) as [[inner il]|] eqn:Hx; [|done].
      simpl in H. injection H as <- <-.
      apply Forall_cons in IH as [IHx _]. rewrite (IHx inner il Hx).
      symmetry. apply (below_single (PComposite a TArray (x :: vs)) x 0);
        [done|done|]. intros j path. done. }
    4:{ (* object *)
      simpl in H.
      destruct (annotate_members _ vs) as [[nxs ls]|] eqn:Hm; [|done].
      simpl in H. injection H as <- <-.
      apply (Hmembers (fun p => finishProperty <$> annV p) nxs);
        [done| | |exact Hm].
      - intros x nx lx Hx. destruct (annV x) as [[nv0 l0]|]; [|done].
        simpl in Hx. injection Hx as <- <-. by eexists.
      - intros x nx lx Hx. rewrite Hx. by eexists. }
    all: simpl in H;
      destruct (annotate_members _ vs) as [[nxs ls]|] eqn:Hm; [|done];
      simpl in H; injection H as <- <-;
      apply (Hmembers annV nxs); [done| | |exact Hm];
      intros x nx lx Hx; by eexists.
  - injection H as <- <-. split; [done|]. intros Hq.
    by apply (no_visit_below (PIndexSignature a k v)) in Hq; [|right|].
  - injection H as <- <-. split; [done|]. intros Hq.
    by apply (no_visit_below (PFunction a v)) in Hq; [|right|].
  - simpl in H. injection H as <- <-. split.
    + intros Hl. by exists [], a, s.
    + intros (path & a' & value & Hvis & Hn & Hl).
      destruct path as [|i path]; [|done]. by injection Hn as <- <-.
  - simpl in H. destruct (annV v) as [[nv0 l0]|] eqn:Hv; [|done].
    simpl in H. injection H as <- <-. rewrite (IH nv0 l0 eq_refl).
    symmetry. by apply (below_single (PTypeOperator a o v) v 0).
  - simpl in H. destruct (annV v) as [[nv0 l0]|] eqn:Hv; [|done].
    simpl in H. injection H as <- <-. rewrite (IH nv0 l0 eq_refl).
    symmetry. by apply (below_single (PMapped a p c v) v 1).
  - simpl in H.
    destruct (annV c) as [[t1 l1]|] eqn:H1; [|done]. simpl in H.
    destruct (annV e) as [[t2 l2]|] eqn:H2; [|done]. simpl in H.
    destruct (annV t) as [[t3 l3]|] eqn:H3; [|done]. simpl in H.
    destruct (annV f) as [[t4 l4]|] eqn:H4; [|done]. simpl in H.
    injection H as <- <-.
    rewrite !orb_true_iff, (IHc t1 l1 eq_refl), (IHe t2 l2 eq_refl),
      (IHt t3 l3 eq_refl), (IHf t4 l4 eq_refl).
    split.
    + intros [[[(path & a' & value & Hvis & Hn & Hl)
               |(path & a' & value & Hvis & Hn & Hl)]
              |(path & a' & value & Hvis & Hn & Hl)]
             |(path & a' & value & Hvis & Hn & Hl)].
      * by exists (0 :: path), a', value.
      * by exists (1 :: path), a', value.
      * by exists (2 :: path), a', value.
      * by exists (3 :: path), a', value.
    + intros (path & a' & value & Hvis & Hn & Hl).
      destruct path as [|i path]; [done|].
      destruct i as [|[|[|[|i]]]]; simpl in Hvis, Hn; [| | | |done].
      * left; left; left. by exists path, a', value.
      * left; left; right. by exists path, a', value.
      * left; right. by exists path, a', value.
      * right. by exists path, a', value.
  - injection H as <- <-. split; [done|]. intros Hq.
    by apply (no_visit_below (PEnum a vs)) in Hq; [|left|].
Qed.

Lemma top_mark (v nv : ASTPropertyValue) (l : bool) :
  annV v = Ok (nv, l) ->
  recursiveEdge (attrs (finishProperty (nv, l)).1)
  = recursiveEdge (attrs v) || l.
Proof.
  intros H. simpl.
  assert (l = false -> recursiveEdge (attrs nv) = recursiveEdge (attrs v))
    as Hkeep.
  { intros ->.
    destruct v as [a s|a c|a t vs|a k x|a x|a s|a o x|a p c x|a c e t f|a vs];
      simpl in H.
    - by injection H as <-.
    - by injection H as <-.
    - destruct t;
        [| |destruct vs as [|x vs]; [done|];
            destruct (annV x) as [[? ?]|]; [|done];
            simpl in H; injection H as <- _; done| | | |];
        (destruct (annotate_members _ vs) as [[? ?]|]; [|done];
         simpl in H; injection H as <- _; done).
    - by injection H as <-.
    - by injection H as <-.
    - destruct (canLeadToRecursionFrom _ _ _ _ _); [done|].
      by injection H as <-.
    - destruct (annV x) as [[? ?]|]; [|done]. simpl in H.
      by injection H as <- _.
    - destruct (annV x) as [[? ?]|]; [|done]. simpl in H.
      by injection H as <- _.
    - destruct (annV c) as [[? ?]|]; [|done]. simpl in H.
      destruct (annV e) as [[? ?]|]; [|done]. simpl in H.
      destruct (annV t) as [[? ?]|]; [|done]. simpl in H.
      destruct (annV f) as [[? ?]|]; [|done]. simpl in H.
      by injection H as <- _.
    - by injection H as <-. }
  destruct l.
  - rewrite orb_true_r. by destruct nv.
  - rewrite orb_false_r. by apply Hkeep.
Qed.

End PropertyMarks.

Section PropertyMarksTheorem.
Import Analyzer Tarjan Graph Annotate Paths Cycles Reachability Marks.
Local Opaque extractTypeNameFromImportish.

(** X25.  In a graph without an empty name, with the components of
    [computeSCC] and the reach sets of [reachableFrom], the annotation
    of a property inside the entity [E] reports that the property leads
    back, and marks the property [recursiveEdge] if it was not marked,
    exactly when [E] lies on a cycle and the property holds, at a place
    that the annotation visits, a reference to a type from which [E] is
    reachable. *)
Theorem X25_property_is_marked_iff_a_reference_leads_back
  (adj : Adjacency) :
  no_empty_name adj = true ->
  exists sccs,
    computeSCC adj = Some sccs
    /\ forall (E : string) (p p' : ASTProperty) (leads : bool),
         annotateProperty E adj (buildNodeToScc sccs) (reachable adj) p
         = Ok (p', leads) ->
         (leads = true
          <-> visits_reference
                (fun value =>
                   on_cycle adj E
                   /\ reach adj (extractTypeNameFromImportish value) E) p)
         /\ recursiveEdge (attrs p') = recursiveEdge (attrs p) || leads.
Proof.
  intros Hnames.
  destruct (computeSCC_spec adj Hnames) as (sccs & Hc & Hnd & Hscc & Hall).
  exists sccs. split; [done|]. intros E p p' leads Hp.
  unfold annotateProperty in Hp.
  destruct (annotatePropValue E adj (buildNodeToScc sccs) (reachable adj) p)
    as [[nv l]|] eqn:Hv; [|done].
  simpl in Hp. injection Hp as <- <-. split.
  - rewrite (leads_iff E adj (buildNodeToScc sccs) (reachable adj) p nv l Hv).
    split; intros (path & a & value & Hvis & Hn & Hl);
      exists path, a, value; (split; [done|]); (split; [done|]);
      by apply (canLead_iff adj sccs Hnd Hscc Hall (reachable adj)
                  (reachable_reach_set adj) E).
  - by apply (top_mark E adj (buildNodeToScc sccs) (reachable adj)).
Qed.

Lemma X25_property_is_marked_iff_a_reference_leads_back_witness :
  no_empty_name [("A", ["B"]); ("B", ["A"; "C"]); ("C", [])] = true
  /\ exists sccs,
       computeSCC [("A", ["B"]); ("B", ["A"; "C"]); ("C", [])] = Some sccs
       /\ forall (E : string) (p p' : ASTProperty) (leads : bool),
            annotateProperty E
              [("A", ["B"]); ("B", ["A"; "C"]); ("C", [])]
              (buildNodeToScc sccs)
              (reachable [("A", ["B"]); ("B", ["A"; "C"]); ("C", [])]) p
            = Ok (p', leads) ->
            (leads = true
             <-> visits_reference
                   (fun value =>
                      on_cycle [("A", ["B"]); ("B", ["A"; "C"]); ("C", [])] E
                      /\ reach [("A", ["B"]); ("B", ["A"; "C"]); ("C", [])]
                           (extractTypeNameFromImportish value) E) p)
            /\ recursiveEdge (attrs p') = recursiveEdge (attrs p) || leads.
Proof.
  split; [reflexivity|].
  apply (X25_property_is_marked_iff_a_reference_leads_back
           [("A", ["B"]); ("B", ["A"; "C"]); ("C", [])]).
  reflexivity.
Defined.

(** In the graph of [A] and [B] that refer to each other, a property
    of [A] that is an array of [B] leads back and is marked, and a
    property that refers to [C] is not. *)
Lemma array_of_the_partner_is_marked :
  (sccs ← computeSCC [("A", ["B"]); ("B", ["A"; "C"]); ("C", [])];
   Some (snd <$> annotateProperty "A"
                   [("A", ["B"]); ("B", ["A"; "C"]); ("C", [])]
                   (buildNodeToScc sccs)
                   (reachable [("A", ["B"]); ("B", ["A"; "C"]); ("C", [])])
                   (PComposite (prop_attrs "items" false) TArray
                      [PReference no_attrs "B"]),
         snd <$> annotateProperty "A"
                   [("A", ["B"]); ("B", ["A"; "C"]); ("C", [])]
                   (buildNodeToScc sccs)
                   (reachable [("A", ["B"]); ("B", ["A"; "C"]); ("C", [])])
                   (PReference (prop_attrs "other" false) "C")))
  = Some (Ok true, Ok false).
Proof. vm_compute. reflexivity. Qed.

End PropertyMarksTheorem.
